(** * sjtu::map — an AVL tree with parent links, embedded over an explicit heap

    The container of [src/src/map.hpp] is a pointer structure: every [Node]
    lives on the free store and carries [left], [right] and [parent] links and
    a cached [height]; a [map] object holds [root] and [nodeCount]; a cursor
    holds a node pointer and a pointer to its owning container.

    The embedding keeps that shape.  Nodes live in a finite map from addresses
    to records, map objects in a second finite map, and every member function
    is a computation in a state-and-error monad over that store.  Null or
    dangling dereferences end a run in [Fault]; C++ exceptions end it in
    [Throw]; loops carry a step bound and end in [Diverge] when it runs out. *)

From Stdlib Require Import ZArith Lia.
From stdpp Require Import gmap list sorting.

Set Warnings "-clear-no-such-hyp".

Local Open Scope Z_scope.

(** ** Exceptions and outcomes *)

(** [invalid_iterator] and [index_out_of_bound] come from [exceptions.hpp];
    [bad_alloc] is what [new] raises when the free store is exhausted. *)
Inductive exn : Type :=
| invalid_iterator
| index_out_of_bound
| bad_alloc.

Inductive outcome (St A : Type) : Type :=
| Ok (a : A) (s : St)
| Throw (e : exn) (s : St)
| Fault
| Diverge.

Arguments Ok {St A} a s.
Arguments Throw {St A} e s.
Arguments Fault {St A}.
Arguments Diverge {St A}.

Abbreviation addr := positive (only parsing).
Abbreviation mapid := positive (only parsing).
Abbreviation ptr := (option positive) (only parsing).

(** [size_t] arithmetic wraps modulo [2^64]. *)
Definition size_max : Z := 2 ^ 64.
Definition wrap (z : Z) : Z := z mod size_max.

Section Map.
Context {K V : Type}.

(** [Compare]: the call operator of the comparator object. *)
Variable cmp : K → K → bool.

(** [T()]: the value a default-constructed mapped value has. *)
Variable default_value : V.

(** ** Data model *)

(** [struct Node]: the [int height] is kept as an unbounded integer;
    [is_int] and [int_store] below say when a height is one the code can hold. *)
Record Node : Type := mkNode {
  value : K * V;
  left : ptr;
  right : ptr;
  parent : ptr;
  height : Z
}.

(** The data members of a [map] object. *)
Record map_t : Type := mkMap {
  root : ptr;
  nodeCount : Z
}.

(** [iterator] and [const_iterator] have the same two members. *)
Record iterator : Type := mkIt {
  nodePtr : ptr;
  owner : option mapid
}.

(** The store: live nodes, the next address [new] hands out, the number of
    allocations the free store still grants, and the live map objects. *)
Record world : Type := mkWorld {
  nodes : gmap positive Node;
  next : addr;
  avail : nat;
  maps : gmap positive map_t
}.

Definition with_left (p : ptr) (n : Node) : Node :=
  mkNode (value n) p (right n) (parent n) (height n).
Definition with_right (p : ptr) (n : Node) : Node :=
  mkNode (value n) (left n) p (parent n) (height n).
Definition with_parent (p : ptr) (n : Node) : Node :=
  mkNode (value n) (left n) (right n) p (height n).
Definition with_height (h : Z) (n : Node) : Node :=
  mkNode (value n) (left n) (right n) (parent n) h.
Definition with_second (v : V) (n : Node) : Node :=
  mkNode (fst (value n), v) (left n) (right n) (parent n) (height n).

Definition with_nodes (h : gmap positive Node) (w : world) : world :=
  mkWorld h (next w) (avail w) (maps w).
Definition with_maps (ms : gmap positive map_t) (w : world) : world :=
  mkWorld (nodes w) (next w) (avail w) ms.

(** ** The monad *)

Definition M (A : Type) : Type := world → outcome world A.

Definition ret {A} (a : A) : M A := λ w, Ok a w.

Definition bind {A B} (m : M A) (f : A → M B) : M B :=
  λ w, match m w with
       | Ok a w' => f a w'
       | Throw e w' => Throw e w'
       | Fault => Fault
       | Diverge => Diverge
       end.

Definition throw {A} (e : exn) : M A := λ w, Throw e w.
Definition fault {A} : M A := λ _, Fault.
Definition diverge {A} : M A := λ _, Diverge.

Notation "x <- m ;; k" := (bind m (λ x, k))
  (at level 100, m at next level, right associativity,
   format "'[v' x  <-  m  ;; '/' k ']'").
Notation "m >> k" := (bind m (λ _, k))
  (at level 100, right associativity, only parsing).

(** *** Free store *)

Definition load (a : addr) : M Node :=
  λ w, match nodes w !! a with
       | Some n => Ok n w
       | None => Fault
       end.

Definition store (a : addr) (n : Node) : M unit :=
  λ w, match nodes w !! a with
       | Some _ => Ok tt (with_nodes (<[a:=n]> (nodes w)) w)
       | None => Fault
       end.

(** Use of a [Node *] that has to point at a node. *)
Definition nonnull (p : ptr) : M addr :=
  match p with
  | Some a => ret a
  | None => fault
  end.

Definition modify (a : addr) (f : Node → Node) : M unit :=
  n <- load a ;; store a (f n).

(** [new Node(v, p)] *)
Definition new_node (v : K * V) (p : ptr) : M addr :=
  λ w, match avail w with
       | O => Throw bad_alloc w
       | S k => Ok (next w)
                  (mkWorld (<[next w := mkNode v None None p 1]> (nodes w))
                           (Pos.succ (next w)) k (maps w))
       end.

(** [delete n] *)
Definition delete_node (a : addr) : M unit :=
  λ w, match nodes w !! a with
       | Some _ => Ok tt (with_nodes (delete a (nodes w)) w)
       | None => Fault
       end.

(** *** Map objects *)

Definition get_map (this : mapid) : M map_t :=
  λ w, match maps w !! this with
       | Some m => Ok m w
       | None => Fault
       end.

Definition put_map (this : mapid) (m : map_t) : M unit :=
  λ w, Ok tt (with_maps (<[this:=m]> (maps w)) w).

Definition get_root (this : mapid) : M ptr :=
  m <- get_map this ;; ret (root m).

Definition set_root (this : mapid) (p : ptr) : M unit :=
  m <- get_map this ;; put_map this (mkMap p (nodeCount m)).

Definition get_count (this : mapid) : M Z :=
  m <- get_map this ;; ret (nodeCount m).

Definition set_count (this : mapid) (c : Z) : M unit :=
  m <- get_map this ;; put_map this (mkMap (root m) c).

(** The step bound handed to the loops of a public operation. *)
Definition loop_bound : M nat :=
  λ w, Ok (2 * size (nodes w) + 2)%nat w.

(** ** Private helpers of [map] *)

Fixpoint minNode_loop (fuel : nat) (x : addr) : M addr :=
  match fuel with
  | O => diverge
  | S f =>
      n <- load x ;;
      match left n with
      | Some l => minNode_loop f l
      | None => ret x
      end
  end.

Definition minNode (fuel : nat) (x : ptr) : M ptr :=
  match x with
  | None => ret None
  | Some a => r <- minNode_loop fuel a ;; ret (Some r)
  end.

Fixpoint maxNode_loop (fuel : nat) (x : addr) : M addr :=
  match fuel with
  | O => diverge
  | S f =>
      n <- load x ;;
      match right n with
      | Some r => maxNode_loop f r
      | None => ret x
      end
  end.

Definition maxNode (fuel : nat) (x : ptr) : M ptr :=
  match x with
  | None => ret None
  | Some a => r <- maxNode_loop fuel a ;; ret (Some r)
  end.

Definition keyEq (a b : K) : bool := negb (cmp a b) && negb (cmp b a).

Fixpoint findNode_loop (fuel : nat) (key : K) (cur : ptr) : M ptr :=
  match cur with
  | None => ret None
  | Some c =>
      match fuel with
      | O => diverge
      | S f =>
          n <- load c ;;
          if keyEq key (fst (value n)) then ret (Some c)
          else if cmp key (fst (value n)) then findNode_loop f key (left n)
          else findNode_loop f key (right n)
      end
  end.

Definition findNode (this : mapid) (key : K) : M ptr :=
  r <- get_root this ;;
  fuel <- loop_bound ;;
  findNode_loop fuel key r.

Definition heightOf (n : ptr) : M Z :=
  match n with
  | Some a => nd <- load a ;; ret (height nd)
  | None => ret 0
  end.

Definition update (n : ptr) : M unit :=
  match n with
  | None => ret tt
  | Some a =>
      nd <- load a ;;
      hl <- heightOf (left nd) ;;
      hr <- heightOf (right nd) ;;
      modify a (with_height ((if hl >? hr then hl else hr) + 1))
  end.

Definition balance (n : ptr) : M Z :=
  a <- nonnull n ;;
  nd <- load a ;;
  hr <- heightOf (right nd) ;;
  hl <- heightOf (left nd) ;;
  ret (hr - hl).

Definition attachToParent (this : mapid) (par child : ptr) (asLeft : bool) : M unit :=
  match par with
  | None =>
      set_root this child >>
      match child with
      | Some c => modify c (with_parent None)
      | None => ret tt
      end
  | Some p =>
      (if asLeft then modify p (with_left child) else modify p (with_right child)) >>
      match child with
      | Some c => modify c (with_parent (Some p))
      | None => ret tt
      end
  end.

(** The three-way relink that [rotateLeft], [rotateRight] and [transplant]
    each spell out:
    [if (p == nullptr) root = v; else if (p->left == u) p->left = v; else p->right = v;] *)
Definition relink (this : mapid) (p : ptr) (u : addr) (v : ptr) : M unit :=
  match p with
  | None => set_root this v
  | Some pa =>
      np <- load pa ;;
      if decide (left np = Some u) then modify pa (with_left v)
      else modify pa (with_right v)
  end.

Definition rotateLeft (this : mapid) (x : addr) : M addr :=
  nx <- load x ;;
  y <- nonnull (right nx) ;;
  ny <- load y ;;
  let B := left ny in
  modify y (with_left (Some x)) >>
  modify x (with_right B) >>
  match B with
  | Some b => modify b (with_parent (Some x))
  | None => ret tt
  end >>
  nx' <- load x ;;
  let p := parent nx' in
  modify y (with_parent p) >>
  modify x (with_parent (Some y)) >>
  relink this p x (Some y) >>
  update (Some x) >>
  update (Some y) >>
  ret y.

Definition rotateRight (this : mapid) (y : addr) : M addr :=
  ny <- load y ;;
  x <- nonnull (left ny) ;;
  nx <- load x ;;
  let B := right nx in
  modify x (with_right (Some y)) >>
  modify y (with_left B) >>
  match B with
  | Some b => modify b (with_parent (Some y))
  | None => ret tt
  end >>
  ny' <- load y ;;
  let p := parent ny' in
  modify x (with_parent p) >>
  modify y (with_parent (Some x)) >>
  relink this p y (Some x) >>
  update (Some y) >>
  update (Some x) >>
  ret x.

Definition rebalanceAt (this : mapid) (n : ptr) : M unit :=
  match n with
  | None => ret tt
  | Some a =>
      update n >>
      bf <- balance n ;;
      if bf >? 1 then
        nd <- load a ;;
        br <- balance (right nd) ;;
        (if br <? 0 then
           nd' <- load a ;;
           r <- nonnull (right nd') ;;
           rotateRight this r >> ret tt
         else ret tt) >>
        rotateLeft this a >> ret tt
      else if bf <? -1 then
        nd <- load a ;;
        bl <- balance (left nd) ;;
        (if bl >? 0 then
           nd' <- load a ;;
           l <- nonnull (left nd') ;;
           rotateLeft this l >> ret tt
         else ret tt) >>
        rotateRight this a >> ret tt
      else ret tt
  end.

Fixpoint rebalanceUp (fuel : nat) (this : mapid) (cur : ptr) : M unit :=
  match cur with
  | None => ret tt
  | Some a =>
      match fuel with
      | O => diverge
      | S f =>
          rebalanceAt this cur >>
          nd <- load a ;;
          rebalanceUp f this (parent nd)
      end
  end.

Fixpoint destroySubtree (fuel : nat) (n : ptr) : M unit :=
  match n with
  | None => ret tt
  | Some a =>
      match fuel with
      | O => diverge
      | S f =>
          nd <- load a ;;
          destroySubtree f (left nd) >>
          nd' <- load a ;;
          destroySubtree f (right nd') >>
          delete_node a
      end
  end.

Fixpoint cloneSubtree (fuel : nat) (n : ptr) (par : ptr) : M ptr :=
  match n with
  | None => ret None
  | Some a =>
      match fuel with
      | O => diverge
      | S f =>
          nd <- load a ;;
          m <- new_node (value nd) par ;;
          nd1 <- load a ;;
          l <- cloneSubtree f (left nd1) (Some m) ;;
          modify m (with_left l) >>
          nd2 <- load a ;;
          r <- cloneSubtree f (right nd2) (Some m) ;;
          modify m (with_right r) >>
          update (Some m) >>
          ret (Some m)
      end
  end.

(** The upward walk of [nextNode]:
    [while (p && n == p->right) { n = p; p = p->parent; } return p;] *)
Fixpoint nextNode_climb (fuel : nat) (n : addr) (p : ptr) : M ptr :=
  match p with
  | None => ret None
  | Some pa =>
      match fuel with
      | O => diverge
      | S f =>
          np <- load pa ;;
          if decide (right np = Some n) then nextNode_climb f pa (parent np)
          else ret (Some pa)
      end
  end.

Definition nextNode (fuel : nat) (n : ptr) : M ptr :=
  match n with
  | None => ret None
  | Some a =>
      nd <- load a ;;
      match right nd with
      | Some r => minNode fuel (Some r)
      | None => nextNode_climb fuel a (parent nd)
      end
  end.

Fixpoint prevNode_climb (fuel : nat) (n : addr) (p : ptr) : M ptr :=
  match p with
  | None => ret None
  | Some pa =>
      match fuel with
      | O => diverge
      | S f =>
          np <- load pa ;;
          if decide (left np = Some n) then prevNode_climb f pa (parent np)
          else ret (Some pa)
      end
  end.

Definition prevNode (fuel : nat) (n : ptr) : M ptr :=
  match n with
  | None => ret None
  | Some a =>
      nd <- load a ;;
      match left nd with
      | Some l => maxNode fuel (Some l)
      | None => prevNode_climb fuel a (parent nd)
      end
  end.

Definition transplant (this : mapid) (u : addr) (v : ptr) : M unit :=
  nu <- load u ;;
  let p := parent nu in
  relink this p u v >>
  match v with
  | Some c => modify c (with_parent p)
  | None => ret tt
  end.

Definition dec_count (this : mapid) : M unit :=
  c <- get_count this ;; set_count this (wrap (c - 1)).

Definition inc_count (this : mapid) : M unit :=
  c <- get_count this ;; set_count this (wrap (c + 1)).

Definition eraseNode (fuel : nat) (this : mapid) (z : ptr) : M unit :=
  match z with
  | None => ret tt
  | Some za =>
      nz <- load za ;;
      if decide (left nz = None ∨ right nz = None) then
        let child := match left nz with Some l => Some l | None => right nz end in
        let par := parent nz in
        transplant this za child >>
        delete_node za >>
        dec_count this >>
        rebalanceUp fuel this par
      else
        s <- minNode fuel (right nz) ;;
        sa <- nonnull s ;;
        ns <- load sa ;;
        rebalanceStart <-
          (if decide (parent ns ≠ Some za) then
             transplant this sa (right ns) >>
             nz1 <- load za ;;
             modify sa (with_right (right nz1)) >>
             ns1 <- load sa ;;
             match right ns1 with
             | Some r => modify r (with_parent (Some sa))
             | None => ret tt
             end >>
             ret (parent ns)
           else ret (Some sa)) ;;
        nz2 <- load za ;;
        let par := parent nz2 in
        transplant this za (Some sa) >>
        nz3 <- load za ;;
        modify sa (with_left (left nz3)) >>
        ns2 <- load sa ;;
        match left ns2 with
        | Some l => modify l (with_parent (Some sa))
        | None => ret tt
        end >>
        delete_node za >>
        dec_count this >>
        rebalanceUp fuel this rebalanceStart >>
        rebalanceUp fuel this par
  end.

(** ** Public member functions of [map] *)

(** [map()] — the object is placed at [this], which must hold no live map. *)
Definition map_ctor (this : mapid) : M unit :=
  λ w, match maps w !! this with
       | Some _ => Fault
       | None => put_map this (mkMap None 0) w
       end.

(** [map(const map &other)] — the new object exists once the body has run to
    its end; when [cloneSubtree] throws, no object is left at [this]. *)
Definition map_copy_ctor (this other : mapid) : M unit :=
  λ w, match maps w !! this with
       | Some _ => Fault
       | None =>
           (mo <- get_map other ;;
            fuel <- loop_bound ;;
            r <- cloneSubtree fuel (root mo) None ;;
            mo' <- get_map other ;;
            put_map this (mkMap r (nodeCount mo'))) w
       end.

Definition clear (this : mapid) : M unit :=
  r <- get_root this ;;
  fuel <- loop_bound ;;
  destroySubtree fuel r >>
  set_root this None >>
  set_count this 0.

(** [operator=] *)
Definition map_assign (this other : mapid) : M unit :=
  if decide (this = other) then ret tt
  else
    clear this >>
    mo <- get_map other ;;
    fuel <- loop_bound ;;
    r <- cloneSubtree fuel (root mo) None ;;
    set_root this r >>
    mo' <- get_map other ;;
    set_count this (nodeCount mo').

(** [~map()] *)
Definition map_dtor (this : mapid) : M unit :=
  clear this >>
  λ w, Ok tt (with_maps (delete this (maps w)) w).

(** [at], both overloads: the mapped value the returned reference denotes. *)
Definition at_ (this : mapid) (key : K) : M V :=
  n <- findNode this key ;;
  match n with
  | None => throw index_out_of_bound
  | Some a => nd <- load a ;; ret (snd (value nd))
  end.

(** [m.at(key) = v]: a write through the reference [at] returns. *)
Definition at_assign (this : mapid) (key : K) (v : V) : M unit :=
  n <- findNode this key ;;
  match n with
  | None => throw index_out_of_bound
  | Some a => modify a (with_second v)
  end.

Definition begin_ (this : mapid) : M iterator :=
  r <- get_root this ;;
  fuel <- loop_bound ;;
  p <- minNode fuel r ;;
  ret (mkIt p (Some this)).

Definition end_ (this : mapid) : M iterator :=
  _ <- get_map this ;; ret (mkIt None (Some this)).

Definition cbegin := begin_.
Definition cend := end_.

Definition empty (this : mapid) : M bool :=
  c <- get_count this ;; ret (c =? 0).

Definition size_ (this : mapid) : M Z := get_count this.

(** The descent of [insert]: it ends at a node with an equivalent key, or at
    the vacant link below [parent] on the side [isLeft] names. *)
Inductive descent : Type :=
| Found (cur : addr)
| Vacant (par : ptr) (isLeft : bool).

Fixpoint insert_descend (fuel : nat) (key : K) (cur par : ptr) (isLeft : bool)
  : M descent :=
  match cur with
  | None => ret (Vacant par isLeft)
  | Some c =>
      match fuel with
      | O => diverge
      | S f =>
          n <- load c ;;
          if keyEq key (fst (value n)) then ret (Found c)
          else if cmp key (fst (value n))
               then insert_descend f key (left n) cur true
               else insert_descend f key (right n) cur false
      end
  end.

Definition insert (this : mapid) (v : K * V) : M (iterator * bool) :=
  r <- get_root this ;;
  fuel <- loop_bound ;;
  d <- insert_descend fuel (fst v) r None false ;;
  match d with
  | Found cur => ret (mkIt (Some cur) (Some this), false)
  | Vacant par isLeft =>
      node <- new_node v par ;;
      match par with
      | None => set_root this (Some node)
      | Some p =>
          if isLeft then modify p (with_left (Some node))
          else modify p (with_right (Some node))
      end >>
      inc_count this >>
      rebalanceUp fuel this par >>
      ret (mkIt (Some node) (Some this), true)
  end.

Definition erase (this : mapid) (pos : iterator) : M unit :=
  if decide (owner pos ≠ Some this) then throw invalid_iterator
  else
    match nodePtr pos with
    | None => throw invalid_iterator
    | Some target =>
        _ <- get_map this ;;
        fuel <- loop_bound ;;
        eraseNode fuel this (Some target)
    end.

Definition count (this : mapid) (key : K) : M Z :=
  n <- findNode this key ;;
  ret (match n with Some _ => 1 | None => 0 end).

Definition find (this : mapid) (key : K) : M iterator :=
  n <- findNode this key ;; ret (mkIt n (Some this)).

(** ** Cursors *)

(** [operator*], of [iterator] and of [const_iterator]: the pair referred to. *)
Definition it_deref (it : iterator) : M (K * V) :=
  match nodePtr it with
  | None => throw invalid_iterator
  | Some a => nd <- load a ;; ret (value nd)
  end.

(** A write to [second] through the reference that [operator*] returns. *)
Definition it_assign (it : iterator) (v : V) : M unit :=
  match nodePtr it with
  | None => throw invalid_iterator
  | Some a => modify a (with_second v)
  end.

(** [++it]; the result is the cursor after the call. *)
Definition it_incr (it : iterator) : M iterator :=
  match owner it with
  | None => throw invalid_iterator
  | Some o =>
      match nodePtr it with
      | None => throw invalid_iterator
      | Some a =>
          _ <- get_map o ;;
          fuel <- loop_bound ;;
          p <- nextNode fuel (Some a) ;;
          ret (mkIt p (owner it))
      end
  end.

(** [it++]: the old cursor is returned, the new one is the second component. *)
Definition it_post_incr (it : iterator) : M (iterator * iterator) :=
  let tmp := it in
  it' <- it_incr it ;; ret (tmp, it').

(** [--it] *)
Definition it_decr (it : iterator) : M iterator :=
  match owner it with
  | None => throw invalid_iterator
  | Some o =>
      match nodePtr it with
      | None =>
          r <- get_root o ;;
          fuel <- loop_bound ;;
          p <- maxNode fuel r ;;
          match p with
          | None => throw invalid_iterator
          | Some _ => ret (mkIt p (owner it))
          end
      | Some a =>
          _ <- get_map o ;;
          fuel <- loop_bound ;;
          prev <- prevNode fuel (Some a) ;;
          match prev with
          | None => throw invalid_iterator
          | Some _ => ret (mkIt prev (owner it))
          end
      end
  end.

Definition it_post_decr (it : iterator) : M (iterator * iterator) :=
  let tmp := it in
  it' <- it_decr it ;; ret (tmp, it').

(** [operator==] *)
Definition it_eq (a b : iterator) : bool :=
  bool_decide (owner a = owner b) && bool_decide (nodePtr a = nodePtr b).

(** The members of [const_iterator] repeat those of [iterator]. *)
Definition cit_deref := it_deref.
Definition cit_incr := it_incr.
Definition cit_post_incr := it_post_incr.
Definition cit_decr := it_decr.
Definition cit_post_decr := it_post_decr.

(** [iterator()] *)
Definition it_default : iterator := mkIt None None.

(** [operator[]], non-const. *)
Definition index (this : mapid) (key : K) : M V :=
  n <- findNode this key ;;
  match n with
  | Some a => nd <- load a ;; ret (snd (value nd))
  | None =>
      res <- insert this (key, default_value) ;;
      pr <- it_deref (fst res) ;;
      ret (snd pr)
  end.

(** [m[key] = v] *)
Definition index_assign (this : mapid) (key : K) (v : V) : M unit :=
  n <- findNode this key ;;
  match n with
  | Some a => modify a (with_second v)
  | None =>
      res <- insert this (key, default_value) ;;
      it_assign (fst res) v
  end.

(** [operator[]], const. *)
Definition index_const (this : mapid) (key : K) : M V :=
  n <- findNode this key ;;
  match n with
  | None => throw index_out_of_bound
  | Some a => nd <- load a ;; ret (snd (value nd))
  end.

(** ** A client loop *)

(** [for (it = m.begin(); it != m.end(); ++it) out.push_back( *it );] *)
Fixpoint iterate (fuel : nat) (it last : iterator) : M (list (K * V)) :=
  if it_eq it last then ret []
  else match fuel with
       | O => diverge
       | S f =>
           kv <- it_deref it ;;
           it' <- it_incr it ;;
           rest <- iterate f it' last ;;
           ret (kv :: rest)
       end.

Definition traverse (this : mapid) : M (list (K * V)) :=
  b <- begin_ this ;;
  e <- end_ this ;;
  fuel <- loop_bound ;;
  iterate fuel b e.

End Map.

Arguments with_left {K V} p !n /.
Arguments with_right {K V} p !n /.
Arguments with_parent {K V} p !n /.
Arguments with_height {K V} h !n /.
Arguments with_second {K V} v !n /.
Arguments update : simpl never.
Arguments heightOf : simpl never.
Arguments balance : simpl never.
Arguments relink : simpl never.
Arguments rotateLeft : simpl never.
Arguments rotateRight : simpl never.
Arguments rebalanceAt : simpl never.
Arguments transplant : simpl never.
Arguments minNode : simpl never.
Arguments maxNode : simpl never.
Arguments modify : simpl never.
Arguments load : simpl never.
Arguments store : simpl never.
Arguments set_root : simpl never.
Arguments set_count : simpl never.
Arguments get_root : simpl never.
Arguments get_count : simpl never.
Arguments get_map : simpl never.
Arguments put_map : simpl never.
Arguments new_node : simpl never.
Arguments delete_node : simpl never.
Arguments inc_count : simpl never.
Arguments dec_count : simpl never.
Arguments loop_bound : simpl never.
Arguments bind : simpl never.
Arguments ret : simpl never.

(** * Programs over the public interface *)

Section Client.
Context {K V : Type}.
Variable cmp : K → K → bool.
Variable default_value : V.

(** ** Client programs *)

(** One call of the public interface.  A cursor argument is named by its
    position in the list of cursors the earlier calls have returned: client
    code cannot make a cursor up, it can only keep one it was given. *)
Inductive call : Type :=
| CallCtor (m : positive)
| CallCopyCtor (m other : positive)
| CallAssign (m other : positive)
| CallDtor (m : positive)
| CallAt (m : positive) (key : K)
| CallAtAssign (m : positive) (key : K) (v : V)
| CallIndex (m : positive) (key : K)
| CallIndexAssign (m : positive) (key : K) (v : V)
| CallIndexConst (m : positive) (key : K)
| CallBegin (m : positive)
| CallEnd (m : positive)
| CallEmpty (m : positive)
| CallSize (m : positive)
| CallClear (m : positive)
| CallInsert (m : positive) (kv : K * V)
| CallErase (m : positive) (i : nat)
| CallCount (m : positive) (key : K)
| CallFind (m : positive) (key : K)
| CallDefault
| CallDeref (i : nat)
| CallItAssign (i : nat) (v : V)
| CallIncr (i : nat)
| CallPostIncr (i : nat)
| CallDecr (i : nat)
| CallPostDecr (i : nat).

Record client : Type := mkClient {
  heap : @world K V;
  issued : list iterator
}.

(** A call that returns or throws leaves a state the client goes on from (an
    exception can be caught); undefined behaviour does not. *)
Definition settle {A} (o : outcome (@world K V) A) (log : list iterator)
    (f : A → list iterator) : option client :=
  match o with
  | Ok a w' => Some (mkClient w' (log ++ f a))
  | Throw _ w' => Some (mkClient w' log)
  | Fault => None
  | Diverge => None
  end.

Definition step (c : call) (cl : client) : option client :=
  let w := heap cl in
  let log := issued cl in
  match c with
  | CallCtor m => settle (map_ctor m w) log (λ _, [])
  | CallCopyCtor m other => settle (map_copy_ctor m other w) log (λ _, [])
  | CallAssign m other => settle (map_assign m other w) log (λ _, [])
  | CallDtor m => settle (map_dtor m w) log (λ _, [])
  | CallAt m key => settle (at_ cmp m key w) log (λ _, [])
  | CallAtAssign m key v => settle (at_assign cmp m key v w) log (λ _, [])
  | CallIndex m key => settle (index cmp default_value m key w) log (λ _, [])
  | CallIndexAssign m key v =>
      settle (index_assign cmp default_value m key v w) log (λ _, [])
  | CallIndexConst m key => settle (index_const cmp m key w) log (λ _, [])
  | CallBegin m => settle (begin_ m w) log (λ it, [it])
  | CallEnd m => settle (end_ m w) log (λ it, [it])
  | CallEmpty m => settle (empty m w) log (λ _, [])
  | CallSize m => settle (size_ m w) log (λ _, [])
  | CallClear m => settle (clear m w) log (λ _, [])
  | CallInsert m kv => settle (insert cmp m kv w) log (λ res, [res.1])
  | CallErase m i =>
      match log !! i with
      | Some pos => settle (erase m pos w) log (λ _, [])
      | None => None
      end
  | CallCount m key => settle (count cmp m key w) log (λ _, [])
  | CallFind m key => settle (find cmp m key w) log (λ it, [it])
  | CallDefault => Some (mkClient w (log ++ [it_default]))
  | CallDeref i =>
      match log !! i with
      | Some it => settle (it_deref it w) log (λ _, [])
      | None => None
      end
  | CallItAssign i v =>
      match log !! i with
      | Some it => settle (it_assign it v w) log (λ _, [])
      | None => None
      end
  | CallIncr i =>
      match log !! i with
      | Some it => settle (it_incr it w) log (λ it', [it'])
      | None => None
      end
  | CallPostIncr i =>
      match log !! i with
      | Some it => settle (it_post_incr it w) log (λ res, [res.1; res.2])
      | None => None
      end
  | CallDecr i =>
      match log !! i with
      | Some it => settle (it_decr it w) log (λ it', [it'])
      | None => None
      end
  | CallPostDecr i =>
      match log !! i with
      | Some it => settle (it_post_decr it w) log (λ res, [res.1; res.2])
      | None => None
      end
  end.

Fixpoint run (p : list call) (cl : client) : option client :=
  match p with
  | [] => Some cl
  | c :: p' =>
      match step c cl with
      | Some cl' => run p' cl'
      | None => None
      end
  end.

(** The start of a program: no node, no map object, and a free store that
    grants [av] allocations. *)
Definition initial (av : nat) : client := mkClient (mkWorld ∅ 1%positive av ∅) [].

(** The free store is smaller than the range of [size_t]. *)
Definition reachable (cl : client) : Prop :=
  ∃ av p, Z.of_nat av < size_max ∧ run p (initial av) = Some cl.

(** The map a call may change. *)
Definition target (c : call) (cl : client) : option positive :=
  match c with
  | CallCtor m | CallCopyCtor m _ | CallAssign m _ | CallDtor m
  | CallAtAssign m _ _ | CallIndex m _ | CallIndexAssign m _ _
  | CallClear m | CallInsert m _ | CallErase m _ => Some m
  | CallItAssign i _ => it ← issued cl !! i; owner it
  | _ => None
  end.

End Client.

(** * Trees, contexts and the heap that holds them *)

Section Rep.
Context {K V : Type}.
Implicit Types (h : gmap positive (@Node K V)) (w : @world K V).

Inductive tree : Type :=
| E
| T (l : tree) (a : positive) (kv : K * V) (hg : Z) (r : tree).

Definition root_ptr (t : tree) : option positive :=
  match t with E => None | T _ a _ _ _ => Some a end.

Definition ht (t : tree) : Z :=
  match t with E => 0 | T _ _ _ hg _ => hg end.

Fixpoint addrs (t : tree) : list positive :=
  match t with E => [] | T l a _ _ r => addrs l ++ a :: addrs r end.

Fixpoint entries (t : tree) : list (K * V) :=
  match t with E => [] | T l _ kv _ r => entries l ++ kv :: entries r end.

Fixpoint rep h (par : option positive) (t : tree) : Prop :=
  match t with
  | E => True
  | T l a kv hg r =>
      h !! a = Some (mkNode kv (root_ptr l) (root_ptr r) par hg)
      ∧ rep h (Some a) l ∧ rep h (Some a) r
  end.

Inductive frame : Type :=
| InL (a : positive) (kv : K * V) (hg : Z) (r : tree)
| InR (l : tree) (a : positive) (kv : K * V) (hg : Z).

Definition plug1 (f : frame) (s : tree) : tree :=
  match f with
  | InL a kv hg r => T s a kv hg r
  | InR l a kv hg => T l a kv hg s
  end.

Fixpoint plug (c : list frame) (s : tree) : tree :=
  match c with
  | [] => s
  | f :: c' => plug c' (plug1 f s)
  end.

Definition frame_addr (f : frame) : positive :=
  match f with InL a _ _ _ => a | InR _ a _ _ => a end.

Definition frame_sib (f : frame) : tree :=
  match f with InL _ _ _ r => r | InR l _ _ _ => l end.

Definition ctx_par (c : list frame) : option positive :=
  match c with [] => None | f :: _ => Some (frame_addr f) end.

Fixpoint ctx_addrs (c : list frame) : list positive :=
  match c with
  | [] => []
  | f :: c' => frame_addr f :: addrs (frame_sib f) ++ ctx_addrs c'
  end.

Fixpoint ctx_root (c : list frame) (hole : option positive) : option positive :=
  match c with
  | [] => hole
  | f :: c' => ctx_root c' (Some (frame_addr f))
  end.

Fixpoint ctx_rep h (c : list frame) (hole : option positive) : Prop :=
  match c with
  | [] => True
  | InL a kv hg r :: c' =>
      h !! a = Some (mkNode kv hole (root_ptr r) (ctx_par c') hg)
      ∧ rep h (Some a) r ∧ ctx_rep h c' (Some a)
  | InR l a kv hg :: c' =>
      h !! a = Some (mkNode kv (root_ptr l) hole (ctx_par c') hg)
      ∧ rep h (Some a) l ∧ ctx_rep h c' (Some a)
  end.

(** ** A weakest-precondition reading of the monad *)
Definition wp {A} (m : @M K V A) (w : @world K V) (Q : A → @world K V → Prop) : Prop :=
  ∃ a w', m w = Ok a w' ∧ Q a w'.

Definition node (l : tree) (a : positive) (kv : K * V) (r : tree) : tree :=
  T l a kv (Z.max (ht l) (ht r) + 1) r.

(** The heap and the map object after [relink] below context [c]. *)
Definition relink_heap (c : list frame) (v : option positive) h :=
  match c with
  | [] => h
  | InL a kv hg r :: c' => <[a := mkNode kv v (root_ptr r) (ctx_par c') hg]> h
  | InR l a kv hg :: c' => <[a := mkNode kv (root_ptr l) v (ctx_par c') hg]> h
  end.

(** The heap after [if (t) t->parent = par']. *)
Definition reparent_heap (t : tree) (par' : option positive) h :=
  match t with
  | E => h
  | T l a kv hg r => <[a := mkNode kv (root_ptr l) (root_ptr r) par' hg]> h
  end.

End Rep.

Section Rebalance.
Context {K V : Type}.
Implicit Types (h : gmap positive (@Node K V)) (w : @world K V).
Implicit Types (s t : @tree K V).

(** ** The rotations and the rebalancing walk on trees *)
Definition rotL (t : @tree K V) : option tree :=
  match t with
  | T A x kvx _ (T B y kvy _ C) => Some (node (node A x kvx B) y kvy C)
  | _ => None
  end.

Definition rotR (t : @tree K V) : option tree :=
  match t with
  | T (T A x kvx _ B) y kvy _ C => Some (node A x kvx (node B y kvy C))
  | _ => None
  end.

(** [balance(n)] for a node that is there. *)
Definition bal (t : @tree K V) : option Z :=
  match t with
  | E => None
  | T l _ _ _ r => Some (ht r - ht l)
  end.

(** [rebalanceAt]: the subtree afterwards, and whether its root was rotated
    down (the node [n] then hangs below the new subtree root). *)
Definition rebalanceAt_t (s : @tree K V) : option (tree * bool) :=
  match s with
  | E => None
  | T l a kv _ r =>
      let hg := Z.max (ht l) (ht r) + 1 in
      let bf := ht r - ht l in
      if bf >? 1 then
        br ← bal r;
        r' ← (if br <? 0 then rotR r else Some r);
        s' ← rotL (T l a kv hg r');
        Some (s', true)
      else if bf <? -1 then
        bl ← bal l;
        l' ← (if bl >? 0 then rotL l else Some l);
        s' ← rotR (T l' a kv hg r);
        Some (s', true)
      else Some (T l a kv hg r, false)
  end.

(** [rebalanceUp]: the walk from the focus [s] below context [c] to the root;
    the result is the whole tree. *)
Fixpoint rebalanceUp_t (fuel : nat) (s : @tree K V) (c : list frame) : option tree :=
  match fuel with
  | O => None
  | S f =>
      match rebalanceAt_t s with
      | None => None
      | Some (s', rot) =>
          if rot : bool then rebalanceUp_t f s' c
          else match c with
               | [] => Some s'
               | fr :: c' => rebalanceUp_t f (plug1 fr s') c'
               end
      end
  end.

End Rebalance.

Section Avl.
Context {K V : Type}.
Implicit Types (s t l r : @tree K V) (c : list (@frame K V)).

(** ** The AVL invariant on trees *)

(** Every cached height is one more than the larger child height, and the two
    child heights differ by at most one. *)
Fixpoint avl (t : @tree K V) : Prop :=
  match t with
  | E => True
  | T l _ _ hg r =>
      avl l ∧ avl r ∧ hg = Z.max (ht l) (ht r) + 1 ∧ -1 ≤ ht r - ht l ≤ 1
  end.

(** A node whose subtrees are AVL and whose own height is stale and whose
    balance is off by at most two: what [rebalanceAt] is handed. *)
Definition pre_avl (s : @tree K V) : Prop :=
  match s with
  | E => False
  | T l _ _ _ r => avl l ∧ avl r ∧ -2 ≤ ht r - ht l ≤ 2
  end.

(** The height [update] would store at the root. *)
Definition up (s : @tree K V) : Z :=
  match s with
  | E => 0
  | T l _ _ _ r => Z.max (ht l) (ht r) + 1
  end.

Definition bf (s : @tree K V) : Z :=
  match s with
  | E => 0
  | T l _ _ _ r => ht r - ht l
  end.

(** The frames above a hole that used to hold a subtree of height [h0]: every
    sibling is AVL and every ancestor was balanced. *)
Fixpoint avl_ctx (c : list (@frame K V)) (h0 : Z) : Prop :=
  match c with
  | [] => True
  | fr :: c' =>
      avl (frame_sib fr) ∧ -1 ≤ h0 - ht (frame_sib fr) ≤ 1 ∧
      avl_ctx c' (Z.max h0 (ht (frame_sib fr)) + 1)
  end.

(** Height admissible for the result of rebalancing [s] in a hole of
    original height [h0]. *)
Definition fits (s : @tree K V) (h0 : Z) : Prop :=
  if decide (-1 ≤ bf s ≤ 1) then h0 - 1 ≤ up s ≤ h0 + 1
  else h0 ≤ up s ≤ h0 + 1.

End Avl.

Section Search.
Context {K V : Type}.
Variable cmp : K → K → bool.
Implicit Types (h : gmap positive (@Node K V)) (w : @world K V).
Implicit Types (s t l r : @tree K V) (c : list (@frame K V)).

(** ** Searching on trees *)

(** The length of the longest root-to-leaf path. *)
Fixpoint depth (t : @tree K V) : nat :=
  match t with
  | E => O
  | T l _ _ _ r => S (Nat.max (depth l) (depth r))
  end.

(** [findNode]: the address of the node the descent stops at. *)
Fixpoint find_t (key : K) (t : @tree K V) : option positive :=
  match t with
  | E => None
  | T l a kv _ r =>
      if keyEq cmp key (fst kv) then Some a
      else if cmp key (fst kv) then find_t key l
      else find_t key r
  end.

(** The descent of [insert]: the address of the node with an equivalent key,
    or the context of the vacant link the descent ends at. *)
Fixpoint descend_t (key : K) (s : @tree K V) (c : list (@frame K V))
  : positive + list (@frame K V) :=
  match s with
  | E => inr c
  | T l a kv hg r =>
      if keyEq cmp key (fst kv) then inl a
      else if cmp key (fst kv) then descend_t key l (InL a kv hg r :: c)
      else descend_t key r (InR l a kv hg :: c)
  end.

Definition is_left (c : list (@frame K V)) : bool :=
  match c with
  | InL _ _ _ _ :: _ => true
  | _ => false
  end.

End Search.

Section Insert.
Context {K V : Type}.
Variable cmp : K → K → bool.
Implicit Types (h : gmap positive (@Node K V)) (w : @world K V).
Implicit Types (s t l r : @tree K V) (c : list (@frame K V)).

(** ** [insert] on trees *)
Definition leaf (a : positive) (v : K * V) : @tree K V := T E a v 1 E.

(** The tree after [insert], the node the returned cursor refers to, and the
    flag; [a] is the address [new] hands out. *)
Definition insert_t (fuel : nat) (a : positive) (v : K * V) (t : @tree K V)
  : option (@tree K V * positive * bool) :=
  match descend_t cmp (fst v) t [] with
  | inl b => Some (t, b, false)
  | inr [] => Some (leaf a v, a, true)
  | inr (fr :: c') =>
      t' ← rebalanceUp_t fuel (plug1 fr (leaf a v)) c';
      Some (t', a, true)
  end.

End Insert.

Section Erase.
Context {K V : Type}.
Implicit Types (h : gmap positive (@Node K V)) (w : @world K V).
Implicit Types (s t l r : @tree K V) (c : list (@frame K V)).

(** ** [eraseNode] on trees *)

(** The subtree rooted at address [a], and the context it sits in. *)
Fixpoint locate (a : positive) (t : @tree K V) (c : list (@frame K V))
  : option (list (@frame K V) * @tree K V) :=
  match t with
  | E => None
  | T l b kv hg r =>
      if decide (a = b) then Some (c, t)
      else match locate a l (InL b kv hg r :: c) with
           | Some x => Some x
           | None => locate a r (InR l b kv hg :: c)
           end
  end.

(** The leftmost node of [T l a kv hg r]: the frames from it up to the root
    of that subtree, its address, pair, cached height and right subtree. *)
Fixpoint min_split (l : @tree K V) (a : positive) (kv : K * V) (hg : Z) (r : @tree K V)
    (c : list (@frame K V)) : list (@frame K V) * positive * (K * V) * Z * @tree K V :=
  match l with
  | E => (c, a, kv, hg, r)
  | T ll la lkv lhg lr => min_split ll la lkv lhg lr (InL a kv hg r :: c)
  end.

(** [rebalanceUp(p)] where [p] is the parent of the hole of context [c],
    filled with [s]. *)
Definition rebalance_from (fuel : nat) (c : list (@frame K V)) (s : @tree K V)
  : option (@tree K V) :=
  match c with
  | [] => Some s
  | fr :: c' => rebalanceUp_t fuel (plug1 fr s) c'
  end.

(** [rebalanceUp(p)] for a node pointer [p] into the tree [t]. *)
Definition rebalance_at (fuel : nat) (p : option positive) (t : @tree K V)
  : option (@tree K V) :=
  match p with
  | None => Some t
  | Some a => '(c, s) ← locate a t []; rebalanceUp_t fuel s c
  end.

Definition erase_t (fuel : nat) (z : positive) (t : @tree K V) : option (@tree K V) :=
  '(cz, s) ← locate z t [];
  match s with
  | E => None
  | T L _ kvz hz R =>
      match L, R with
      | E, _ => rebalance_from fuel cz R
      | _, E => rebalance_from fuel cz L
      | _, T rl ra rkv rhg rr =>
          let '(cs, sa, kvs, hs, SR) := min_split rl ra rkv rhg rr [] in
          t1 ← rebalance_from fuel (cs ++ InR L sa kvs hs :: cz) SR;
          rebalance_at fuel (ctx_par cz) t1
      end
  end.

(** The part of [eraseNode] after the successor [s] has been cut loose:
    [s] takes the place of [z], [z] is freed, and the two walks run. *)
Definition erase_tail (fuel : nat) (this za sa : positive) (rebalanceStart : option positive)
  : @M K V unit :=
  bind (load za) (λ nz2,
    let par := parent nz2 in
    bind (transplant this za (Some sa)) (λ _,
    bind (load za) (λ nz3,
    bind (modify sa (with_left (left nz3))) (λ _,
    bind (load sa) (λ ns2,
    bind (match left ns2 with
          | Some l => modify l (with_parent (Some sa))
          | None => ret tt
          end) (λ _,
    bind (delete_node za) (λ _,
    bind (dec_count this) (λ _,
    bind (rebalanceUp fuel this rebalanceStart) (λ _,
    rebalanceUp fuel this par))))))))).

End Erase.

Section Traverse.
Context {K V : Type}.
Implicit Types (h : gmap positive (@Node K V)) (w : @world K V).
Implicit Types (s t l r : @tree K V) (c : list (@frame K V)).

(** ** In-order neighbours *)

(** The addresses an in-order walk meets before and after the hole of [c]. *)
Fixpoint ctx_before (c : list (@frame K V)) : list positive :=
  match c with
  | [] => []
  | InL _ _ _ _ :: c' => ctx_before c'
  | InR l b _ _ :: c' => ctx_before c' ++ addrs l ++ [b]
  end.

Fixpoint ctx_after (c : list (@frame K V)) : list positive :=
  match c with
  | [] => []
  | InL b _ _ r :: c' => b :: addrs r ++ ctx_after c'
  | InR _ _ _ _ :: c' => ctx_after c'
  end.

(** The element after [a], and the element before [a], in a list. *)
Fixpoint next_in (l : list positive) (a : positive) : option positive :=
  match l with
  | [] => None
  | x :: rest => if decide (x = a) then head rest else next_in rest a
  end.

Fixpoint prev_in (l : list positive) (a : positive) : option positive :=
  match l with
  | [] => None
  | x :: rest =>
      match rest with
      | [] => None
      | y :: _ => if decide (y = a) then Some x else prev_in rest a
      end
  end.

End Traverse.

Section CloneDestroy.
Context {K V : Type}.
Implicit Types (h : gmap positive (@Node K V)) (w : @world K V).
Implicit Types (s t l r : @tree K V) (c : list (@frame K V)).

(** ** Outcomes that may be exceptions *)
Definition wpx {A} (m : @M K V A) (w : @world K V)
    (Q : A → @world K V → Prop) (X : exn → @world K V → Prop) : Prop :=
  match m w with
  | Ok a w' => Q a w'
  | Throw e w' => X e w'
  | Fault => False
  | Diverge => False
  end.

(** ** [cloneSubtree] *)

(** Addresses are handed out in increasing order. *)
Definition fresh h (nx : positive) : Prop := ∀ a, is_Some (h !! a) → (a < nx)%positive.

(** The copy of [t] built from address [nx] on, and the next free address. *)
Fixpoint clone_t (t : @tree K V) (nx : positive) : @tree K V * positive :=
  match t with
  | E => (E, nx)
  | T l _ kv _ r =>
      let '(l', nx1) := clone_t l (Pos.succ nx) in
      let '(r', nx2) := clone_t r nx1 in
      (node l' nx kv r', nx2)
  end.

End CloneDestroy.

Section Order.
Context {K V : Type}.
Variable cmp : K → K → bool.
Implicit Types (s t l r : @tree K V) (c : list (@frame K V)).

(** ** Ordering *)
Definition lt (a b : K) : Prop := cmp a b = true.

(** The keys of an in-order walk are strictly increasing. *)
Definition sorted (t : @tree K V) : Prop := StronglySorted lt (entries t).*1.

(** What the container asks of [Compare]: a strict weak ordering. *)
Record strict_weak : Prop := {
  sw_irrefl : ∀ a, cmp a a = false;
  sw_trans : ∀ x y z, cmp x y = true → cmp y z = true → cmp x z = true;
  sw_equiv : ∀ x y z, keyEq cmp x y = true → keyEq cmp y z = true → keyEq cmp x z = true
}.

(** The entries an in-order walk meets before and after the hole of [c]. *)
Fixpoint entries_before (c : list (@frame K V)) : list (K * V) :=
  match c with
  | [] => []
  | InL _ _ _ _ :: c' => entries_before c'
  | InR l _ kv _ :: c' => entries_before c' ++ entries l ++ [kv]
  end.

Fixpoint entries_after (c : list (@frame K V)) : list (K * V) :=
  match c with
  | [] => []
  | InL _ kv _ r :: c' => kv :: entries r ++ entries_after c'
  | InR _ _ _ _ :: c' => entries_after c'
  end.

(** Every entry before the hole is below [key], every entry after it above. *)
Definition bounds (c : list (@frame K V)) (key : K) : Prop :=
  (∀ kv, kv ∈ entries_before c → lt kv.1 key) ∧
  (∀ kv, kv ∈ entries_after c → lt key kv.1).

(** ** [findNode] finds what is there *)
Fixpoint lookup_t (a : positive) (t : @tree K V) : option (K * V) :=
  match t with
  | E => None
  | T l b kv _ r =>
      if decide (a = b) then Some kv
      else match lookup_t a l with
           | Some x => Some x
           | None => lookup_t a r
           end
  end.

End Order.

Section Items.
Context {K V : Type}.
Variable cmp : K → K → bool.
Implicit Types (s t l r : @tree K V) (c : list (@frame K V)).
Implicit Types (h : gmap positive (@Node K V)).

(** ** Nodes and their pairs, in order *)
Fixpoint items (t : @tree K V) : list (positive * (K * V)) :=
  match t with
  | E => []
  | T l a kv _ r => items l ++ (a, kv) :: items r
  end.

Fixpoint items_before (c : list (@frame K V)) : list (positive * (K * V)) :=
  match c with
  | [] => []
  | InL _ _ _ _ :: c' => items_before c'
  | InR l b kv _ :: c' => items_before c' ++ items l ++ [(b, kv)]
  end.

Fixpoint items_after (c : list (@frame K V)) : list (positive * (K * V)) :=
  match c with
  | [] => []
  | InL b kv _ r :: c' => (b, kv) :: items r ++ items_after c'
  | InR _ _ _ _ :: c' => items_after c'
  end.

End Items.

Section World.
Context {K V : Type}.
Variable cmp : K → K → bool.
Variable default_value : V.
Implicit Types (h : gmap positive (@Node K V)) (w : @world K V).
Implicit Types (s t l r : @tree K V) (c : list (@frame K V)).
Implicit Types (tr : gmap positive (@tree K V)).

(** ** The state of a whole program *)

(** The map object [m] is live and the nodes below its [root] form [t]. *)
Definition live_tree (w : @world K V) (m : positive) (t : @tree K V) : Prop :=
  maps w !! m = Some (mkMap (root_ptr t) (Z.of_nat (length (addrs t)))) ∧
  rep (nodes w) None t ∧ NoDup (addrs t).

(** [tr] lists the tree of every live map object; the trees are AVL, they
    share no node, the allocator has never handed out a live address, and the
    store holds fewer than [2^64] nodes. *)
Record models (tr : gmap positive (@tree K V)) (w : @world K V) : Prop := {
  md_fresh : fresh (nodes w) (next w);
  md_size : Z.of_nat (size (nodes w)) + Z.of_nat (avail w) < size_max;
  md_dom : ∀ m, tr !! m = None → maps w !! m = None;
  md_tree : ∀ m t, tr !! m = Some t → live_tree w m t ∧ avl t;
  md_disj : ∀ m1 m2 t1 t2 a, m1 ≠ m2 → tr !! m1 = Some t1 → tr !! m2 = Some t2 →
                             a ∈ addrs t1 → a ∉ addrs t2
}.

Definition all_sorted (tr : gmap positive (@tree K V)) : Prop :=
  ∀ m t, tr !! m = Some t → sorted cmp t.

End World.

Section Ops.
Context {K V : Type}.
Variable cmp : K → K → bool.
Variable default_value : V.
Implicit Types (h : gmap positive (@Node K V)) (w : @world K V).
Implicit Types (s t l r : @tree K V) (c : list (@frame K V)).
Implicit Types (tr : gmap positive (@tree K V)).

(** What every operation does to the store: the allocator only moves
    forward and an address that was free below it stays free. *)
Definition grows w w' : Prop :=
  (next w ≤ next w')%positive ∧
  ∀ b, (b < next w)%positive → nodes w !! b = None → nodes w' !! b = None.

(** A node of the old tree is a node of the new one, or it is gone. *)
Definition kept t t' w' : Prop :=
  ∀ a, a ∈ addrs t → a ∈ addrs t' ∨ nodes w' !! a = None.

End Ops.

Section Reads.
Context {K V : Type}.
Variable cmp : K → K → bool.
Variable default_value : V.
Implicit Types (h : gmap positive (@Node K V)) (w : @world K V).
Implicit Types (s t l r : @tree K V) (c : list (@frame K V)).
Implicit Types (tr : gmap positive (@tree K V)).

(** ** Writes through a reference to a mapped value *)
Fixpoint set_second (a : positive) (v : V) (t : @tree K V) : @tree K V :=
  match t with
  | E => E
  | T l b kv hg r =>
      T (set_second a v l) b (if decide (b = a) then (kv.1, v) else kv) hg
        (set_second a v r)
  end.

End Reads.

Section Pure.
Context {K V : Type}.
Variable cmp : K → K → bool.
Implicit Types (w : @world K V).

(** ** Operations that only read *)

(** [m] leaves the world as it found it, whether it returns or throws. *)
Definition pure {A} (m : @M K V A) : Prop :=
  ∀ w, match m w with
       | Ok _ w' | Throw _ w' => w' = w
       | _ => True
       end.

End Pure.

Section Client.
Context {K V : Type}.
Variable cmp : K → K → bool.
Variable default_value : V.
Local Abbreviation step := (step cmp default_value).
Local Abbreviation run := (run cmp default_value).
Local Abbreviation reachable := (reachable cmp default_value).

(** ** The invariant of reachable states *)
Definition cmp_transitive : Prop :=
  ∀ x y z, cmp x y = true → cmp y z = true → cmp x z = true.

Implicit Types (w : @world K V) (tr : gmap positive (@tree K V)).
Implicit Types (t : @tree K V) (it : @iterator).

(** A cursor the client holds refers to no node, to a node of its owner's
    tree, or to a node that has been deleted. *)
Definition cursor_ok tr w it : Prop :=
  match nodePtr it with
  | None => True
  | Some a =>
      ∃ o, owner it = Some o ∧
           ((nodes w !! a = None ∧ (a < next w)%positive) ∨
            (∃ t, tr !! o = Some t ∧ a ∈ addrs t))
  end.

Definition inv tr (cl : client) : Prop :=
  models tr (heap cl) ∧
  Forall (cursor_ok tr (heap cl)) (issued cl) ∧
  (cmp_transitive → all_sorted cmp tr).

(** How the trees of a state relate to those of the state before. *)
Definition evolves tr w tr' w' : Prop :=
  models tr' w' ∧ grows w w' ∧
  (∀ o t a, tr !! o = Some t → a ∈ addrs t →
            nodes w' !! a = None ∨ ∃ t', tr' !! o = Some t' ∧ a ∈ addrs t') ∧
  (cmp_transitive → all_sorted cmp tr → all_sorted cmp tr').

(** ** What one call does to a state that satisfies the invariant *)
Definition post tr w (tgt : option positive) {A} (f : A → list iterator)
    (o : outcome (@world K V) A) : Prop :=
  match o with
  | Ok a w' =>
      ∃ tr', evolves tr w tr' w' ∧ Forall (cursor_ok tr' w') (f a) ∧
             (∀ b, tgt ≠ Some b → tr' !! b = tr !! b)
  | Throw _ w' =>
      ∃ tr', evolves tr w tr' w' ∧ (∀ b, tgt ≠ Some b → tr' !! b = tr !! b)
  | Fault => True
  | Diverge => True
  end.

End Client.

Section Walk.
Context {K V : Type}.
Variable cmp : K → K → bool.
Variable default_value : V.
Implicit Types (w : @world K V) (tr : gmap positive (@tree K V)).
Implicit Types (t l r : @tree K V).

(** ** The balance condition, with heights counted on the tree *)
Fixpoint balanced (t : @tree K V) : Prop :=
  match t with
  | E => True
  | T l _ _ hg r =>
      balanced l ∧ balanced r ∧
      hg = 1 + Z.max (Z.of_nat (depth l)) (Z.of_nat (depth r)) ∧
      -1 ≤ Z.of_nat (depth l) - Z.of_nat (depth r) ≤ 1
  end.

(** ** The search-tree condition, node by node *)
Fixpoint bst (t : @tree K V) : Prop :=
  match t with
  | E => True
  | T l _ kv _ r =>
      bst l ∧ bst r ∧
      (∀ x, x ∈ entries l → cmp x.1 kv.1 = true) ∧
      (∀ x, x ∈ entries r → cmp kv.1 x.1 = true)
  end.

End Walk.

Section Progress.
Context {K V : Type}.
Variable cmp : K → K → bool.
Variable default_value : V.
Implicit Types (w : @world K V) (tr : gmap positive (@tree K V)).
Implicit Types (t l r : @tree K V) (cl : @client K V) (it : @iterator).
Local Abbreviation reachable := (reachable cmp default_value).
Local Abbreviation step := (step cmp default_value).

Definition live_map w (m : positive) : Prop := is_Some (maps w !! m).

(** The cursor refers to no deleted node. *)
Definition usable w it : Prop := ∀ a, nodePtr it = Some a → is_Some (nodes w !! a).

(** What C++ asks of the caller: member functions are called on live
    objects, constructors on storage that holds none, and cursors are used
    only while their node is alive. *)
Definition call_ok (c : @call K V) cl : Prop :=
  match c with
  | CallCtor m => maps (heap cl) !! m = None
  | CallCopyCtor m other => maps (heap cl) !! m = None ∧ live_map (heap cl) other
  | CallAssign m other => live_map (heap cl) m ∧ live_map (heap cl) other
  | CallDtor m | CallAt m _ | CallAtAssign m _ _ | CallIndex m _
  | CallIndexAssign m _ _ | CallIndexConst m _ | CallBegin m | CallEnd m
  | CallEmpty m | CallSize m | CallClear m | CallInsert m _
  | CallCount m _ | CallFind m _ => live_map (heap cl) m
  | CallErase m i =>
      live_map (heap cl) m ∧ ∃ it, issued cl !! i = Some it ∧ usable (heap cl) it
  | CallDefault => True
  | CallDeref i | CallItAssign i _ | CallIncr i | CallPostIncr i =>
      ∃ it, issued cl !! i = Some it ∧ usable (heap cl) it
  | CallDecr i | CallPostDecr i =>
      ∃ it, issued cl !! i = Some it ∧ usable (heap cl) it ∧
            ∀ o, owner it = Some o → live_map (heap cl) o
  end.

(** The call returned or threw. *)
Definition defined {A} (o : outcome (@world K V) A) : Prop :=
  match o with
  | Ok _ _ => True
  | Throw _ _ => True
  | Fault => False
  | Diverge => False
  end.

End Progress.

(** * The range of [int] *)

(** [Node::height] is an [int], and [update] adds one to the larger of two
    heights it reads.  Heights are computed in [Z] here; that is what the code
    computes as long as every height read is an [int] and the sum stays in
    range. *)
Definition int_min : Z := - 2 ^ 31.
Definition int_max : Z := 2 ^ 31 - 1.
Definition is_int (z : Z) : Prop := int_min ≤ z ≤ int_max.

Section Ints.
Context {K V : Type}.

(** Every cached height in the store is an [int]. *)
Definition int_store (w : @world K V) : Prop :=
  map_Forall (λ _ nd, is_int (height nd)) (nodes w).

Fixpoint ints (t : @tree K V) : Prop :=
  match t with
  | E => True
  | T l _ _ hg r => ints l ∧ is_int hg ∧ ints r
  end.

Fixpoint ints_ctx (c : list (@frame K V)) : Prop :=
  match c with
  | [] => True
  | InL _ _ hg r :: c' => is_int hg ∧ ints r ∧ ints_ctx c'
  | InR l _ _ hg :: c' => is_int hg ∧ ints l ∧ ints_ctx c'
  end.

End Ints.

(** * Sample programs over integer keys *)

Module Sessions.

(** The state a program ends in, started with [av] allocations to spend. *)
Definition after (p : list (@call Z Z)) (av : nat) : @client Z Z :=
  match run Z.ltb 0 p (initial av) with
  | Some cl => cl
  | None => initial 0
  end.

(** Five insertions (two of them rotate), the erasure of the root, a copy,
    a write through [operator[]] to the copy, and the two end cursors. *)
Definition session : list (@call Z Z) :=
  [CallCtor 1; CallInsert 1 (1, 10); CallInsert 1 (2, 20); CallInsert 1 (3, 30);
   CallInsert 1 (4, 40); CallInsert 1 (5, 50); CallErase 1 1; CallCopyCtor 2 1;
   CallIndexAssign 2 7 70; CallBegin 1; CallEnd 1].

Definition busy : @client Z Z := after session 20.

(** The cursor the first insertion returned, after its node was erased. *)
Definition twice : @client Z Z :=
  after [CallCtor 1; CallInsert 1 (5, 50); CallErase 1 0] 4.

(** Two maps and a free store with nothing left to give. *)
Definition spent : @client Z Z :=
  after [CallCtor 1; CallInsert 1 (1, 10); CallCtor 2; CallInsert 2 (7, 70);
         CallInsert 2 (8, 80)] 3.

(** The store that the failed assignment leaves. *)
Definition failed : @world Z Z :=
  match map_assign 1 2 (heap spent) with
  | Throw _ w' => w'
  | _ => heap spent
  end.

(** The store after [insert] of [(2, 99)] into map 1. *)
Definition grown : @world Z Z :=
  match insert Z.ltb 1 (2, 99) (heap busy) with
  | Ok _ w' => w'
  | _ => heap busy
  end.

(** The store after [erase] through cursor 3, which refers to key 4. *)
Definition shrunk : @world Z Z :=
  match erase 1 (mkIt (Some 4%positive) (Some 1%positive)) (heap busy) with
  | Ok _ w' => w'
  | _ => heap busy
  end.

(** The store after [insert] of [(6, 60)] into map 1, which rotates. *)
Definition rotated : @world Z Z :=
  match insert Z.ltb 1 (6, 60) (heap busy) with
  | Ok _ w' => w'
  | _ => heap busy
  end.

(** The store after [m.at(4) = 44] on map 1. *)
Definition written : @world Z Z :=
  match at_assign Z.ltb 1 4 44 (heap busy) with
  | Ok _ w' => w'
  | _ => heap busy
  end.

(** Three entries and one allocation left. *)
Definition tight : @client Z Z :=
  after [CallCtor 1; CallInsert 1 (1, 10); CallInsert 1 (2, 20); CallInsert 1 (3, 30)] 4.

(** Eight entries, no rotation on the way: the left child of the root (key 2,
    at address 2) has a left child (key 1) and a right child (key 4, at 5)
    with two children of its own (keys 3 and 5). *)
Definition left_heavy : @world Z Z :=
  heap (after [CallCtor 1; CallInsert 1 (6, 60); CallInsert 1 (2, 20); CallInsert 1 (8, 80);
               CallInsert 1 (1, 10); CallInsert 1 (4, 40); CallInsert 1 (9, 90);
               CallInsert 1 (3, 30); CallInsert 1 (5, 50)] 10).

(** The mirror image: the right child of the root (key 8, at address 2) has a
    right child (key 9) and a left child (key 6, at 5) with two children of
    its own (keys 5 and 7). *)
Definition right_heavy : @world Z Z :=
  heap (after [CallCtor 1; CallInsert 1 (4, 40); CallInsert 1 (8, 80); CallInsert 1 (2, 20);
               CallInsert 1 (9, 90); CallInsert 1 (6, 60); CallInsert 1 (1, 10);
               CallInsert 1 (5, 50); CallInsert 1 (7, 70)] 10).

(** What lies above the node at address 2 in [left_heavy] and in
    [right_heavy]: the root, and its other subtree. *)
Definition above_left : list (@frame Z Z) :=
  [InL 1 (6, 60) 4 (T E 3 (8, 80) 2 (T E 6 (9, 90) 1 E))].

Definition above_right : list (@frame Z Z) :=
  [InR (T (T E 6 (1, 10) 1 E) 3 (2, 20) 2 E) 1 (4, 40) 4].

(** The subtree at address 2 of [left_heavy], and what [rotateLeft] makes of
    it. *)
Definition left_before : @tree Z Z :=
  T (T E 4 (1, 10) 1 E) 2 (2, 20) 3
    (T (T E 7 (3, 30) 1 E) 5 (4, 40) 2 (T E 8 (5, 50) 1 E)).

Definition left_after : @tree Z Z :=
  node (node (T E 4 (1, 10) 1 E) 2 (2, 20) (T E 7 (3, 30) 1 E)) 5 (4, 40)
       (T E 8 (5, 50) 1 E).

(** The subtree at address 2 of [right_heavy], and what [rotateRight] makes
    of it. *)
Definition right_before : @tree Z Z :=
  T (T (T E 7 (5, 50) 1 E) 5 (6, 60) 2 (T E 8 (7, 70) 1 E)) 2 (8, 80) 3
    (T E 4 (9, 90) 1 E).

Definition right_after : @tree Z Z :=
  node (T E 7 (5, 50) 1 E) 5 (6, 60)
       (node (T E 8 (7, 70) 1 E) 2 (8, 80) (T E 4 (9, 90) 1 E)).

End Sessions.

(** * The heap and the tree it holds *)

Section RepFacts.
Context {K V : Type}.
Implicit Types (h : gmap positive (@Node K V)) (w : @world K V).
Implicit Types (s t l r : @tree K V) (c : list (@frame K V)).

Lemma rep_frame h h' par t :
  (∀ a, a ∈ addrs t → h' !! a = h !! a) → rep h par t → rep h' par t.
Proof.
  revert par; induction t as [|l IHl a kv hg r IHr]; simpl; intros par Hf; [done|].
  intros (Ha & Hl & Hr). split_and!.
  - rewrite Hf; [done|]. set_solver.
  - apply IHl; [|done]. intros; apply Hf; set_solver.
  - apply IHr; [|done]. intros; apply Hf; set_solver.
Qed.

Lemma rep_insert_ne h par t a n :
  a ∉ addrs t → rep h par t → rep (<[a:=n]> h) par t.
Proof.
  intros Hn. apply rep_frame. intros b Hb. apply lookup_insert_ne. set_solver.
Qed.

Lemma root_ptr_plug c s : root_ptr (plug c s) = ctx_root c (root_ptr s).
Proof. revert s; induction c as [|[] c IH]; intros s; simpl; [done|..]; by rewrite IH. Qed.

Lemma rep_plug h c s :
  rep h None (plug c s) ↔ rep h (ctx_par c) s ∧ ctx_rep h c (root_ptr s).
Proof.
  revert s; induction c as [|[a kv hg r|l a kv hg] c IH]; intros s; simpl.
  - tauto.
  - rewrite IH. simpl. tauto.
  - rewrite IH. simpl. tauto.
Qed.

Lemma addrs_plug c s : addrs (plug c s) ≡ₚ addrs s ++ ctx_addrs c.
Proof.
  revert s; induction c as [|[a kv hg r|l a kv hg] c IH]; intros s; simpl.
  - by rewrite app_nil_r.
  - rewrite IH. simpl. by rewrite <- app_assoc.
  - rewrite IH. simpl. rewrite <- !app_assoc. simpl.
    rewrite <- !Permutation_middle. f_equiv.
    rewrite !app_assoc. f_equiv. apply Permutation_app_comm.
Qed.

Lemma ctx_rep_frame h h' c p :
  (∀ a, a ∈ ctx_addrs c → h' !! a = h !! a) → ctx_rep h c p → ctx_rep h' c p.
Proof.
  revert p; induction c as [|[a kv hg r|l a kv hg] c IH]; simpl; intros p Hf; [done|..].
  - intros (Ha & Hr & Hc). split_and!.
    + rewrite Hf; [done|]. set_solver.
    + eapply rep_frame; [|done]. intros; apply Hf; set_solver.
    + apply IH; [|done]. intros; apply Hf; set_solver.
  - intros (Ha & Hr & Hc). split_and!.
    + rewrite Hf; [done|]. set_solver.
    + eapply rep_frame; [|done]. intros; apply Hf; set_solver.
    + apply IH; [|done]. intros; apply Hf; set_solver.
Qed.

Lemma wp_ret {A} (a : A) w Q : Q a w → wp (ret a) w Q.
Proof. intros; by exists a, w. Qed.

Lemma wp_bind {A B} (m : M A) (f : A → M B) w Q :
  wp m w (λ a w', wp (f a) w' Q) → wp (bind m f) w Q.
Proof.
  intros (a & w' & Hm & b & w'' & Hf & HQ). exists b, w''. split; [|done].
  unfold bind. by rewrite Hm.
Qed.

Lemma wp_mono {A} (m : M A) w (Q Q' : A → world → Prop) :
  wp m w Q → (∀ a w', Q a w' → Q' a w') → wp m w Q'.
Proof. intros (a & w' & Hm & HQ) H. exists a, w'. auto. Qed.

Lemma wp_load a n w Q :
  nodes w !! a = Some n → Q n w → wp (load a) w Q.
Proof. intros Ha HQ. exists n, w. split; [|done]. unfold load. by rewrite Ha. Qed.

Lemma wp_modify a f n w Q :
  nodes w !! a = Some n →
  Q tt (mkWorld (<[a := f n]> (nodes w)) (next w) (avail w) (maps w)) →
  wp (modify a f) w Q.
Proof.
  intros Ha HQ. unfold modify. apply wp_bind. eapply wp_load; [done|].
  eexists _, _. split; [|exact HQ]. unfold store. by rewrite Ha.
Qed.

Lemma wp_nonnull a w Q : Q a w → wp (nonnull (Some a)) w Q.
Proof. apply wp_ret. Qed.

Lemma wp_get_map this m w Q :
  maps w !! this = Some m → Q m w → wp (get_map this) w Q.
Proof. intros Hm HQ. exists m, w. split; [|done]. unfold get_map. by rewrite Hm. Qed.

Lemma wp_set_root this p m w Q :
  maps w !! this = Some m →
  Q tt (mkWorld (nodes w) (next w) (avail w) (<[this := mkMap p (nodeCount m)]> (maps w))) →
  wp (set_root this p) w Q.
Proof.
  intros Hm HQ. unfold set_root. apply wp_bind. eapply wp_get_map; [done|].
  by eexists _, _.
Qed.

Lemma wp_heightOf h nx av ms par t Q :
  rep h par t →
  Q (ht t) (mkWorld h nx av ms) →
  wp (heightOf (root_ptr t)) (mkWorld h nx av ms) Q.
Proof.
  destruct t as [|l a kv hg r]; simpl; intros Hr HQ.
  - by apply wp_ret.
  - destruct Hr as (Ha & _). apply wp_bind. eapply wp_load; [done|]. by apply wp_ret.
Qed.

Lemma wp_update h nx av ms a kv par hg l r Q :
  h !! a = Some (mkNode kv (root_ptr l) (root_ptr r) par hg) →
  rep h (Some a) l → rep h (Some a) r →
  Q tt (mkWorld (<[a := mkNode kv (root_ptr l) (root_ptr r) par (Z.max (ht l) (ht r) + 1)]> h)
          nx av ms) →
  wp (update (Some a)) (mkWorld h nx av ms) Q.
Proof.
  intros Ha Hl Hr HQ. unfold update.
  apply wp_bind. eapply wp_load; [done|]. simpl.
  apply wp_bind. eapply wp_heightOf; [done|].
  apply wp_bind. eapply wp_heightOf; [done|].
  eapply wp_modify; [done|]. simpl.
  replace (if ht l >? ht r then ht l else ht r) with (Z.max (ht l) (ht r)); [done|].
  destruct (Z.gtb_spec (ht l) (ht r)); lia.
Qed.

Lemma wp_balance h nx av ms a kv par hg l r Q :
  h !! a = Some (mkNode kv (root_ptr l) (root_ptr r) par hg) →
  rep h (Some a) l → rep h (Some a) r →
  Q (ht r - ht l) (mkWorld h nx av ms) →
  wp (balance (Some a)) (mkWorld h nx av ms) Q.
Proof.
  intros Ha Hl Hr HQ. unfold balance.
  apply wp_bind, wp_nonnull.
  apply wp_bind. eapply wp_load; [done|]. simpl.
  apply wp_bind. eapply wp_heightOf; [done|].
  apply wp_bind. eapply wp_heightOf; [done|].
  by apply wp_ret.
Qed.

Lemma ctx_root_cons f c p q : ctx_root (f :: c) p = ctx_root (f :: c) q.
Proof. done. Qed.

Lemma wp_relink this c u v n h nx av ms Q :
  ms !! this = Some (mkMap (ctx_root c (Some u)) n) →
  ctx_rep h c (Some u) →
  u ∉ ctx_addrs c →
  Q tt (mkWorld (relink_heap c v h) nx av (<[this := mkMap (ctx_root c v) n]> ms)) →
  wp (relink this (ctx_par c) u v) (mkWorld h nx av ms) Q.
Proof.
  intros Hms Hc Hu HQ. destruct c as [|[a kv hg r|l a kv hg] c]; simpl in *.
  - eapply wp_set_root; [done|]. done.
  - destruct Hc as (Ha & Hr & Hc). apply wp_bind. eapply wp_load; [done|]. simpl.
    rewrite decide_True by done.
    eapply wp_modify; [done|]. rewrite (insert_id ms) in HQ by done. exact HQ.
  - destruct Hc as (Ha & Hr & Hc). apply wp_bind. eapply wp_load; [done|]. simpl.
    rewrite decide_False.
    2:{ destruct l; simpl in *; [done|]. intros [= ->]. set_solver. }
    eapply wp_modify; [done|]. rewrite (insert_id ms) in HQ by done. exact HQ.
Qed.

Lemma relink_heap_lookup_ne c v h a :
  a ∉ ctx_addrs c → relink_heap c v h !! a = h !! a.
Proof.
  destruct c as [|[] c]; simpl; intros Ha; [done|..]; apply lookup_insert_ne; set_solver.
Qed.

Lemma relink_heap_dom c v u h :
  ctx_rep h c u → dom (relink_heap c v h) = dom h.
Proof.
  destruct c as [|[] c]; simpl; [done|..]; intros (Ha & _);
    rewrite dom_insert_L; apply elem_of_dom_2 in Ha; set_solver.
Qed.

Lemma ctx_rep_relink c u v h :
  NoDup (ctx_addrs c) → ctx_rep h c u → ctx_rep (relink_heap c v h) c v.
Proof.
  destruct c as [|[a kv hg r|l a kv hg] c]; simpl; [done|..];
    rewrite NoDup_cons, NoDup_app; intros (Ha & Hn1 & Hn2 & Hn3) (Hl & Hr & Hc).
  - split_and!; [by rewrite lookup_insert_eq|..].
    + apply rep_insert_ne; [set_solver|done].
    + eapply ctx_rep_frame; [|done]. intros b Hb. apply lookup_insert_ne. set_solver.
  - split_and!; [by rewrite lookup_insert_eq|..].
    + apply rep_insert_ne; [set_solver|done].
    + eapply ctx_rep_frame; [|done]. intros b Hb. apply lookup_insert_ne. set_solver.
Qed.

Lemma relink_heap_lookup_congr c v h1 h2 a :
  h1 !! a = h2 !! a → relink_heap c v h1 !! a = relink_heap c v h2 !! a.
Proof.
  destruct c as [|[b kv hg r|l b kv hg] c]; simpl; [done|..]; intros Heq;
    (destruct (decide (b = a)) as [->|]; [by rewrite !lookup_insert_eq|]);
    by rewrite !lookup_insert_ne.
Qed.

Lemma ctx_rep_relink_frame c u v h h' :
  NoDup (ctx_addrs c) → ctx_rep h c u →
  (∀ a, a ∈ ctx_addrs c → h' !! a = relink_heap c v h !! a) →
  ctx_rep h' c v.
Proof.
  intros Hnd Hc Hf. eapply ctx_rep_frame; [exact Hf|]. by eapply ctx_rep_relink.
Qed.

Lemma reparent_heap_lookup_ne t par' h a :
  a ∉ addrs t → reparent_heap t par' h !! a = h !! a.
Proof. destruct t; simpl; [done|]. intros. apply lookup_insert_ne. set_solver. Qed.

Lemma reparent_heap_dom t par par' h :
  rep h par t → dom (reparent_heap t par' h) = dom h.
Proof.
  destruct t; simpl; [done|]. intros (Ha & _).
  rewrite dom_insert_L. apply elem_of_dom_2 in Ha. set_solver.
Qed.

Lemma rep_reparent h par par' t :
  NoDup (addrs t) → rep h par t → rep (reparent_heap t par' h) par' t.
Proof.
  destruct t as [|l a kv hg r]; [done|]. simpl.
  rewrite NoDup_app, NoDup_cons. intros (Hl & Hd & Ha & Hr) (Hx & Hrl & Hrr).
  split_and!; [by rewrite lookup_insert_eq|..]; apply rep_insert_ne; set_solver.
Qed.

Lemma reparent_heap_lookup_congr t par' h1 h2 a :
  h1 !! a = h2 !! a → reparent_heap t par' h1 !! a = reparent_heap t par' h2 !! a.
Proof.
  destruct t as [|l b kv hg r]; simpl; [done|]. intros Heq.
  destruct (decide (b = a)) as [->|]; [by rewrite !lookup_insert_eq|].
  by rewrite !lookup_insert_ne.
Qed.

Lemma rep_reparent_frame h h' par par' t :
  NoDup (addrs t) → rep h par t →
  (∀ a, a ∈ addrs t → h' !! a = reparent_heap t par' h !! a) →
  rep h' par' t.
Proof.
  intros Hnd Hr Hf. eapply rep_frame; [exact Hf|]. by eapply rep_reparent.
Qed.

Lemma wp_reparent t par par' h nx av ms Q :
  rep h par t →
  Q tt (mkWorld (reparent_heap t par' h) nx av ms) →
  wp (match root_ptr t with
      | Some b => modify b (with_parent par')
      | None => ret tt
      end) (mkWorld h nx av ms) Q.
Proof.
  destruct t as [|l a kv hg r]; simpl; intros Hr HQ.
  - by apply wp_ret.
  - destruct Hr as (Ha & _). eapply wp_modify; [done|]. done.
Qed.

End RepFacts.

Arguments relink_heap : simpl never.
Arguments reparent_heap : simpl never.

Ltac nodup_dest :=
  repeat match goal with
  | H : NoDup (_ ++ _) |- _ => apply NoDup_app in H as (? & ? & ?)
  | H : NoDup (_ :: _) |- _ => apply NoDup_cons in H as (? & ?)
  end.

Lemma NoDup_perm {A} (l k : list A) : l ≡ₚ k → NoDup l → NoDup k.
Proof. by intros ->. Qed.

Lemma not_elem_of_perm {A} (x : A) (l k : list A) : l ≡ₚ k → x ∉ l → x ∉ k.
Proof. by intros ->. Qed.

Ltac notin_perm H := eapply not_elem_of_perm; [|exact H]; simpl; solve_Permutation.

Ltac nodup_perm H := eapply NoDup_perm; [|exact H]; simpl; solve_Permutation.

Ltac nodup_dest_in H :=
  lazymatch type of H with
  | NoDup (_ ++ _) =>
      let H1 := fresh in let H2 := fresh in let H3 := fresh in
      apply NoDup_app in H as (H1 & H2 & H3); nodup_dest_in H1; nodup_dest_in H3
  | NoDup (_ :: _) =>
      let H1 := fresh in let H2 := fresh in
      apply NoDup_cons in H as (H1 & H2); nodup_dest_in H2
  | _ => idtac
  end.

(** Disequalities and non-membership from the facts in the context. *)
Ltac fsolve :=
  solve
    [ assumption
    | apply not_eq_sym; assumption
    | let E := fresh in intros E; subst; contradiction
    | match goal with
      | H : ∀ a, a ∈ ?l → a ∉ ?k, Hx : ?x ∈ ?l |- ?x ∉ ?k => exact (H x Hx)
      | H : ∀ a, a ∈ ?k → a ∉ ?l, Hx : ?x ∈ ?l |- ?x ∉ ?k => exact (λ Hk, H x Hk Hx)
      end
    | set_solver ].

Ltac lk :=
  simpl;
  repeat first
    [ rewrite lookup_insert_eq
    | rewrite lookup_insert_ne by fsolve
    | rewrite lookup_delete_ne by fsolve
    | rewrite relink_heap_lookup_ne by fsolve
    | rewrite reparent_heap_lookup_ne by fsolve ];
  first [ eassumption | reflexivity ].

Ltac frame_lk :=
  simpl;
  repeat first
    [ rewrite lookup_insert_ne by fsolve
    | rewrite lookup_delete_ne by fsolve
    | rewrite relink_heap_lookup_ne by fsolve
    | rewrite reparent_heap_lookup_ne by fsolve ];
  done.

Ltac rep_frame_tac :=
  first
    [ eapply rep_frame; [|eassumption]; intros ? ?; frame_lk
    | eapply ctx_rep_frame; [|eassumption]; intros ? ?; frame_lk ].

Ltac reparent_tac :=
  eapply rep_reparent_frame; [done | eassumption |];
  intros ? ?; simpl;
  repeat first
    [ rewrite lookup_insert_ne by fsolve
    | rewrite lookup_delete_ne by fsolve
    | rewrite relink_heap_lookup_ne by fsolve ];
  apply reparent_heap_lookup_congr; frame_lk.

Ltac relink_tac :=
  eapply ctx_rep_relink_frame; [done | eassumption |];
  intros ? ?; simpl;
  repeat first
    [ rewrite lookup_insert_ne by fsolve
    | rewrite lookup_delete_ne by fsolve
    | rewrite reparent_heap_lookup_ne by fsolve ];
  apply relink_heap_lookup_congr; frame_lk.

Ltac wp_load := apply wp_bind; eapply wp_load; [lk|]; simpl.

Ltac wp_modify := apply wp_bind; eapply wp_modify; [lk|]; simpl.

Section Rot.
Context {K V : Type}.
Implicit Types (h : gmap positive (@Node K V)) (w : @world K V).

Lemma wp_rotateLeft this c n A x kvx hx B y kvy hy C h nx av ms Q :
  ms !! this = Some (mkMap (ctx_root c (Some x)) n) →
  rep h (ctx_par c) (T A x kvx hx (T B y kvy hy C)) →
  ctx_rep h c (Some x) →
  NoDup (addrs (T A x kvx hx (T B y kvy hy C)) ++ ctx_addrs c) →
  (∀ h', rep h' (ctx_par c) (node (node A x kvx B) y kvy C) →
         ctx_rep h' c (Some y) →
         dom h' = dom h →
         (∀ a, a ∉ addrs (T A x kvx hx (T B y kvy hy C)) ++ ctx_addrs c → h' !! a = h !! a) →
         Q y (mkWorld h' nx av (<[this := mkMap (ctx_root c (Some y)) n]> ms))) →
  wp (rotateLeft this x) (mkWorld h nx av ms) Q.
Proof.
  intros Hms Hrep Hctx Hnd HQ.
  simpl in Hrep. destruct Hrep as (Hx & HA & Hy & HB & HC).
  simpl in Hnd.
  unfold rotateLeft.
  nodup_dest.
  assert (Hxy : x ≠ y) by set_solver.
  assert (Hxc : x ∉ ctx_addrs c) by set_solver.
  assert (Hyc : y ∉ ctx_addrs c) by set_solver.
  assert (HxA : x ∉ addrs A) by set_solver.
  assert (HyA : y ∉ addrs A) by set_solver.
  assert (HxB : x ∉ addrs B) by set_solver.
  assert (HyB : y ∉ addrs B) by set_solver.
  assert (HxC : x ∉ addrs C) by set_solver.
  assert (HAc : ∀ a, a ∈ addrs A → a ∉ ctx_addrs c) by set_solver.
  assert (HBc : ∀ a, a ∈ addrs B → a ∉ ctx_addrs c) by set_solver.
  assert (HCc : ∀ a, a ∈ addrs C → a ∉ ctx_addrs c) by set_solver.
  assert (HAB : ∀ a, a ∈ addrs A → a ∉ addrs B) by set_solver.
  assert (HCB : ∀ a, a ∈ addrs C → a ∉ addrs B) by set_solver.
  wp_load. apply wp_bind, wp_nonnull.
  wp_load. wp_modify. wp_modify.
  apply wp_bind. eapply wp_reparent with (t := B); [rep_frame_tac|].
  wp_load. wp_modify. wp_modify.
  apply wp_bind. eapply wp_relink; [done| rep_frame_tac | done |].
  apply wp_bind. eapply wp_update with (l := A) (r := B);
    [lk | rep_frame_tac | reparent_tac |].
  apply wp_bind. eapply wp_update with (l := node A x kvx B) (r := C);
    [lk | simpl; split_and!; [lk | rep_frame_tac | reparent_tac] | rep_frame_tac |].
  apply wp_ret. apply HQ.
  - simpl. split_and!; [lk | lk | rep_frame_tac | reparent_tac | rep_frame_tac].
  - relink_tac.
  - rewrite !dom_insert_L.
    erewrite relink_heap_dom; [|rep_frame_tac].
    rewrite !dom_insert_L.
    erewrite reparent_heap_dom; [|rep_frame_tac].
    rewrite !dom_insert_L.
    apply elem_of_dom_2 in Hx, Hy. set_solver.
  - intros a Ha. frame_lk.
Qed.

Lemma wp_rotateRight this c n A x kvx hx B y kvy hy C h nx av ms Q :
  ms !! this = Some (mkMap (ctx_root c (Some y)) n) →
  rep h (ctx_par c) (T (T A x kvx hx B) y kvy hy C) →
  ctx_rep h c (Some y) →
  NoDup (addrs (T (T A x kvx hx B) y kvy hy C) ++ ctx_addrs c) →
  (∀ h', rep h' (ctx_par c) (node A x kvx (node B y kvy C)) →
         ctx_rep h' c (Some x) →
         dom h' = dom h →
         (∀ a, a ∉ addrs (T (T A x kvx hx B) y kvy hy C) ++ ctx_addrs c → h' !! a = h !! a) →
         Q x (mkWorld h' nx av (<[this := mkMap (ctx_root c (Some x)) n]> ms))) →
  wp (rotateRight this y) (mkWorld h nx av ms) Q.
Proof.
  intros Hms Hrep Hctx Hnd HQ.
  simpl in Hrep. destruct Hrep as (Hy & (Hx & HA & HB) & HC).
  simpl in Hnd.
  unfold rotateRight.
  nodup_dest.
  assert (Hxy : x ≠ y) by set_solver.
  assert (Hxc : x ∉ ctx_addrs c) by set_solver.
  assert (Hyc : y ∉ ctx_addrs c) by set_solver.
  assert (HxA : x ∉ addrs A) by set_solver.
  assert (HyA : y ∉ addrs A) by set_solver.
  assert (HxB : x ∉ addrs B) by set_solver.
  assert (HyB : y ∉ addrs B) by set_solver.
  assert (HxC : x ∉ addrs C) by set_solver.
  assert (HyC : y ∉ addrs C) by set_solver.
  assert (HAc : ∀ a, a ∈ addrs A → a ∉ ctx_addrs c) by set_solver.
  assert (HBc : ∀ a, a ∈ addrs B → a ∉ ctx_addrs c) by set_solver.
  assert (HCc : ∀ a, a ∈ addrs C → a ∉ ctx_addrs c) by set_solver.
  assert (HAB : ∀ a, a ∈ addrs A → a ∉ addrs B) by set_solver.
  assert (HCB : ∀ a, a ∈ addrs C → a ∉ addrs B) by set_solver.
  wp_load. apply wp_bind, wp_nonnull.
  wp_load. wp_modify. wp_modify.
  apply wp_bind. eapply wp_reparent with (t := B); [rep_frame_tac|].
  wp_load. wp_modify. wp_modify.
  apply wp_bind. eapply wp_relink; [done| rep_frame_tac | done |].
  apply wp_bind. eapply wp_update with (l := B) (r := C);
    [lk | reparent_tac | rep_frame_tac |].
  apply wp_bind. eapply wp_update with (l := A) (r := node B y kvy C);
    [lk | rep_frame_tac | simpl; split_and!; [lk | reparent_tac | rep_frame_tac] |].
  apply wp_ret. apply HQ.
  - simpl. split_and!; [lk | rep_frame_tac | lk | reparent_tac | rep_frame_tac].
  - relink_tac.
  - rewrite !dom_insert_L.
    erewrite relink_heap_dom; [|rep_frame_tac].
    rewrite !dom_insert_L.
    erewrite reparent_heap_dom; [|rep_frame_tac].
    rewrite !dom_insert_L.
    apply elem_of_dom_2 in Hx, Hy. set_solver.
  - intros a Ha. frame_lk.
Qed.

End Rot.

Section RebalanceFacts.
Context {K V : Type}.
Implicit Types (h : gmap positive (@Node K V)) (w : @world K V).
Implicit Types (s t : @tree K V).

Arguments rotL : simpl never.

Arguments rotR : simpl never.

Lemma addrs_rotL t t' : rotL t = Some t' → addrs t' = addrs t.
Proof.
  destruct t as [|A x kvx hx [|B y kvy hy C]]; simpl; try done.
  intros [= <-]. simpl. by rewrite <- app_assoc.
Qed.

Lemma addrs_rotR t t' : rotR t = Some t' → addrs t' = addrs t.
Proof.
  destruct t as [|[|A x kvx hx B] y kvy hy C]; simpl; try done.
  intros [= <-]. simpl. by rewrite <- app_assoc.
Qed.

Lemma entries_rotL t t' : rotL t = Some t' → entries t' = entries t.
Proof.
  destruct t as [|A x kvx hx [|B y kvy hy C]]; simpl; try done.
  intros [= <-]. simpl. by rewrite <- app_assoc.
Qed.

Lemma entries_rotR t t' : rotR t = Some t' → entries t' = entries t.
Proof.
  destruct t as [|[|A x kvx hx B] y kvy hy C]; simpl; try done.
  intros [= <-]. simpl. by rewrite <- app_assoc.
Qed.

Lemma wp_rotL this c n s s' x h nx av ms Q :
  rotL s = Some s' → root_ptr s = Some x →
  ms !! this = Some (mkMap (ctx_root c (Some x)) n) →
  rep h (ctx_par c) s →
  ctx_rep h c (Some x) →
  NoDup (addrs s ++ ctx_addrs c) →
  (∀ h' y, root_ptr s' = Some y →
         rep h' (ctx_par c) s' →
         ctx_rep h' c (Some y) →
         dom h' = dom h →
         (∀ a, a ∉ addrs s ++ ctx_addrs c → h' !! a = h !! a) →
         Q y (mkWorld h' nx av (<[this := mkMap (ctx_root c (Some y)) n]> ms))) →
  wp (rotateLeft this x) (mkWorld h nx av ms) Q.
Proof.
  destruct s as [|A x' kvx hx [|B y kvy hy C]]; simpl; try done.
  intros [= <-] [= ->] Hms Hr Hc Hnd HQ.
  eapply wp_rotateLeft; [done|exact Hr|done|done|].
  intros h' H1 H2 H3 H4. by apply HQ.
Qed.

Lemma wp_rotR this c n s s' y h nx av ms Q :
  rotR s = Some s' → root_ptr s = Some y →
  ms !! this = Some (mkMap (ctx_root c (Some y)) n) →
  rep h (ctx_par c) s →
  ctx_rep h c (Some y) →
  NoDup (addrs s ++ ctx_addrs c) →
  (∀ h' x, root_ptr s' = Some x →
         rep h' (ctx_par c) s' →
         ctx_rep h' c (Some x) →
         dom h' = dom h →
         (∀ a, a ∉ addrs s ++ ctx_addrs c → h' !! a = h !! a) →
         Q x (mkWorld h' nx av (<[this := mkMap (ctx_root c (Some x)) n]> ms))) →
  wp (rotateRight this y) (mkWorld h nx av ms) Q.
Proof.
  destruct s as [|[|A x kvx hx B] y' kvy hy C]; simpl; try done.
  intros [= <-] [= ->] Hms Hr Hc Hnd HQ.
  eapply wp_rotateRight; [done|exact Hr|done|done|].
  intros h' H1 H2 H3 H4. by apply HQ.
Qed.

Lemma rotL_parent l a kv hg r s' h par :
  rotL (T l a kv hg r) = Some s' → rep h par s' →
  ∃ nd, h !! a = Some nd ∧ parent nd = root_ptr s'.
Proof.
  destruct r as [|B y kvy hy C]; simpl; [done|]. intros [= <-]. simpl.
  intros (_ & (Ha & _) & _). eauto.
Qed.

Lemma rotR_parent l a kv hg r s' h par :
  rotR (T l a kv hg r) = Some s' → rep h par s' →
  ∃ nd, h !! a = Some nd ∧ parent nd = root_ptr s'.
Proof.
  destruct l as [|A x kvx hx B]; simpl; [done|]. intros [= <-]. simpl.
  intros (_ & _ & (Ha & _)). eauto.
Qed.

Lemma rotL_root t t' : rotL t = Some t' → ∃ a, root_ptr t = Some a.
Proof. destruct t; simpl; [done|eauto]. Qed.

Lemma rotR_root t t' : rotR t = Some t' → ∃ a, root_ptr t = Some a.
Proof. destruct t; simpl; [done|eauto]. Qed.

Lemma wp_rebalanceAt this c n s s' rot a h nx av ms Q :
  root_ptr s = Some a →
  rebalanceAt_t s = Some (s', rot) →
  ms !! this = Some (mkMap (ctx_root c (Some a)) n) →
  rep h (ctx_par c) s → ctx_rep h c (Some a) →
  NoDup (addrs s ++ ctx_addrs c) →
  (∀ h', rep h' (ctx_par c) s' → ctx_rep h' c (root_ptr s') → dom h' = dom h →
     (∀ b, b ∉ addrs s ++ ctx_addrs c → h' !! b = h !! b) →
     (∃ nd, h' !! a = Some nd ∧ parent nd = if rot then root_ptr s' else ctx_par c) →
     Q tt (mkWorld h' nx av (<[this := mkMap (ctx_root c (root_ptr s')) n]> ms))) →
  wp (rebalanceAt this (Some a)) (mkWorld h nx av ms) Q.
Proof.
  destruct s as [|l a' kv hg r]; [done|]. simpl root_ptr. intros [= ->] Hreb Hms Hrep Hctx Hnd HQ.
  destruct Hrep as (Ha & Hl & Hr).
  pose proof Hnd as Hnd0.
  simpl in Hnd. nodup_dest_in Hnd.
  assert (Hal : a ∉ addrs l) by set_solver.
  assert (Har : a ∉ addrs r) by set_solver.
  assert (Hac : a ∉ ctx_addrs c) by set_solver.
  unfold rebalanceAt.
  apply wp_bind. eapply wp_update; [exact Ha|done|done|].
  simpl in Hreb.
  remember (Z.max (ht l) (ht r) + 1) as hg1 eqn:Ehg1.
  set (h1 := <[a := _]> h).
  assert (Ha1 : h1 !! a = Some (mkNode kv (root_ptr l) (root_ptr r) (ctx_par c) hg1))
    by apply lookup_insert_eq.
  assert (Hl1 : rep h1 (Some a) l) by (by apply rep_insert_ne).
  assert (Hr1 : rep h1 (Some a) r) by (by apply rep_insert_ne).
  assert (Hc1 : ctx_rep h1 c (Some a)).
  { eapply ctx_rep_frame; [|done]. intros b Hb. apply lookup_insert_ne. set_solver. }
  assert (Hd1 : dom h1 = dom h).
  { unfold h1. rewrite dom_insert_L. apply elem_of_dom_2 in Ha. set_solver. }
  assert (Hf1 : ∀ b, b ∉ addrs (T l a kv hg r) ++ ctx_addrs c → h1 !! b = h !! b).
  { intros b Hb. apply lookup_insert_ne. simpl in Hb. set_solver. }
  clearbody h1.
  apply wp_bind. eapply wp_balance; [exact Ha1|done|done|].
  destruct (ht r - ht l >? 1) eqn:Hbf.
  - (* right-heavy *)
    destruct r as [|rl ra rkv rhg rr]; [done|]. simpl in Hreb.
    wp_load.
    apply wp_bind. pose proof Hr1 as (Hra & Hrl & Hrr).
    eapply wp_balance; [exact Hra|done|done|].
    destruct (ht rr - ht rl <? 0) eqn:Hbr.
    + destruct rl as [|A x kvx hx B]; simpl in Hreb; [done|].
      injection Hreb as <- <-.
      apply wp_bind. wp_load. apply wp_bind, wp_nonnull.
      apply wp_bind.
      eapply (wp_rotateRight this (InR l a kv hg1 :: c)); [exact Hms|exact Hr1| |..].
      { simpl. done. }
      { nodup_perm Hnd0. }
      intros h2 Hr2 Hc2 Hd2 Hf2. apply wp_ret.
      simpl in Hc2. destruct Hc2 as (Ha2 & Hl2 & Hc2).
      apply wp_bind.
      eapply (wp_rotateLeft this c n l a kv hg1 A x kvx); [| | exact Hc2 | |].
      { simpl. apply lookup_insert_eq. }
      { split; [exact Ha2|]. split; [exact Hl2|exact Hr2]. }
      { nodup_perm Hnd0. }
      intros h3 Hr3 Hc3 Hd3 Hf3. apply wp_ret.
      rewrite insert_insert_eq. apply HQ.
      * done.
      * done.
      * congruence.
      * intros b Hb. rewrite Hf3, Hf2, Hf1; [done|done|..]; notin_perm Hb.
      * destruct Hr3 as (_ & (Ha3 & _) & _). eauto.
    + simpl in Hreb. injection Hreb as <- <-.
      apply wp_bind, wp_ret.
      apply wp_bind.
      eapply (wp_rotateLeft this c n l a kv hg1 rl ra rkv); [exact Hms | | exact Hc1 | exact Hnd0 |].
      { split; [exact Ha1|]. split; [exact Hl1|exact Hr1]. }
      intros h3 Hr3 Hc3 Hd3 Hf3. apply wp_ret.
      apply HQ.
      * done.
      * done.
      * congruence.
      * intros b Hb. rewrite Hf3, Hf1; done.
      * destruct Hr3 as (_ & (Ha3 & _) & _). eauto.
  - destruct (ht r - ht l <? -1) eqn:Hbf2.
    + (* left-heavy *)
      destruct l as [|ll la lkv lhg lr]; [done|]. simpl in Hreb.
      wp_load.
      apply wp_bind. pose proof Hl1 as (Hla & Hll & Hlr).
      eapply wp_balance; [exact Hla|done|done|].
      destruct (ht lr - ht ll >? 0) eqn:Hbl.
      * destruct lr as [|B y kvy hy C]; simpl in Hreb; [done|].
        injection Hreb as <- <-.
        apply wp_bind. wp_load. apply wp_bind, wp_nonnull.
        apply wp_bind.
        eapply (wp_rotateLeft this (InL a kv hg1 r :: c)); [exact Hms|exact Hl1| |..].
        { simpl. done. }
        { nodup_perm Hnd0. }
        intros h2 Hr2 Hc2 Hd2 Hf2. apply wp_ret.
        simpl in Hc2. destruct Hc2 as (Ha2 & Hl2 & Hc2).
        apply wp_bind.
        eapply (wp_rotateRight this c n _ y kvy _ C a kv hg1 r); [| | exact Hc2 | |].
        { simpl. apply lookup_insert_eq. }
        { split; [exact Ha2|]. split; [exact Hr2|exact Hl2]. }
        { nodup_perm Hnd0. }
        intros h3 Hr3 Hc3 Hd3 Hf3. apply wp_ret.
        rewrite insert_insert_eq. apply HQ.
        -- done.
        -- done.
        -- congruence.
        -- intros b Hb. rewrite Hf3, Hf2, Hf1; [done|done|..]; notin_perm Hb.
        -- destruct Hr3 as (_ & _ & (Ha3 & _)). eauto.
      * simpl in Hreb. injection Hreb as <- <-.
        apply wp_bind, wp_ret.
        apply wp_bind.
        eapply (wp_rotateRight this c n ll la lkv lhg lr a kv hg1 r);
          [exact Hms | | exact Hc1 | exact Hnd0 |].
        { split; [exact Ha1|]. split; [exact Hl1|exact Hr1]. }
        intros h3 Hr3 Hc3 Hd3 Hf3. apply wp_ret.
        apply HQ.
        -- done.
        -- done.
        -- congruence.
        -- intros b Hb. rewrite Hf3, Hf1; done.
        -- destruct Hr3 as (_ & _ & (Ha3 & _)). eauto.
    + injection Hreb as <- <-. apply wp_ret.
      specialize (HQ h1). simpl in HQ. rewrite (insert_id ms) in HQ by done. apply HQ.
      * simpl. done.
      * done.
      * done.
      * done.
      * eauto.
Qed.

Lemma rebalanceAt_t_addrs s s' rot :
  rebalanceAt_t s = Some (s', rot) → addrs s' = addrs s.
Proof.
  destruct s as [|l a kv hg r]; [done|]. simpl.
  destruct (ht r - ht l >? 1).
  - destruct r as [|rl ra rkv rhg rr]; [done|]. simpl.
    destruct (ht rr - ht rl <? 0).
    + destruct rl as [|A x kvx hx B]; simpl; [done|]. intros [= <- <-].
      simpl. rewrite <- ?app_assoc. simpl. by rewrite <- ?app_assoc.
    + simpl. intros [= <- <-]. simpl. by rewrite <- ?app_assoc.
  - destruct (ht r - ht l <? -1).
    + destruct l as [|ll la lkv lhg lr]; [done|]. simpl.
      destruct (ht lr - ht ll >? 0).
      * destruct lr as [|B y kvy hy C]; simpl; [done|]. intros [= <- <-].
        simpl. rewrite <- ?app_assoc. simpl. by rewrite <- ?app_assoc.
      * simpl. intros [= <- <-]. simpl. by rewrite <- ?app_assoc.
    + by intros [= <- <-].
Qed.

Lemma rebalanceAt_t_entries s s' rot :
  rebalanceAt_t s = Some (s', rot) → entries s' = entries s.
Proof.
  destruct s as [|l a kv hg r]; [done|]. simpl.
  destruct (ht r - ht l >? 1).
  - destruct r as [|rl ra rkv rhg rr]; [done|]. simpl.
    destruct (ht rr - ht rl <? 0).
    + destruct rl as [|A x kvx hx B]; simpl; [done|]. intros [= <- <-].
      simpl. rewrite <- ?app_assoc. simpl. by rewrite <- ?app_assoc.
    + simpl. intros [= <- <-]. simpl. by rewrite <- ?app_assoc.
  - destruct (ht r - ht l <? -1).
    + destruct l as [|ll la lkv lhg lr]; [done|]. simpl.
      destruct (ht lr - ht ll >? 0).
      * destruct lr as [|B y kvy hy C]; simpl; [done|]. intros [= <- <-].
        simpl. rewrite <- ?app_assoc. simpl. by rewrite <- ?app_assoc.
      * simpl. intros [= <- <-]. simpl. by rewrite <- ?app_assoc.
    + by intros [= <- <-].
Qed.

Lemma rebalanceAt_t_root s s' rot :
  rebalanceAt_t s = Some (s', rot) →
  ∃ y, root_ptr s' = Some y ∧ (rot = false → root_ptr s = Some y).
Proof.
  destruct s as [|l a kv hg r]; [done|]. simpl.
  destruct (ht r - ht l >? 1).
  - destruct r as [|rl ra rkv rhg rr]; [done|]. simpl.
    destruct (ht rr - ht rl <? 0).
    + destruct rl as [|A x kvx hx B]; simpl; [done|]. intros [= <- <-]. simpl. eexists; split; [done|]; intros; done.
    + simpl. intros [= <- <-]. simpl. eexists; split; [done|]; intros; done.
  - destruct (ht r - ht l <? -1).
    + destruct l as [|ll la lkv lhg lr]; [done|]. simpl.
      destruct (ht lr - ht ll >? 0).
      * destruct lr as [|B y kvy hy C]; simpl; [done|]. intros [= <- <-]. simpl. eexists; split; [done|]; intros; done.
      * simpl. intros [= <- <-]. simpl. eexists; split; [done|]; intros; done.
    + intros [= <- <-]. simpl. eexists; split; [done|]; intros; done.
Qed.

Lemma addrs_plug1 fr s : addrs (plug1 fr s) ≡ₚ addrs s ++ frame_addr fr :: addrs (frame_sib fr).
Proof. destruct fr; simpl; solve_Permutation. Qed.

Lemma rebalanceUp_t_addrs fuel s c t' :
  rebalanceUp_t fuel s c = Some t' → addrs t' ≡ₚ addrs s ++ ctx_addrs c.
Proof.
  revert s c; induction fuel as [|f IH]; intros s c; simpl; [done|].
  destruct (rebalanceAt_t s) as [[s' rot]|] eqn:Hreb; [|done].
  apply rebalanceAt_t_addrs in Hreb. destruct rot.
  - intros H. rewrite (IH _ _ H). by rewrite Hreb.
  - destruct c as [|fr c'].
    + intros [= <-]. simpl. by rewrite app_nil_r, Hreb.
    + intros H. rewrite (IH _ _ H). rewrite addrs_plug1. simpl.
      rewrite Hreb. rewrite <- !app_assoc. done.
Qed.

Lemma entries_plug_congr c s s' :
  entries s = entries s' → entries (plug c s) = entries (plug c s').
Proof.
  revert s s'; induction c as [|[] c IH]; intros s s' Heq; simpl; [done|..];
    apply IH; simpl; by rewrite Heq.
Qed.

Lemma rebalanceUp_t_entries fuel s c t' :
  rebalanceUp_t fuel s c = Some t' → entries t' = entries (plug c s).
Proof.
  revert s c; induction fuel as [|f IH]; intros s c; simpl; [done|].
  destruct (rebalanceAt_t s) as [[s' rot]|] eqn:Hreb; [|done].
  apply rebalanceAt_t_entries in Hreb. destruct rot.
  - intros H. rewrite (IH _ _ H). by apply entries_plug_congr.
  - destruct c as [|fr c'].
    + intros [= <-]. simpl. done.
    + intros H. rewrite (IH _ _ H). simpl. apply entries_plug_congr.
      destruct fr; simpl; by rewrite Hreb.
Qed.

Lemma rebalanceUp_None fuel this : rebalanceUp (K:=K) (V:=V) fuel this None = ret tt.
Proof. by destruct fuel. Qed.

Lemma wp_rebalanceUp fuel this c n s t' a h nx av ms Q :
  root_ptr s = Some a →
  rebalanceUp_t fuel s c = Some t' →
  ms !! this = Some (mkMap (ctx_root c (Some a)) n) →
  rep h (ctx_par c) s → ctx_rep h c (Some a) →
  NoDup (addrs s ++ ctx_addrs c) →
  (∀ h', rep h' None t' → dom h' = dom h →
     (∀ b, b ∉ addrs s ++ ctx_addrs c → h' !! b = h !! b) →
     Q tt (mkWorld h' nx av (<[this := mkMap (root_ptr t') n]> ms))) →
  wp (rebalanceUp fuel this (Some a)) (mkWorld h nx av ms) Q.
Proof.
  revert c s a h ms Q; induction fuel as [|f IH]; intros c s a h ms Q Hroot Hup Hms Hrep Hctx Hnd HQ;
    simpl in Hup; [done|].
  destruct (rebalanceAt_t s) as [[s' rot]|] eqn:Hreb; [|done].
  simpl. apply wp_bind.
  eapply wp_rebalanceAt; [exact Hroot|exact Hreb|exact Hms|exact Hrep|exact Hctx|exact Hnd|].
  intros h1 Hr1 Hc1 Hd1 Hf1 (nd & Hnd1 & Hpar).
  apply wp_bind. eapply wp_load; [exact Hnd1|]. rewrite Hpar.
  pose proof (rebalanceAt_t_root _ _ _ Hreb) as (y & Hy & Hy').
  pose proof (rebalanceAt_t_addrs _ _ _ Hreb) as Had.
  destruct rot.
  - rewrite Hy. rewrite Hy in Hc1.
    eapply (IH c s' y); [exact Hy|exact Hup| |exact Hr1|exact Hc1| |].
    { apply lookup_insert_eq. }
    { by rewrite Had. }
    intros h2 Hr2 Hd2 Hf2. rewrite insert_insert_eq. apply HQ; [done|congruence|].
    intros b Hb. rewrite Hf2, Hf1; [done|done|]. by rewrite Had.
  - specialize (Hy' eq_refl). rewrite Hroot in Hy'. injection Hy' as <-.
    destruct c as [|fr c'].
    + injection Hup as <-. simpl. rewrite rebalanceUp_None. apply wp_ret.
      simpl in *. rewrite Hy. rewrite Hy in HQ. apply HQ; done.
    + simpl. rewrite Hy in Hc1.
      eapply (IH c' (plug1 fr s') (frame_addr fr)); [by destruct fr|exact Hup| | | | |].
      { apply lookup_insert_eq. }
      { destruct fr; simpl in *; rewrite Hy; tauto. }
      { destruct fr; simpl in *; tauto. }
      { eapply NoDup_perm; [|exact Hnd]. rewrite addrs_plug1, Had. simpl.
        by rewrite <- app_assoc. }
      intros h2 Hr2 Hd2 Hf2. rewrite insert_insert_eq. apply HQ; [done|congruence|].
      intros b Hb. rewrite Hf2, Hf1; [done|done|].
      eapply not_elem_of_perm; [|exact Hb]. rewrite addrs_plug1, Had. simpl.
      by rewrite <- app_assoc.
Qed.

End RebalanceFacts.

Section AvlFacts.
Context {K V : Type}.
Implicit Types (s t l r : @tree K V) (c : list (@frame K V)).

Lemma avl_ht_nonneg t : avl t → 0 ≤ ht t.
Proof.
  induction t as [|l IHl a kv hg r IHr]; simpl; [lia|].
  intros (Hl & Hr & -> & _). specialize (IHl Hl). specialize (IHr Hr). lia.
Qed.

Lemma avl_ht_pos l a kv hg r : avl (T l a kv hg r) → 1 ≤ hg.
Proof.
  simpl. intros (Hl & Hr & -> & _).
  pose proof (avl_ht_nonneg _ Hl). pose proof (avl_ht_nonneg _ Hr). lia.
Qed.

Lemma avl_pre_avl t : avl t → t ≠ E → pre_avl t.
Proof. destruct t; [done|]. simpl. intros (? & ? & ? & ?) _. split_and!; [done|done|lia|lia]. Qed.

Lemma rebalanceAt_t_id t : avl t → t ≠ E → rebalanceAt_t t = Some (t, false).
Proof.
  destruct t as [|l a kv hg r]; [done|]. simpl. intros (Hl & Hr & -> & Hb) _.
  destruct (Z.gtb_spec (ht r - ht l) 1); [lia|].
  destruct (Z.ltb_spec (ht r - ht l) (-1)); [lia|]. done.
Qed.

Lemma rebalanceAt_t_avl s :
  pre_avl s →
  ∃ s' rot, rebalanceAt_t s = Some (s', rot) ∧ avl s' ∧
            up s - 1 ≤ ht s' ≤ up s ∧
            (-1 ≤ bf s ≤ 1 → ht s' = up s).
Proof.
  destruct s as [|l a kv hg r]; [done|]. simpl. intros (Hl & Hr & Hb).
  pose proof (avl_ht_nonneg _ Hl) as Hl0. pose proof (avl_ht_nonneg _ Hr) as Hr0.
  destruct (Z.gtb_spec (ht r - ht l) 1) as [Hgt|Hle].
  - destruct r as [|rl ra rkv rhg rr]; [simpl in *; lia|].
    simpl in Hr. destruct Hr as (Hrl & Hrr & -> & Hrb). simpl in *.
    pose proof (avl_ht_nonneg _ Hrl) as Hrl0. pose proof (avl_ht_nonneg _ Hrr) as Hrr0.
    destruct (Z.ltb_spec (ht rr - ht rl) 0) as [Hlt|Hge].
    + destruct rl as [|A x kvx hx B]; [simpl in *; lia|].
      simpl in Hrl. destruct Hrl as (HA & HB & -> & HAB). simpl in *.
      eexists _, _. split; [reflexivity|]. unfold node. simpl.
      split_and!; try done; lia.
    + eexists _, _. split; [reflexivity|]. unfold node. simpl.
      split_and!; try done; lia.
  - destruct (Z.ltb_spec (ht r - ht l) (-1)) as [Hlt|Hge].
    + destruct l as [|ll la lkv lhg lr]; [simpl in *; lia|].
      simpl in Hl. destruct Hl as (Hll & Hlr & -> & Hlb). simpl in *.
      pose proof (avl_ht_nonneg _ Hll) as Hll0. pose proof (avl_ht_nonneg _ Hlr) as Hlr0.
      destruct (Z.gtb_spec (ht lr - ht ll) 0) as [Hgt|Hle2].
      * destruct lr as [|B y kvy hy C]; [simpl in *; lia|].
        simpl in Hlr. destruct Hlr as (HB & HC & -> & HBC). simpl in *.
        eexists _, _. split; [reflexivity|]. unfold node. simpl.
        split_and!; try done; lia.
      * eexists _, _. split; [reflexivity|]. unfold node. simpl.
        split_and!; try done; lia.
    + eexists _, _. split; [reflexivity|]. simpl. split_and!; try done; lia.
Qed.

Lemma avl_plug c s : avl (plug c s) → avl s ∧ avl_ctx c (ht s).
Proof.
  revert s; induction c as [|[a kv hg r|l a kv hg] c IH]; intros s; simpl; [done|..].
  - intros H. apply IH in H as ((Hs & Hr & -> & Hb) & Hc). simpl in Hc.
    split_and!; try done; lia.
  - intros H. apply IH in H as ((Hl & Hs & -> & Hb) & Hc). simpl in Hc.
    split_and!; try done; try lia. by rewrite Z.max_comm.
Qed.

Lemma rebalanceAt_t_ne s s' rot : rebalanceAt_t s = Some (s', rot) → s' ≠ E.
Proof.
  intros H. destruct (rebalanceAt_t_root _ _ _ H) as (y & Hy & _). by destruct s'.
Qed.

Lemma rebalanceUp_t_avl c : ∀ fuel s h0,
  pre_avl s → fits s h0 → avl_ctx c h0 →
  (2 * length c + 2 ≤ fuel)%nat →
  ∃ t', rebalanceUp_t fuel s c = Some t' ∧ avl t'.
Proof.
  induction c as [|fr c IH]; intros fuel s h0 Hpre Hfit Hctx Hfuel.
  - destruct fuel as [|fuel]; simpl in Hfuel; [lia|].
    destruct (rebalanceAt_t_avl s Hpre) as (s' & rot & Hreb & Havl & Hh & Hh').
    pose proof (rebalanceAt_t_ne _ _ _ Hreb) as Hne.
    cbn [rebalanceUp_t]. rewrite Hreb. destruct rot; [|eauto].
    destruct fuel as [|fuel]; [lia|].
    cbn [rebalanceUp_t]. rewrite (rebalanceAt_t_id _ Havl Hne). eauto.
  - destruct fuel as [|fuel]; simpl in Hfuel; [lia|].
    destruct (rebalanceAt_t_avl s Hpre) as (s' & rot & Hreb & Havl & Hh & Hh').
    pose proof (rebalanceAt_t_ne _ _ _ Hreb) as Hne.
    simpl in Hctx. destruct Hctx as (Hsib & Hb & Hctx).
    assert (Hs' : h0 - 1 ≤ ht s' ≤ h0 + 1).
    { unfold fits in Hfit. destruct (decide (-1 ≤ bf s ≤ 1)) as [Hd|Hd].
      - rewrite (Hh' Hd). lia.
      - lia. }
    assert (Hnext : ∀ fuel', (2 * length c + 2 ≤ fuel')%nat →
               ∃ t', rebalanceUp_t fuel' (plug1 fr s') c = Some t' ∧ avl t').
    { intros fuel' Hf'.
      eapply (IH fuel' (plug1 fr s') (Z.max h0 (ht (frame_sib fr)) + 1)); [| |done|lia].
      - destruct fr; simpl in *; split_and!; try done; lia.
      - unfold fits. pose proof (avl_ht_nonneg _ Hsib). pose proof (avl_ht_nonneg _ Havl).
        destruct fr; simpl in *; case_decide; lia. }
    cbn [rebalanceUp_t]. rewrite Hreb. destruct rot.
    + destruct fuel as [|fuel]; [lia|].
      cbn [rebalanceUp_t]. rewrite (rebalanceAt_t_id _ Havl Hne). apply Hnext. lia.
    + apply Hnext. lia.
Qed.

End AvlFacts.

Section SearchFacts.
Context {K V : Type}.
Variable cmp : K → K → bool.
Implicit Types (h : gmap positive (@Node K V)) (w : @world K V).
Implicit Types (s t l r : @tree K V) (c : list (@frame K V)).
Local Abbreviation find_t := (find_t cmp).
Local Abbreviation descend_t := (descend_t cmp).

Lemma depth_le_addrs t : (depth t ≤ length (addrs t))%nat.
Proof.
  induction t as [|l IHl a kv hg r IHr]; simpl; [lia|].
  rewrite length_app. simpl. lia.
Qed.

Lemma wp_findNode_loop fuel key t par h nx av ms (Q : option positive → world → Prop) :
  rep h par t → (depth t < fuel)%nat →
  Q (find_t key t) (mkWorld h nx av ms) →
  wp (findNode_loop cmp fuel key (root_ptr t)) (mkWorld h nx av ms) Q.
Proof.
  revert fuel par; induction t as [|l IHl a kv hg r IHr]; intros fuel par Hr Hf HQ.
  - destruct fuel; simpl; by apply wp_ret.
  - destruct fuel as [|fuel]; [simpl in Hf; lia|]. simpl in *.
    destruct Hr as (Ha & Hl & Hrr).
    apply wp_bind. eapply wp_load; [exact Ha|]. simpl.
    destruct (keyEq cmp key (fst kv)); [by apply wp_ret|].
    destruct (cmp key (fst kv)).
    + eapply IHl; [done|lia|done].
    + eapply IHr; [done|lia|done].
Qed.

Lemma wp_insert_descend fuel key s c h nx av ms (Q : descent → world → Prop) :
  rep h (ctx_par c) s → (depth s < fuel)%nat →
  Q (match descend_t key s c with
     | inl a => Found a
     | inr c' => Vacant (ctx_par c') (is_left c')
     end) (mkWorld h nx av ms) →
  wp (insert_descend cmp fuel key (root_ptr s) (ctx_par c) (is_left c))
     (mkWorld h nx av ms) Q.
Proof.
  revert fuel c; induction s as [|l IHl a kv hg r IHr]; intros fuel c Hr Hf HQ.
  - destruct fuel; simpl; by apply wp_ret.
  - destruct fuel as [|fuel]; [simpl in Hf; lia|]. simpl in *.
    destruct Hr as (Ha & Hl & Hrr).
    apply wp_bind. eapply wp_load; [exact Ha|]. simpl.
    destruct (keyEq cmp key (fst kv)); [by apply wp_ret|].
    destruct (cmp key (fst kv)).
    + apply (IHl fuel (InL a kv hg r :: c)); [done|lia|done].
    + apply (IHr fuel (InR l a kv hg :: c)); [done|lia|done].
Qed.

Lemma descend_t_plug key s c c' :
  descend_t key s c = inr c' → plug c' E = plug c s.
Proof.
  revert c; induction s as [|l IHl a kv hg r IHr]; intros c; simpl.
  - by intros [= <-].
  - destruct (keyEq cmp key (fst kv)); [done|].
    destruct (cmp key (fst kv)); intros H.
    + by rewrite (IHl _ H).
    + by rewrite (IHr _ H).
Qed.

Lemma descend_t_find key s c :
  match descend_t key s c with
  | inl a => find_t key s = Some a
  | inr _ => find_t key s = None
  end.
Proof.
  revert c; induction s as [|l IHl a kv hg r IHr]; intros c; simpl; [done|].
  destruct (keyEq cmp key (fst kv)); [done|].
  destruct (cmp key (fst kv)); [apply IHl|apply IHr].
Qed.

Lemma wp_minNode_loop fuel l a kv hg r par h nx av ms (Q : positive → world → Prop) :
  rep h par (T l a kv hg r) → (depth (T l a kv hg r) ≤ fuel)%nat →
  (∀ m, head (addrs (T l a kv hg r)) = Some m → Q m (mkWorld h nx av ms)) →
  wp (minNode_loop fuel a) (mkWorld h nx av ms) Q.
Proof.
  revert fuel a kv hg r par; induction l as [|ll IHl la lkv lhg lr _];
    intros fuel a kv hg r par Hr Hf HQ.
  - destruct fuel as [|fuel]; [simpl in Hf; lia|]. simpl in *.
    destruct Hr as (Ha & _).
    apply wp_bind. eapply wp_load; [exact Ha|]. simpl. apply wp_ret. by apply HQ.
  - destruct fuel as [|fuel]; [simpl in Hf; lia|].
    destruct Hr as (Ha & Hl & _).
    cbn [minNode_loop].
    apply wp_bind. eapply wp_load; [exact Ha|]. simpl.
    eapply IHl; [exact Hl|simpl in *; lia|].
    intros m Hm. apply HQ. simpl in *.
    rewrite <- !app_assoc. simpl.
    destruct (addrs ll); simpl in *; done.
Qed.

Lemma wp_minNode fuel t par h nx av ms (Q : option positive → world → Prop) :
  rep h par t → (depth t ≤ fuel)%nat →
  Q (head (addrs t)) (mkWorld h nx av ms) →
  wp (minNode fuel (root_ptr t)) (mkWorld h nx av ms) Q.
Proof.
  destruct t as [|l a kv hg r]; intros Hr Hf HQ.
  - by apply wp_ret.
  - unfold minNode. simpl root_ptr. cbv iota.
    apply wp_bind. eapply wp_minNode_loop; [exact Hr|done|].
    intros m Hm. apply wp_ret. by rewrite <- Hm.
Qed.

Lemma wp_maxNode_loop fuel l a kv hg r par h nx av ms (Q : positive → world → Prop) :
  rep h par (T l a kv hg r) → (depth (T l a kv hg r) ≤ fuel)%nat →
  (∀ m, last (addrs (T l a kv hg r)) = Some m → Q m (mkWorld h nx av ms)) →
  wp (maxNode_loop fuel a) (mkWorld h nx av ms) Q.
Proof.
  revert fuel a kv hg l par; induction r as [|rl _ ra rkv rhg rr IHr];
    intros fuel a kv hg l par Hr Hf HQ.
  - destruct fuel as [|fuel]; [simpl in Hf; lia|]. simpl in *.
    destruct Hr as (Ha & _).
    apply wp_bind. eapply wp_load; [exact Ha|]. simpl. apply wp_ret. apply HQ.
    by rewrite last_snoc.
  - destruct fuel as [|fuel]; [simpl in Hf; lia|].
    destruct Hr as (Ha & _ & Hrr).
    cbn [maxNode_loop].
    apply wp_bind. eapply wp_load; [exact Ha|]. simpl.
    eapply IHr; [exact Hrr|simpl in *; lia|].
    intros m Hm. apply HQ. simpl in *.
    rewrite last_app, last_cons. rewrite Hm. done.
Qed.

Lemma wp_maxNode fuel t par h nx av ms (Q : option positive → world → Prop) :
  rep h par t → (depth t ≤ fuel)%nat →
  Q (last (addrs t)) (mkWorld h nx av ms) →
  wp (maxNode fuel (root_ptr t)) (mkWorld h nx av ms) Q.
Proof.
  destruct t as [|l a kv hg r]; intros Hr Hf HQ.
  - by apply wp_ret.
  - unfold maxNode. simpl root_ptr. cbv iota.
    apply wp_bind. eapply wp_maxNode_loop; [exact Hr|done|].
    intros m Hm. apply wp_ret. by rewrite <- Hm.
Qed.

End SearchFacts.

Section InsertFacts.
Context {K V : Type}.
Variable cmp : K → K → bool.
Implicit Types (h : gmap positive (@Node K V)) (w : @world K V).
Implicit Types (s t l r : @tree K V) (c : list (@frame K V)).
Local Abbreviation insert_t := (insert_t cmp).

Lemma wp_get_root this m h nx av ms (Q : option positive → @world K V → Prop) :
  ms !! this = Some m → Q (root m) (mkWorld h nx av ms) →
  wp (get_root this) (mkWorld h nx av ms) Q.
Proof.
  intros Hm HQ. unfold get_root. apply wp_bind. eapply wp_get_map; [done|]. by apply wp_ret.
Qed.

Lemma wp_loop_bound h nx av ms (Q : nat → @world K V → Prop) :
  Q (2 * size h + 2)%nat (mkWorld h nx av ms) →
  wp loop_bound (mkWorld h nx av ms) Q.
Proof. intros HQ. by eexists _, _. Qed.

Lemma wp_new_node v p h nx k ms (Q : positive → @world K V → Prop) :
  Q nx (mkWorld (<[nx := mkNode v None None p 1]> h) (Pos.succ nx) k ms) →
  wp (new_node v p) (mkWorld h nx (S k) ms) Q.
Proof. intros HQ. by eexists _, _. Qed.

Lemma wp_set_count this (cnt : Z) m h nx av ms (Q : unit → @world K V → Prop) :
  ms !! this = Some m →
  Q tt (mkWorld h nx av (<[this := mkMap (root m) cnt]> ms)) →
  wp (set_count this cnt) (mkWorld h nx av ms) Q.
Proof.
  intros Hm HQ. unfold set_count. apply wp_bind. eapply wp_get_map; [done|].
  by eexists _, _.
Qed.

Lemma wp_inc_count this m h nx av ms (Q : unit → @world K V → Prop) :
  ms !! this = Some m →
  Q tt (mkWorld h nx av (<[this := mkMap (root m) (wrap (nodeCount m + 1))]> ms)) →
  wp (inc_count this) (mkWorld h nx av ms) Q.
Proof.
  intros Hm HQ. unfold inc_count, get_count. apply wp_bind, wp_bind.
  eapply wp_get_map; [done|]. apply wp_ret. by eapply wp_set_count.
Qed.

Lemma wp_dec_count this m h nx av ms (Q : unit → @world K V → Prop) :
  ms !! this = Some m →
  Q tt (mkWorld h nx av (<[this := mkMap (root m) (wrap (nodeCount m - 1))]> ms)) →
  wp (dec_count this) (mkWorld h nx av ms) Q.
Proof.
  intros Hm HQ. unfold dec_count, get_count. apply wp_bind, wp_bind.
  eapply wp_get_map; [done|]. apply wp_ret. by eapply wp_set_count.
Qed.

Lemma rep_in_dom h par t a : rep h par t → a ∈ addrs t → is_Some (h !! a).
Proof.
  revert par; induction t as [|l IHl b kv hg r IHr]; simpl; intros par; [set_solver|].
  intros (Hb & Hl & Hr) Ha.
  apply elem_of_app in Ha as [Ha|Ha]; [by eapply IHl|].
  apply elem_of_cons in Ha as [->|Ha]; [eauto|by eapply IHr].
Qed.

Lemma rep_addrs_size h par t : rep h par t → NoDup (addrs t) → (length (addrs t) ≤ size h)%nat.
Proof.
  intros Hr Hnd.
  assert (Hsub : list_to_set (C := gset positive) (addrs t) ⊆ dom h).
  { intros a Ha. apply elem_of_list_to_set in Ha.
    apply elem_of_dom. by eapply rep_in_dom. }
  apply subseteq_size in Hsub. rewrite size_list_to_set in Hsub by done.
  by rewrite size_dom in Hsub.
Qed.

Lemma length_ctx_le c s : (length c ≤ length (ctx_addrs c))%nat.
Proof.
  induction c as [|fr c IH]; simpl; [lia|]. rewrite length_app. lia.
Qed.

Lemma wp_insert this n v t t' b fresh h nx av ms
    (Q : @iterator * bool → @world K V → Prop) :
  ms !! this = Some (mkMap (root_ptr t) n) →
  rep h None t → NoDup (addrs t) → h !! nx = None →
  insert_t (2 * size h + 2) nx v t = Some (t', b, fresh) →
  (fresh = true → (0 < av)%nat) →
  (if fresh then
     ∀ h', rep h' None t' → dom h' = {[nx]} ∪ dom h →
           (∀ x, x ∉ addrs t → x ≠ nx → h' !! x = h !! x) →
           Q (mkIt (Some nx) (Some this), true)
             (mkWorld h' (Pos.succ nx) (pred av)
                (<[this := mkMap (root_ptr t') (wrap (n + 1))]> ms))
   else Q (mkIt (Some b) (Some this), false) (mkWorld h nx av ms)) →
  wp (insert cmp this v) (mkWorld h nx av ms) Q.
Proof.
  intros Hms Hrep Hnd Hnx Hins Hav HQ.
  unfold insert.
  apply wp_bind. eapply wp_get_root; [exact Hms|]. simpl.
  apply wp_bind, wp_loop_bound.
  pose proof (rep_addrs_size _ _ _ Hrep Hnd) as Hsz.
  pose proof (depth_le_addrs t) as Hdp.
  apply wp_bind.
  apply (wp_insert_descend cmp _ (fst v) t []); [exact Hrep|lia|].
  unfold insert_t in Hins.
  destruct (descend_t cmp (fst v) t []) as [b'|c] eqn:Hd.
  { injection Hins as <- <- <-. by apply wp_ret. }
  pose proof (descend_t_plug _ _ _ _ _ Hd) as Hplug. simpl in Hplug.
  assert (Hnxt : nx ∉ addrs t).
  { intros Hin. eapply rep_in_dom in Hin; [|exact Hrep]. rewrite Hnx in Hin.
    by destruct Hin. }
  assert (Hperm : addrs t ≡ₚ ctx_addrs c).
  { rewrite <- Hplug. by rewrite addrs_plug. }
  rewrite <- Hplug in Hrep. apply rep_plug in Hrep as (_ & Hctx). simpl in Hctx.
  destruct c as [|fr c'].
  - (* empty tree *)
    injection Hins as <- <- <-. specialize (Hav eq_refl).
    destruct av as [|k]; [lia|]. simpl.
    apply wp_bind, wp_new_node.
    apply wp_bind. eapply wp_set_root; [exact Hms|]. simpl.
    apply wp_bind. eapply wp_inc_count; [apply lookup_insert_eq|]. simpl.
    rewrite insert_insert_eq.
    apply wp_bind. rewrite rebalanceUp_None. apply wp_ret. apply wp_ret.
    apply HQ.
    + simpl. split_and!; [apply lookup_insert_eq|done|done].
    + by rewrite dom_insert_L.
    + intros x _ Hx. by rewrite lookup_insert_ne.
  - destruct (rebalanceUp_t (2 * size h + 2) (plug1 fr (leaf nx v)) c') as [t''|] eqn:Hup;
      simpl in Hins; [|done].
    injection Hins as <- <- <-. specialize (Hav eq_refl).
    destruct av as [|k]; [lia|]. simpl.
    apply wp_bind, wp_new_node.
    assert (Hndc : NoDup (ctx_addrs (fr :: c'))) by (by rewrite <- Hperm).
    assert (Hnxc : nx ∉ ctx_addrs (fr :: c')) by (by rewrite <- Hperm).
    set (h1 := <[nx := mkNode v None None (Some (frame_addr fr)) 1]> h).
    assert (Hctx1 : ctx_rep h1 (fr :: c') None).
    { eapply ctx_rep_frame; [|exact Hctx]. intros x Hx. apply lookup_insert_ne.
      intros ->. done. }
    pose proof (ctx_rep_relink _ None (Some nx) _ Hndc Hctx1) as Hctx2.
    assert (Hroot : root_ptr t = ctx_root c' (Some (frame_addr fr))).
    { rewrite <- Hplug. by rewrite root_ptr_plug. }
    apply wp_bind.
    eapply (wp_mono _ _ (λ _ w', w' = mkWorld (relink_heap (fr :: c') (Some nx) h1)
                                   (Pos.succ nx) k ms)).
    { unfold relink_heap.
      destruct fr as [fa fkv fhg fr|fl fa fkv fhg]; simpl in *.
      - destruct Hctx1 as (Hfa & _). eapply wp_modify; [exact Hfa|]. done.
      - destruct Hctx1 as (Hfa & _). eapply wp_modify; [exact Hfa|]. done. }
    intros _ w' ->.
    apply wp_bind. eapply wp_inc_count; [exact Hms|]. simpl.
    apply wp_bind.
    eapply (wp_rebalanceUp _ this c' (wrap (n + 1)) (plug1 fr (leaf nx v)) t'' (frame_addr fr));
      [by destruct fr|exact Hup| | | | |].
    + rewrite Hroot. apply lookup_insert_eq.
    + assert (Hlf : relink_heap (fr :: c') (Some nx) h1 !! nx
                    = Some (mkNode v None None (Some (frame_addr fr)) 1)).
      { rewrite relink_heap_lookup_ne by done. apply lookup_insert_eq. }
      destruct fr as [fa fkv fhg fr|fl fa fkv fhg]; simpl in *;
        destruct Hctx2 as (Hfa & Hsib & _); split_and!; try done; by rewrite Hfa.
    + destruct fr; simpl in *; tauto.
    + eapply NoDup_perm with (l := nx :: ctx_addrs (fr :: c')).
      * rewrite addrs_plug1. simpl. solve_Permutation.
      * by apply NoDup_cons.
    + intros h3 Hr3 Hd3 Hf3. apply wp_ret.
      rewrite insert_insert_eq. apply HQ.
      * done.
      * rewrite Hd3. erewrite relink_heap_dom; [|exact Hctx1].
        unfold h1. by rewrite dom_insert_L.
      * intros x Hx Hxn. rewrite Hf3.
        -- rewrite relink_heap_lookup_ne by (by rewrite <- Hperm).
           unfold h1. by rewrite lookup_insert_ne.
        -- rewrite Hperm in Hx. intros Hin. apply Hx.
           rewrite addrs_plug1 in Hin. simpl in *. set_solver.
Qed.

End InsertFacts.

Section EraseFacts.
Context {K V : Type}.
Implicit Types (h : gmap positive (@Node K V)) (w : @world K V).
Implicit Types (s t l r : @tree K V) (c : list (@frame K V)).

Lemma plug_app c1 c2 s : plug (c1 ++ c2) s = plug c2 (plug c1 s).
Proof. revert s; induction c1 as [|f c1 IH]; intros s; simpl; [done|]. apply IH. Qed.

Lemma locate_plug a t c c' s :
  locate a t c = Some (c', s) → plug c' s = plug c t ∧ root_ptr s = Some a.
Proof.
  revert c; induction t as [|l IHl b kv hg r IHr]; intros c; simpl; [done|].
  destruct (decide (a = b)) as [->|Hne].
  - by intros [= <- <-].
  - destruct (locate a l (InL b kv hg r :: c)) as [x|] eqn:Hl.
    + intros [= ->]. by apply IHl in Hl.
    + intros Hr. by apply IHr in Hr.
Qed.

Lemma locate_Some a t c : a ∈ addrs t → is_Some (locate a t c).
Proof.
  revert c; induction t as [|l IHl b kv hg r IHr]; intros c; simpl; [set_solver|].
  intros Ha. destruct (decide (a = b)) as [->|Hne]; [eauto|].
  apply elem_of_app in Ha as [Ha|Ha].
  - destruct (IHl (InL b kv hg r :: c) Ha) as [x ->]. eauto.
  - apply elem_of_cons in Ha as [->|Ha]; [done|].
    destruct (locate a l (InL b kv hg r :: c)); [eauto|]. by apply IHr.
Qed.

Lemma min_split_spec l a kv hg r c c' sa kvs hs SR :
  min_split l a kv hg r c = (c', sa, kvs, hs, SR) →
  plug c' (T E sa kvs hs SR) = plug c (T l a kv hg r) ∧
  head (addrs (T l a kv hg r)) = Some sa ∧
  ∃ cs, c' = cs ++ c ∧ (length cs ≤ depth l)%nat.
Proof.
  revert a kv hg r c; induction l as [|ll IHl la lkv lhg lr _]; intros a kv hg r c; simpl.
  - intros [= <- <- <- <- <-]. split_and!; [done|done|]. exists []. split; [done|simpl; lia].
  - intros H. apply IHl in H as (Hp & Hh & cs & -> & Hlen). split_and!.
    + done.
    + simpl in Hh. rewrite <- !app_assoc. simpl.
      destruct (addrs ll); simpl in *; done.
    + exists (cs ++ [InL a kv hg r]). rewrite <- app_assoc. split; [done|].
      rewrite length_app. simpl. lia.
Qed.

(** ** [transplant] and the second walk of [rebalanceUp] on the heap *)
Lemma wp_transplant this c n u nu Vt vp h nx av ms (Q : unit → @world K V → Prop) :
  ms !! this = Some (mkMap (ctx_root c (Some u)) n) →
  h !! u = Some nu → parent nu = ctx_par c →
  ctx_rep h c (Some u) → u ∉ ctx_addrs c →
  rep h vp Vt → (∀ a, a ∈ addrs Vt → a ∉ ctx_addrs c) →
  Q tt (mkWorld (reparent_heap Vt (ctx_par c) (relink_heap c (root_ptr Vt) h)) nx av
          (<[this := mkMap (ctx_root c (root_ptr Vt)) n]> ms)) →
  wp (transplant this u (root_ptr Vt)) (mkWorld h nx av ms) Q.
Proof.
  intros Hms Hu Hpar Hctx Huc Hv Hvc HQ. unfold transplant.
  apply wp_bind. eapply wp_load; [exact Hu|]. rewrite Hpar.
  apply wp_bind. eapply wp_relink; [exact Hms|exact Hctx|exact Huc|].
  eapply wp_reparent; [|exact HQ].
  eapply rep_frame; [|exact Hv]. intros a Ha. apply relink_heap_lookup_ne. by apply Hvc.
Qed.

Lemma wp_rebalance_from fuel this c n s t' h nx av ms (Q : unit → @world K V → Prop) :
  rebalance_from fuel c s = Some t' →
  ms !! this = Some (mkMap (ctx_root c (root_ptr s)) n) →
  rep h None (plug c s) → NoDup (addrs (plug c s)) →
  (∀ h', rep h' None t' → dom h' = dom h →
     (∀ b, b ∉ addrs (plug c s) → h' !! b = h !! b) →
     Q tt (mkWorld h' nx av (<[this := mkMap (root_ptr t') n]> ms))) →
  wp (rebalanceUp fuel this (ctx_par c)) (mkWorld h nx av ms) Q.
Proof.
  intros Hreb Hms Hrep Hnd HQ. destruct c as [|fr c']; simpl in *.
  - injection Hreb as <-. rewrite rebalanceUp_None. apply wp_ret.
    specialize (HQ h Hrep eq_refl (λ _ _, eq_refl)).
    by rewrite insert_id in HQ.
  - apply rep_plug in Hrep as (Hr & Hc).
    eapply wp_rebalanceUp; [|exact Hreb| |exact Hr| | |].
    + by destruct fr.
    + exact Hms.
    + by destruct fr.
    + eapply NoDup_perm; [|exact Hnd]. by rewrite addrs_plug.
    + intros h' Hr' Hd' Hf'. apply HQ; [done|done|].
      intros b Hb. apply Hf'. by rewrite <- addrs_plug.
Qed.

Lemma wp_rebalance_at fuel this p n t t' h nx av ms (Q : unit → @world K V → Prop) :
  rebalance_at fuel p t = Some t' →
  ms !! this = Some (mkMap (root_ptr t) n) →
  rep h None t → NoDup (addrs t) →
  (∀ h', rep h' None t' → dom h' = dom h →
     (∀ b, b ∉ addrs t → h' !! b = h !! b) →
     Q tt (mkWorld h' nx av (<[this := mkMap (root_ptr t') n]> ms))) →
  wp (rebalanceUp fuel this p) (mkWorld h nx av ms) Q.
Proof.
  intros Hreb Hms Hrep Hnd HQ. destruct p as [a|]; simpl in *.
  - destruct (locate a t []) as [[c s]|] eqn:Hloc; simpl in Hreb; [|done].
    apply locate_plug in Hloc as (Hp & Hroot). simpl in Hp. subst t.
    apply rep_plug in Hrep as (Hr & Hc). rewrite Hroot in Hc.
    eapply wp_rebalanceUp; [exact Hroot|exact Hreb| |exact Hr|exact Hc| |].
    + rewrite Hms. by rewrite root_ptr_plug, Hroot.
    + eapply NoDup_perm; [|exact Hnd]. by rewrite addrs_plug.
    + intros h' Hr' Hd' Hf'. apply HQ; [done|done|].
      intros b Hb. apply Hf'. by rewrite <- addrs_plug.
  - injection Hreb as <-. rewrite rebalanceUp_None. apply wp_ret.
    specialize (HQ h Hrep eq_refl (λ _ _, eq_refl)).
    by rewrite insert_id in HQ.
Qed.

Lemma wp_delete_node a nd h nx av ms (Q : unit → @world K V → Prop) :
  h !! a = Some nd →
  Q tt (mkWorld (delete a h) nx av ms) →
  wp (delete_node a) (mkWorld h nx av ms) Q.
Proof. intros Ha HQ. eexists _, _. split; [|exact HQ]. unfold delete_node. simpl. by rewrite Ha. Qed.

Lemma rebalance_from_addrs fuel c s t' :
  rebalance_from fuel c s = Some t' → addrs t' ≡ₚ addrs (plug c s).
Proof.
  destruct c as [|fr c']; simpl.
  - by intros [= <-].
  - intros H. rewrite (rebalanceUp_t_addrs _ _ _ _ H). by rewrite addrs_plug.
Qed.

Lemma wp_erase_tail fuel this cz n z kvz hz L rz sa kvs hs cs SR vp t1 t' h nx av ms
    (Q : unit → @world K V → Prop) :
  ms !! this = Some (mkMap (ctx_root cz (Some z)) n) →
  h !! z = Some (mkNode kvz (root_ptr L) rz (ctx_par cz) hz) →
  rep h (Some z) L →
  rep h vp (T E sa kvs hs (plug cs SR)) →
  ctx_rep h cz (Some z) →
  NoDup (z :: sa :: addrs L ++ addrs (plug cs SR) ++ ctx_addrs cz) →
  rebalance_from fuel (cs ++ InR L sa kvs hs :: cz) SR = Some t1 →
  rebalance_at fuel (ctx_par cz) t1 = Some t' →
  (∀ h', rep h' None t' → dom h' = dom h ∖ {[z]} →
     (∀ b, b ∉ z :: sa :: addrs L ++ addrs (plug cs SR) ++ ctx_addrs cz → h' !! b = h !! b) →
     Q tt (mkWorld h' nx av (<[this := mkMap (root_ptr t') (wrap (n - 1))]> ms))) →
  wp (erase_tail fuel this z sa (ctx_par (cs ++ InR L sa kvs hs :: cz)))
     (mkWorld h nx av ms) Q.
Proof.
  intros Hms Hz HL HV Hcz Hnd Hr1 Hr2 HQ.
  set (R' := plug cs SR) in *.
  pose proof Hnd as Hnd0.
  nodup_dest_in Hnd.
  match goal with H : z ∉ _ |- _ => rename H into Hz1 end.
  match goal with H : sa ∉ _ |- _ => rename H into Hs1 end.
  assert (Hzs : z ≠ sa) by set_solver.
  assert (HzL : z ∉ addrs L) by set_solver.
  assert (HzR : z ∉ addrs R') by set_solver.
  assert (Hzc : z ∉ ctx_addrs cz) by set_solver.
  assert (HsL : sa ∉ addrs L) by set_solver.
  assert (HsR : sa ∉ addrs R') by set_solver.
  assert (Hsc : sa ∉ ctx_addrs cz) by set_solver.
  assert (HLc : ∀ a, a ∈ addrs L → a ∉ ctx_addrs cz) by set_solver.
  assert (HRc : ∀ a, a ∈ addrs R' → a ∉ ctx_addrs cz) by set_solver.
  assert (HLR : ∀ a, a ∈ addrs L → a ∉ addrs R') by set_solver.
  destruct HV as (Hsa & _ & HR').
  unfold erase_tail.
  wp_load.
  apply wp_bind.
  eapply (wp_transplant this cz n z _ (T E sa kvs hs R') vp);
    [exact Hms|exact Hz|done|exact Hcz|done| | |].
  { simpl. done. }
  { simpl. intros a Ha. apply elem_of_cons in Ha as [->|Ha]; [done|]. by apply HRc. }
  unfold reparent_heap at 1. simpl root_ptr.
  wp_load. wp_modify.
  wp_load.
  apply wp_bind. eapply wp_reparent with (t := L); [rep_frame_tac|].
  apply wp_bind. eapply wp_delete_node; [lk|].
  apply wp_bind. eapply wp_dec_count; [apply lookup_insert_eq|]. simpl.
  rewrite insert_insert_eq.
  set (h7 := delete z _).
  assert (Hrep7 : rep h7 None (plug cz (T L sa kvs hs R'))).
  { apply rep_plug. unfold h7. split.
    - simpl. split_and!; [lk|reparent_tac|rep_frame_tac].
    - simpl. relink_tac. }
  assert (Hd7 : dom h7 = dom h ∖ {[z]}).
  { unfold h7. rewrite dom_delete_L.
    erewrite reparent_heap_dom; [|rep_frame_tac].
    rewrite !dom_insert_L.
    erewrite relink_heap_dom; [|exact Hcz].
    apply elem_of_dom_2 in Hsa. set_solver. }
  assert (Hf7 : ∀ b, b ∉ z :: sa :: addrs L ++ addrs R' ++ ctx_addrs cz → h7 !! b = h !! b).
  { intros b Hb. unfold h7.
    assert (b ≠ z) by set_solver. assert (b ≠ sa) by set_solver.
    assert (b ∉ addrs L) by set_solver. assert (b ∉ ctx_addrs cz) by set_solver.
    frame_lk. }
  clearbody h7.
  assert (Hplug : plug cz (T L sa kvs hs R') = plug (cs ++ InR L sa kvs hs :: cz) SR).
  { by rewrite plug_app. }
  assert (Hndt : NoDup (addrs (plug cz (T L sa kvs hs R')))).
  { eapply NoDup_perm; [|exact (proj2 (proj1 (NoDup_cons _ _) Hnd0))].
    rewrite addrs_plug. simpl. solve_Permutation. }
  assert (Hsub : ∀ b, b ∉ z :: sa :: addrs L ++ addrs R' ++ ctx_addrs cz →
                      b ∉ addrs (plug cz (T L sa kvs hs R'))).
  { intros b Hb Hin. apply Hb. rewrite addrs_plug in Hin. simpl in Hin. set_solver. }
  apply wp_bind.
  eapply (wp_rebalance_from fuel this (cs ++ InR L sa kvs hs :: cz) (wrap (n - 1)) SR t1);
    [exact Hr1| |by rewrite <- Hplug|by rewrite <- Hplug|].
  { rewrite <- root_ptr_plug, <- Hplug, root_ptr_plug. apply lookup_insert_eq. }
  intros h8 Hr8 Hd8 Hf8. rewrite insert_insert_eq.
  pose proof (rebalance_from_addrs _ _ _ _ Hr1) as Hperm1. rewrite <- Hplug in Hperm1.
  eapply (wp_rebalance_at fuel this (ctx_par cz) (wrap (n - 1)) t1 t');
    [exact Hr2|apply lookup_insert_eq|exact Hr8|by rewrite Hperm1|].
  intros h9 Hr9 Hd9 Hf9. rewrite !insert_insert_eq. apply HQ; [done|congruence|].
  intros b Hb. rewrite Hf9, Hf8, Hf7; [done|done|..].
  - rewrite <- Hplug. by apply Hsub.
  - rewrite Hperm1. by apply Hsub.
Qed.

Lemma ctx_addrs_app c1 c2 : ctx_addrs (c1 ++ c2) = ctx_addrs c1 ++ ctx_addrs c2.
Proof.
  induction c1 as [|f c1 IH]; simpl; [done|]. rewrite IH. by rewrite <- !app_assoc.
Qed.

Lemma ctx_root_app c1 c2 p : ctx_root (c1 ++ c2) p = ctx_root c2 (ctx_root c1 p).
Proof. revert p; induction c1 as [|f c1 IH]; intros p; simpl; [done|]. apply IH. Qed.

(** Zero or one child: [z] is spliced out and the walk starts at its parent. *)
Lemma wp_erase_simple fuel this cz n z nz Ch t' h nx av ms (Q : unit → @world K V → Prop) :
  ms !! this = Some (mkMap (ctx_root cz (Some z)) n) →
  h !! z = Some nz → parent nz = ctx_par cz →
  rep h (Some z) Ch →
  ctx_rep h cz (Some z) →
  NoDup (z :: addrs Ch ++ ctx_addrs cz) →
  rebalance_from fuel cz Ch = Some t' →
  (∀ h', rep h' None t' → dom h' = dom h ∖ {[z]} →
     (∀ b, b ∉ z :: addrs Ch ++ ctx_addrs cz → h' !! b = h !! b) →
     Q tt (mkWorld h' nx av (<[this := mkMap (root_ptr t') (wrap (n - 1))]> ms))) →
  wp (bind (transplant this z (root_ptr Ch)) (λ _,
      bind (delete_node z) (λ _,
      bind (dec_count this) (λ _,
      rebalanceUp fuel this (ctx_par cz)))))
     (mkWorld h nx av ms) Q.
Proof.
  intros Hms Hz Hpar HC Hcz Hnd Hr HQ.
  pose proof Hnd as Hnd0. nodup_dest_in Hnd.
  match goal with H : z ∉ _ |- _ => rename H into Hz1 end.
  assert (HzC : z ∉ addrs Ch) by set_solver.
  assert (Hzc : z ∉ ctx_addrs cz) by set_solver.
  assert (HCc : ∀ a, a ∈ addrs Ch → a ∉ ctx_addrs cz) by set_solver.
  apply wp_bind.
  eapply (wp_transplant this cz n z nz Ch (Some z));
    [exact Hms|exact Hz|done|exact Hcz|done|exact HC|exact HCc|].
  apply wp_bind. eapply wp_delete_node; [lk|].
  apply wp_bind. eapply wp_dec_count; [apply lookup_insert_eq|]. simpl.
  rewrite insert_insert_eq.
  set (h3 := delete z _).
  assert (Hrep3 : rep h3 None (plug cz Ch)).
  { apply rep_plug. unfold h3. split; [reparent_tac|relink_tac]. }
  assert (Hd3 : dom h3 = dom h ∖ {[z]}).
  { unfold h3. rewrite dom_delete_L.
    erewrite reparent_heap_dom; [|rep_frame_tac].
    by erewrite relink_heap_dom; [|exact Hcz]. }
  assert (Hf3 : ∀ b, b ∉ z :: addrs Ch ++ ctx_addrs cz → h3 !! b = h !! b).
  { intros b Hb. unfold h3.
    assert (b ≠ z) by set_solver.
    assert (b ∉ addrs Ch) by set_solver. assert (b ∉ ctx_addrs cz) by set_solver.
    frame_lk. }
  clearbody h3.
  eapply (wp_rebalance_from fuel this cz (wrap (n - 1)) Ch t');
    [exact Hr|apply lookup_insert_eq|exact Hrep3| |].
  { eapply NoDup_perm; [|exact (proj2 (proj1 (NoDup_cons _ _) Hnd0))].
    by rewrite addrs_plug. }
  intros h4 Hr4 Hd4 Hf4. rewrite !insert_insert_eq. apply HQ; [done|congruence|].
  intros b Hb. rewrite Hf4, Hf3; [done|done|].
  rewrite addrs_plug. set_solver.
Qed.

Lemma wp_eraseNode fuel this n z t t' h nx av ms (Q : unit → @world K V → Prop) :
  ms !! this = Some (mkMap (root_ptr t) n) →
  rep h None t → NoDup (addrs t) →
  (length (addrs t) ≤ fuel)%nat →
  erase_t fuel z t = Some t' →
  (∀ h', rep h' None t' → dom h' = dom h ∖ {[z]} →
     (∀ b, b ∉ addrs t → h' !! b = h !! b) →
     Q tt (mkWorld h' nx av (<[this := mkMap (root_ptr t') (wrap (n - 1))]> ms))) →
  wp (eraseNode fuel this (Some z)) (mkWorld h nx av ms) Q.
Proof.
  intros Hms Hrep Hnd Hfuel Hers HQ.
  unfold erase_t in Hers.
  destruct (locate z t []) as [[cz s]|] eqn:Hloc; simpl in Hers; [|done].
  apply locate_plug in Hloc as (Hplug & Hroot). simpl in Hplug.
  destruct s as [|L z' kvz hz R]; [done|]. simpl in Hroot. injection Hroot as ->.
  subst t.
  pose proof Hrep as Hrep0.
  apply rep_plug in Hrep as ((Hz & HL & HR) & Hcz). simpl in Hcz.
  rewrite root_ptr_plug in Hms. simpl in Hms.
  assert (Hperm : addrs (plug cz (T L z kvz hz R)) ≡ₚ z :: addrs L ++ addrs R ++ ctx_addrs cz).
  { rewrite addrs_plug. simpl. solve_Permutation. }
  assert (Hnd1 : NoDup (z :: addrs L ++ addrs R ++ ctx_addrs cz)) by (by rewrite <- Hperm).
  unfold eraseNode.
  apply wp_bind. eapply wp_load; [exact Hz|]. cbn [left right parent].
  destruct L as [|ll la lkv lhg lr].
  { (* no left child *)
    rewrite decide_True by (left; done). cbn [root_ptr].
    destruct R as [|rl ra rkv rhg rr]; cbn [root_ptr] in *.
    - eapply (wp_erase_simple fuel this cz n z _ E); [exact Hms|exact Hz|done|done|exact Hcz| |exact Hers|].
      { eapply NoDup_perm; [|exact Hnd1]. simpl. solve_Permutation. }
      intros h' H1 H2 H3. apply HQ; [done|done|].
      intros b Hb. apply H3. rewrite Hperm in Hb. simpl in *. set_solver.
    - eapply (wp_erase_simple fuel this cz n z _ (T rl ra rkv rhg rr));
        [exact Hms|exact Hz|done|exact HR|exact Hcz| |exact Hers|].
      { eapply NoDup_perm; [|exact Hnd1]. simpl. solve_Permutation. }
      intros h' H1 H2 H3. apply HQ; [done|done|].
      intros b Hb. apply H3. rewrite Hperm in Hb. simpl in *. set_solver. }
  destruct R as [|rl ra rkv rhg rr].
  { (* no right child *)
    rewrite decide_True by (right; done). cbn [root_ptr].
    eapply (wp_erase_simple fuel this cz n z _ (T ll la lkv lhg lr));
      [exact Hms|exact Hz|done|exact HL|exact Hcz| |exact Hers|].
    { eapply NoDup_perm; [|exact Hnd1]. simpl. solve_Permutation. }
    intros h' H1 H2 H3. apply HQ; [done|done|].
    intros b Hb. apply H3. rewrite Hperm in Hb. simpl in *. set_solver. }
  (* two children *)
  rewrite decide_False by (cbn; intros [?|?]; done).
  set (L := T ll la lkv lhg lr) in *.
  destruct (min_split rl ra rkv rhg rr []) as [[[[cs sa] kvs] hs] SR] eqn:Hmin.
  destruct (rebalance_from fuel (cs ++ InR L sa kvs hs :: cz) SR) as [t1|] eqn:Hr1;
    simpl in Hers; [|done].
  apply min_split_spec in Hmin as (Hplug & Hhead & cs0 & Hcs & Hlen).
  rewrite app_nil_r in Hcs. subst cs0. simpl in Hplug.
  set (R := T rl ra rkv rhg rr) in *.
  set (S0 := T E sa kvs hs SR) in *.
  (* the successor, seen from the root *)
  assert (Hwhole : plug cz (T L z kvz hz R) = plug (cs ++ InR L z kvz hz :: cz) S0).
  { rewrite plug_app. simpl. by rewrite Hplug. }
  rewrite Hwhole in Hrep0. apply rep_plug in Hrep0 as ((Hsa & _ & HSR) & HC0).
  cbn [root_ptr S0] in HC0, Hsa.
  assert (HpermR : addrs R ≡ₚ sa :: addrs SR ++ ctx_addrs cs).
  { rewrite <- Hplug. rewrite addrs_plug. simpl. done. }
  assert (HpermR' : addrs (plug cs SR) ≡ₚ addrs SR ++ ctx_addrs cs) by apply addrs_plug.
  assert (Hnd2 : NoDup (z :: sa :: addrs L ++ addrs (plug cs SR) ++ ctx_addrs cz)).
  { eapply NoDup_perm; [|exact Hnd1]. rewrite HpermR, HpermR'. solve_Permutation. }
  (* minNode(z->right) *)
  apply wp_bind.
  eapply (wp_minNode fuel R (Some z)); [exact HR| |].
  { pose proof (depth_le_addrs R). rewrite Hperm in Hfuel. cbn [length] in Hfuel.
    rewrite !length_app in Hfuel. lia. }
  rewrite Hhead.
  apply wp_bind, wp_nonnull.
  apply wp_bind. eapply wp_load; [exact Hsa|]. cbn [left right parent].
  apply wp_bind.
  destruct cs as [|f1 cs'].
  - (* the successor is the right child of z *)
    cbn [app ctx_par frame_addr].
    rewrite decide_False by (intros Hne; by apply Hne).
    apply wp_ret.
    simpl in Hplug.
    eapply (wp_erase_tail fuel this cz n z kvz hz L (root_ptr R) sa kvs hs [] SR (Some z) t1 t');
      [exact Hms|exact Hz|exact HL| |exact Hcz|exact Hnd2|exact Hr1|exact Hers|].
    { change (rep h (Some z) S0). rewrite Hplug. exact HR. }
    intros h' H1 H2 H3. apply HQ; [done|done|].
    intros b Hb. apply H3. rewrite Hperm, HpermR in Hb. rewrite HpermR'.
    eapply not_elem_of_perm; [|exact Hb]. solve_Permutation.
  - (* the successor lies deeper: cut it loose first *)
    set (C0 := (f1 :: cs') ++ InR L z kvz hz :: cz) in *.
    set (pa := frame_addr f1).
    assert (HpC : ctx_par C0 = Some pa) by done.
    rewrite HpC in Hsa |- *.
    assert (HndC : NoDup (sa :: addrs SR ++ ctx_addrs C0)).
    { eapply NoDup_perm; [|exact Hnd1]. unfold C0. rewrite ctx_addrs_app, HpermR. simpl.
      solve_Permutation. }
    pose proof HndC as HndC0. nodup_dest_in HndC.
    match goal with H : sa ∉ _ |- _ => rename H into Hs1 end.
    assert (Hpz : pa ≠ z).
    { intros Heq. assert (Hin : NoDup (ctx_addrs C0)) by done.
      unfold C0 in Hin. rewrite ctx_addrs_app in Hin. simpl in Hin.
      apply NoDup_cons in Hin as (Hin & _). apply Hin. fold pa. rewrite Heq. set_solver. }
    rewrite decide_True by (intros [= ?]; done).
    assert (HsC : sa ∉ ctx_addrs C0) by set_solver.
    assert (HSC : ∀ a, a ∈ addrs SR → a ∉ ctx_addrs C0) by set_solver.
    assert (HsS : sa ∉ addrs SR) by set_solver.
    assert (HrootC : ∀ p, ctx_root C0 p = ctx_root cz (Some z)).
    { intros p. unfold C0. by rewrite ctx_root_app. }
    apply wp_bind.
    eapply (wp_transplant this C0 n sa _ SR (Some sa));
      [by rewrite HrootC|exact Hsa|done|exact HC0|exact HsC|exact HSR|exact HSC|].
    rewrite HpC, HrootC.
    rewrite (insert_id ms) by done.
    set (h1 := reparent_heap SR (Some pa) (relink_heap C0 (root_ptr SR) h)).
    assert (Hrep1 : rep h1 None (plug C0 SR)).
    { apply rep_plug. rewrite HpC. unfold h1. split; [reparent_tac|relink_tac]. }
    assert (Hsa1 : h1 !! sa = Some (mkNode kvs None (root_ptr SR) (Some pa) hs)).
    { unfold h1. lk. }
    assert (Hd1 : dom h1 = dom h).
    { unfold h1. erewrite reparent_heap_dom; [|rep_frame_tac].
      by erewrite relink_heap_dom; [|exact HC0]. }
    assert (Hf1 : ∀ b, b ∉ addrs SR → b ∉ ctx_addrs C0 → h1 !! b = h !! b).
    { intros b Hb1 Hb2. unfold h1. frame_lk. }
    clearbody h1.
    unfold C0 in Hrep1. rewrite plug_app in Hrep1. simpl in Hrep1.
    apply rep_plug in Hrep1 as ((Hz1 & HL1 & HR1) & Hcz1). simpl in Hcz1.
    set (R' := plug (f1 :: cs') SR) in *.
    pose proof Hnd2 as Hnd3. nodup_dest_in Hnd3.
    match goal with H : z ∉ _ |- _ => rename H into Hz2 end.
    match goal with H : sa ∉ addrs L ++ _ |- _ => rename H into Hs2 end.
    assert (Hzs : z ≠ sa) by set_solver.
    assert (HsR : sa ∉ addrs R') by set_solver.
    assert (HzR : z ∉ addrs R') by set_solver.
    assert (HsL : sa ∉ addrs L) by set_solver.
    assert (Hsc : sa ∉ ctx_addrs cz) by set_solver.
    assert (HLR : ∀ a, a ∈ addrs L → a ∉ addrs R') by set_solver.
    assert (HcR : ∀ a, a ∈ ctx_addrs cz → a ∉ addrs R') by set_solver.
    apply wp_bind. eapply wp_load; [exact Hz1|]. cbn [left right parent].
    apply wp_bind. eapply wp_modify; [exact Hsa1|]. cbn [with_right value left right parent height nodes next avail maps].
    apply wp_bind. eapply wp_load; [apply lookup_insert_eq|]. cbn [left right parent].
    apply wp_bind. eapply (wp_reparent R' (Some z)); [rep_frame_tac|].
    apply wp_ret.
    set (h3 := reparent_heap R' (Some sa) _).
    eapply (wp_erase_tail fuel this cz n z kvz hz L (root_ptr R') sa kvs hs (f1 :: cs') SR
              (Some pa) t1 t');
      [exact Hms| | | | |exact Hnd2|exact Hr1|exact Hers|].
    + unfold h3. lk.
    + unfold h3. rep_frame_tac.
    + fold R'. simpl. unfold h3. split_and!; [lk|done|reparent_tac].
    + unfold h3. rep_frame_tac.
    + intros h' Hp1 Hp2 Hp3. apply HQ; [done| |].
      * rewrite Hp2. unfold h3. erewrite reparent_heap_dom; [|rep_frame_tac].
        rewrite dom_insert_L, Hd1. apply elem_of_dom_2 in Hsa. set_solver.
      * intros b Hb. rewrite Hperm in Hb.
        assert (Hb' : b ∉ z :: sa :: addrs L ++ addrs R' ++ ctx_addrs cz).
        { eapply not_elem_of_perm; [|exact Hb]. rewrite HpermR, HpermR'.
          solve_Permutation. }
        rewrite (Hp3 b Hb'). unfold h3.
        assert (b ∉ addrs R') by set_solver. assert (b ≠ sa) by set_solver.
        rewrite reparent_heap_lookup_ne by done. rewrite lookup_insert_ne by done.
        apply Hf1.
        -- rewrite HpermR in Hb. set_solver.
        -- unfold C0. rewrite ctx_addrs_app. rewrite HpermR in Hb. simpl in *. set_solver.
Qed.

End EraseFacts.

Section TraverseFacts.
Context {K V : Type}.
Implicit Types (h : gmap positive (@Node K V)) (w : @world K V).
Implicit Types (s t l r : @tree K V) (c : list (@frame K V)).

Lemma addrs_plug_inorder c s :
  addrs (plug c s) = ctx_before c ++ addrs s ++ ctx_after c.
Proof.
  revert s; induction c as [|[b kv hg r|l b kv hg] c IH]; intros s; simpl.
  - by rewrite app_nil_r.
  - rewrite IH. simpl. by rewrite <- !app_assoc.
  - rewrite IH. simpl. rewrite <- !app_assoc. simpl. done.
Qed.

Lemma next_in_app (l1 : list positive) a (l2 : list positive) : a ∉ l1 → next_in (l1 ++ a :: l2) a = head l2.
Proof.
  induction l1 as [|x l1 IH]; simpl; intros Ha.
  - by rewrite decide_True.
  - rewrite decide_False by set_solver. apply IH. set_solver.
Qed.

Lemma prev_in_notin (l0 : list positive) a : a ∉ l0 → prev_in l0 a = None.
Proof.
  induction l0 as [|x l0 IH]; simpl; [done|]. intros Ha.
  apply not_elem_of_cons in Ha as (Hxa & Ha).
  destruct l0 as [|y l0]; [done|].
  rewrite decide_False by set_solver. by apply IH.
Qed.

Lemma prev_in_app (l1 : list positive) a (l2 : list positive) :
  a ∉ l1 → a ∉ l2 → prev_in (l1 ++ a :: l2) a = last l1.
Proof.
  induction l1 as [|x l1 IH]; simpl; intros Ha Ha2.
  - destruct l2 as [|y l2]; [done|].
    rewrite decide_False by set_solver. by apply prev_in_notin.
  - apply not_elem_of_cons in Ha as (Hxa & Ha). specialize (IH Ha Ha2).
    destruct l1 as [|y l1]; simpl in *.
    + by rewrite decide_True.
    + apply not_elem_of_cons in Ha as (Hya & Ha).
      rewrite decide_False by done. rewrite IH. done.
Qed.

Lemma wp_nextNode_climb fuel c n h nx av ms (Q : option positive → @world K V → Prop) :
  ctx_rep h c (Some n) → n ∉ ctx_addrs c → NoDup (ctx_addrs c) →
  (length c < fuel)%nat →
  Q (head (ctx_after c)) (mkWorld h nx av ms) →
  wp (nextNode_climb fuel n (ctx_par c)) (mkWorld h nx av ms) Q.
Proof.
  revert fuel n; induction c as [|[b kv hg r|l b kv hg] c IH]; intros fuel n Hc Hn Hnd Hf HQ.
  - destruct fuel; simpl; by apply wp_ret.
  - destruct fuel as [|fuel]; [simpl in Hf; lia|]. simpl in *.
    destruct Hc as (Hb & Hr & Hc).
    apply wp_bind. eapply wp_load; [exact Hb|]. simpl.
    rewrite decide_False.
    2:{ destruct r; simpl; [done|]. intros [= ->]. set_solver. }
    by apply wp_ret.
  - destruct fuel as [|fuel]; [simpl in Hf; lia|]. simpl in *.
    destruct Hc as (Hb & Hl & Hc).
    apply wp_bind. eapply wp_load; [exact Hb|]. simpl.
    rewrite decide_True by done.
    apply NoDup_cons in Hnd as (Hb1 & Hnd). apply NoDup_app in Hnd as (_ & _ & Hnd).
    eapply IH; [exact Hc|set_solver|done|lia|done].
Qed.

Lemma wp_prevNode_climb fuel c n h nx av ms (Q : option positive → @world K V → Prop) :
  ctx_rep h c (Some n) → n ∉ ctx_addrs c → NoDup (ctx_addrs c) →
  (length c < fuel)%nat →
  Q (last (ctx_before c)) (mkWorld h nx av ms) →
  wp (prevNode_climb fuel n (ctx_par c)) (mkWorld h nx av ms) Q.
Proof.
  revert fuel n; induction c as [|[b kv hg r|l b kv hg] c IH]; intros fuel n Hc Hn Hnd Hf HQ.
  - destruct fuel; simpl; by apply wp_ret.
  - destruct fuel as [|fuel]; [simpl in Hf; lia|]. simpl in *.
    destruct Hc as (Hb & Hr & Hc).
    apply wp_bind. eapply wp_load; [exact Hb|]. simpl.
    rewrite decide_True by done.
    apply NoDup_cons in Hnd as (Hb1 & Hnd). apply NoDup_app in Hnd as (_ & _ & Hnd).
    eapply IH; [exact Hc|set_solver|done|lia|done].
  - destruct fuel as [|fuel]; [simpl in Hf; lia|]. simpl in *.
    destruct Hc as (Hb & Hl & Hc).
    apply wp_bind. eapply wp_load; [exact Hb|]. simpl.
    rewrite decide_False.
    2:{ destruct l; simpl; [done|]. intros [= ->]. set_solver. }
    apply wp_ret. rewrite app_assoc, last_snoc in HQ. done.
Qed.

Lemma length_le_ctx_addrs c : (length c ≤ length (ctx_addrs c))%nat.
Proof. induction c as [|f c IH]; simpl; [lia|]. rewrite length_app. lia. Qed.

Lemma wp_nextNode fuel a t h nx av ms (Q : option positive → @world K V → Prop) :
  rep h None t → NoDup (addrs t) → a ∈ addrs t →
  (length (addrs t) < fuel)%nat →
  Q (next_in (addrs t) a) (mkWorld h nx av ms) →
  wp (nextNode fuel (Some a)) (mkWorld h nx av ms) Q.
Proof.
  intros Hrep Hnd Ha Hf HQ.
  destruct (locate_Some a t [] Ha) as [[c s] Hloc].
  apply locate_plug in Hloc as (Hplug & Hroot). simpl in Hplug.
  destruct s as [|L a' kv hg R]; [done|]. simpl in Hroot. injection Hroot as ->.
  subst t.
  assert (Hperm := addrs_plug c (T L a kv hg R)).
  rewrite Hperm in Hnd. rewrite Hperm in Hf. simpl in Hnd, Hf.
  rewrite !length_app in Hf. simpl in Hf.
  apply rep_plug in Hrep as ((Hza & HL & HR) & Hc). simpl in Hc.
  assert (Hnext : next_in (addrs (plug c (T L a kv hg R))) a = head (addrs R ++ ctx_after c)).
  { rewrite addrs_plug_inorder. simpl. rewrite <- !app_assoc. simpl.
    rewrite app_assoc. apply next_in_app.
    assert (Hnd' : NoDup (addrs (plug c (T L a kv hg R)))) by (by rewrite Hperm).
    rewrite addrs_plug_inorder in Hnd'. simpl in Hnd'.
    rewrite <- !app_assoc in Hnd'. simpl in Hnd'. rewrite app_assoc in Hnd'.
    apply NoDup_app in Hnd' as (_ & Hd & _). intros Hin. apply (Hd _ Hin). set_solver. }
  rewrite Hnext in HQ.
  unfold nextNode.
  apply wp_bind. eapply wp_load; [exact Hza|]. cbn [left right parent].
  destruct R as [|rl ra rkv rhg rr].
  - cbn [root_ptr]. simpl in HQ.
    apply NoDup_app in Hnd as (Hn1 & Hn2 & Hn3).
    eapply wp_nextNode_climb; [exact Hc| |done| |done].
    + intros Hin. apply (Hn2 a); [set_solver|done].
    + pose proof (length_le_ctx_addrs c). lia.
  - cbn [root_ptr]. cbv beta iota.
    eapply (wp_minNode fuel (T rl ra rkv rhg rr) (Some a)); [exact HR| |].
    + pose proof (depth_le_addrs (T rl ra rkv rhg rr)). lia.
    + simpl in HQ |- *. destruct (addrs rl); simpl in *; done.
Qed.

Lemma wp_prevNode fuel a t h nx av ms (Q : option positive → @world K V → Prop) :
  rep h None t → NoDup (addrs t) → a ∈ addrs t →
  (length (addrs t) < fuel)%nat →
  Q (prev_in (addrs t) a) (mkWorld h nx av ms) →
  wp (prevNode fuel (Some a)) (mkWorld h nx av ms) Q.
Proof.
  intros Hrep Hnd Ha Hf HQ.
  destruct (locate_Some a t [] Ha) as [[c s] Hloc].
  apply locate_plug in Hloc as (Hplug & Hroot). simpl in Hplug.
  destruct s as [|L a' kv hg R]; [done|]. simpl in Hroot. injection Hroot as ->.
  subst t.
  assert (Hperm := addrs_plug c (T L a kv hg R)).
  rewrite Hperm in Hnd. rewrite Hperm in Hf. simpl in Hnd, Hf.
  rewrite !length_app in Hf. simpl in Hf.
  apply rep_plug in Hrep as ((Hza & HL & HR) & Hc). simpl in Hc.
  assert (Hprev : prev_in (addrs (plug c (T L a kv hg R))) a = last (ctx_before c ++ addrs L)).
  { rewrite addrs_plug_inorder. simpl. rewrite <- !app_assoc. simpl.
    rewrite app_assoc.
    assert (Hnd' : NoDup (addrs (plug c (T L a kv hg R)))) by (by rewrite Hperm).
    rewrite addrs_plug_inorder in Hnd'. simpl in Hnd'.
    rewrite <- !app_assoc in Hnd'. simpl in Hnd'. rewrite app_assoc in Hnd'.
    apply NoDup_app in Hnd' as (_ & Hd & Hd2). apply NoDup_cons in Hd2 as (Hd2 & _).
    apply prev_in_app; [|done].
    intros Hin. apply (Hd _ Hin). set_solver. }
  rewrite Hprev in HQ.
  unfold prevNode.
  apply wp_bind. eapply wp_load; [exact Hza|]. cbn [left right parent].
  destruct L as [|ll la lkv lhg lr].
  - cbn [root_ptr]. simpl in HQ. rewrite app_nil_r in HQ.
    apply NoDup_app in Hnd as (Hn1 & Hn2 & Hn3).
    eapply wp_prevNode_climb; [exact Hc| |done| |done].
    + intros Hin. apply (Hn2 a); [set_solver|done].
    + pose proof (length_le_ctx_addrs c). lia.
  - cbn [root_ptr]. cbv beta iota.
    eapply (wp_maxNode fuel (T ll la lkv lhg lr) (Some a)); [exact HL| |].
    + pose proof (depth_le_addrs (T ll la lkv lhg lr)). lia.
    + rewrite last_app in HQ.
      destruct (last (addrs (T ll la lkv lhg lr))) eqn:Hl; [done|].
      simpl in Hl. rewrite last_app, last_cons in Hl.
      destruct (last (addrs lr)); done.
Qed.

End TraverseFacts.

Section CloneDestroyFacts.
Context {K V : Type}.
Implicit Types (h : gmap positive (@Node K V)) (w : @world K V).
Implicit Types (s t l r : @tree K V) (c : list (@frame K V)).

Lemma wp_wpx {A} (m : @M K V A) w Q X : wp m w Q → wpx m w Q X.
Proof. intros (a & w' & Hm & HQ). unfold wpx. by rewrite Hm. Qed.

Lemma wpx_bind {A B} (m : @M K V A) (f : A → @M K V B) w Q X :
  wpx m w (λ a w', wpx (f a) w' Q X) X → wpx (bind m f) w Q X.
Proof. unfold wpx, bind. destruct (m w); done. Qed.

Lemma wpx_ret {A} (a : A) w (Q : A → @world K V → Prop) X : Q a w → wpx (ret a) w Q X.
Proof. done. Qed.

Lemma wpx_throw {A} e w (Q : A → @world K V → Prop) (X : exn → @world K V → Prop) :
  X e w → wpx (throw e) w Q X.
Proof. done. Qed.

Lemma wpx_wp {A} (m : @M K V A) w Q : wpx m w Q (λ _ _, False) → wp m w Q.
Proof. unfold wpx, wp. destruct (m w); [eauto|done..]. Qed.

(** ** [destroySubtree] *)
Lemma wp_destroySubtree fuel t par h nx av ms (Q : unit → @world K V → Prop) :
  rep h par t → NoDup (addrs t) → (depth t ≤ fuel)%nat →
  (∀ h', dom h' = dom h ∖ list_to_set (addrs t) →
         (∀ b, b ∉ addrs t → h' !! b = h !! b) →
         Q tt (mkWorld h' nx av ms)) →
  wp (destroySubtree fuel (root_ptr t)) (mkWorld h nx av ms) Q.
Proof.
  revert fuel par h Q; induction t as [|l IHl a kv hg r IHr]; intros fuel par h Q Hrep Hnd Hf HQ.
  - destruct fuel; simpl; apply wp_ret; apply HQ; try done; set_solver.
  - destruct fuel as [|fuel]; [simpl in Hf; lia|]. simpl in *.
    destruct Hrep as (Ha & Hl & Hr).
    apply NoDup_app in Hnd as (Hndl & Hd & Hnd). apply NoDup_cons in Hnd as (Har & Hndr).
    assert (Hal : a ∉ addrs l) by set_solver.
    assert (Hlr : ∀ b, b ∈ addrs r → b ∉ addrs l) by set_solver.
    apply wp_bind. eapply wp_load; [exact Ha|]. simpl.
    apply wp_bind. eapply IHl; [exact Hl|done|lia|].
    intros h1 Hd1 Hf1.
    apply wp_bind. eapply wp_load; [by rewrite Hf1|]. simpl.
    apply wp_bind. eapply IHr; [|done|lia|].
    { eapply rep_frame; [|exact Hr]. intros b Hb. apply Hf1. by apply Hlr. }
    intros h2 Hd2 Hf2.
    eapply wp_delete_node; [by rewrite Hf2, Hf1|].
    apply HQ.
    + rewrite dom_delete_L, Hd2, Hd1. rewrite list_to_set_app_L, list_to_set_cons. set_solver.
    + intros b Hb. rewrite lookup_delete_ne by set_solver.
      rewrite Hf2, Hf1; [done| |]; set_solver.
Qed.

Lemma clone_t_addrs t nx t' nx' :
  clone_t t nx = (t', nx') →
  (nx ≤ nx')%positive ∧ (∀ a, a ∈ addrs t' → (nx ≤ a < nx')%positive) ∧
  NoDup (addrs t') ∧ length (addrs t') = length (addrs t) ∧
  entries t' = entries t.
Proof.
  revert nx t' nx'; induction t as [|l IHl a kv hg r IHr]; intros nx t' nx'; simpl.
  - intros [= <- <-]. split_and!; [lia|set_solver|constructor|done|done].
  - destruct (clone_t l (Pos.succ nx)) as [l' nx1] eqn:Hl.
    destruct (clone_t r nx1) as [r' nx2] eqn:Hr.
    intros [= <- <-].
    apply IHl in Hl as (H1 & H2 & H3 & H4 & H5).
    apply IHr in Hr as (G1 & G2 & G3 & G4 & G5).
    simpl. split_and!.
    + lia.
    + intros b Hb. apply elem_of_app in Hb as [Hb|Hb].
      * apply H2 in Hb. lia.
      * apply elem_of_cons in Hb as [->|Hb]; [lia|]. apply G2 in Hb. lia.
    + apply NoDup_app. split_and!; [done| |].
      * intros b Hb Hb2. apply H2 in Hb.
        apply elem_of_cons in Hb2 as [->|Hb2]; [lia|]. apply G2 in Hb2. lia.
      * apply NoDup_cons. split; [|done]. intros Hb. apply G2 in Hb. lia.
    + rewrite !length_app. simpl. lia.
    + by rewrite H5, G5.
Qed.

Lemma wpx_new_node v p h nx av ms
    (Q : positive → @world K V → Prop) (X : exn → @world K V → Prop) :
  (av = O → X bad_alloc (mkWorld h nx av ms)) →
  (∀ k, av = S k →
     Q nx (mkWorld (<[nx := mkNode v None None p 1]> h) (Pos.succ nx) k ms)) →
  wpx (new_node v p) (mkWorld h nx av ms) Q X.
Proof.
  intros H0 HS. unfold wpx, new_node. simpl. destruct av as [|k]; [by apply H0|by apply HS].
Qed.

Lemma fresh_lookup_None h nx : fresh h nx → h !! nx = None.
Proof.
  intros Hfr. destruct (h !! nx) eqn:Hx; [|done].
  assert (nx < nx)%positive by (apply Hfr; eauto). lia.
Qed.

Lemma rep_fresh_frame h h' par t nx :
  fresh h nx → (∀ b, (b < nx)%positive → h' !! b = h !! b) →
  rep h par t → rep h' par t.
Proof.
  intros Hfr Hf Hr. eapply rep_frame; [|exact Hr].
  intros b Hb. apply Hf. apply Hfr. by eapply rep_in_dom.
Qed.

Lemma wpx_cloneSubtree fuel t par0 par h nx av ms
    (Q : option positive → @world K V → Prop) (X : exn → @world K V → Prop) :
  rep h par0 t → fresh h nx → (depth t ≤ fuel)%nat →
  ((length (addrs t) ≤ av)%nat →
   ∀ h', rep h' par (clone_t t nx).1 →
         fresh h' (clone_t t nx).2 →
         (∀ b, (b < nx)%positive → h' !! b = h !! b) →
         size h' = (size h + length (addrs t))%nat →
         Q (root_ptr (clone_t t nx).1)
           (mkWorld h' (clone_t t nx).2 (av - length (addrs t))%nat ms)) →
  ((av < length (addrs t))%nat →
   ∀ w', maps w' = ms → (nx ≤ next w')%positive → fresh (nodes w') (next w') →
         (∀ b, (b < nx)%positive → nodes w' !! b = h !! b) →
         avail w' = O → size (nodes w') = (size h + av)%nat →
         X bad_alloc w') →
  wpx (cloneSubtree fuel (root_ptr t) par) (mkWorld h nx av ms) Q X.
Proof.
  revert fuel par0 par h nx av Q;
    induction t as [|l IHl a kv hg r IHr]; intros fuel par0 par h nx av Q Hrep Hfr Hf HQ HX.
  - destruct fuel; simpl; apply wpx_ret; simpl in HQ; rewrite Nat.sub_0_r in HQ;
      (apply HQ; [lia|done|done|done|lia]).
  - destruct fuel as [|fuel]; [simpl in Hf; lia|].
    destruct Hrep as (Ha & Hl & Hr).
    assert (Han : (a < nx)%positive) by (apply Hfr; eauto).
    pose proof (fresh_lookup_None _ _ Hfr) as Hnx.
    cbn [cloneSubtree root_ptr].
    apply wpx_bind, wp_wpx. eapply wp_load; [exact Ha|]. cbn [value left right].
    apply wpx_bind, wpx_new_node.
    { intros ->. apply HX; simpl; [rewrite length_app; simpl; lia|done|lia|done|done|done|lia]. }
    intros k ->.
    set (h1 := <[nx := mkNode kv None None par 1]> h).
    assert (Hfr1 : fresh h1 (Pos.succ nx)).
    { intros b Hb. unfold h1 in Hb. destruct (decide (b = nx)) as [->|Hne]; [lia|].
      rewrite lookup_insert_ne in Hb by done. apply Hfr in Hb. lia. }
    assert (Hf1 : ∀ b, (b < nx)%positive → h1 !! b = h !! b).
    { intros b Hb. unfold h1. apply lookup_insert_ne. lia. }
    assert (Hsz1 : size h1 = S (size h)) by (by apply map_size_insert_None).
    assert (Hnx1 : h1 !! nx = Some (mkNode kv None None par 1)) by apply lookup_insert_eq.
    clearbody h1.
    apply wpx_bind, wp_wpx. eapply wp_load; [by rewrite Hf1|]. cbn [value left right].
    simpl in HQ. simpl addrs in HX. rewrite length_app in HQ, HX. simpl length in HQ, HX.
    destruct (clone_t l (Pos.succ nx)) as [l' nx1] eqn:Hcl.
    destruct (clone_t r nx1) as [r' nx2] eqn:Hcr.
    cbn [fst snd] in HQ.
    pose proof (clone_t_addrs _ _ _ _ Hcl) as (Hl1 & Hl2 & Hl3 & Hl4 & Hl5).
    pose proof (clone_t_addrs _ _ _ _ Hcr) as (Hr1 & Hr2 & Hr3 & Hr4 & Hr5).
    apply wpx_bind.
    eapply (IHl fuel (Some a) (Some nx) h1 (Pos.succ nx) k);
      [eapply (rep_fresh_frame h h1 _ _ nx); [exact Hfr|exact Hf1|exact Hl]|done|simpl in Hf; lia| |].
    2:{ intros Hlt w' Hm Hn Hfw Hfb Hav0 Hsz. apply HX; [lia|done|lia|done| |done|lia].
        intros b Hb. rewrite Hfb by lia. by apply Hf1. }
    rewrite Hcl. cbn [fst snd].
    intros Hle h2 Hrl2 Hfr2 Hf2 Hsz2.
    apply wpx_bind, wp_wpx. eapply wp_modify; [by rewrite Hf2 by lia|].
    cbn [with_left value left right parent height nodes next avail maps].
    set (h3 := <[nx := _]> h2).
    assert (Hf3 : ∀ b, b ≠ nx → h3 !! b = h2 !! b).
    { intros b Hb. unfold h3. by apply lookup_insert_ne. }
    assert (Hnx3 : h3 !! nx = Some (mkNode kv (root_ptr l') None par 1)) by apply lookup_insert_eq.
    assert (Hsz3 : size h3 = size h2).
    { unfold h3. eapply map_size_insert_Some. by rewrite Hf2 by lia. }
    assert (Hfr3 : fresh h3 nx1).
    { intros b Hb. destruct (decide (b = nx)) as [->|Hne]; [lia|].
      rewrite Hf3 in Hb by done. by apply Hfr2. }
    clearbody h3.
    apply wpx_bind, wp_wpx. eapply wp_load; [by rewrite Hf3, Hf2, Hf1 by lia|].
    cbn [value left right].
    apply wpx_bind.
    eapply (IHr fuel (Some a) (Some nx) h3 nx1 (k - length (addrs l))%nat);
      [|done|simpl in Hf; lia| |].
    { eapply (rep_fresh_frame h); [exact Hfr| |exact Hr].
      intros b Hb. rewrite Hf3, Hf2, Hf1 by lia. done. }
    2:{ intros Hlt w' Hm Hn Hfw Hfb Hav0 Hsz. apply HX; [lia|done|lia|done| |done|lia].
        intros b Hb. rewrite Hfb by lia. rewrite Hf3, Hf2, Hf1 by lia. done. }
    rewrite Hcr. cbn [fst snd].
    intros Hle4 h4 Hrr4 Hfr4 Hf4 Hsz4.
    apply wpx_bind, wp_wpx. eapply wp_modify; [by rewrite Hf4 by lia|].
    cbn [with_right value left right parent height nodes next avail maps].
    apply wpx_bind, wp_wpx.
    eapply (wp_update _ _ _ _ nx kv par 1 l' r'); [apply lookup_insert_eq| | |].
    { apply rep_insert_ne; [intros Hin; apply Hl2 in Hin; lia|].
      eapply rep_frame; [|exact Hrl2]. intros b Hb. apply Hl2 in Hb.
      rewrite Hf4, Hf3 by lia. done. }
    { apply rep_insert_ne; [intros Hin; apply Hr2 in Hin; lia|]. done. }
    rewrite insert_insert_eq.
    apply wpx_ret.
    replace (S k - (length (addrs l) + S (length (addrs r))))%nat
      with (k - length (addrs l) - length (addrs r))%nat in HQ by lia.
    apply HQ.
    + lia.
    + simpl. split_and!; [apply lookup_insert_eq|..].
      * apply rep_insert_ne; [intros Hin; apply Hl2 in Hin; lia|].
        eapply rep_frame; [|exact Hrl2]. intros b Hb. apply Hl2 in Hb.
        rewrite Hf4, Hf3 by lia. done.
      * apply rep_insert_ne; [intros Hin; apply Hr2 in Hin; lia|]. done.
    + intros b Hb. destruct (decide (b = nx)) as [->|Hne]; [lia|].
      rewrite lookup_insert_ne in Hb by done. by apply Hfr4.
    + intros b Hb. rewrite lookup_insert_ne by lia.
      rewrite Hf4, Hf3, Hf2, Hf1 by lia. done.
    + erewrite map_size_insert_Some; [|by rewrite Hf4 by lia]. lia.
Qed.

End CloneDestroyFacts.

Section OrderFacts.
Context {K V : Type}.
Variable cmp : K → K → bool.
Implicit Types (s t l r : @tree K V) (c : list (@frame K V)).
Local Abbreviation lt := (lt cmp).
Local Abbreviation sorted := (sorted cmp).
Local Abbreviation strict_weak := (strict_weak cmp).
Local Abbreviation bounds := (bounds cmp).

Lemma entries_plug c s :
  entries (plug c s) = entries_before c ++ entries s ++ entries_after c.
Proof.
  revert s; induction c as [|[b kv hg r|l b kv hg] c IH]; intros s; simpl.
  - by rewrite app_nil_r.
  - rewrite IH. simpl. by rewrite <- !app_assoc.
  - rewrite IH. simpl. rewrite <- !app_assoc. simpl. done.
Qed.

Lemma keyEq_false_ge key k :
  keyEq cmp key k = false → cmp key k = false → cmp k key = true.
Proof. unfold keyEq. destruct (cmp key k), (cmp k key); done. Qed.

Lemma lt_not_keyEq a b : cmp a b = true → keyEq cmp a b = false.
Proof. unfold keyEq. by intros ->. Qed.

Lemma gt_not_keyEq a b : cmp b a = true → keyEq cmp a b = false.
Proof. unfold keyEq. intros ->. by destruct (cmp a b). Qed.

Lemma sorted_node_inv l a kv hg r :
  StronglySorted lt (entries (T l a kv hg r)).*1 →
  (∀ x, x ∈ entries l → lt x.1 kv.1) ∧ (∀ x, x ∈ entries r → lt kv.1 x.1).
Proof.
  simpl. rewrite fmap_app, fmap_cons. rewrite StronglySorted_app.
  intros (H1 & _ & H2). apply StronglySorted_cons in H2 as (H2 & _).
  rewrite Forall_forall in H2. split.
  - intros x Hx. apply H1; [by apply list_elem_of_fmap_2|set_solver].
  - intros x Hx. apply H2. by apply list_elem_of_fmap_2.
Qed.

Lemma sorted_plug_focus c s :
  StronglySorted lt (entries (plug c s)).*1 → StronglySorted lt (entries s).*1.
Proof.
  rewrite entries_plug, !fmap_app. intros H.
  apply StronglySorted_app_1_r in H. by apply StronglySorted_app_1_l in H.
Qed.

Lemma descend_t_bounds (Htr : ∀ x y z, cmp x y = true → cmp y z = true → cmp x z = true)
    key s c c' :
  StronglySorted lt (entries s).*1 → bounds c key →
  descend_t cmp key s c = inr c' → bounds c' key.
Proof.
  revert c; induction s as [|l IHl a kv hg r IHr]; intros c Hs Hb; simpl.
  - by intros [= <-].
  - pose proof (sorted_node_inv _ _ _ _ _ Hs) as (Hlk & Hrk).
    simpl in Hs. rewrite fmap_app, fmap_cons in Hs.
    pose proof (StronglySorted_app_1_l _ _ _ Hs) as Hsl.
    pose proof (StronglySorted_app_1_r _ _ _ Hs) as Hsr.
    apply StronglySorted_cons in Hsr as (_ & Hsr).
    destruct (keyEq cmp key kv.1) eqn:Heq; [done|].
    destruct (cmp key kv.1) eqn:Hc.
    + apply IHl; [done|]. destruct Hb as (Hb1 & Hb2). split; [done|].
      simpl. intros x Hx. apply elem_of_cons in Hx as [->|Hx]; [done|].
      apply elem_of_app in Hx as [Hx|Hx]; [|by apply Hb2].
      eapply Htr; [exact Hc|]. by apply Hrk.
    + apply IHr; [done|]. destruct Hb as (Hb1 & Hb2). split; [|done].
      pose proof (keyEq_false_ge _ _ Heq Hc) as Hgt.
      simpl. intros x Hx. apply elem_of_app in Hx as [Hx|Hx]; [by apply Hb1|].
      apply elem_of_app in Hx as [Hx|Hx].
      * eapply Htr; [|exact Hgt]. by apply Hlk.
      * apply list_elem_of_singleton in Hx as ->. done.
Qed.

Lemma sorted_insert_between (bl al : list (K * V)) (v : K * V) :
  (∀ kv, kv ∈ bl → lt kv.1 v.1) → (∀ kv, kv ∈ al → lt v.1 kv.1) →
  StronglySorted lt (bl ++ al).*1 → StronglySorted lt (bl ++ v :: al).*1.
Proof.
  intros Hb Ha. rewrite !fmap_app, fmap_cons, !StronglySorted_app.
  intros (H1 & H2 & H3). split_and!; [|done|].
  - intros x1 x2 Hx1 Hx2. apply elem_of_cons in Hx2 as [->|Hx2]; [|by apply H1].
    apply list_elem_of_fmap in Hx1 as (kv & -> & Hkv). by apply Hb.
  - apply StronglySorted_cons. split; [|done]. apply Forall_forall.
    intros x Hx. apply list_elem_of_fmap in Hx as (kv & -> & Hkv). by apply Ha.
Qed.

Lemma find_t_spec (Htr : ∀ x y z, cmp x y = true → cmp y z = true → cmp x z = true) key t :
  StronglySorted lt (entries t).*1 → NoDup (addrs t) →
  match find_t cmp key t with
  | Some a => ∃ kv, lookup_t a t = Some kv ∧ kv ∈ entries t ∧ a ∈ addrs t ∧
                    keyEq cmp key kv.1 = true
  | None => ∀ kv, kv ∈ entries t → keyEq cmp key kv.1 = false
  end.
Proof.
  induction t as [|l IHl a kv hg r IHr]; intros Hs Hnd; simpl.
  - set_solver.
  - pose proof (sorted_node_inv _ _ _ _ _ Hs) as (Hlk & Hrk).
    simpl in Hs. rewrite fmap_app, fmap_cons in Hs.
    pose proof (StronglySorted_app_1_l _ _ _ Hs) as Hsl.
    pose proof (StronglySorted_app_1_r _ _ _ Hs) as Hsr.
    apply StronglySorted_cons in Hsr as (_ & Hsr).
    simpl in Hnd. apply NoDup_app in Hnd as (Hndl & Hd & Hnd).
    apply NoDup_cons in Hnd as (Har & Hndr).
    destruct (keyEq cmp key kv.1) eqn:Heq.
    + exists kv. rewrite decide_True by done. split_and!; [done|set_solver|set_solver|done].
    + destruct (cmp key kv.1) eqn:Hc.
      * specialize (IHl Hsl Hndl). destruct (find_t cmp key l) as [b|].
        -- destruct IHl as (x & Hx1 & Hx2 & Hx3 & Hx4). exists x.
           rewrite decide_False by (intros ->; set_solver). rewrite Hx1.
           split_and!; [done|set_solver|set_solver|done].
        -- intros x Hx. apply elem_of_app in Hx as [Hx|Hx]; [by apply IHl|].
           apply elem_of_cons in Hx as [->|Hx]; [done|].
           apply lt_not_keyEq. eapply Htr; [exact Hc|]. by apply Hrk.
      * pose proof (keyEq_false_ge _ _ Heq Hc) as Hgt.
        specialize (IHr Hsr Hndr). destruct (find_t cmp key r) as [b|].
        -- destruct IHr as (x & Hx1 & Hx2 & Hx3 & Hx4). exists x.
           rewrite decide_False by (intros ->; set_solver).
           assert (Hnl : lookup_t b l = None).
           { clear -Hd Hx3. induction l as [|ll IH1 lb lkv lhg lr IH2]; simpl; [done|].
             rewrite decide_False.
             2:{ intros ->. apply (Hd lb); [simpl; set_solver|set_solver]. }
             rewrite IH1, IH2; [done|..]; intros y Hy; apply Hd; simpl; set_solver. }
           rewrite Hnl, Hx1.
           split_and!; [done|set_solver|set_solver|done].
        -- intros x Hx. apply elem_of_app in Hx as [Hx|Hx].
           { apply gt_not_keyEq. eapply Htr; [|exact Hgt]. by apply Hlk. }
           apply elem_of_cons in Hx as [->|Hx]; [done|]. by apply IHr.
Qed.

(** In a sorted tree at most one entry is equivalent to a given key. *)
Lemma sorted_equiv_unique (Hsw : strict_weak) key (es : list (K * V)) kv1 kv2 :
  StronglySorted lt es.*1 → kv1 ∈ es → kv2 ∈ es →
  keyEq cmp key kv1.1 = true → keyEq cmp key kv2.1 = true → kv1 = kv2.
Proof.
  intros Hs H1 H2 E1 E2.
  assert (Hsym : ∀ a b, keyEq cmp a b = true → keyEq cmp b a = true).
  { intros a b. unfold keyEq. destruct (cmp a b), (cmp b a); done. }
  assert (Heq : keyEq cmp kv1.1 kv2.1 = true).
  { eapply (sw_equiv cmp Hsw); [apply Hsym; exact E1|exact E2]. }
  induction es as [|x es IH]; [set_solver|].
  rewrite fmap_cons in Hs. apply StronglySorted_cons in Hs as (Hx & Hs).
  rewrite Forall_forall in Hx.
  apply elem_of_cons in H1 as [->|H1]; apply elem_of_cons in H2 as [->|H2].
  - done.
  - exfalso. assert (Hlt : lt x.1 kv2.1) by (apply Hx; by apply list_elem_of_fmap_2).
    apply lt_not_keyEq in Hlt. congruence.
  - exfalso. assert (Hlt : lt x.1 kv1.1) by (apply Hx; by apply list_elem_of_fmap_2).
    apply gt_not_keyEq in Hlt. congruence.
  - by apply IH.
Qed.

End OrderFacts.

Section TreeOps.
Context {K V : Type}.
Variable cmp : K → K → bool.
Implicit Types (s t l r : @tree K V) (c : list (@frame K V)).

(** ** [insert] and [eraseNode] keep the tree AVL and sorted *)
Lemma rebalance_from_avl c X h0 fuel :
  avl_ctx c h0 → avl X → h0 - 1 ≤ ht X ≤ h0 + 1 →
  (2 * length c + 2 ≤ fuel)%nat →
  ∃ t', rebalance_from fuel c X = Some t' ∧ avl t'.
Proof.
  destruct c as [|fr c']; simpl; intros Hc HX Hh Hf; [eauto|].
  destruct Hc as (Hsib & Hb & Hc).
  pose proof (avl_ht_nonneg _ Hsib). pose proof (avl_ht_nonneg _ HX).
  eapply (rebalanceUp_t_avl c' fuel (plug1 fr X) (Z.max h0 (ht (frame_sib fr)) + 1));
    [| |done|lia].
  - destruct fr; simpl in *; split_and!; try done; lia.
  - unfold fits. destruct fr; simpl in *; case_decide; lia.
Qed.

Lemma rebalance_from_entries fuel c s t' :
  rebalance_from fuel c s = Some t' → entries t' = entries (plug c s).
Proof.
  destruct c as [|fr c']; simpl; [by intros [= <-]|]. apply rebalanceUp_t_entries.
Qed.

Lemma rebalanceUp_t_id c : ∀ fuel s,
  avl (plug c s) → s ≠ E → (length c < fuel)%nat →
  rebalanceUp_t fuel s c = Some (plug c s).
Proof.
  induction c as [|fr c IH]; intros fuel s Havl Hne Hf.
  - destruct fuel as [|fuel]; [simpl in Hf; lia|]. simpl in *.
    by rewrite (rebalanceAt_t_id _ Havl Hne).
  - destruct fuel as [|fuel]; [simpl in Hf; lia|]. simpl in *.
    pose proof (avl_plug _ _ Havl) as (Hs & _).
    assert (Hs' : avl s) by (destruct fr; simpl in Hs; tauto).
    rewrite (rebalanceAt_t_id _ Hs' Hne).
    apply IH; [done|by destruct fr|lia].
Qed.

Lemma length_ctx_addrs c : (length c ≤ length (ctx_addrs c))%nat.
Proof. induction c as [|f c IH]; simpl; [lia|]. rewrite length_app. lia. Qed.

Lemma length_addrs_plug c s :
  length (addrs (plug c s)) = (length (addrs s) + length (ctx_addrs c))%nat.
Proof. by rewrite addrs_plug, length_app. Qed.

Lemma insert_t_ok fuel a v t :
  avl t → NoDup (addrs t) → a ∉ addrs t →
  (2 * length (addrs t) + 2 ≤ fuel)%nat →
  match descend_t cmp v.1 t [] with
  | inl b => insert_t cmp fuel a v t = Some (t, b, false)
  | inr c =>
      ∃ t', insert_t cmp fuel a v t = Some (t', a, true) ∧
            avl t' ∧ NoDup (addrs t') ∧
            addrs t' ≡ₚ a :: addrs t ∧
            entries t = entries_before c ++ entries_after c ∧
            entries t' = entries_before c ++ v :: entries_after c
  end.
Proof.
  intros Havl Hnd Ha Hf. unfold insert_t.
  destruct (descend_t cmp v.1 t []) as [b|c] eqn:Hd; [done|].
  pose proof (descend_t_plug _ _ _ _ _ Hd) as Hplug. simpl in Hplug.
  assert (Hent : entries t = entries_before c ++ entries_after c).
  { rewrite <- Hplug. by rewrite entries_plug. }
  assert (Hlen : (length c ≤ length (addrs t))%nat).
  { rewrite <- Hplug, length_addrs_plug. pose proof (length_ctx_addrs c). lia. }
  assert (Hctx : avl_ctx c 0).
  { rewrite <- Hplug in Havl. by apply avl_plug in Havl as (_ & Hc). }
  destruct (rebalance_from_avl c (leaf a v) 0 fuel) as (t' & Hr & Havl'); [done|simpl; done|simpl; lia|lia|].
  assert (Hent' : entries t' = entries_before c ++ v :: entries_after c).
  { rewrite (rebalance_from_entries _ _ _ _ Hr). by rewrite entries_plug. }
  assert (Hperm : addrs t' ≡ₚ a :: addrs t).
  { rewrite (rebalance_from_addrs _ _ _ _ Hr). rewrite <- Hplug. by rewrite !addrs_plug. }
  assert (Hres : (match c with
                  | [] => Some (leaf a v, a, true)
                  | fr :: c' =>
                      rebalanceUp_t fuel (plug1 fr (leaf a v)) c' ≫= λ t'0, Some (t'0, a, true)
                  end) = Some (t', a, true)).
  { destruct c as [|fr c']; simpl in Hr |- *; [by injection Hr as <-|]. by rewrite Hr. }
  exists t'. split_and!; try done.
  rewrite Hperm. by apply NoDup_cons.
Qed.

(** The new entry lands between the smaller and the larger keys. *)
Lemma insert_sorted (Htr : ∀ x y z, cmp x y = true → cmp y z = true → cmp x z = true)
    (v : K * V) t c :
  sorted cmp t → descend_t cmp v.1 t [] = inr c →
  StronglySorted (lt cmp) (entries_before c ++ v :: entries_after c).*1.
Proof.
  intros Hs Hd.
  pose proof (descend_t_plug _ _ _ _ _ Hd) as Hplug. simpl in Hplug.
  assert (Hb : bounds cmp c v.1).
  { eapply (descend_t_bounds cmp Htr); [exact Hs| |exact Hd]. split; simpl; set_solver. }
  apply sorted_insert_between; [apply Hb|apply Hb|].
  unfold sorted in Hs. rewrite <- Hplug in Hs. by rewrite entries_plug in Hs.
Qed.

(** *** Erasing *)
Lemma locate_lookup a t c c' L b kv hg R :
  locate a t c = Some (c', T L b kv hg R) → lookup_t a t = Some kv.
Proof.
  revert c; induction t as [|l IHl x xkv xhg r IHr]; intros c; simpl; [done|].
  destruct (decide (a = x)) as [->|Hne]; [by intros [= _ <- <- <- <- <-]|].
  destruct (locate a l (InL x xkv xhg r :: c)) as [y|] eqn:Hl.
  - intros [= ->]. by rewrite (IHl _ Hl).
  - intros Hr. assert (lookup_t a l = None) as ->.
    { clear -Hl. revert Hl. generalize (InL x xkv xhg r :: c).
      induction l as [|ll IH1 lb lkv lhg lr IH2]; intros c0; simpl; [done|].
      destruct (decide (a = lb)); [done|].
      destruct (locate a ll (InL lb lkv lhg lr :: c0)) eqn:H1; [done|].
      intros H2. by rewrite (IH1 _ H1), (IH2 _ H2). }
    by apply IHr in Hr.
Qed.

Lemma min_split_before l a kv hg r c c' sa kvs hs SR :
  min_split l a kv hg r c = (c', sa, kvs, hs, SR) →
  entries_before c' = entries_before c.
Proof.
  revert a kv hg r c; induction l as [|ll IHl la lkv lhg lr _]; intros a kv hg r c; simpl.
  - by intros [= <- <- <- <- <-].
  - intros H. by apply IHl in H.
Qed.

Lemma avl_ctx_app_sib (cs : list (@frame K V)) (f f' : @frame K V) (cz : list (@frame K V)) h0 :
  frame_sib f = frame_sib f' →
  avl_ctx (cs ++ f :: cz) h0 → avl_ctx (cs ++ f' :: cz) h0.
Proof.
  intros Hsib. revert h0; induction cs as [|g cs IH]; intros h0; simpl.
  - rewrite Hsib. tauto.
  - intros (H1 & H2 & H3). split; [done|]. split; [done|]. by apply IH.
Qed.

Lemma erase_t_ok fuel z t :
  avl t → NoDup (addrs t) → z ∈ addrs t →
  (2 * length (addrs t) + 2 ≤ fuel)%nat →
  ∃ t' es1 kv es2,
    erase_t fuel z t = Some t' ∧ avl t' ∧
    lookup_t z t = Some kv ∧
    entries t = es1 ++ kv :: es2 ∧ entries t' = es1 ++ es2 ∧
    addrs t ≡ₚ z :: addrs t'.
Proof.
  intros Havl Hnd Hz Hf. unfold erase_t.
  destruct (locate_Some z t [] Hz) as [[cz s] Hloc]. rewrite Hloc. simpl.
  pose proof Hloc as Hloc0.
  apply locate_plug in Hloc as (Hplug & Hroot). simpl in Hplug.
  destruct s as [|L z' kvz hz R]; [done|]. simpl in Hroot. injection Hroot as ->.
  pose proof (locate_lookup _ _ _ _ _ _ _ _ _ Hloc0) as Hlk.
  subst t.
  pose proof (avl_plug _ _ Havl) as ((HL & HR & Hhz & Hbal) & Hctx). simpl in Hctx.
  pose proof (avl_ht_nonneg _ HL) as HL0. pose proof (avl_ht_nonneg _ HR) as HR0.
  pose proof (length_addrs_plug cz (T L z kvz hz R)) as Hlen. simpl in Hlen.
  rewrite length_app in Hlen. simpl in Hlen.
  pose proof (length_ctx_addrs cz) as Hlcz.
  assert (Hent : entries (plug cz (T L z kvz hz R))
                 = (entries_before cz ++ entries L) ++ kvz :: (entries R ++ entries_after cz)).
  { rewrite entries_plug. simpl. by rewrite <- !app_assoc. }
  assert (Hsimple : ∀ Ch, avl Ch → ht Ch = hz - 1 →
            entries Ch = entries L ++ entries R → addrs Ch = addrs L ++ addrs R →
            ∃ t' es1 kv es2,
              rebalance_from fuel cz Ch = Some t' ∧ avl t' ∧
              lookup_t z (plug cz (T L z kvz hz R)) = Some kv ∧
              entries (plug cz (T L z kvz hz R)) = es1 ++ kv :: es2 ∧
              entries t' = es1 ++ es2 ∧
              addrs (plug cz (T L z kvz hz R)) ≡ₚ z :: addrs t').
  { intros Ch HCh Hht HeC HaC.
    destruct (rebalance_from_avl cz Ch hz fuel) as (t' & Hr & Ht'); [done|done|lia|lia|].
    exists t', (entries_before cz ++ entries L), kvz, (entries R ++ entries_after cz).
    split_and!; try done.
    - rewrite (rebalance_from_entries _ _ _ _ Hr), entries_plug, HeC.
      by rewrite <- !app_assoc.
    - rewrite (rebalance_from_addrs _ _ _ _ Hr), !addrs_plug, HaC. simpl.
      solve_Permutation. }
  destruct L as [|ll la lkv lhg lr].
  { destruct R as [|rl ra rkv rhg rr];
      (eapply Hsimple; [done|simpl in *; lia|done|done]). }
  destruct R as [|rl ra rkv rhg rr].
  { eapply Hsimple; [done|simpl in *; lia|simpl; by rewrite app_nil_r|simpl; by rewrite app_nil_r]. }
  clear Hsimple.
  set (L := T ll la lkv lhg lr) in *.
  destruct (min_split rl ra rkv rhg rr []) as [[[[cs sa] kvs] hs] SR] eqn:Hmin.
  pose proof (min_split_before _ _ _ _ _ _ _ _ _ _ _ Hmin) as Hbefore. simpl in Hbefore.
  apply min_split_spec in Hmin as (Hplug & Hhead & cs0 & Hcs & Hlcs).
  rewrite app_nil_r in Hcs. subst cs0. simpl in Hplug.
  set (R := T rl ra rkv rhg rr) in *.
  set (S0 := T E sa kvs hs SR) in *.
  clearbody L R.
  assert (Hwhole : plug cz (T L z kvz hz R) = plug (cs ++ InR L z kvz hz :: cz) S0).
  { rewrite plug_app. simpl. by rewrite Hplug. }
  rewrite Hwhole in Havl.
  pose proof (avl_plug _ _ Havl) as ((_ & HSR & Hhs & Hbs) & HC0). simpl in Hhs, Hbs, HC0.
  pose proof (avl_ht_nonneg _ HSR) as HSR0.
  assert (HC' : avl_ctx (cs ++ InR L sa kvs hs :: cz) hs).
  { eapply avl_ctx_app_sib; [|exact HC0]. done. }
  assert (HlenC : (length (cs ++ InR L sa kvs hs :: cz) < length (addrs (plug cz (T L z kvz hz R))))%nat).
  { rewrite Hwhole, length_addrs_plug. simpl.
    pose proof (length_ctx_addrs (cs ++ InR L z kvz hz :: cz)) as Hl1.
    rewrite !length_app in *. simpl in *. lia. }
  rewrite <- Hwhole in Havl.
  destruct (rebalance_from_avl (cs ++ InR L sa kvs hs :: cz) SR hs fuel)
    as (t1 & Hr1 & Ht1); [done|done|lia|lia|].
  rewrite Hr1. simpl.
  assert (Hplug1 : plug (cs ++ InR L sa kvs hs :: cz) SR = plug cz (T L sa kvs hs (plug cs SR))).
  { by rewrite plug_app. }
  assert (Hperm1 : addrs t1 ≡ₚ addrs (plug cz (T L sa kvs hs (plug cs SR)))).
  { rewrite (rebalance_from_addrs _ _ _ _ Hr1). by rewrite Hplug1. }
  assert (HpermR : addrs R ≡ₚ sa :: addrs (plug cs SR)).
  { rewrite <- Hplug. rewrite !addrs_plug. done. }
  assert (Hpermt : addrs (plug cz (T L z kvz hz R)) ≡ₚ z :: addrs t1).
  { rewrite Hperm1. rewrite !addrs_plug. simpl. rewrite HpermR. solve_Permutation. }
  assert (Hent1 : entries t1 = (entries_before cz ++ entries L) ++ (entries R ++ entries_after cz)).
  { rewrite (rebalance_from_entries _ _ _ _ Hr1), Hplug1, entries_plug. simpl.
    rewrite <- Hplug. rewrite !entries_plug, Hbefore. simpl.
    rewrite <- ?app_assoc. simpl. rewrite <- ?app_assoc. done. }
  assert (Hat : rebalance_at fuel (ctx_par cz) t1 = Some t1).
  { destruct cz as [|fz cz']; [done|]. simpl.
    assert (Hin : frame_addr fz ∈ addrs t1).
    { rewrite Hperm1, addrs_plug. simpl. set_solver. }
    destruct (locate_Some _ _ [] Hin) as [[c2 s2] Hloc2]. rewrite Hloc2. simpl.
    apply locate_plug in Hloc2 as (Hp2 & Hroot2). simpl in Hp2.
    rewrite <- Hp2. apply rebalanceUp_t_id; [by rewrite Hp2|by destruct s2|].
    assert (length (addrs t1) = length (addrs (plug c2 s2))) as Hl2 by (by rewrite Hp2).
    rewrite length_addrs_plug in Hl2. pose proof (length_ctx_addrs c2).
    assert (length (addrs (plug (fz :: cz') (T L z kvz hz R))) = S (length (addrs t1))) as Hl3.
    { by rewrite Hpermt. }
    destruct s2; [done|]. simpl in Hl2. rewrite length_app in Hl2. simpl in Hl2. lia. }
  exists t1, (entries_before cz ++ entries L), kvz, (entries R ++ entries_after cz).
  split_and!; done.
Qed.

Lemma sorted_remove (es1 es2 : list (K * V)) (kv : K * V) :
  StronglySorted (lt cmp) (es1 ++ kv :: es2).*1 → StronglySorted (lt cmp) (es1 ++ es2).*1.
Proof.
  rewrite !fmap_app, fmap_cons, !StronglySorted_app.
  intros (H1 & H2 & H3). apply StronglySorted_cons in H3 as (_ & H3).
  split_and!; [|done|done]. intros x1 x2 Hx1 Hx2. apply H1; [done|set_solver].
Qed.

End TreeOps.

Section ItemsFacts.
Context {K V : Type}.
Variable cmp : K → K → bool.
Implicit Types (s t l r : @tree K V) (c : list (@frame K V)).
Implicit Types (h : gmap positive (@Node K V)).

Lemma items_addrs t : (items t).*1 = addrs t.
Proof.
  induction t as [|l IHl a kv hg r IHr]; simpl; [done|].
  by rewrite fmap_app, fmap_cons, IHl, IHr.
Qed.

Lemma items_entries t : (items t).*2 = entries t.
Proof.
  induction t as [|l IHl a kv hg r IHr]; simpl; [done|].
  by rewrite fmap_app, fmap_cons, IHl, IHr.
Qed.

Lemma items_before_entries c : (items_before c).*2 = entries_before c.
Proof.
  induction c as [|[b kv hg r|l b kv hg] c IH]; simpl; [done|done|].
  by rewrite !fmap_app, IH, items_entries.
Qed.

Lemma items_after_entries c : (items_after c).*2 = entries_after c.
Proof.
  induction c as [|[b kv hg r|l b kv hg] c IH]; simpl; [done| |done].
  by rewrite fmap_app, IH, items_entries.
Qed.

Lemma items_before_addrs c : (items_before c).*1 = ctx_before c.
Proof.
  induction c as [|[b kv hg r|l b kv hg] c IH]; simpl; [done|done|].
  by rewrite !fmap_app, IH, items_addrs.
Qed.

Lemma items_after_addrs c : (items_after c).*1 = ctx_after c.
Proof.
  induction c as [|[b kv hg r|l b kv hg] c IH]; simpl; [done| |done].
  by rewrite fmap_app, IH, items_addrs.
Qed.

Lemma items_plug c s : items (plug c s) = items_before c ++ items s ++ items_after c.
Proof.
  revert s; induction c as [|[b kv hg r|l b kv hg] c IH]; intros s; simpl.
  - by rewrite app_nil_r.
  - rewrite IH. simpl. by rewrite <- !app_assoc.
  - rewrite IH. simpl. rewrite <- !app_assoc. simpl. done.
Qed.

Lemma items_plug_congr c s s' : items s = items s' → items (plug c s) = items (plug c s').
Proof. intros H. by rewrite !items_plug, H. Qed.

Lemma rebalanceAt_t_items s s' rot : rebalanceAt_t s = Some (s', rot) → items s' = items s.
Proof.
  destruct s as [|l a kv hg r]; [done|]. simpl.
  destruct (ht r - ht l >? 1).
  - destruct r as [|rl ra rkv rhg rr]; [done|]. simpl.
    destruct (ht rr - ht rl <? 0).
    + destruct rl as [|A x kvx hx B]; simpl; [done|]. intros [= <- <-].
      simpl. rewrite <- ?app_assoc. simpl. by rewrite <- ?app_assoc.
    + simpl. intros [= <- <-]. simpl. by rewrite <- ?app_assoc.
  - destruct (ht r - ht l <? -1).
    + destruct l as [|ll la lkv lhg lr]; [done|]. simpl.
      destruct (ht lr - ht ll >? 0).
      * destruct lr as [|B y kvy hy C]; simpl; [done|]. intros [= <- <-].
        simpl. rewrite <- ?app_assoc. simpl. by rewrite <- ?app_assoc.
      * simpl. intros [= <- <-]. simpl. by rewrite <- ?app_assoc.
    + by intros [= <- <-].
Qed.

Lemma rebalanceUp_t_items fuel s c t' :
  rebalanceUp_t fuel s c = Some t' → items t' = items (plug c s).
Proof.
  revert s c; induction fuel as [|f IH]; intros s c; simpl; [done|].
  destruct (rebalanceAt_t s) as [[s' rot]|] eqn:Hreb; [|done].
  apply rebalanceAt_t_items in Hreb. destruct rot.
  - intros H. rewrite (IH _ _ H). by apply items_plug_congr.
  - destruct c as [|fr c'].
    + intros [= <-]. simpl. done.
    + intros H. rewrite (IH _ _ H). simpl. apply items_plug_congr.
      destruct fr; simpl; by rewrite Hreb.
Qed.

Lemma rebalance_from_items fuel c s t' :
  rebalance_from fuel c s = Some t' → items t' = items (plug c s).
Proof.
  destruct c as [|fr c']; simpl; [by intros [= <-]|]. apply rebalanceUp_t_items.
Qed.

Lemma rebalance_at_items fuel p t t' :
  rebalance_at fuel p t = Some t' → items t' = items t.
Proof.
  destruct p as [a|]; simpl; [|by intros [= <-]].
  destruct (locate a t []) as [[c s]|] eqn:Hloc; simpl; [|done].
  apply locate_plug in Hloc as (Hp & _). simpl in Hp. subst t.
  apply rebalanceUp_t_items.
Qed.

Lemma insert_t_items fuel a v t t' b :
  insert_t cmp fuel a v t = Some (t', b, true) →
  ∃ c, descend_t cmp v.1 t [] = inr c ∧ b = a ∧
       items t = items_before c ++ items_after c ∧
       items t' = items_before c ++ (a, v) :: items_after c.
Proof.
  unfold insert_t. destruct (descend_t cmp v.1 t []) as [b'|c] eqn:Hd; [done|].
  pose proof (descend_t_plug _ _ _ _ _ Hd) as Hplug. simpl in Hplug.
  intros H. exists c.
  assert (Hit : items t = items_before c ++ items_after c).
  { rewrite <- Hplug. by rewrite items_plug. }
  destruct c as [|fr c'].
  - injection H as <- <-. done.
  - destruct (rebalanceUp_t fuel (plug1 fr (leaf a v)) c') as [t''|] eqn:Hup; simpl in H; [|done].
    injection H as <- <-. split_and!; [done|done|done|].
    rewrite (rebalanceUp_t_items _ _ _ _ Hup).
    change (plug c' (plug1 fr (leaf a v))) with (plug (fr :: c') (leaf a v)).
    by rewrite items_plug.
Qed.

Lemma min_split_items_before l a kv hg r c c' sa kvs hs SR :
  min_split l a kv hg r c = (c', sa, kvs, hs, SR) →
  items_before c' = items_before c.
Proof.
  revert a kv hg r c; induction l as [|ll IHl la lkv lhg lr _]; intros a kv hg r c; simpl.
  - by intros [= <- <- <- <- <-].
  - intros H. by apply IHl in H.
Qed.

Lemma erase_t_items fuel z t t' :
  erase_t fuel z t = Some t' →
  ∃ is1 kv is2, items t = is1 ++ (z, kv) :: is2 ∧ items t' = is1 ++ is2.
Proof.
  unfold erase_t.
  destruct (locate z t []) as [[cz s]|] eqn:Hloc; simpl; [|done].
  apply locate_plug in Hloc as (Hplug & Hroot). simpl in Hplug.
  destruct s as [|L z' kvz hz R]; [done|]. simpl in Hroot. injection Hroot as ->.
  subst t.
  assert (Hit : items (plug cz (T L z kvz hz R))
                = (items_before cz ++ items L) ++ (z, kvz) :: (items R ++ items_after cz)).
  { rewrite items_plug. simpl. by rewrite <- !app_assoc. }
  assert (Hsimple : ∀ Ch, items Ch = items L ++ items R →
            rebalance_from fuel cz Ch = Some t' →
            ∃ is1 kv is2, items (plug cz (T L z kvz hz R)) = is1 ++ (z, kv) :: is2 ∧
                          items t' = is1 ++ is2).
  { intros Ch HCh Hr. eexists _, _, _. split; [exact Hit|].
    rewrite (rebalance_from_items _ _ _ _ Hr), items_plug, HCh. by rewrite <- !app_assoc. }
  destruct L as [|ll la lkv lhg lr].
  { destruct R as [|rl ra rkv rhg rr]; intros H; (eapply Hsimple; [|exact H]); done. }
  destruct R as [|rl ra rkv rhg rr].
  { intros H. eapply Hsimple; [|exact H]. simpl. by rewrite app_nil_r. }
  clear Hsimple.
  set (L := T ll la lkv lhg lr) in *.
  destruct (min_split rl ra rkv rhg rr []) as [[[[cs sa] kvs] hs] SR] eqn:Hmin.
  pose proof (min_split_items_before _ _ _ _ _ _ _ _ _ _ _ Hmin) as Hbefore. simpl in Hbefore.
  apply min_split_spec in Hmin as (Hplug & _ & _). simpl in Hplug.
  set (R := T rl ra rkv rhg rr) in *. clearbody L R.
  destruct (rebalance_from fuel (cs ++ InR L sa kvs hs :: cz) SR) as [t1|] eqn:Hr1;
    simpl; [|done].
  intros Hat. apply rebalance_at_items in Hat.
  eexists _, _, _. split; [exact Hit|].
  rewrite Hat, (rebalance_from_items _ _ _ _ Hr1), plug_app, items_plug. simpl.
  rewrite <- Hplug. rewrite !items_plug, Hbefore. simpl.
  rewrite <- ?app_assoc. simpl. rewrite <- ?app_assoc. done.
Qed.

(** *** Reading a node through its address *)
Lemma lookup_t_items a kv t :
  NoDup (addrs t) → (a, kv) ∈ items t → lookup_t a t = Some kv.
Proof.
  induction t as [|l IHl b bkv hg r IHr]; simpl; [set_solver|].
  intros Hnd Hin. apply NoDup_app in Hnd as (Hndl & Hd & Hnd).
  apply NoDup_cons in Hnd as (Hb & Hndr).
  apply elem_of_app in Hin as [Hin|Hin].
  - assert (a ∈ addrs l).
    { rewrite <- items_addrs. by apply (list_elem_of_fmap_2 fst) in Hin. }
    rewrite decide_False by (intros ->; set_solver). by rewrite (IHl Hndl Hin).
  - apply elem_of_cons in Hin as [[= -> ->]|Hin]; [by rewrite decide_True|].
    assert (Har : a ∈ addrs r).
    { rewrite <- items_addrs. by apply (list_elem_of_fmap_2 fst) in Hin. }
    rewrite decide_False by (intros ->; done).
    assert (lookup_t a l = None) as ->; [|by apply IHr].
    assert (Hal : a ∉ addrs l) by (intros Hx; apply (Hd _ Hx); set_solver).
    clear -Hal. induction l as [|ll IH1 lb lkv lhg lr IH2]; simpl; [done|].
    simpl in Hal. rewrite decide_False by set_solver.
    rewrite IH1, IH2; [done|set_solver|set_solver].
Qed.

Lemma lookup_t_Some_items a kv t : lookup_t a t = Some kv → (a, kv) ∈ items t.
Proof.
  induction t as [|l IHl b bkv hg r IHr]; simpl; [done|].
  destruct (decide (a = b)) as [->|Hne]; [intros [= ->]; set_solver|].
  destruct (lookup_t a l) eqn:Hl; [intros [= ->]; set_solver|].
  intros Hr. set_solver.
Qed.

Lemma rep_lookup_t h par t a kv :
  rep h par t → lookup_t a t = Some kv → ∃ nd, h !! a = Some nd ∧ value nd = kv.
Proof.
  revert par; induction t as [|l IHl b bkv hg r IHr]; intros par; simpl; [done|].
  intros (Hb & Hl & Hr). destruct (decide (a = b)) as [->|Hne]; [intros [= ->]; eauto|].
  destruct (lookup_t a l) eqn:Hla; [intros [= ->]; by eapply IHl|].
  intros Hra. by eapply IHr.
Qed.

End ItemsFacts.

Section WorldFacts.
Context {K V : Type}.
Variable cmp : K → K → bool.
Variable default_value : V.
Implicit Types (h : gmap positive (@Node K V)) (w : @world K V).
Implicit Types (s t l r : @tree K V) (c : list (@frame K V)).
Implicit Types (tr : gmap positive (@tree K V)).
Local Abbreviation all_sorted := (all_sorted cmp).

Lemma rep_functional h par t t' :
  rep h par t → rep h par t' → root_ptr t = root_ptr t' → t = t'.
Proof.
  revert par t'; induction t as [|l IHl a kv hg r IHr]; intros par t' Hr Hr' Hroot.
  - by destruct t'.
  - destruct t' as [|l' a' kv' hg' r']; [done|]. simpl in Hroot. injection Hroot as <-.
    destruct Hr as (Ha & Hl & Hrr). destruct Hr' as (Ha' & Hl' & Hrr').
    rewrite Ha in Ha'. injection Ha' as <- Hrl Hrrr <-.
    f_equal; [by eapply IHl|by eapply IHr].
Qed.

Lemma live_tree_unique w m t t' : live_tree w m t → live_tree w m t' → t = t'.
Proof.
  intros (Hm & Hr & _) (Hm' & Hr' & _). rewrite Hm in Hm'. injection Hm' as Hroot _.
  by eapply rep_functional.
Qed.

Lemma models_lookup tr w m mp :
  models tr w → maps w !! m = Some mp → ∃ t, tr !! m = Some t.
Proof.
  intros Hmd Hm. destruct (tr !! m) eqn:Ht; [eauto|].
  apply (md_dom _ _ Hmd) in Ht. congruence.
Qed.

Lemma wrap_small z : 0 ≤ z < size_max → wrap z = z.
Proof. intros. unfold wrap. by apply Z.mod_small. Qed.

(** The tree of [this] is replaced, every other tree is left alone. *)
Lemma models_update tr w this t t' h' nx' av' :
  models tr w → tr !! this = Some t →
  rep h' None t' → NoDup (addrs t') → avl t' →
  (∀ b, b ∉ addrs t → is_Some (nodes w !! b) → h' !! b = nodes w !! b) →
  (∀ b, b ∈ addrs t' → b ∈ addrs t ∨ (next w ≤ b)%positive) →
  fresh h' nx' →
  (size h' + av' ≤ size (nodes w) + avail w)%nat →
  models (<[this := t']> tr)
    (mkWorld h' nx' av'
       (<[this := mkMap (root_ptr t') (Z.of_nat (length (addrs t')))]> (maps w))).
Proof.
  intros Hmd Ht Hrep Hnd Havl Hfr Hnew Hfresh Hsz.
  destruct Hmd as [F S D T0 J].
  assert (Hin : ∀ m t0 a, tr !! m = Some t0 → a ∈ addrs t0 →
                 is_Some (nodes w !! a) ∧ (a < next w)%positive).
  { intros m t0 a Hm Ha. destruct (T0 _ _ Hm) as ((_ & Hr & _) & _).
    assert (is_Some (nodes w !! a)) by (by eapply rep_in_dom). split; [done|]. by apply F. }
  split; simpl.
  - done.
  - unfold size_max in *. lia.
  - intros m Hm. apply lookup_insert_None in Hm as (Hm & Hne).
    rewrite lookup_insert_ne by done. by apply D.
  - intros m t0 Hm. destruct (decide (m = this)) as [->|Hne].
    + rewrite lookup_insert_eq in Hm. injection Hm as <-.
      split; [|done]. unfold live_tree; simpl. split_and!; [by rewrite lookup_insert_eq|done|done].
    + rewrite lookup_insert_ne in Hm by done.
      destruct (T0 _ _ Hm) as ((Hmm & Hr & Hn) & Ha). split; [|done].
      unfold live_tree; simpl. split_and!; [by rewrite lookup_insert_ne| |done].
      eapply rep_frame; [|exact Hr]. intros b Hb. apply Hfr.
      * by apply (J m this t0 t b).
      * by eapply rep_in_dom.
  - intros m1 m2 t1 t2 a Hne H1 H2 Ha1 Ha2.
    destruct (decide (m1 = this)) as [->|Hn1]; destruct (decide (m2 = this)) as [->|Hn2];
      try done.
    + rewrite lookup_insert_eq in H1. injection H1 as <-.
      rewrite lookup_insert_ne in H2 by done.
      destruct (Hnew _ Ha1) as [Hold|Hnw].
      * by apply (J this m2 t t2 a).
      * destruct (Hin _ _ _ H2 Ha2). lia.
    + rewrite lookup_insert_eq in H2. injection H2 as <-.
      rewrite lookup_insert_ne in H1 by done.
      destruct (Hnew _ Ha2) as [Hold|Hnw].
      * by apply (J this m1 t t1 a).
      * destruct (Hin _ _ _ H1 Ha1). lia.
    + rewrite lookup_insert_ne in H1, H2 by done. by apply (J m1 m2 t1 t2 a).
Qed.

(** A new map object. *)
Lemma models_new tr w this t' h' nx' av' :
  models tr w → tr !! this = None →
  rep h' None t' → NoDup (addrs t') → avl t' →
  (∀ b, is_Some (nodes w !! b) → h' !! b = nodes w !! b) →
  (∀ b, b ∈ addrs t' → (next w ≤ b)%positive) →
  fresh h' nx' →
  (size h' + av' ≤ size (nodes w) + avail w)%nat →
  models (<[this := t']> tr)
    (mkWorld h' nx' av'
       (<[this := mkMap (root_ptr t') (Z.of_nat (length (addrs t')))]> (maps w))).
Proof.
  intros Hmd Ht Hrep Hnd Havl Hfr Hnew Hfresh Hsz.
  destruct Hmd as [F S D T0 J].
  assert (Hin : ∀ m t0 a, tr !! m = Some t0 → a ∈ addrs t0 →
                 is_Some (nodes w !! a) ∧ (a < next w)%positive).
  { intros m t0 a Hm Ha. destruct (T0 _ _ Hm) as ((_ & Hr & _) & _).
    assert (is_Some (nodes w !! a)) by (by eapply rep_in_dom). split; [done|]. by apply F. }
  split; simpl.
  - done.
  - unfold size_max in *. lia.
  - intros m Hm. apply lookup_insert_None in Hm as (Hm & Hne).
    rewrite lookup_insert_ne by done. by apply D.
  - intros m t0 Hm. destruct (decide (m = this)) as [->|Hne].
    + rewrite lookup_insert_eq in Hm. injection Hm as <-.
      split; [|done]. unfold live_tree; simpl. split_and!; [by rewrite lookup_insert_eq|done|done].
    + rewrite lookup_insert_ne in Hm by done.
      destruct (T0 _ _ Hm) as ((Hmm & Hr & Hn) & Ha). split; [|done].
      unfold live_tree; simpl. split_and!; [by rewrite lookup_insert_ne| |done].
      eapply rep_frame; [|exact Hr]. intros b Hb. apply Hfr. by eapply rep_in_dom.
  - intros m1 m2 t1 t2 a Hne H1 H2 Ha1 Ha2.
    destruct (decide (m1 = this)) as [->|Hn1]; destruct (decide (m2 = this)) as [->|Hn2];
      try done.
    + rewrite lookup_insert_eq in H1. injection H1 as <-.
      rewrite lookup_insert_ne in H2 by done.
      specialize (Hnew _ Ha1). destruct (Hin _ _ _ H2 Ha2). lia.
    + rewrite lookup_insert_eq in H2. injection H2 as <-.
      rewrite lookup_insert_ne in H1 by done.
      specialize (Hnew _ Ha2). destruct (Hin _ _ _ H1 Ha1). lia.
    + rewrite lookup_insert_ne in H1, H2 by done. by apply (J m1 m2 t1 t2 a).
Qed.

End WorldFacts.

Section OpsFacts.
Context {K V : Type}.
Variable cmp : K → K → bool.
Variable default_value : V.
Implicit Types (h : gmap positive (@Node K V)) (w : @world K V).
Implicit Types (s t l r : @tree K V) (c : list (@frame K V)).
Implicit Types (tr : gmap positive (@tree K V)).

(** ** The public operations, one by one *)
Lemma models_live tr w m t : models tr w → tr !! m = Some t → live_tree w m t.
Proof. intros Hmd Ht. by destruct (md_tree _ _ Hmd _ _ Ht). Qed.

Lemma models_avl tr w m t : models tr w → tr !! m = Some t → avl t.
Proof. intros Hmd Ht. by destruct (md_tree _ _ Hmd _ _ Ht). Qed.

Lemma live_tree_size w m t : live_tree w m t → (length (addrs t) ≤ size (nodes w))%nat.
Proof. intros (_ & Hr & Hn). by eapply rep_addrs_size. Qed.

Lemma grows_refl w : grows w w.
Proof. split; [lia|done]. Qed.

Lemma grows_trans w1 w2 w3 : grows w1 w2 → grows w2 w3 → grows w1 w3.
Proof.
  intros (H1 & H2) (H3 & H4). split; [lia|].
  intros b Hb Hn. apply H4; [lia|]. by apply H2.
Qed.

Lemma grows_dom_sub h nx av ms h' nx' av' ms' :
  (nx ≤ nx')%positive → dom h' ⊆ dom h →
  grows (mkWorld h nx av ms) (mkWorld h' nx' av' ms').
Proof.
  intros Hle Hsub. split; [done|]. simpl. intros b _ Hn.
  apply not_elem_of_dom. apply not_elem_of_dom in Hn. set_solver.
Qed.

(** *** [insert] *)
Lemma insert_found tr w this t v b :
  models tr w → tr !! this = Some t →
  descend_t cmp v.1 t [] = inl b →
  insert cmp this v w = Ok (mkIt (Some b) (Some this), false) w.
Proof.
  intros Hmd Ht Hd. destruct (models_live _ _ _ _ Hmd Ht) as (Hm & Hr & Hn).
  pose proof (models_avl _ _ _ _ Hmd Ht) as Havl.
  destruct w as [h nx av ms]. simpl in *.
  pose proof (fresh_lookup_None _ _ (md_fresh _ _ Hmd)) as Hnx. simpl in Hnx.
  assert (Hnxt : nx ∉ addrs t).
  { intros Hin. eapply rep_in_dom in Hin; [|exact Hr]. rewrite Hnx in Hin. by destruct Hin. }
  pose proof (rep_addrs_size _ _ _ Hr Hn) as Hsz.
  pose proof (insert_t_ok cmp (2 * size h + 2) nx v t Havl Hn Hnxt ltac:(lia)) as Hok.
  rewrite Hd in Hok.
  edestruct (wp_insert cmp this (Z.of_nat (length (addrs t))) v t t b false h nx av ms
               (λ res w', res = (mkIt (Some b) (Some this), false) ∧ w' = mkWorld h nx av ms))
    as (res & w' & Hrun & -> & ->); [exact Hm|exact Hr|exact Hn|exact Hnx|exact Hok|done|done|].
  exact Hrun.
Qed.

Lemma insert_bad_alloc tr w this t v c :
  models tr w → tr !! this = Some t →
  descend_t cmp v.1 t [] = inr c → avail w = O →
  insert cmp this v w = Throw bad_alloc w.
Proof.
  intros Hmd Ht Hd Hav. destruct (models_live _ _ _ _ Hmd Ht) as (Hm & Hr & Hn).
  destruct w as [h nx av ms]. simpl in *. subst av.
  pose proof (rep_addrs_size _ _ _ Hr Hn) as Hsz.
  pose proof (depth_le_addrs t) as Hdp.
  assert (Hx : wpx (insert cmp this v) (mkWorld h nx O ms) (λ _ _, False)
                 (λ e w', e = bad_alloc ∧ w' = mkWorld h nx O ms)).
  { unfold insert.
    apply wpx_bind, wp_wpx. eapply wp_get_root; [exact Hm|]. simpl.
    apply wpx_bind, wp_wpx, wp_loop_bound.
    apply wpx_bind, wp_wpx.
    apply (wp_insert_descend cmp _ v.1 t []); [exact Hr|lia|].
    rewrite Hd. apply wpx_bind. unfold wpx. simpl. done. }
  unfold wpx in Hx. destruct (insert cmp this v _) as [| e w' | |]; try done.
  by destruct Hx as (-> & ->).
Qed.

Lemma insert_fresh tr w this t v c :
  models tr w → tr !! this = Some t →
  descend_t cmp v.1 t [] = inr c → (0 < avail w)%nat →
  ∃ t' w',
    insert cmp this v w = Ok (mkIt (Some (next w)) (Some this), true) w' ∧
    models (<[this := t']> tr) w' ∧
    next w' = Pos.succ (next w) ∧ avail w' = pred (avail w) ∧
    items t = items_before c ++ items_after c ∧
    items t' = items_before c ++ (next w, v) :: items_after c ∧
    grows w w' ∧ kept t t' w'.
Proof.
  intros Hmd Ht Hd Hav. destruct (models_live _ _ _ _ Hmd Ht) as (Hm & Hr & Hn).
  pose proof (models_avl _ _ _ _ Hmd Ht) as Havl.
  destruct w as [h nx av ms]. simpl in *.
  pose proof (fresh_lookup_None _ _ (md_fresh _ _ Hmd)) as Hnx. simpl in Hnx.
  assert (Hnxt : nx ∉ addrs t).
  { intros Hin. eapply rep_in_dom in Hin; [|exact Hr]. rewrite Hnx in Hin. by destruct Hin. }
  pose proof (rep_addrs_size _ _ _ Hr Hn) as Hsz.
  pose proof (insert_t_ok cmp (2 * size h + 2) nx v t Havl Hn Hnxt ltac:(lia)) as Hok.
  rewrite Hd in Hok. destruct Hok as (t' & Hins & Havl' & Hnd' & Hperm & He & He').
  pose proof (md_size _ _ Hmd) as Hsize. simpl in Hsize.
  edestruct (wp_insert cmp this (Z.of_nat (length (addrs t))) v t t' nx true h nx av ms
               (λ res w', res = (mkIt (Some nx) (Some this), true) ∧
                  ∃ h', w' = mkWorld h' (Pos.succ nx) (pred av)
                               (<[this := mkMap (root_ptr t')
                                    (wrap (Z.of_nat (length (addrs t)) + 1))]> ms) ∧
                        rep h' None t' ∧ dom h' = {[nx]} ∪ dom h ∧
                        (∀ x, x ∉ addrs t → x ≠ nx → h' !! x = h !! x)))
    as (res & w' & Hrun & -> & h' & -> & Hr' & Hd' & Hf');
    [exact Hm|exact Hr|exact Hn|exact Hnx|exact Hins|done| |].
  { intros h' H1 H2 H3. split; [done|]. exists h'. done. }
  exists t', (mkWorld h' (Pos.succ nx) (pred av)
               (<[this := mkMap (root_ptr t') (wrap (Z.of_nat (length (addrs t)) + 1))]> ms)).
  assert (Hlen' : length (addrs t') = S (length (addrs t))) by (by rewrite Hperm).
  assert (Hsz' : size h' = S (size h)).
  { rewrite <- !size_dom, Hd'. rewrite size_union, size_singleton; [done|].
    apply elem_of_disjoint. intros x Hx1 Hx2. apply elem_of_singleton in Hx1 as ->.
    apply elem_of_dom in Hx2. rewrite Hnx in Hx2. by destruct Hx2. }
  assert (Hwrap : wrap (Z.of_nat (length (addrs t)) + 1) = Z.of_nat (length (addrs t'))).
  { rewrite wrap_small; [lia|]. unfold size_max in *. lia. }
  rewrite Hwrap in Hrun |- *.
  pose proof (insert_t_items _ _ _ _ _ _ _ Hins) as (c0 & Hd0 & _ & Hit & Hit').
  rewrite Hd in Hd0. injection Hd0 as <-.
  split_and!; try done.
  - eapply (models_update tr (mkWorld h nx av ms) this t t' h' (Pos.succ nx) (pred av));
      try done; simpl.
    + intros b Hb Hsome. apply Hf'; [done|]. intros ->. rewrite Hnx in Hsome. by destruct Hsome.
    + intros b Hb. rewrite Hperm in Hb. apply elem_of_cons in Hb as [->|Hb]; [right; lia|by left].
    + intros b Hb. apply elem_of_dom in Hb. rewrite Hd' in Hb.
      apply elem_of_union in Hb as [Hb|Hb].
      * apply elem_of_singleton in Hb as ->. lia.
      * apply elem_of_dom in Hb. apply (md_fresh _ _ Hmd) in Hb. simpl in Hb. lia.
    + lia.
  - split; simpl; [lia|]. intros b Hb Hnone. apply not_elem_of_dom. rewrite Hd'.
    apply not_elem_of_dom in Hnone. apply not_elem_of_union. split; [|done].
    apply not_elem_of_singleton. lia.
  - intros a Ha. left. rewrite Hperm. by apply elem_of_cons; right.
Qed.

(** *** [erase] *)
Lemma erase_foreign w this pos :
  owner pos ≠ Some this → erase this pos w = Throw (A:=unit) invalid_iterator w.
Proof. intros Hne. unfold erase. by rewrite decide_True. Qed.

Lemma erase_end w this pos :
  nodePtr pos = None → erase this pos w = Throw (A:=unit) invalid_iterator w.
Proof.
  intros Hn. unfold erase. destruct (decide (owner pos ≠ Some this)); [done|]. by rewrite Hn.
Qed.

Lemma erase_ok tr w this t pos z :
  models tr w → tr !! this = Some t →
  owner pos = Some this → nodePtr pos = Some z → z ∈ addrs t →
  ∃ t' w',
    erase this pos w = Ok tt w' ∧
    models (<[this := t']> tr) w' ∧
    next w' = next w ∧ avail w' = avail w ∧
    nodes w' !! z = None ∧
    (∃ is1 kv is2, items t = is1 ++ (z, kv) :: is2 ∧ items t' = is1 ++ is2) ∧
    grows w w' ∧ kept t t' w' ∧
    dom (nodes w') = dom (nodes w) ∖ {[z]}.
Proof.
  intros Hmd Ht Ho Hp Hz. destruct (models_live _ _ _ _ Hmd Ht) as (Hm & Hr & Hn).
  pose proof (models_avl _ _ _ _ Hmd Ht) as Havl.
  destruct w as [h nx av ms]. simpl in *.
  pose proof (rep_addrs_size _ _ _ Hr Hn) as Hsz.
  destruct (erase_t_ok (2 * size h + 2) z t Havl Hn Hz ltac:(lia))
    as (t' & es1 & kv0 & es2 & Hers & Havl' & _ & _ & _ & Hperm).
  pose proof (erase_t_items _ _ _ _ Hers) as Hit.
  pose proof (md_size _ _ Hmd) as Hsize. simpl in Hsize.
  assert (Hlen : length (addrs t) = S (length (addrs t'))) by (by rewrite Hperm).
  assert (Hnd' : NoDup (addrs t')).
  { rewrite Hperm in Hn. by apply NoDup_cons in Hn as (_ & Hn). }
  edestruct (wp_eraseNode (2 * size h + 2) this (Z.of_nat (length (addrs t))) z t t' h nx av ms
               (λ _ w', ∃ h', w' = mkWorld h' nx av
                               (<[this := mkMap (root_ptr t')
                                    (wrap (Z.of_nat (length (addrs t)) - 1))]> ms) ∧
                        rep h' None t' ∧ dom h' = dom h ∖ {[z]} ∧
                        (∀ b, b ∉ addrs t → h' !! b = h !! b)))
    as ([] & w' & Hrun & h' & -> & Hr' & Hd' & Hf');
    [exact Hm|exact Hr|exact Hn|lia|exact Hers| |].
  { intros h' H1 H2 H3. exists h'. done. }
  assert (Hwrap : wrap (Z.of_nat (length (addrs t)) - 1) = Z.of_nat (length (addrs t'))).
  { rewrite wrap_small; [lia|]. unfold size_max in *. lia. }
  rewrite Hwrap in Hrun.
  eexists t', _. split_and!.
  - unfold erase. rewrite decide_False by (intros Hne; by apply Hne). rewrite Hp.
    unfold bind at 1. unfold get_map. simpl. rewrite Hm.
    unfold bind at 1. unfold loop_bound. simpl. exact Hrun.
  - eapply (models_update tr (mkWorld h nx av ms) this t t' h' nx av); try done; simpl.
    + intros b Hb _. by apply Hf'.
    + intros b Hb. left. rewrite Hperm. set_solver.
    + intros b Hb. apply elem_of_dom in Hb. rewrite Hd' in Hb.
      apply elem_of_difference in Hb as (Hb & _). apply elem_of_dom in Hb.
      by apply (md_fresh _ _ Hmd) in Hb.
    + assert (size h' ≤ size h)%nat; [|lia].
      rewrite <- !size_dom, Hd'. apply subseteq_size. set_solver.
  - done.
  - done.
  - simpl. apply not_elem_of_dom. rewrite Hd'. set_solver.
  - done.
  - apply grows_dom_sub; [lia|]. rewrite Hd'. set_solver.
  - intros a Ha. rewrite Hperm in Ha. apply elem_of_cons in Ha as [->|Ha]; [right|by left].
    simpl. apply not_elem_of_dom. rewrite Hd'. set_solver.
  - done.
Qed.

(** *** [clear], constructor, destructor *)
Lemma clear_ok tr w this t :
  models tr w → tr !! this = Some t →
  ∃ w', clear this w = Ok tt w' ∧ models (<[this := E]> tr) w' ∧
        next w' = next w ∧ avail w' = avail w ∧
        grows w w' ∧ (∀ a, a ∈ addrs t → nodes w' !! a = None) ∧
        dom (nodes w') = dom (nodes w) ∖ list_to_set (addrs t).
Proof.
  intros Hmd Ht. destruct (models_live _ _ _ _ Hmd Ht) as (Hm & Hr & Hn).
  destruct w as [h nx av ms]. simpl in *.
  pose proof (rep_addrs_size _ _ _ Hr Hn) as Hsz.
  pose proof (depth_le_addrs t) as Hdp.
  assert (Hwp : wp (clear this) (mkWorld h nx av ms)
            (λ _ w', ∃ h', w' = mkWorld h' nx av (<[this := mkMap None 0]> ms) ∧
                       dom h' = dom h ∖ list_to_set (addrs t) ∧
                       (∀ b, b ∉ addrs t → h' !! b = h !! b))).
  { unfold clear.
    apply wp_bind. eapply wp_get_root; [exact Hm|]. simpl.
    apply wp_bind, wp_loop_bound.
    apply wp_bind. eapply wp_destroySubtree; [exact Hr|exact Hn|lia|].
    intros h' Hd' Hf'.
    apply wp_bind. eapply wp_set_root; [exact Hm|]. simpl.
    eapply wp_set_count; [apply lookup_insert_eq|]. simpl.
    rewrite insert_insert_eq. eauto. }
  destruct Hwp as ([] & w' & Hrun & h' & -> & Hd' & Hf').
  eexists. split_and!; [exact Hrun| |done|done| | |done].
  - eapply (models_update tr (mkWorld h nx av ms) this t E h' nx av);
      [exact Hmd|exact Ht|done|constructor|done|simpl..].
    + intros b Hb _. by apply Hf'.
    + intros b Hb. set_solver.
    + intros b Hb. apply elem_of_dom in Hb. rewrite Hd' in Hb.
      apply elem_of_difference in Hb as (Hb & _). apply elem_of_dom in Hb.
      by apply (md_fresh _ _ Hmd) in Hb.
    + assert (size h' ≤ size h)%nat; [|lia].
      rewrite <- !size_dom, Hd'. apply subseteq_size. set_solver.
  - apply grows_dom_sub; [lia|]. rewrite Hd'. set_solver.
  - intros a Ha. simpl. apply not_elem_of_dom. rewrite Hd'. set_solver.
Qed.

Lemma ctor_ok tr w this :
  models tr w → tr !! this = None →
  ∃ w', map_ctor this w = Ok tt w' ∧ models (<[this := E]> tr) w' ∧
        nodes w' = nodes w ∧ next w' = next w ∧ avail w' = avail w.
Proof.
  intros Hmd Ht. pose proof (md_dom _ _ Hmd _ Ht) as Hm.
  destruct w as [h nx av ms]. simpl in *.
  eexists. split_and!.
  - unfold map_ctor. simpl. rewrite Hm. reflexivity.
  - eapply (models_new tr (mkWorld h nx av ms) this E h nx av);
      [exact Hmd|exact Ht|done|constructor|done|simpl..].
    + done.
    + intros b Hb. by apply elem_of_nil in Hb.
    + apply (md_fresh _ _ Hmd).
    + lia.
  - done.
  - done.
  - done.
Qed.

Lemma models_delete tr w this t :
  models tr w → tr !! this = Some t → t = E →
  models (delete this tr)
    (mkWorld (nodes w) (next w) (avail w) (delete this (maps w))).
Proof.
  intros [F S D T0 J] Ht ->. split; simpl; try done.
  - intros m Hm. apply lookup_delete_None in Hm as [->|Hm].
    + apply lookup_delete_eq.
    + destruct (decide (m = this)) as [->|Hne]; [apply lookup_delete_eq|].
      rewrite lookup_delete_ne by done. by apply D.
  - intros m t0 Hm. apply lookup_delete_Some in Hm as (Hne & Hm).
    destruct (T0 _ _ Hm) as ((H1 & H2 & H3) & H4). split; [|done].
    unfold live_tree; simpl. by rewrite lookup_delete_ne.
  - intros m1 m2 t1 t2 a Hne H1 H2. apply lookup_delete_Some in H1 as (_ & H1).
    apply lookup_delete_Some in H2 as (_ & H2). by eapply J.
Qed.

Lemma dtor_ok tr w this t :
  models tr w → tr !! this = Some t →
  ∃ w', map_dtor this w = Ok tt w' ∧ models (delete this tr) w' ∧
        next w' = next w ∧ avail w' = avail w ∧
        grows w w' ∧ (∀ a, a ∈ addrs t → nodes w' !! a = None) ∧
        dom (nodes w') = dom (nodes w) ∖ list_to_set (addrs t) ∧
        maps w' = delete this (maps w).
Proof.
  intros Hmd Ht.
  destruct (clear_ok _ _ _ _ Hmd Ht) as (w1 & Hrun & Hmd1 & Hn1 & Ha1 & Hg & Hgone & Hdom).
  pose proof (models_delete _ _ this E Hmd1 ltac:(apply lookup_insert_eq) eq_refl) as Hmd2.
  rewrite delete_insert_eq in Hmd2.
  eexists. split_and!.
  - unfold map_dtor, bind. rewrite Hrun. reflexivity.
  - unfold with_maps. exact Hmd2.
  - done.
  - done.
  - destruct Hg as (Hg1 & Hg2). split; [done|]. simpl. done.
  - done.
  - done.
  - simpl. destruct (models_live _ _ _ _ Hmd1 ltac:(apply lookup_insert_eq)) as (Hm1 & _).
    apply map_eq. intros i. destruct (decide (i = this)) as [->|Hne].
    + by rewrite !lookup_delete_eq.
    + rewrite !lookup_delete_ne by done.
      destruct (tr !! i) as [ti|] eqn:Hti.
      * destruct (models_live _ _ _ _ Hmd Hti) as (-> & _).
        assert (Hti' : (<[this := E]> tr) !! i = Some ti) by (by rewrite lookup_insert_ne).
        by destruct (models_live _ _ _ _ Hmd1 Hti') as (-> & _).
      * rewrite (md_dom _ _ Hmd _ Hti).
        apply (md_dom _ _ Hmd1). by rewrite lookup_insert_ne.
Qed.

(** *** Copy construction and assignment *)
Lemma wpx_throws {A} (m : @M K V A) w X :
  wpx m w (λ _ _, False) X → ∃ e w', m w = Throw e w' ∧ X e w'.
Proof. unfold wpx. destruct (m w); [done|eauto|done..]. Qed.

Lemma clone_t_avl t nx : avl t → avl (clone_t t nx).1 ∧ ht (clone_t t nx).1 = ht t.
Proof.
  revert nx; induction t as [|l IHl a kv hg r IHr]; intros nx Ha; [done|].
  destruct Ha as (Hl & Hr & Hh & Hb). simpl.
  specialize (IHl (Pos.succ nx) Hl).
  destruct (clone_t l (Pos.succ nx)) as [l' n1]. simpl in IHl.
  specialize (IHr n1 Hr).
  destruct (clone_t r n1) as [r' n2]. simpl in *.
  destruct IHl as (? & El), IHr as (? & Er). rewrite El, Er. split_and!; try done; lia.
Qed.

Lemma models_frame tr w w' :
  models tr w → maps w' = maps w →
  (∀ b, is_Some (nodes w !! b) → nodes w' !! b = nodes w !! b) →
  fresh (nodes w') (next w') →
  (size (nodes w') + avail w' ≤ size (nodes w) + avail w)%nat →
  models tr w'.
Proof.
  intros [F S D T0 J] Hm Hfr Hfresh Hsz. split; try done.
  - lia.
  - intros m Hn. rewrite Hm. by apply D.
  - intros m t Ht. destruct (T0 _ _ Ht) as ((H1 & H2 & H3) & H4). split; [|done].
    split_and!; [by rewrite Hm| |done].
    eapply rep_frame; [|exact H2]. intros b Hb. apply Hfr. by eapply rep_in_dom.
Qed.

Lemma copy_ctor_ok tr w this other t :
  models tr w → tr !! this = None → tr !! other = Some t →
  (length (addrs t) ≤ avail w)%nat →
  ∃ t' w',
    map_copy_ctor this other w = Ok tt w' ∧
    models (<[this := t']> tr) w' ∧
    entries t' = entries t ∧
    (∀ a, a ∈ addrs t' → (next w ≤ a)%positive) ∧
    avail w' = (avail w - length (addrs t))%nat ∧
    grows w w'.
Proof.
  intros Hmd Hthis Ht Hav. destruct (models_live _ _ _ _ Hmd Ht) as (Hm & Hr & Hn).
  pose proof (models_avl _ _ _ _ Hmd Ht) as Havl.
  pose proof (md_dom _ _ Hmd _ Hthis) as Hnone.
  pose proof (md_fresh _ _ Hmd) as Hfresh.
  pose proof (md_size _ _ Hmd) as Hsize.
  destruct w as [h nx av ms]. simpl in *.
  pose proof (rep_addrs_size _ _ _ Hr Hn) as Hsz.
  pose proof (depth_le_addrs t) as Hdp.
  destruct (clone_t t nx) as [t' nx'] eqn:Hcl.
  destruct (clone_t_addrs _ _ _ _ Hcl) as (Hle & Hrange & Hnd' & Hlen & Hent).
  pose proof (clone_t_avl t nx Havl) as (Havl' & _). rewrite Hcl in Havl'. simpl in Havl'.
  set (body := bind (K:=K) (V:=V) (get_map other) (λ mo,
                bind loop_bound (λ fuel,
                bind (cloneSubtree fuel (root mo) None) (λ rp,
                bind (get_map other) (λ mo',
                put_map this (mkMap rp (nodeCount mo'))))))).
  assert (Hwp : wp body (mkWorld h nx av ms)
            (λ _ w', ∃ h', w' = mkWorld h' nx' (av - length (addrs t))%nat
                              (<[this := mkMap (root_ptr t') (Z.of_nat (length (addrs t')))]> ms) ∧
                       rep h' None t' ∧ fresh h' nx' ∧
                       (∀ b, (b < nx)%positive → h' !! b = h !! b) ∧
                       size h' = (size h + length (addrs t))%nat)).
  { unfold body. apply wp_bind. eapply wp_get_map; [exact Hm|]. simpl.
    apply wp_bind, wp_loop_bound.
    apply wp_bind, wpx_wp.
    eapply (wpx_cloneSubtree _ t None None); [exact Hr|exact Hfresh|lia| |].
    - intros _ h' Hr' Hf' Hfr' Hs'. rewrite Hcl in *. simpl in *.
      apply wp_bind. eapply wp_get_map; [exact Hm|]. simpl.
      unfold wp, put_map. simpl. eexists _, _. split; [reflexivity|].
      exists h'. rewrite Hlen. done.
    - intros Hlt. lia. }
  destruct Hwp as ([] & w' & Hrun & h' & -> & Hr' & Hf' & Hfr' & Hs').
  exists t'. eexists. split_and!.
  - unfold map_copy_ctor. simpl. rewrite Hnone. exact Hrun.
  - eapply (models_new tr (mkWorld h nx av ms) this t' h' nx' _);
      [exact Hmd|exact Hthis|done|done|done|simpl..].
    + intros b Hb. apply Hfr'. by apply Hfresh.
    + intros b Hb. by apply Hrange in Hb as (? & _).
    + done.
    + lia.
  - done.
  - intros a Ha. by apply Hrange in Ha as (? & _).
  - done.
  - split; simpl; [done|]. intros b Hb Hdead. by rewrite Hfr'.
Qed.

Lemma copy_ctor_bad_alloc tr w this other t :
  models tr w → tr !! this = None → tr !! other = Some t →
  (avail w < length (addrs t))%nat →
  ∃ w', map_copy_ctor this other w = Throw bad_alloc w' ∧ models tr w' ∧ grows w w' ∧
        maps w' = maps w ∧ avail w' = O ∧
        size (nodes w') = (size (nodes w) + avail w)%nat.
Proof.
  intros Hmd Hthis Ht Hav. destruct (models_live _ _ _ _ Hmd Ht) as (Hm & Hr & Hn).
  pose proof (md_dom _ _ Hmd _ Hthis) as Hnone.
  pose proof (md_fresh _ _ Hmd) as Hfresh.
  destruct w as [h nx av ms]. simpl in *.
  pose proof (rep_addrs_size _ _ _ Hr Hn) as Hsz.
  pose proof (depth_le_addrs t) as Hdp.
  set (body := bind (K:=K) (V:=V) (get_map other) (λ mo,
                bind loop_bound (λ fuel,
                bind (cloneSubtree fuel (root mo) None) (λ rp,
                bind (get_map other) (λ mo',
                put_map this (mkMap rp (nodeCount mo'))))))).
  assert (Hx : wpx body (mkWorld h nx av ms) (λ _ _, False)
                 (λ e w', e = bad_alloc ∧ models tr w' ∧ grows (mkWorld h nx av ms) w' ∧
                          maps w' = ms ∧ avail w' = O ∧
                          size (nodes w') = (size h + av)%nat)).
  { unfold body. apply wpx_bind, wp_wpx. eapply wp_get_map; [exact Hm|]. simpl.
    apply wpx_bind, wp_wpx, wp_loop_bound.
    apply wpx_bind.
    eapply (wpx_cloneSubtree _ t None None); [exact Hr|exact Hfresh|lia| |].
    - intros Hle. lia.
    - intros _ w' Hms Hnx Hfr' Hsame Hav0 Hs'. split_and!; [done| | |done|done|done].
      + eapply (models_frame tr (mkWorld h nx av ms)); [exact Hmd|done| |done|simpl; lia].
        simpl. intros b Hb. apply Hsame. by apply Hfresh.
      + split; simpl; [done|]. intros b Hb Hdead. by rewrite Hsame. }
  apply wpx_throws in Hx as (e & w' & Hrun & -> & Hmd' & Hg & ? & ? & ?).
  exists w'. split_and!; [|done..]. unfold map_copy_ctor. simpl. rewrite Hnone. exact Hrun.
Qed.

Lemma assign_self w this : map_assign this this w = Ok tt w.
Proof. unfold map_assign. by rewrite decide_True. Qed.

Lemma assign_ok tr w this other t0 t :
  models tr w → tr !! this = Some t0 → tr !! other = Some t → this ≠ other →
  (length (addrs t) ≤ avail w)%nat →
  ∃ t' w',
    map_assign this other w = Ok tt w' ∧
    models (<[this := t']> tr) w' ∧
    entries t' = entries t ∧
    (∀ a, a ∈ addrs t' → (next w ≤ a)%positive) ∧
    grows w w' ∧ (∀ a, a ∈ addrs t0 → nodes w' !! a = None).
Proof.
  intros Hmd Hthis Ht Hne Hav.
  destruct (clear_ok _ _ _ _ Hmd Hthis) as (w1 & Hclr & Hmd1 & Hnx1 & Hav1 & Hg1 & Hgone1 & _).
  pose proof (models_live _ _ _ _ Hmd Hthis) as (_ & Hr0 & _).
  assert (Hlow : ∀ a, a ∈ addrs t0 → (a < next w)%positive).
  { intros a Ha. apply (md_fresh _ _ Hmd). by eapply rep_in_dom. }
  assert (Ht1 : (<[this := E]> tr) !! other = Some t) by (by rewrite lookup_insert_ne).
  assert (Hthis1 : (<[this := E]> tr) !! this = Some E) by apply lookup_insert_eq.
  destruct (models_live _ _ _ _ Hmd1 Ht1) as (Hm & Hr & Hn).
  destruct (models_live _ _ _ _ Hmd1 Hthis1) as (Hmt & _ & _).
  pose proof (models_avl _ _ _ _ Hmd1 Ht1) as Havl.
  pose proof (md_fresh _ _ Hmd1) as Hfresh.
  destruct w1 as [h nx av ms]. simpl in *. subst nx av.
  pose proof (rep_addrs_size _ _ _ Hr Hn) as Hsz.
  pose proof (depth_le_addrs t) as Hdp.
  destruct (clone_t t (next w)) as [t' nx'] eqn:Hcl.
  destruct (clone_t_addrs _ _ _ _ Hcl) as (Hle & Hrange & Hnd' & Hlen & Hent).
  pose proof (clone_t_avl t (next w) Havl) as (Havl' & _). rewrite Hcl in Havl'. simpl in Havl'.
  set (body := bind (K:=K) (V:=V) (get_map other) (λ mo,
                bind loop_bound (λ fuel,
                bind (cloneSubtree fuel (root mo) None) (λ rp,
                bind (set_root this rp) (λ _,
                bind (get_map other) (λ mo',
                set_count this (nodeCount mo'))))))).
  assert (Hwp : wp body (mkWorld h (next w) (avail w) ms)
            (λ _ w', ∃ h', w' = mkWorld h' nx' (avail w - length (addrs t))%nat
                              (<[this := mkMap (root_ptr t') (Z.of_nat (length (addrs t')))]> ms) ∧
                       rep h' None t' ∧ fresh h' nx' ∧
                       (∀ b, (b < next w)%positive → h' !! b = h !! b) ∧
                       size h' = (size h + length (addrs t))%nat)).
  { unfold body. apply wp_bind. eapply wp_get_map; [exact Hm|]. simpl.
    apply wp_bind, wp_loop_bound.
    apply wp_bind, wpx_wp.
    eapply (wpx_cloneSubtree _ t None None); [exact Hr|exact Hfresh|lia| |].
    - intros _ h' Hr' Hf' Hfr' Hs'. rewrite Hcl in *. simpl in *.
      apply wp_bind. eapply wp_set_root; [exact Hmt|]. simpl.
      apply wp_bind. eapply wp_get_map; [simpl; rewrite lookup_insert_ne by done; exact Hm|]. simpl.
      eapply wp_set_count; [apply lookup_insert_eq|]. simpl.
      rewrite insert_insert_eq. exists h'. rewrite Hlen. done.
    - intros Hlt. lia. }
  destruct Hwp as ([] & w' & Hrun & h' & -> & Hr' & Hf' & Hfr' & Hs').
  exists t'. eexists. split_and!.
  - unfold map_assign. rewrite decide_False by done.
    unfold bind at 1. rewrite Hclr. exact Hrun.
  - pose proof (models_update (<[this := E]> tr) (mkWorld h (next w) (avail w) ms)
                  this E t' h' nx' (avail w - length (addrs t))%nat
                  Hmd1 Hthis1 Hr' Hnd' Havl') as Hup.
    simpl in Hup. rewrite insert_insert_eq in Hup. apply Hup.
    + intros b _ Hb. apply Hfr'. by apply Hfresh.
    + intros b Hb. right. by apply Hrange in Hb as (? & _).
    + done.
    + lia.
  - done.
  - intros a Ha. by apply Hrange in Ha as (? & _).
  - eapply grows_trans; [exact Hg1|]. split; simpl; [done|].
    intros b Hb Hdead. by rewrite Hfr'.
  - intros a Ha. simpl. rewrite Hfr' by (by apply Hlow). by apply Hgone1.
Qed.

Lemma assign_bad_alloc tr w this other t0 t :
  models tr w → tr !! this = Some t0 → tr !! other = Some t → this ≠ other →
  (avail w < length (addrs t))%nat →
  ∃ w', map_assign this other w = Throw bad_alloc w' ∧ models (<[this := E]> tr) w' ∧
        grows w w' ∧ (∀ a, a ∈ addrs t0 → nodes w' !! a = None).
Proof.
  intros Hmd Hthis Ht Hne Hav.
  destruct (clear_ok _ _ _ _ Hmd Hthis) as (w1 & Hclr & Hmd1 & Hnx1 & Hav1 & Hg1 & Hgone1 & _).
  pose proof (models_live _ _ _ _ Hmd Hthis) as (_ & Hr0 & _).
  assert (Hlow : ∀ a, a ∈ addrs t0 → (a < next w)%positive).
  { intros a Ha. apply (md_fresh _ _ Hmd). by eapply rep_in_dom. }
  assert (Ht1 : (<[this := E]> tr) !! other = Some t) by (by rewrite lookup_insert_ne).
  destruct (models_live _ _ _ _ Hmd1 Ht1) as (Hm & Hr & Hn).
  pose proof (md_fresh _ _ Hmd1) as Hfresh.
  destruct w1 as [h nx av ms]. simpl in *. subst nx av.
  pose proof (rep_addrs_size _ _ _ Hr Hn) as Hsz.
  pose proof (depth_le_addrs t) as Hdp.
  set (body := bind (K:=K) (V:=V) (get_map other) (λ mo,
                bind loop_bound (λ fuel,
                bind (cloneSubtree fuel (root mo) None) (λ rp,
                bind (set_root this rp) (λ _,
                bind (get_map other) (λ mo',
                set_count this (nodeCount mo'))))))).
  assert (Hx : wpx body (mkWorld h (next w) (avail w) ms) (λ _ _, False)
                 (λ e w', e = bad_alloc ∧ models (<[this := E]> tr) w' ∧
                          (next w ≤ next w')%positive ∧
                          (∀ b, (b < next w)%positive → nodes w' !! b = h !! b))).
  { unfold body. apply wpx_bind, wp_wpx. eapply wp_get_map; [exact Hm|]. simpl.
    apply wpx_bind, wp_wpx, wp_loop_bound.
    apply wpx_bind.
    eapply (wpx_cloneSubtree _ t None None); [exact Hr|exact Hfresh|lia| |].
    - intros Hle. lia.
    - intros _ w' Hms Hnx Hfr' Hsame Hav0 Hs'. split_and!; [done| |done|done].
      eapply (models_frame _ (mkWorld h (next w) (avail w) ms));
        [exact Hmd1|done| |done|simpl; lia].
      simpl. intros b Hb. apply Hsame. by apply Hfresh. }
  apply wpx_throws in Hx as (e & w' & Hrun & -> & Hmd' & Hnx' & Hsame).
  exists w'. split_and!; [|done| |].
  - unfold map_assign. rewrite decide_False by done.
    unfold bind at 1. rewrite Hclr. exact Hrun.
  - eapply grows_trans; [exact Hg1|]. split; simpl; [done|].
    intros b Hb Hdead. by rewrite Hsame.
  - intros a Ha. rewrite Hsame by (by apply Hlow). by apply Hgone1.
Qed.

End OpsFacts.

Section ReadsFacts.
Context {K V : Type}.
Variable cmp : K → K → bool.
Variable default_value : V.
Implicit Types (h : gmap positive (@Node K V)) (w : @world K V).
Implicit Types (s t l r : @tree K V) (c : list (@frame K V)).
Implicit Types (tr : gmap positive (@tree K V)).

(** ** Look-ups *)
Lemma wp_run {A} (m : @M K V A) w a0 w0 :
  wp m w (λ a w', a = a0 ∧ w' = w0) → m w = Ok a0 w0.
Proof. by intros (a & w' & Hrun & -> & ->). Qed.

Lemma findNode_ok tr w this t key :
  models tr w → tr !! this = Some t →
  findNode cmp this key w = Ok (find_t cmp key t) w.
Proof.
  intros Hmd Ht. destruct (models_live _ _ _ _ Hmd Ht) as (Hm & Hr & Hn).
  destruct w as [h nx av ms]. simpl in *.
  pose proof (rep_addrs_size _ _ _ Hr Hn) as Hsz.
  pose proof (depth_le_addrs t) as Hdp.
  apply wp_run. unfold findNode.
  apply wp_bind. eapply wp_get_root; [exact Hm|]. simpl.
  apply wp_bind, wp_loop_bound.
  eapply wp_findNode_loop; [exact Hr|lia|done].
Qed.

Lemma find_t_in key t a :
  NoDup (addrs t) → find_t cmp key t = Some a →
  a ∈ addrs t ∧ ∃ kv, lookup_t a t = Some kv ∧ keyEq cmp key kv.1 = true.
Proof.
  induction t as [|l IHl b bkv hg r IHr]; simpl; [done|].
  intros Hnd. apply NoDup_app in Hnd as (Hndl & Hd & Hnd).
  apply NoDup_cons in Hnd as (Hb & Hndr).
  destruct (keyEq cmp key bkv.1) eqn:Hk.
  - intros [= ->]. split; [set_solver|]. rewrite decide_True by done. eauto.
  - destruct (cmp key bkv.1).
    + intros Hf. destruct (IHl Hndl Hf) as (Hin & kv & Hl & Hkv).
      split; [set_solver|]. exists kv. split; [|done].
      rewrite decide_False; [by rewrite Hl|]. intros ->. apply (Hd b); set_solver.
    + intros Hf. destruct (IHr Hndr Hf) as (Hin & kv & Hl & Hkv).
      split; [set_solver|]. exists kv. split; [|done].
      rewrite decide_False by (intros ->; done).
      destruct (lookup_t a l) as [x|] eqn:Hla; [|done].
      apply lookup_t_Some_items in Hla.
      assert (a ∈ addrs l).
      { rewrite <- items_addrs. apply list_elem_of_fmap. by exists (a, x). }
      exfalso. apply (Hd a); set_solver.
Qed.

Lemma lookup_t_in a t : a ∈ addrs t → is_Some (lookup_t a t).
Proof.
  induction t as [|l IHl b bkv hg r IHr]; simpl; [set_solver|].
  intros Hin. destruct (decide (a = b)); [eauto|].
  destruct (lookup_t a l) eqn:Hl; [eauto|].
  apply elem_of_app in Hin as [Hin|Hin].
  - apply IHl in Hin. by destruct Hin.
  - apply elem_of_cons in Hin as [->|Hin]; [done|]. by apply IHr.
Qed.

Lemma lookup_t_addrs a t kv : lookup_t a t = Some kv → a ∈ addrs t.
Proof.
  intros H%lookup_t_Some_items. rewrite <- items_addrs.
  apply list_elem_of_fmap. by exists (a, kv).
Qed.

Lemma load_value tr w o t a kv :
  models tr w → tr !! o = Some t → lookup_t a t = Some kv →
  ∃ nd, nodes w !! a = Some nd ∧ value nd = kv.
Proof.
  intros Hmd Ht Hl. destruct (models_live _ _ _ _ Hmd Ht) as (Hm & Hr & Hn).
  by eapply rep_lookup_t.
Qed.

Lemma find_ok tr w this t key :
  models tr w → tr !! this = Some t →
  find cmp this key w = Ok (mkIt (find_t cmp key t) (Some this)) w.
Proof.
  intros Hmd Ht. unfold find, bind. by rewrite (findNode_ok _ _ _ _ _ Hmd Ht).
Qed.

Lemma count_ok tr w this t key :
  models tr w → tr !! this = Some t →
  count cmp this key w = Ok (match find_t cmp key t with Some _ => 1 | None => 0 end) w.
Proof.
  intros Hmd Ht. unfold count, bind. by rewrite (findNode_ok _ _ _ _ _ Hmd Ht).
Qed.

Lemma at_ok tr w this t key a kv :
  models tr w → tr !! this = Some t →
  find_t cmp key t = Some a → lookup_t a t = Some kv →
  at_ cmp this key w = Ok kv.2 w.
Proof.
  intros Hmd Ht Hf Hl. unfold at_, bind at 1. rewrite (findNode_ok _ _ _ _ _ Hmd Ht), Hf.
  destruct (load_value _ _ _ _ _ _ Hmd Ht Hl) as (nd & Hnd & <-).
  unfold bind, load. by rewrite Hnd.
Qed.

Lemma at_missing tr w this t key :
  models tr w → tr !! this = Some t → find_t cmp key t = None →
  at_ cmp this key w = Throw index_out_of_bound w.
Proof.
  intros Hmd Ht Hf. unfold at_, bind. by rewrite (findNode_ok _ _ _ _ _ Hmd Ht), Hf.
Qed.

Lemma index_const_ok tr w this t key a kv :
  models tr w → tr !! this = Some t →
  find_t cmp key t = Some a → lookup_t a t = Some kv →
  index_const cmp this key w = Ok kv.2 w.
Proof. apply at_ok. Qed.

Lemma index_const_missing tr w this t key :
  models tr w → tr !! this = Some t → find_t cmp key t = None →
  index_const cmp this key w = Throw index_out_of_bound w.
Proof. apply at_missing. Qed.

Lemma size_ok tr w this t :
  models tr w → tr !! this = Some t →
  size_ this w = Ok (Z.of_nat (length (addrs t))) w.
Proof.
  intros Hmd Ht. destruct (models_live _ _ _ _ Hmd Ht) as (Hm & Hr & Hn).
  unfold size_, get_count, bind, get_map. by rewrite Hm.
Qed.

Lemma empty_ok tr w this t :
  models tr w → tr !! this = Some t →
  empty this w = Ok (match t with E => true | _ => false end) w.
Proof.
  intros Hmd Ht. destruct (models_live _ _ _ _ Hmd Ht) as (Hm & Hr & Hn).
  unfold empty, get_count, bind, get_map. rewrite Hm. unfold ret. simpl. f_equal.
  destruct t as [|l a kv hg r]; [done|].
  simpl. rewrite length_app. simpl. apply Z.eqb_neq. lia.
Qed.

Lemma root_ptr_set_second a v t : root_ptr (set_second a v t) = root_ptr t.
Proof. by destruct t. Qed.

Lemma ht_set_second a v t : ht (set_second a v t) = ht t.
Proof. by destruct t. Qed.

Lemma addrs_set_second a v t : addrs (set_second a v t) = addrs t.
Proof. induction t as [|l IHl b kv hg r IHr]; simpl; [done|]. by rewrite IHl, IHr. Qed.

Lemma keys_set_second a v t : (entries (set_second a v t)).*1 = (entries t).*1.
Proof.
  induction t as [|l IHl b kv hg r IHr]; simpl; [done|].
  rewrite !fmap_app, !fmap_cons, IHl, IHr. by destruct (decide (b = a)).
Qed.

Lemma avl_set_second a v t : avl t → avl (set_second a v t).
Proof.
  induction t as [|l IHl b kv hg r IHr]; simpl; [done|].
  intros (Hl & Hr & Hh & Hb). rewrite !ht_set_second. auto.
Qed.

Lemma items_set_second a v t :
  items (set_second a v t) =
  (λ p : positive * (K * V), if decide (p.1 = a) then (p.1, (p.2.1, v)) else p) <$> items t.
Proof.
  induction t as [|l IHl b kv hg r IHr]; simpl; [done|].
  rewrite fmap_app, fmap_cons, IHl, IHr. simpl. by destruct (decide (b = a)).
Qed.

Lemma lookup_t_set_second a v t b :
  lookup_t b (set_second a v t) =
  (λ kv : K * V, if decide (b = a) then (kv.1, v) else kv) <$> lookup_t b t.
Proof.
  induction t as [|l IHl x kv hg r IHr]; simpl; [done|].
  destruct (decide (b = x)) as [->|Hne]; simpl.
  - by destruct (decide (x = a)).
  - rewrite IHl, IHr. by destruct (lookup_t b l).
Qed.

Lemma rep_set_second h par t a v nd :
  rep h par t → h !! a = Some nd →
  rep (<[a := with_second v nd]> h) par (set_second a v t).
Proof.
  revert par. induction t as [|l IHl b kv hg r IHr]; intros par; simpl; [done|].
  intros (Hb & Hl & Hr) Ha. rewrite !root_ptr_set_second. split_and!.
  - destruct (decide (b = a)) as [->|Hne].
    + rewrite lookup_insert_eq. rewrite Hb in Ha. by injection Ha as <-.
    + by rewrite lookup_insert_ne.
  - by apply IHl.
  - by apply IHr.
Qed.

Lemma set_value_ok tr w o t a v :
  models tr w → tr !! o = Some t → a ∈ addrs t →
  ∃ w', modify a (with_second v) w = Ok tt w' ∧
        models (<[o := set_second a v t]> tr) w' ∧
        next w' = next w ∧ avail w' = avail w ∧ maps w' = maps w ∧
        dom (nodes w') = dom (nodes w).
Proof.
  intros Hmd Ht Ha. destruct (models_live _ _ _ _ Hmd Ht) as (Hm & Hr & Hn).
  pose proof (models_avl _ _ _ _ Hmd Ht) as Havl.
  destruct (rep_in_dom _ _ _ _ Hr Ha) as [nd Hnd].
  destruct w as [h nx av ms]. simpl in *.
  exists (mkWorld (<[a := with_second v nd]> h) nx av ms). split_and!; try done.
  - unfold modify, bind, load, store. simpl. rewrite Hnd. simpl. by rewrite Hnd.
  - pose proof (models_update tr (mkWorld h nx av ms) o t (set_second a v t)
                  (<[a := with_second v nd]> h) nx av Hmd Ht) as Hup.
    simpl in Hup. rewrite root_ptr_set_second, addrs_set_second in Hup.
    rewrite (insert_id ms) in Hup by done. apply Hup.
    + by apply rep_set_second.
    + done.
    + by apply avl_set_second.
    + intros b Hb _. rewrite lookup_insert_ne; [done|]. by intros ->.
    + intros b Hb. by left.
    + intros b Hb. apply (md_fresh _ _ Hmd). simpl.
      destruct (decide (b = a)) as [->|Hne]; [by eexists|]. by rewrite lookup_insert_ne in Hb.
    + assert (size (<[a := with_second v nd]> h) = size h); [|lia].
      rewrite <- !size_dom, dom_insert_L. f_equal.
      assert (a ∈ dom h) by (apply elem_of_dom; eauto). set_solver.
  - simpl. rewrite dom_insert_L. assert (a ∈ dom h) by (apply elem_of_dom; eauto). set_solver.
Qed.

Lemma at_assign_ok tr w this t key a v :
  models tr w → tr !! this = Some t → find_t cmp key t = Some a →
  ∃ w', at_assign cmp this key v w = Ok tt w' ∧
        models (<[this := set_second a v t]> tr) w' ∧
        next w' = next w ∧ avail w' = avail w ∧ dom (nodes w') = dom (nodes w).
Proof.
  intros Hmd Ht Hf. destruct (models_live _ _ _ _ Hmd Ht) as (Hm & Hr & Hn).
  destruct (find_t_in _ _ _ Hn Hf) as (Ha & _).
  destruct (set_value_ok _ _ _ _ _ v Hmd Ht Ha) as (w' & Hrun & Hmd' & ? & ? & ? & ?).
  exists w'. split_and!; try done.
  unfold at_assign, bind at 1. by rewrite (findNode_ok _ _ _ _ _ Hmd Ht), Hf.
Qed.

Lemma at_assign_missing tr w this t key v :
  models tr w → tr !! this = Some t → find_t cmp key t = None →
  at_assign cmp this key v w = Throw index_out_of_bound w.
Proof.
  intros Hmd Ht Hf. unfold at_assign, bind. by rewrite (findNode_ok _ _ _ _ _ Hmd Ht), Hf.
Qed.

(** ** [operator[]] *)
Lemma index_present tr w this t key a kv :
  models tr w → tr !! this = Some t →
  find_t cmp key t = Some a → lookup_t a t = Some kv →
  index cmp default_value this key w = Ok kv.2 w.
Proof.
  intros Hmd Ht Hf Hl. unfold index, bind at 1. rewrite (findNode_ok _ _ _ _ _ Hmd Ht), Hf.
  destruct (load_value _ _ _ _ _ _ Hmd Ht Hl) as (nd & Hnd & <-).
  unfold bind, load. by rewrite Hnd.
Qed.

Lemma find_t_None_descend key t :
  find_t cmp key t = None → ∃ c, descend_t cmp key t [] = inr c.
Proof.
  intros Hf. pose proof (descend_t_find cmp key t []) as Hd.
  destruct (descend_t cmp key t []) as [a|c]; [congruence|eauto].
Qed.

Lemma index_absent tr w this t key c :
  models tr w → tr !! this = Some t →
  descend_t cmp key t [] = inr c → (0 < avail w)%nat →
  ∃ t' w',
    index cmp default_value this key w = Ok default_value w' ∧
    models (<[this := t']> tr) w' ∧
    next w' = Pos.succ (next w) ∧ avail w' = pred (avail w) ∧
    items t = items_before c ++ items_after c ∧
    items t' = items_before c ++ (next w, (key, default_value)) :: items_after c ∧
    grows w w' ∧ kept t t' w'.
Proof.
  intros Hmd Ht Hd Hav.
  pose proof (descend_t_find cmp key t []) as Hf. rewrite Hd in Hf.
  destruct (insert_fresh cmp _ _ _ _ (key, default_value) c Hmd Ht Hd Hav)
    as (t' & w' & Hrun & Hmd' & Hnx & Hav' & Hit & Hit' & Hg & Hk).
  exists t', w'. split_and!; try done.
  unfold index, bind at 1. rewrite (findNode_ok _ _ _ _ _ Hmd Ht), Hf.
  unfold bind at 1. rewrite Hrun. simpl.
  assert (Ht' : (<[this := t']> tr) !! this = Some t') by apply lookup_insert_eq.
  destruct (models_live _ _ _ _ Hmd' Ht') as (Hm' & Hr' & Hn').
  assert (Hl : lookup_t (next w) t' = Some (key, default_value)).
  { apply lookup_t_items; [done|]. rewrite Hit'. set_solver. }
  destruct (load_value _ _ _ _ _ _ Hmd' Ht' Hl) as (nd & Hnd & Hv).
  unfold it_deref. simpl. unfold bind, load. rewrite Hnd. simpl. by rewrite Hv.
Qed.

Lemma index_bad_alloc tr w this t key c :
  models tr w → tr !! this = Some t →
  descend_t cmp key t [] = inr c → avail w = O →
  index cmp default_value this key w = Throw bad_alloc w.
Proof.
  intros Hmd Ht Hd Hav.
  pose proof (descend_t_find cmp key t []) as Hf. rewrite Hd in Hf.
  unfold index, bind at 1. rewrite (findNode_ok _ _ _ _ _ Hmd Ht), Hf.
  unfold bind. by rewrite (insert_bad_alloc cmp _ _ _ _ (key, default_value) c Hmd Ht Hd Hav).
Qed.

Lemma index_assign_present tr w this t key a v :
  models tr w → tr !! this = Some t → find_t cmp key t = Some a →
  ∃ w', index_assign cmp default_value this key v w = Ok tt w' ∧
        models (<[this := set_second a v t]> tr) w' ∧
        next w' = next w ∧ avail w' = avail w ∧ dom (nodes w') = dom (nodes w).
Proof.
  intros Hmd Ht Hf. destruct (models_live _ _ _ _ Hmd Ht) as (Hm & Hr & Hn).
  destruct (find_t_in _ _ _ Hn Hf) as (Ha & _).
  destruct (set_value_ok _ _ _ _ _ v Hmd Ht Ha) as (w' & Hrun & Hmd' & ? & ? & ? & ?).
  exists w'. split_and!; try done.
  unfold index_assign, bind at 1. by rewrite (findNode_ok _ _ _ _ _ Hmd Ht), Hf.
Qed.

Lemma index_assign_absent tr w this t key v c :
  models tr w → tr !! this = Some t →
  descend_t cmp key t [] = inr c → (0 < avail w)%nat →
  ∃ t' w',
    index_assign cmp default_value this key v w = Ok tt w' ∧
    models (<[this := t']> tr) w' ∧
    next w' = Pos.succ (next w) ∧ avail w' = pred (avail w) ∧
    (items t').*1 = (items_before c).*1 ++ next w :: (items_after c).*1 ∧
    (entries t').*1 = (entries_before c ++ (key, v) :: entries_after c).*1 ∧
    lookup_t (next w) t' = Some (key, v) ∧
    grows w w' ∧ kept t t' w'.
Proof.
  intros Hmd Ht Hd Hav.
  pose proof (descend_t_find cmp key t []) as Hf. rewrite Hd in Hf.
  destruct (insert_fresh cmp _ _ _ _ (key, default_value) c Hmd Ht Hd Hav)
    as (t1 & w1 & Hrun & Hmd1 & Hnx & Hav1 & Hit & Hit1 & Hg & Hk).
  assert (Ht1 : (<[this := t1]> tr) !! this = Some t1) by apply lookup_insert_eq.
  destruct (models_live _ _ _ _ Hmd1 Ht1) as (Hm1 & Hr1 & Hn1).
  assert (Hl : lookup_t (next w) t1 = Some (key, default_value)).
  { apply lookup_t_items; [done|]. rewrite Hit1. set_solver. }
  pose proof (lookup_t_addrs _ _ _ Hl) as Hin.
  destruct (set_value_ok _ _ _ _ _ v Hmd1 Ht1 Hin) as (w' & Hrun' & Hmd' & Hnx' & Hav' & Hms' & Hdom').
  rewrite insert_insert_eq in Hmd'.
  exists (set_second (next w) v t1), w'. split_and!; try done.
  - unfold index_assign, bind at 1. rewrite (findNode_ok _ _ _ _ _ Hmd Ht), Hf.
    unfold bind. rewrite Hrun. simpl. unfold it_assign. simpl. exact Hrun'.
  - congruence.
  - congruence.
  - rewrite !items_addrs, addrs_set_second, <- items_addrs, Hit1.
    by rewrite fmap_app, fmap_cons.
  - rewrite keys_set_second. rewrite <- items_entries, Hit1.
    rewrite <- items_before_entries, <- items_after_entries.
    repeat (rewrite fmap_app || rewrite fmap_cons). done.
  - rewrite lookup_t_set_second, Hl. simpl. by rewrite decide_True.
  - destruct Hg as (Hg1 & Hg2). split; [lia|]. intros b Hb Hdead.
    apply not_elem_of_dom. rewrite Hdom'. apply not_elem_of_dom. by apply Hg2.
  - intros b Hb. rewrite addrs_set_second. destruct (Hk b Hb) as [?|Hdead]; [by left|right].
    apply not_elem_of_dom. rewrite Hdom'. by apply not_elem_of_dom.
Qed.

Lemma index_assign_bad_alloc tr w this t key v c :
  models tr w → tr !! this = Some t →
  descend_t cmp key t [] = inr c → avail w = O →
  index_assign cmp default_value this key v w = Throw bad_alloc w.
Proof.
  intros Hmd Ht Hd Hav.
  pose proof (descend_t_find cmp key t []) as Hf. rewrite Hd in Hf.
  unfold index_assign, bind at 1. rewrite (findNode_ok _ _ _ _ _ Hmd Ht), Hf.
  unfold bind. by rewrite (insert_bad_alloc cmp _ _ _ _ (key, default_value) c Hmd Ht Hd Hav).
Qed.

(** ** Cursors *)
Lemma next_in_elem (l0 : list positive) a b : next_in l0 a = Some b → b ∈ l0.
Proof.
  induction l0 as [|x rest IH]; simpl; [done|].
  destruct (decide (x = a)).
  - destruct rest; simpl; [done|]. intros [= ->]. set_solver.
  - intros H. apply IH in H. set_solver.
Qed.

Lemma prev_in_elem (l0 : list positive) a b : prev_in l0 a = Some b → b ∈ l0.
Proof.
  induction l0 as [|x rest IH]; simpl; [done|].
  destruct rest as [|y rest']; [done|].
  destruct (decide (y = a)).
  - intros [= ->]. set_solver.
  - intros H. apply IH in H. set_solver.
Qed.

Lemma head_elem (l0 : list positive) b : head l0 = Some b → b ∈ l0.
Proof. destruct l0; simpl; [done|]. intros [= ->]. set_solver. Qed.

Lemma last_elem (l0 : list positive) b : last l0 = Some b → b ∈ l0.
Proof.
  intros H. apply last_Some in H as (l' & ->). set_solver.
Qed.

Lemma begin_ok tr w this t :
  models tr w → tr !! this = Some t →
  begin_ this w = Ok (mkIt (head (addrs t)) (Some this)) w.
Proof.
  intros Hmd Ht. destruct (models_live _ _ _ _ Hmd Ht) as (Hm & Hr & Hn).
  destruct w as [h nx av ms]. simpl in *.
  pose proof (rep_addrs_size _ _ _ Hr Hn) as Hsz.
  pose proof (depth_le_addrs t) as Hdp.
  apply wp_run. unfold begin_.
  apply wp_bind. eapply wp_get_root; [exact Hm|]. simpl.
  apply wp_bind, wp_loop_bound.
  apply wp_bind. eapply wp_minNode; [exact Hr|lia|].
  by apply wp_ret.
Qed.

Lemma end_ok tr w this t :
  models tr w → tr !! this = Some t →
  end_ this w = Ok (mkIt None (Some this)) w.
Proof.
  intros Hmd Ht. destruct (models_live _ _ _ _ Hmd Ht) as (Hm & Hr & Hn).
  unfold end_, bind, get_map. by rewrite Hm.
Qed.

Lemma incr_ok tr w it o a t :
  models tr w → owner it = Some o → nodePtr it = Some a →
  tr !! o = Some t → a ∈ addrs t →
  it_incr it w = Ok (mkIt (next_in (addrs t) a) (Some o)) w.
Proof.
  intros Hmd Ho Hp Ht Ha. destruct (models_live _ _ _ _ Hmd Ht) as (Hm & Hr & Hn).
  destruct w as [h nx av ms]. simpl in *.
  pose proof (rep_addrs_size _ _ _ Hr Hn) as Hsz.
  apply wp_run. unfold it_incr. rewrite Ho, Hp.
  apply wp_bind. eapply wp_get_map; [exact Hm|].
  apply wp_bind, wp_loop_bound.
  apply wp_bind. eapply wp_nextNode; [exact Hr|exact Hn|exact Ha|simpl; lia|].
  by apply wp_ret.
Qed.

Lemma incr_end w it : nodePtr it = None → it_incr it w = Throw invalid_iterator w.
Proof. intros Hp. unfold it_incr. rewrite Hp. by destruct (owner it). Qed.

Lemma incr_ownerless w it : owner it = None → it_incr it w = Throw invalid_iterator w.
Proof. intros Ho. unfold it_incr. by rewrite Ho. Qed.

Lemma decr_ok tr w it o a t :
  models tr w → owner it = Some o → nodePtr it = Some a →
  tr !! o = Some t → a ∈ addrs t →
  it_decr it w = match prev_in (addrs t) a with
                 | Some b => Ok (mkIt (Some b) (Some o)) w
                 | None => Throw invalid_iterator w
                 end.
Proof.
  intros Hmd Ho Hp Ht Ha. destruct (models_live _ _ _ _ Hmd Ht) as (Hm & Hr & Hn).
  destruct w as [h nx av ms]. simpl in *.
  pose proof (rep_addrs_size _ _ _ Hr Hn) as Hsz.
  assert (Hx : wpx (it_decr it) (mkWorld h nx av ms)
            (λ res w', ∃ b, prev_in (addrs t) a = Some b ∧
                            res = mkIt (Some b) (Some o) ∧ w' = mkWorld h nx av ms)
            (λ e w', prev_in (addrs t) a = None ∧ e = invalid_iterator ∧
                     w' = mkWorld h nx av ms)).
  { unfold it_decr. rewrite Ho, Hp.
    apply wpx_bind, wp_wpx. eapply wp_get_map; [exact Hm|].
    apply wpx_bind, wp_wpx, wp_loop_bound.
    apply wpx_bind, wp_wpx.
    eapply wp_prevNode; [exact Hr|exact Hn|exact Ha|simpl; lia|].
    destruct (prev_in (addrs t) a) as [b|]; [apply wpx_ret; eauto|by apply wpx_throw]. }
  unfold wpx in Hx. destruct (it_decr it _) as [res w'|e w'| |]; try done.
  - destruct Hx as (b & -> & -> & ->). done.
  - destruct Hx as (-> & -> & ->). done.
Qed.

Lemma decr_end tr w it o t :
  models tr w → owner it = Some o → nodePtr it = None → tr !! o = Some t →
  it_decr it w = match last (addrs t) with
                 | Some b => Ok (mkIt (Some b) (Some o)) w
                 | None => Throw invalid_iterator w
                 end.
Proof.
  intros Hmd Ho Hp Ht. destruct (models_live _ _ _ _ Hmd Ht) as (Hm & Hr & Hn).
  destruct w as [h nx av ms]. simpl in *.
  pose proof (rep_addrs_size _ _ _ Hr Hn) as Hsz.
  pose proof (depth_le_addrs t) as Hdp.
  assert (Hx : wpx (it_decr it) (mkWorld h nx av ms)
            (λ res w', ∃ b, last (addrs t) = Some b ∧
                            res = mkIt (Some b) (Some o) ∧ w' = mkWorld h nx av ms)
            (λ e w', last (addrs t) = None ∧ e = invalid_iterator ∧
                     w' = mkWorld h nx av ms)).
  { unfold it_decr. rewrite Ho, Hp.
    apply wpx_bind, wp_wpx. eapply wp_get_root; [exact Hm|]. simpl.
    apply wpx_bind, wp_wpx, wp_loop_bound.
    apply wpx_bind, wp_wpx.
    eapply wp_maxNode; [exact Hr|lia|].
    destruct (last (addrs t)) as [b|]; [apply wpx_ret; eauto|by apply wpx_throw]. }
  unfold wpx in Hx. destruct (it_decr it _) as [res w'|e w'| |]; try done.
  - destruct Hx as (b & -> & -> & ->). done.
  - destruct Hx as (-> & -> & ->). done.
Qed.

Lemma decr_ownerless w it : owner it = None → it_decr it w = Throw invalid_iterator w.
Proof. intros Ho. unfold it_decr. by rewrite Ho. Qed.

Lemma deref_ok tr w it o a t kv :
  models tr w → nodePtr it = Some a → tr !! o = Some t → lookup_t a t = Some kv →
  it_deref it w = Ok kv w.
Proof.
  intros Hmd Hp Ht Hl. destruct (load_value _ _ _ _ _ _ Hmd Ht Hl) as (nd & Hnd & <-).
  unfold it_deref. rewrite Hp. unfold bind, load. by rewrite Hnd.
Qed.

Lemma deref_none w it : nodePtr it = None → it_deref it w = Throw invalid_iterator w.
Proof. intros Hp. unfold it_deref. by rewrite Hp. Qed.

Lemma it_assign_none w it v : nodePtr it = None → it_assign it v w = Throw invalid_iterator w.
Proof. intros Hp. unfold it_assign. by rewrite Hp. Qed.

Lemma it_assign_ok tr w it o a t v :
  models tr w → nodePtr it = Some a → tr !! o = Some t → a ∈ addrs t →
  ∃ w', it_assign it v w = Ok tt w' ∧
        models (<[o := set_second a v t]> tr) w' ∧
        next w' = next w ∧ avail w' = avail w ∧ maps w' = maps w ∧
        dom (nodes w') = dom (nodes w).
Proof.
  intros Hmd Hp Ht Ha. unfold it_assign. rewrite Hp. by apply set_value_ok.
Qed.

(** *** A cursor whose node has been deleted *)
Lemma stale_deref w it a :
  nodePtr it = Some a → nodes w !! a = None → it_deref it w = Fault.
Proof. intros Hp Hn. unfold it_deref. rewrite Hp. unfold bind, load. by rewrite Hn. Qed.

Lemma stale_assign w it a v :
  nodePtr it = Some a → nodes w !! a = None → it_assign it v w = Fault.
Proof. intros Hp Hn. unfold it_assign. rewrite Hp. unfold modify, bind, load. by rewrite Hn. Qed.

Lemma stale_incr w it o a :
  owner it = Some o → nodePtr it = Some a → nodes w !! a = None → it_incr it w = Fault.
Proof.
  intros Ho Hp Hn. unfold it_incr. rewrite Ho, Hp. unfold bind, get_map, loop_bound.
  destruct (maps w !! o); [|done]. simpl. unfold bind, load. by rewrite Hn.
Qed.

Lemma stale_decr w it o a :
  owner it = Some o → nodePtr it = Some a → nodes w !! a = None → it_decr it w = Fault.
Proof.
  intros Ho Hp Hn. unfold it_decr. rewrite Ho, Hp. unfold bind, get_map, loop_bound.
  destruct (maps w !! o); [|done]. simpl. unfold bind, load. by rewrite Hn.
Qed.

Lemma stale_erase w this pos a :
  owner pos = Some this → nodePtr pos = Some a → nodes w !! a = None →
  erase this pos w = Fault.
Proof.
  intros Ho Hp Hn. unfold erase. rewrite decide_False by (intros Hne; by apply Hne).
  rewrite Hp. unfold bind, get_map, loop_bound.
  destruct (maps w !! this); [|done]. simpl. unfold bind, load. by rewrite Hn.
Qed.

(** *** A member function called on an object that is not alive *)
Lemma dead_findNode w this key : maps w !! this = None → findNode cmp this key w = Fault.
Proof. intros Hn. unfold findNode, bind, get_root, bind, get_map. by rewrite Hn. Qed.

Lemma dead_insert w this v : maps w !! this = None → insert cmp this v w = Fault.
Proof. intros Hn. unfold insert, bind, get_root, bind, get_map. by rewrite Hn. Qed.

Lemma dead_clear w this : maps w !! this = None → clear this w = Fault.
Proof. intros Hn. unfold clear, bind, get_root, bind, get_map. by rewrite Hn. Qed.

Lemma dead_dtor w this : maps w !! this = None → map_dtor this w = Fault.
Proof. intros Hn. unfold map_dtor, bind. by rewrite dead_clear. Qed.

Lemma dead_begin w this : maps w !! this = None → begin_ this w = Fault.
Proof. intros Hn. unfold begin_, bind, get_root, bind, get_map. by rewrite Hn. Qed.

Lemma dead_end w this : maps w !! this = None → end_ this w = Fault.
Proof. intros Hn. unfold end_, bind, get_map. by rewrite Hn. Qed.

Lemma dead_size w this : maps w !! this = None → size_ this w = Fault.
Proof. intros Hn. unfold size_, get_count, bind, get_map. by rewrite Hn. Qed.

Lemma dead_empty w this : maps w !! this = None → empty this w = Fault.
Proof. intros Hn. unfold empty, get_count, bind, get_map. by rewrite Hn. Qed.

Lemma dead_incr w it o a :
  owner it = Some o → nodePtr it = Some a → maps w !! o = None → it_incr it w = Fault.
Proof. intros Ho Hp Hn. unfold it_incr. rewrite Ho, Hp. unfold bind, get_map. by rewrite Hn. Qed.

Lemma dead_decr w it o :
  owner it = Some o → maps w !! o = None → it_decr it w = Fault.
Proof.
  intros Ho Hn. unfold it_decr. rewrite Ho.
  destruct (nodePtr it); unfold bind, get_root, bind, get_map; by rewrite Hn.
Qed.

Lemma dead_erase w this pos a :
  owner pos = Some this → nodePtr pos = Some a → maps w !! this = None →
  erase this pos w = Fault.
Proof.
  intros Ho Hp Hn. unfold erase. rewrite decide_False by (intros Hne; by apply Hne).
  rewrite Hp. unfold bind, get_map. by rewrite Hn.
Qed.

Lemma dead_copy_source w this other :
  maps w !! this = None → maps w !! other = None → map_copy_ctor this other w = Fault.
Proof. intros Hn Ho. unfold map_copy_ctor. rewrite Hn. unfold bind, get_map. by rewrite Ho. Qed.

Lemma live_ctor w this m : maps w !! this = Some m → map_ctor this w = Fault.
Proof. intros Hn. unfold map_ctor. by rewrite Hn. Qed.

Lemma live_copy_ctor w this other m :
  maps w !! this = Some m → map_copy_ctor this other w = Fault.
Proof. intros Hn. unfold map_copy_ctor. by rewrite Hn. Qed.

Lemma dead_assign w this other :
  this ≠ other → maps w !! this = None → map_assign this other w = Fault.
Proof.
  intros Hne Hn. unfold map_assign. rewrite decide_False by done.
  unfold bind. by rewrite dead_clear.
Qed.

End ReadsFacts.

Section PureFacts.
Context {K V : Type}.
Variable cmp : K → K → bool.
Implicit Types (w : @world K V).
Local Abbreviation pure := (pure (K:=K) (V:=V)).

Lemma pure_ret {A} (a : A) : pure (ret a).
Proof. by intros w. Qed.

Lemma pure_throw {A} e : pure (throw (A:=A) e).
Proof. by intros w. Qed.

Lemma pure_diverge {A} : pure (diverge (A:=A)).
Proof. by intros w. Qed.

Lemma pure_bind {A B} (m : @M K V A) (f : A → @M K V B) :
  pure m → (∀ a, pure (f a)) → pure (bind m f).
Proof.
  intros Hm Hf w. unfold bind. specialize (Hm w).
  destruct (m w) as [a w1|e w1| |]; try done. subst w1. apply Hf.
Qed.

Lemma pure_load a : pure (load a).
Proof. intros w. unfold load. by destruct (nodes w !! a). Qed.

Lemma pure_get_map this : pure (get_map this).
Proof. intros w. unfold get_map. by destruct (maps w !! this). Qed.

Lemma pure_get_root this : pure (get_root this).
Proof. apply pure_bind; [apply pure_get_map|intros; apply pure_ret]. Qed.

Lemma pure_get_count this : pure (get_count this).
Proof. apply pure_bind; [apply pure_get_map|intros; apply pure_ret]. Qed.

Lemma pure_loop_bound : pure loop_bound.
Proof. by intros w. Qed.

Lemma pure_findNode_loop fuel key cur : pure (findNode_loop cmp fuel key cur).
Proof.
  revert cur. induction fuel as [|f IH]; intros [a|]; simpl;
    try apply pure_ret; try apply pure_diverge.
  apply pure_bind; [apply pure_load|]. intros n.
  destruct (keyEq cmp key (value n).1); [apply pure_ret|].
  destruct (cmp key (value n).1); apply IH.
Qed.

Lemma pure_findNode this key : pure (findNode cmp this key).
Proof.
  apply pure_bind; [apply pure_get_root|]. intros r.
  apply pure_bind; [apply pure_loop_bound|]. intros f. apply pure_findNode_loop.
Qed.

Lemma pure_minNode_loop fuel x : pure (minNode_loop fuel x).
Proof.
  revert x. induction fuel as [|f IH]; intros x; simpl; [apply pure_diverge|].
  apply pure_bind; [apply pure_load|]. intros n.
  destruct (left n); [apply IH|apply pure_ret].
Qed.

Lemma pure_maxNode_loop fuel x : pure (maxNode_loop fuel x).
Proof.
  revert x. induction fuel as [|f IH]; intros x; simpl; [apply pure_diverge|].
  apply pure_bind; [apply pure_load|]. intros n.
  destruct (right n); [apply IH|apply pure_ret].
Qed.

Lemma pure_minNode fuel x : pure (minNode fuel x).
Proof.
  destruct x; unfold minNode; [|apply pure_ret].
  apply pure_bind; [apply pure_minNode_loop|intros; apply pure_ret].
Qed.

Lemma pure_maxNode fuel x : pure (maxNode fuel x).
Proof.
  destruct x; unfold maxNode; [|apply pure_ret].
  apply pure_bind; [apply pure_maxNode_loop|intros; apply pure_ret].
Qed.

Lemma pure_nextNode_climb fuel n p : pure (nextNode_climb fuel n p).
Proof.
  revert n p. induction fuel as [|f IH]; intros n [pa|]; simpl;
    try apply pure_ret; try apply pure_diverge.
  apply pure_bind; [apply pure_load|]. intros np.
  destruct (decide (right np = Some n)); [apply IH|apply pure_ret].
Qed.

Lemma pure_prevNode_climb fuel n p : pure (prevNode_climb fuel n p).
Proof.
  revert n p. induction fuel as [|f IH]; intros n [pa|]; simpl;
    try apply pure_ret; try apply pure_diverge.
  apply pure_bind; [apply pure_load|]. intros np.
  destruct (decide (left np = Some n)); [apply IH|apply pure_ret].
Qed.

Lemma pure_nextNode fuel n : pure (nextNode fuel n).
Proof.
  destruct n as [a|]; simpl; [|apply pure_ret].
  apply pure_bind; [apply pure_load|]. intros nd.
  destruct (right nd); [apply pure_minNode|apply pure_nextNode_climb].
Qed.

Lemma pure_prevNode fuel n : pure (prevNode fuel n).
Proof.
  destruct n as [a|]; simpl; [|apply pure_ret].
  apply pure_bind; [apply pure_load|]. intros nd.
  destruct (left nd); [apply pure_maxNode|apply pure_prevNode_climb].
Qed.

Lemma pure_at this key : pure (at_ cmp this key).
Proof.
  apply pure_bind; [apply pure_findNode|]. intros [a|]; [|apply pure_throw].
  apply pure_bind; [apply pure_load|intros; apply pure_ret].
Qed.

Lemma pure_index_const this key : pure (index_const cmp this key).
Proof. apply pure_at. Qed.

Lemma pure_count this key : pure (count cmp this key).
Proof. apply pure_bind; [apply pure_findNode|intros; apply pure_ret]. Qed.

Lemma pure_find this key : pure (find cmp this key).
Proof. apply pure_bind; [apply pure_findNode|intros; apply pure_ret]. Qed.

Lemma pure_size this : pure (size_ this).
Proof. apply pure_get_count. Qed.

Lemma pure_empty this : pure (empty this).
Proof. apply pure_bind; [apply pure_get_count|intros; apply pure_ret]. Qed.

Lemma pure_begin this : pure (begin_ this).
Proof.
  apply pure_bind; [apply pure_get_root|]. intros r.
  apply pure_bind; [apply pure_loop_bound|]. intros f.
  apply pure_bind; [apply pure_minNode|intros; apply pure_ret].
Qed.

Lemma pure_end this : pure (end_ this).
Proof. apply pure_bind; [apply pure_get_map|intros; apply pure_ret]. Qed.

Lemma pure_it_deref (it : iterator) : pure (it_deref (K:=K) (V:=V) it).
Proof.
  unfold it_deref. destruct (nodePtr it); [|apply pure_throw].
  apply pure_bind; [apply pure_load|intros; apply pure_ret].
Qed.

Lemma pure_it_incr (it : iterator) : pure (it_incr (K:=K) (V:=V) it).
Proof.
  unfold it_incr. destruct (owner it); [|apply pure_throw].
  destruct (nodePtr it); [|apply pure_throw].
  apply pure_bind; [apply pure_get_map|]. intros _.
  apply pure_bind; [apply pure_loop_bound|]. intros f.
  apply pure_bind; [apply pure_nextNode|intros; apply pure_ret].
Qed.

Lemma pure_it_decr (it : iterator) : pure (it_decr (K:=K) (V:=V) it).
Proof.
  unfold it_decr. destruct (owner it); [|apply pure_throw].
  destruct (nodePtr it).
  - apply pure_bind; [apply pure_get_map|]. intros _.
    apply pure_bind; [apply pure_loop_bound|]. intros f.
    apply pure_bind; [apply pure_prevNode|]. intros [b|]; [apply pure_ret|apply pure_throw].
  - apply pure_bind; [apply pure_get_root|]. intros r.
    apply pure_bind; [apply pure_loop_bound|]. intros f.
    apply pure_bind; [apply pure_maxNode|]. intros [b|]; [apply pure_ret|apply pure_throw].
Qed.

End PureFacts.

Section ClientFacts.
Context {K V : Type}.
Variable cmp : K → K → bool.
Variable default_value : V.
Local Abbreviation step := (step cmp default_value).
Local Abbreviation run := (run cmp default_value).
Local Abbreviation reachable := (reachable cmp default_value).
Implicit Types (w : @world K V) (tr : gmap positive (@tree K V)).
Implicit Types (t : @tree K V) (it : @iterator).
Local Abbreviation cmp_transitive := (cmp_transitive cmp).
Local Abbreviation inv := (inv (V:=V) cmp).
Local Abbreviation evolves := (evolves cmp).
Local Abbreviation post := (post cmp).

Lemma cursor_ok_evolves tr w tr' w' it :
  models tr w → evolves tr w tr' w' → cursor_ok tr w it → cursor_ok tr' w' it.
Proof.
  intros Hmd (Hmd' & (Hnx & Hdead) & Hk & _). unfold cursor_ok.
  destruct (nodePtr it) as [a|]; [|done].
  intros (o & Ho & [(Hn & Hlt)|(t & Ht & Ha)]); exists o; (split; [done|]).
  - left. split; [by apply Hdead|lia].
  - destruct (Hk _ _ _ Ht Ha) as [Hgone|(t' & Ht' & Ha')]; [left|right; eauto].
    split; [done|].
    destruct (models_live _ _ _ _ Hmd Ht) as (_ & Hr & _).
    assert (a < next w)%positive by (apply (md_fresh _ _ Hmd); by eapply rep_in_dom). lia.
Qed.

Lemma evolves_refl tr w : models tr w → evolves tr w tr w.
Proof. intros Hmd. split_and!; [done|apply grows_refl|eauto|done]. Qed.

Lemma evolves_same tr w w' : models tr w' → grows w w' → evolves tr w tr w'.
Proof. intros Hmd Hg. split_and!; [done|done|eauto|done]. Qed.

Lemma evolves_update tr w m t t' w' :
  tr !! m = Some t → models (<[m := t']> tr) w' → grows w w' → kept t t' w' →
  (cmp_transitive → sorted cmp t → sorted cmp t') →
  evolves tr w (<[m := t']> tr) w'.
Proof.
  intros Ht Hmd Hg Hk Hs. split_and!; [done|done| |].
  - intros o t0 a Ho Ha. destruct (decide (o = m)) as [->|Hne].
    + rewrite Ht in Ho. injection Ho as <-.
      destruct (Hk a Ha) as [?|?]; [right|by left]. exists t'. by rewrite lookup_insert_eq.
    + right. exists t0. by rewrite lookup_insert_ne.
  - intros Htr Hall o t0 Ho. destruct (decide (o = m)) as [->|Hne].
    + rewrite lookup_insert_eq in Ho. injection Ho as <-. apply Hs; [done|]. by eapply Hall.
    + rewrite lookup_insert_ne in Ho by done. by eapply Hall.
Qed.

Lemma evolves_new tr w m t' w' :
  tr !! m = None → models (<[m := t']> tr) w' → grows w w' →
  (cmp_transitive → all_sorted cmp tr → sorted cmp t') →
  evolves tr w (<[m := t']> tr) w'.
Proof.
  intros Ht Hmd Hg Hs. split_and!; [done|done| |].
  - intros o t0 a Ho Ha. right. exists t0. rewrite lookup_insert_ne; [done|]. by intros ->; congruence.
  - intros Htr Hall o t0 Ho. destruct (decide (o = m)) as [->|Hne].
    + rewrite lookup_insert_eq in Ho. injection Ho as <-. by apply Hs.
    + rewrite lookup_insert_ne in Ho by done. by eapply Hall.
Qed.

Lemma evolves_delete tr w m t w' :
  tr !! m = Some t → models (delete m tr) w' → grows w w' →
  (∀ a, a ∈ addrs t → nodes w' !! a = None) →
  evolves tr w (delete m tr) w'.
Proof.
  intros Ht Hmd Hg Hgone. split_and!; [done|done| |].
  - intros o t0 a Ho Ha. destruct (decide (o = m)) as [->|Hne].
    + rewrite Ht in Ho. injection Ho as <-. left. by apply Hgone.
    + right. exists t0. by rewrite lookup_delete_ne.
  - intros Htr Hall o t0 Ho. apply lookup_delete_Some in Ho as (_ & Ho). by eapply Hall.
Qed.

Lemma sorted_E : sorted cmp (E : @tree K V).
Proof. constructor. Qed.

Lemma sorted_entries_eq t t' : entries t' = entries t → sorted cmp t → sorted cmp t'.
Proof. unfold sorted. intros Heq. by rewrite Heq. Qed.

Lemma sorted_keys_eq t t' : (entries t').*1 = (entries t).*1 → sorted cmp t → sorted cmp t'.
Proof. unfold sorted. intros Heq. by rewrite Heq. Qed.

Lemma sorted_insert_items t t' c a (v : K * V) :
  cmp_transitive → sorted cmp t → descend_t cmp v.1 t [] = inr c →
  items t' = items_before c ++ (a, v) :: items_after c → sorted cmp t'.
Proof.
  intros Htr Hs Hd Hit. unfold sorted. rewrite <- items_entries, Hit.
  rewrite fmap_app, fmap_cons, items_before_entries, items_after_entries. simpl.
  by apply (insert_sorted cmp Htr v t c).
Qed.

Lemma sorted_erase_items t t' (is1 is2 : list (positive * (K * V))) z kv :
  sorted cmp t → items t = is1 ++ (z, kv) :: is2 → items t' = is1 ++ is2 → sorted cmp t'.
Proof.
  unfold sorted. intros Hs Hit Hit'. rewrite <- items_entries, Hit' , fmap_app.
  rewrite <- items_entries, Hit, fmap_app, fmap_cons in Hs. simpl in Hs.
  by eapply sorted_remove.
Qed.

Lemma post_pure tr w tgt {A} (f : A → list iterator) (m : @M K V A) :
  pure m → models tr w →
  (∀ a, m w = Ok a w → Forall (cursor_ok tr w) (f a)) →
  post tr w tgt f (m w).
Proof.
  intros Hp Hmd Hc. specialize (Hp w). unfold post.
  destruct (m w) as [a w'|e w'| |]; try done; subst w'.
  - exists tr. split_and!; [by apply evolves_refl|by apply Hc|done].
  - exists tr. split; [by apply evolves_refl|done].
Qed.

Lemma post_pure_nil tr w tgt {A} (m : @M K V A) :
  pure m → models tr w → post tr w tgt (λ _, []) (m w).
Proof. intros Hp Hmd. apply post_pure; [done|done|]. intros. constructor. Qed.

Lemma frame_insert tr m t' b : Some m ≠ Some b → (<[m := t']> tr) !! b = tr !! b.
Proof. intros Hne. rewrite lookup_insert_ne; [done|]. by intros ->. Qed.

Lemma frame_delete tr m b : Some m ≠ Some b → (delete m tr) !! b = tr !! b.
Proof. intros Hne. rewrite lookup_delete_ne; [done|]. by intros ->. Qed.

Lemma cursor_ok_node tr w a o t :
  tr !! o = Some t → a ∈ addrs t → cursor_ok tr w (mkIt (Some a) (Some o)).
Proof. intros Ht Ha. exists o. split; [done|]. right. eauto. Qed.

Lemma cursor_ok_opt tr w (p : option positive) o t :
  tr !! o = Some t → (∀ a, p = Some a → a ∈ addrs t) → cursor_ok tr w (mkIt p (Some o)).
Proof. intros Ht Hp. destruct p as [a|]; [|done]. eapply cursor_ok_node; eauto. Qed.

Lemma post_ctor tr w m : models tr w → post tr w (Some m) (λ _, []) (map_ctor m w).
Proof.
  intros Hmd. destruct (tr !! m) as [t|] eqn:Ht.
  - destruct (models_live _ _ _ _ Hmd Ht) as (Hm & _). by rewrite (live_ctor _ _ _ Hm).
  - destruct (ctor_ok _ _ _ Hmd Ht) as (w' & -> & Hmd' & Hn & Hnx & Hav). simpl.
    exists (<[m := E]> tr). split_and!; [|constructor|by intros; apply frame_insert].
    apply evolves_new; [done|done| |intros; apply sorted_E].
    split; [lia|]. intros b _ Hb. by rewrite Hn.
Qed.

Lemma post_copy_ctor tr w m other :
  models tr w → post tr w (Some m) (λ _, []) (map_copy_ctor m other w).
Proof.
  intros Hmd. destruct (tr !! m) as [t0|] eqn:Htm.
  { destruct (models_live _ _ _ _ Hmd Htm) as (Hm & _). by rewrite (live_copy_ctor _ _ _ _ Hm). }
  pose proof (md_dom _ _ Hmd _ Htm) as Hnone.
  destruct (tr !! other) as [t|] eqn:Hto.
  - destruct (decide (length (addrs t) ≤ avail w)%nat) as [Hle|Hgt].
    + destruct (copy_ctor_ok _ _ _ _ _ Hmd Htm Hto Hle)
        as (t' & w' & -> & Hmd' & He & _ & _ & Hg). simpl.
      exists (<[m := t']> tr). split_and!; [|constructor|by intros; apply frame_insert].
      apply evolves_new; [done|done|done|]. intros _ Hall.
      eapply sorted_entries_eq; [exact He|]. by eapply Hall.
    + destruct (copy_ctor_bad_alloc _ _ _ _ _ Hmd Htm Hto ltac:(lia)) as (w' & -> & Hmd' & Hg & _).
      simpl. exists tr. split; [by apply evolves_same|done].
  - by rewrite (dead_copy_source _ _ _ Hnone (md_dom _ _ Hmd _ Hto)).
Qed.

Lemma assign_dead_source tr w m other t0 :
  models tr w → tr !! m = Some t0 → tr !! other = None → m ≠ other →
  map_assign m other w = Fault.
Proof.
  intros Hmd Htm Hto Hne.
  destruct (clear_ok _ _ _ _ Hmd Htm) as (w1 & Hclr & Hmd1 & _).
  assert (Hdead : maps w1 !! other = None).
  { apply (md_dom _ _ Hmd1). by rewrite lookup_insert_ne. }
  unfold map_assign. rewrite decide_False by done.
  unfold bind at 1. rewrite Hclr. unfold bind, get_map. by rewrite Hdead.
Qed.

Lemma post_assign tr w m other :
  models tr w → post tr w (Some m) (λ _, []) (map_assign m other w).
Proof.
  intros Hmd. destruct (decide (m = other)) as [<-|Hne].
  { rewrite assign_self. simpl. exists tr. split_and!; [by apply evolves_refl|constructor|done]. }
  destruct (tr !! m) as [t0|] eqn:Htm.
  2: { by rewrite (dead_assign _ _ _ Hne (md_dom _ _ Hmd _ Htm)). }
  destruct (tr !! other) as [t|] eqn:Hto.
  2: { by rewrite (assign_dead_source _ _ _ _ _ Hmd Htm Hto Hne). }
  destruct (decide (length (addrs t) ≤ avail w)%nat) as [Hle|Hgt].
  - destruct (assign_ok _ _ _ _ _ _ Hmd Htm Hto Hne Hle)
      as (t' & w' & -> & Hmd' & He & _ & Hg & Hgone). simpl.
    exists (<[m := t']> tr). split_and!; [|constructor|by intros; apply frame_insert].
    split_and!; [done|done| |].
    + intros o t1 a Ho Ha. destruct (decide (o = m)) as [->|Hom].
      * rewrite Htm in Ho. injection Ho as <-. left. by apply Hgone.
      * right. exists t1. by rewrite lookup_insert_ne.
    + intros Htr Hall o t1 Ho. destruct (decide (o = m)) as [->|Hom].
      * rewrite lookup_insert_eq in Ho. injection Ho as <-.
        eapply sorted_entries_eq; [exact He|]. by eapply Hall.
      * rewrite lookup_insert_ne in Ho by done. by eapply Hall.
  - destruct (assign_bad_alloc _ _ _ _ _ _ Hmd Htm Hto Hne ltac:(lia))
      as (w' & -> & Hmd' & Hg & Hgone). simpl.
    exists (<[m := E]> tr). split; [|by intros; apply frame_insert].
    apply evolves_update with (t := t0); [done|done|done| |intros; apply sorted_E].
    intros a Ha. right. by apply Hgone.
Qed.

Lemma post_clear tr w m : models tr w → post tr w (Some m) (λ _, []) (clear m w).
Proof.
  intros Hmd. destruct (tr !! m) as [t|] eqn:Ht.
  2: { by rewrite (dead_clear _ _ (md_dom _ _ Hmd _ Ht)). }
  destruct (clear_ok _ _ _ _ Hmd Ht) as (w' & -> & Hmd' & _ & _ & Hg & Hgone & _). simpl.
  exists (<[m := E]> tr). split_and!; [|constructor|by intros; apply frame_insert].
  apply evolves_update with (t := t); [done|done|done| |intros; apply sorted_E].
  intros a Ha. right. by apply Hgone.
Qed.

Lemma post_dtor tr w m : models tr w → post tr w (Some m) (λ _, []) (map_dtor m w).
Proof.
  intros Hmd. destruct (tr !! m) as [t|] eqn:Ht.
  2: { by rewrite (dead_dtor _ _ (md_dom _ _ Hmd _ Ht)). }
  destruct (dtor_ok _ _ _ _ Hmd Ht) as (w' & -> & Hmd' & _ & _ & Hg & Hgone & _). simpl.
  exists (delete m tr). split_and!; [|constructor|by intros; apply frame_delete].
  by eapply evolves_delete.
Qed.

Lemma descend_inl_in t key b :
  NoDup (addrs t) → descend_t cmp key t [] = inl b → b ∈ addrs t.
Proof.
  intros Hn Hd. pose proof (descend_t_find cmp key t []) as Hf. rewrite Hd in Hf.
  by destruct (find_t_in cmp _ _ _ Hn Hf).
Qed.

Lemma items_in_addrs t a (kv : K * V) : (a, kv) ∈ items t → a ∈ addrs t.
Proof. intros Hin. rewrite <- items_addrs. apply list_elem_of_fmap. by exists (a, kv). Qed.

Lemma post_insert tr w m v :
  models tr w → post tr w (Some m) (λ res : iterator * bool, [res.1]) (insert cmp m v w).
Proof.
  intros Hmd. destruct (tr !! m) as [t|] eqn:Ht.
  2: { by rewrite (dead_insert _ _ _ v (md_dom _ _ Hmd _ Ht)). }
  destruct (models_live _ _ _ _ Hmd Ht) as (_ & _ & Hn).
  destruct (descend_t cmp v.1 t []) as [b|c] eqn:Hd.
  - rewrite (insert_found _ _ _ _ _ _ _ Hmd Ht Hd). simpl.
    exists tr. split_and!; [by apply evolves_refl| |done].
    constructor; [|constructor]. simpl. eapply cursor_ok_node; [done|]. by eapply descend_inl_in.
  - destruct (avail w) as [|k] eqn:Hav.
    + rewrite (insert_bad_alloc _ _ _ _ _ _ _ Hmd Ht Hd Hav). simpl.
      exists tr. split; [by apply evolves_refl|done].
    + destruct (insert_fresh _ _ _ _ _ _ _ Hmd Ht Hd ltac:(lia))
        as (t' & w' & -> & Hmd' & _ & _ & Hit & Hit' & Hg & Hk). simpl.
      exists (<[m := t']> tr). split_and!; [| |by intros; apply frame_insert].
      * apply evolves_update with (t := t); [done|done|done|done|].
        intros Htr Hs. by eapply sorted_insert_items.
      * constructor; [|constructor]. simpl.
        eapply cursor_ok_node; [apply lookup_insert_eq|].
        eapply (items_in_addrs _ _ v). rewrite Hit'.
        apply elem_of_app. right. apply elem_of_cons. by left.
Qed.

Lemma post_erase tr w m pos :
  models tr w → cursor_ok tr w pos → post tr w (Some m) (λ _, []) (erase m pos w).
Proof.
  intros Hmd Hc. destruct (decide (owner pos = Some m)) as [Ho|Ho].
  2: { rewrite (erase_foreign _ _ _ Ho). simpl. exists tr. split; [by apply evolves_refl|done]. }
  unfold cursor_ok in Hc. destruct (nodePtr pos) as [a|] eqn:Hp.
  2: { rewrite (erase_end _ _ _ Hp). simpl. exists tr. split; [by apply evolves_refl|done]. }
  destruct Hc as (o & Ho' & [(Hdead & _)|(t & Ht & Ha)]).
  { by rewrite (stale_erase _ _ _ _ Ho Hp Hdead). }
  rewrite Ho in Ho'. injection Ho' as <-.
  destruct (erase_ok _ _ _ _ _ _ Hmd Ht Ho Hp Ha)
    as (t' & w' & -> & Hmd' & _ & _ & _ & (is1 & kv & is2 & Hit & Hit') & Hg & Hk & _). simpl.
  exists (<[m := t']> tr). split_and!; [|constructor|by intros; apply frame_insert].
  apply evolves_update with (t := t); [done|done|done|done|].
  intros _ Hs. by eapply sorted_erase_items.
Qed.

Lemma grows_dom_eq w w' :
  next w' = next w → dom (nodes w') = dom (nodes w) → grows w w'.
Proof.
  intros Hnx Hd. split; [lia|]. intros b _ Hb.
  apply not_elem_of_dom. rewrite Hd. by apply not_elem_of_dom.
Qed.

Lemma evolves_set_second tr w o t a v w' :
  tr !! o = Some t → models (<[o := set_second a v t]> tr) w' →
  next w' = next w → dom (nodes w') = dom (nodes w) →
  evolves tr w (<[o := set_second a v t]> tr) w'.
Proof.
  intros Ht Hmd Hnx Hd. apply evolves_update with (t := t); [done|done| | |].
  - by apply grows_dom_eq.
  - intros b Hb. left. by rewrite addrs_set_second.
  - intros _. apply sorted_keys_eq, keys_set_second.
Qed.

Lemma post_at_assign tr w m key v :
  models tr w → post tr w (Some m) (λ _, []) (at_assign cmp m key v w).
Proof.
  intros Hmd. destruct (tr !! m) as [t|] eqn:Ht.
  2: { unfold at_assign, bind. by rewrite (dead_findNode cmp w m key (md_dom _ _ Hmd _ Ht)). }
  destruct (find_t cmp key t) as [a|] eqn:Hf.
  - destruct (at_assign_ok cmp tr w m t key a v Hmd Ht Hf) as (w' & -> & Hmd' & Hnx & _ & Hd). simpl.
    exists (<[m := set_second a v t]> tr).
    split_and!; [|constructor|by intros; apply frame_insert].
    by apply evolves_set_second.
  - rewrite (at_assign_missing cmp tr w m t key v Hmd Ht Hf). simpl.
    exists tr. split; [by apply evolves_refl|done].
Qed.

Lemma post_index tr w m key :
  models tr w → post tr w (Some m) (λ _, []) (index cmp default_value m key w).
Proof.
  intros Hmd. destruct (tr !! m) as [t|] eqn:Ht.
  2: { unfold index, bind. by rewrite (dead_findNode cmp w m key (md_dom _ _ Hmd _ Ht)). }
  destruct (models_live _ _ _ _ Hmd Ht) as (_ & _ & Hn).
  destruct (find_t cmp key t) as [a|] eqn:Hf.
  - destruct (find_t_in cmp _ _ _ Hn Hf) as (_ & kv & Hl & _).
    rewrite (index_present cmp default_value tr w m t key a kv Hmd Ht Hf Hl). simpl.
    exists tr. split_and!; [by apply evolves_refl|constructor|done].
  - destruct (find_t_None_descend cmp key t Hf) as (c & Hd).
    destruct (avail w) as [|k] eqn:Hav.
    + rewrite (index_bad_alloc cmp default_value tr w m t key c Hmd Ht Hd Hav). simpl.
      exists tr. split; [by apply evolves_refl|done].
    + destruct (index_absent cmp default_value tr w m t key c Hmd Ht Hd ltac:(lia))
        as (t' & w' & -> & Hmd' & _ & _ & Hit & Hit' & Hg & Hk). simpl.
      exists (<[m := t']> tr). split_and!; [|constructor|by intros; apply frame_insert].
      apply evolves_update with (t := t); [done|done|done|done|].
      intros Htr Hs. by eapply (sorted_insert_items t t' c (next w) (key, default_value)).
Qed.

Lemma post_index_assign tr w m key v :
  models tr w →
  post tr w (Some m) (λ _, []) (index_assign cmp default_value m key v w).
Proof.
  intros Hmd. destruct (tr !! m) as [t|] eqn:Ht.
  2: { unfold index_assign, bind. by rewrite (dead_findNode cmp w m key (md_dom _ _ Hmd _ Ht)). }
  destruct (find_t cmp key t) as [a|] eqn:Hf.
  - destruct (index_assign_present cmp default_value tr w m t key a v Hmd Ht Hf)
      as (w' & -> & Hmd' & Hnx & _ & Hd). simpl.
    exists (<[m := set_second a v t]> tr).
    split_and!; [|constructor|by intros; apply frame_insert].
    by apply evolves_set_second.
  - destruct (find_t_None_descend cmp key t Hf) as (c & Hd).
    destruct (avail w) as [|k] eqn:Hav.
    + rewrite (index_assign_bad_alloc cmp default_value tr w m t key v c Hmd Ht Hd Hav). simpl.
      exists tr. split; [by apply evolves_refl|done].
    + destruct (index_assign_absent cmp default_value tr w m t key v c Hmd Ht Hd ltac:(lia))
        as (t' & w' & -> & Hmd' & _ & _ & _ & Hkeys & _ & Hg & Hk). simpl.
      exists (<[m := t']> tr). split_and!; [|constructor|by intros; apply frame_insert].
      apply evolves_update with (t := t); [done|done|done|done|].
      intros Htr Hs. unfold sorted. rewrite Hkeys.
      by apply (insert_sorted cmp Htr (key, v) t c).
Qed.

Lemma post_begin tr w m : models tr w → post tr w None (λ it, [it]) (begin_ m w).
Proof.
  intros Hmd. destruct (tr !! m) as [t|] eqn:Ht.
  2: { by rewrite (dead_begin _ _ (md_dom _ _ Hmd _ Ht)). }
  rewrite (begin_ok _ _ _ _ Hmd Ht). simpl.
  exists tr. split_and!; [by apply evolves_refl| |done].
  constructor; [|constructor]. eapply cursor_ok_opt; [done|]. apply head_elem.
Qed.

Lemma post_end tr w m : models tr w → post tr w None (λ it, [it]) (end_ m w).
Proof.
  intros Hmd. destruct (tr !! m) as [t|] eqn:Ht.
  2: { by rewrite (dead_end _ _ (md_dom _ _ Hmd _ Ht)). }
  rewrite (end_ok _ _ _ _ Hmd Ht). simpl.
  exists tr. split_and!; [by apply evolves_refl| |done].
  constructor; [done|constructor].
Qed.

Lemma post_find tr w m key : models tr w → post tr w None (λ it, [it]) (find cmp m key w).
Proof.
  intros Hmd. destruct (tr !! m) as [t|] eqn:Ht.
  2: { unfold find, bind. by rewrite (dead_findNode cmp w m key (md_dom _ _ Hmd _ Ht)). }
  destruct (models_live _ _ _ _ Hmd Ht) as (_ & _ & Hn).
  rewrite (find_ok cmp tr w m t key Hmd Ht). simpl.
  exists tr. split_and!; [by apply evolves_refl| |done].
  constructor; [|constructor]. eapply cursor_ok_opt; [done|].
  intros a Hf. by destruct (find_t_in cmp _ _ _ Hn Hf).
Qed.

Lemma post_incr tr w it :
  models tr w → cursor_ok tr w it → post tr w None (λ it', [it']) (it_incr it w).
Proof.
  intros Hmd Hc. destruct (owner it) as [o|] eqn:Ho.
  2: { rewrite (incr_ownerless _ _ Ho). simpl. exists tr. split; [by apply evolves_refl|done]. }
  unfold cursor_ok in Hc. destruct (nodePtr it) as [a|] eqn:Hp.
  2: { rewrite (incr_end _ _ Hp). simpl. exists tr. split; [by apply evolves_refl|done]. }
  destruct Hc as (o' & Ho' & [(Hdead & _)|(t & Ht & Ha)]).
  { by rewrite (stale_incr _ _ _ _ Ho Hp Hdead). }
  rewrite Ho in Ho'. injection Ho' as <-.
  rewrite (incr_ok tr w it o a t Hmd Ho Hp Ht Ha). simpl.
  exists tr. split_and!; [by apply evolves_refl| |done].
  constructor; [|constructor]. eapply cursor_ok_opt; [done|]. apply next_in_elem.
Qed.

Lemma post_decr tr w it :
  models tr w → cursor_ok tr w it → post tr w None (λ it', [it']) (it_decr it w).
Proof.
  intros Hmd Hc. destruct (owner it) as [o|] eqn:Ho.
  2: { rewrite (decr_ownerless _ _ Ho). simpl. exists tr. split; [by apply evolves_refl|done]. }
  unfold cursor_ok in Hc. destruct (nodePtr it) as [a|] eqn:Hp.
  - destruct Hc as (o' & Ho' & [(Hdead & _)|(t & Ht & Ha)]).
    { by rewrite (stale_decr _ _ _ _ Ho Hp Hdead). }
    rewrite Ho in Ho'. injection Ho' as <-.
    rewrite (decr_ok tr w it o a t Hmd Ho Hp Ht Ha).
    destruct (prev_in (addrs t) a) as [b|] eqn:Hb; simpl.
    + exists tr. split_and!; [by apply evolves_refl| |done].
      constructor; [|constructor]. eapply cursor_ok_node; [done|]. by eapply prev_in_elem.
    + exists tr. split; [by apply evolves_refl|done].
  - destruct (tr !! o) as [t|] eqn:Ht.
    2: { by rewrite (dead_decr _ _ _ Ho (md_dom _ _ Hmd _ Ht)). }
    rewrite (decr_end tr w it o t Hmd Ho Hp Ht).
    destruct (last (addrs t)) as [b|] eqn:Hb; simpl.
    + exists tr. split_and!; [by apply evolves_refl| |done].
      constructor; [|constructor]. eapply cursor_ok_node; [done|]. by apply last_elem.
    + exists tr. split; [by apply evolves_refl|done].
Qed.

Lemma post_both tr w it (m : @M K V iterator) :
  models tr w → cursor_ok tr w it → post tr w None (λ it', [it']) (m w) →
  post tr w None (λ res : iterator * iterator, [res.1; res.2])
    (bind m (λ it', ret (it, it')) w).
Proof.
  intros Hmd Hc Hp. unfold bind. destruct (m w) as [it' w'|e w'| |]; simpl in *; try done.
  destruct Hp as (tr' & Hev & Hcs & Hfr). exists tr'. split_and!; [done| |done].
  constructor; [|done]. simpl. by eapply cursor_ok_evolves.
Qed.

Lemma post_it_assign tr w it v :
  models tr w → cursor_ok tr w it → post tr w (owner it) (λ _, []) (it_assign it v w).
Proof.
  intros Hmd Hc. unfold cursor_ok in Hc. destruct (nodePtr it) as [a|] eqn:Hp.
  2: { rewrite (it_assign_none _ _ _ Hp). simpl. exists tr. split; [by apply evolves_refl|done]. }
  destruct Hc as (o & Ho & [(Hdead & _)|(t & Ht & Ha)]).
  { by rewrite (stale_assign _ _ _ _ Hp Hdead). }
  destruct (it_assign_ok tr w it o a t v Hmd Hp Ht Ha) as (w' & -> & Hmd' & Hnx & _ & _ & Hd).
  simpl. exists (<[o := set_second a v t]> tr).
  split_and!; [|constructor|rewrite Ho; by intros; apply frame_insert].
  by apply evolves_set_second.
Qed.

(** ** Every call keeps the invariant *)
Lemma settle_post tr cl tgt {A} (o : outcome (@world K V) A) f cl' :
  inv tr cl → post tr (heap cl) tgt f o → settle o (issued cl) f = Some cl' →
  ∃ tr', inv tr' cl' ∧ evolves tr (heap cl) tr' (heap cl') ∧
         (∀ b, tgt ≠ Some b → tr' !! b = tr !! b).
Proof.
  intros (Hmd & Hcs & Hsort) Hp Hs.
  destruct o as [a w'|e w'| |]; simpl in *; try done; injection Hs as <-.
  - destruct Hp as (tr' & Hev & Hnew & Hfr). exists tr'. split_and!; [|done|done].
    split_and!; simpl.
    + apply Hev.
    + apply Forall_app. split; [|done].
      eapply Forall_impl; [exact Hcs|]. intros it. by apply cursor_ok_evolves.
    + intros Htr. destruct Hev as (_ & _ & _ & Hs'). apply Hs'; [done|]. by apply Hsort.
  - destruct Hp as (tr' & Hev & Hfr). exists tr'. split_and!; [|done|done].
    split_and!; simpl.
    + apply Hev.
    + eapply Forall_impl; [exact Hcs|]. intros it. by apply cursor_ok_evolves.
    + intros Htr. destruct Hev as (_ & _ & _ & Hs'). apply Hs'; [done|]. by apply Hsort.
Qed.

Lemma step_spec c tr cl cl' :
  inv tr cl → step c cl = Some cl' →
  ∃ tr', inv tr' cl' ∧ evolves tr (heap cl) tr' (heap cl') ∧
         (∀ b, target c cl ≠ Some b → tr' !! b = tr !! b).
Proof.
  intros Hinv Hstep. pose proof Hinv as (Hmd & Hcs & Hsort).
  assert (Hcur : ∀ i it, issued cl !! i = Some it → cursor_ok tr (heap cl) it).
  { intros i it Hi. eapply Forall_lookup_1; eauto. }
  destruct c; simpl in Hstep; simpl target;
    try (destruct (issued cl !! i) as [it|] eqn:Hi; [|done]; simpl).
  - eapply settle_post; [done| |exact Hstep]. by apply post_ctor.
  - eapply settle_post; [done| |exact Hstep]. by apply post_copy_ctor.
  - eapply settle_post; [done| |exact Hstep]. by apply post_assign.
  - eapply settle_post; [done| |exact Hstep]. by apply post_dtor.
  - eapply settle_post; [done| |exact Hstep]. apply post_pure_nil; [apply pure_at|done].
  - eapply settle_post; [done| |exact Hstep]. by apply post_at_assign.
  - eapply settle_post; [done| |exact Hstep]. by apply post_index.
  - eapply settle_post; [done| |exact Hstep]. by apply post_index_assign.
  - eapply settle_post; [done| |exact Hstep]. apply post_pure_nil; [apply pure_index_const|done].
  - eapply settle_post; [done| |exact Hstep]. by apply post_begin.
  - eapply settle_post; [done| |exact Hstep]. by apply post_end.
  - eapply settle_post; [done| |exact Hstep]. apply post_pure_nil; [apply pure_empty|done].
  - eapply settle_post; [done| |exact Hstep]. apply post_pure_nil; [apply pure_size|done].
  - eapply settle_post; [done| |exact Hstep]. by apply post_clear.
  - eapply settle_post; [done| |exact Hstep]. by apply post_insert.
  - eapply settle_post; [done| |exact Hstep]. apply post_erase; [done|by eapply Hcur].
  - eapply settle_post; [done| |exact Hstep]. apply post_pure_nil; [apply pure_count|done].
  - eapply settle_post; [done| |exact Hstep]. by apply post_find.
  - injection Hstep as <-. exists tr. split_and!; [|by apply evolves_refl|done].
    split_and!; simpl; [done| |done]. apply Forall_app. split; [done|].
    constructor; [done|constructor].
  - eapply settle_post; [done| |exact Hstep]. apply post_pure_nil; [apply pure_it_deref|done].
  - eapply settle_post; [done| |exact Hstep]. apply post_it_assign; [done|by eapply Hcur].
  - eapply settle_post; [done| |exact Hstep]. apply post_incr; [done|by eapply Hcur].
  - eapply settle_post; [done| |exact Hstep].
    apply post_both; [done|by eapply Hcur|]. apply post_incr; [done|by eapply Hcur].
  - eapply settle_post; [done| |exact Hstep]. apply post_decr; [done|by eapply Hcur].
  - eapply settle_post; [done| |exact Hstep].
    apply post_both; [done|by eapply Hcur|]. apply post_decr; [done|by eapply Hcur].
Qed.

Lemma inv_initial av : Z.of_nat av < size_max → inv ∅ (initial av).
Proof.
  intros Hav. split_and!; simpl.
  - split; simpl.
    + intros a Ha. rewrite lookup_empty in Ha. by destruct Ha.
    + rewrite map_size_empty. lia.
    + done.
    + intros m t Hm. by rewrite lookup_empty in Hm.
    + intros m1 m2 t1 t2 a _ Hm. by rewrite lookup_empty in Hm.
  - constructor.
  - intros _ m t Hm. by rewrite lookup_empty in Hm.
Qed.

Lemma run_inv p tr cl cl' : inv tr cl → run p cl = Some cl' → ∃ tr', inv tr' cl'.
Proof.
  revert tr cl. induction p as [|c p IH]; intros tr cl Hinv; simpl.
  - intros [= <-]. eauto.
  - destruct (step c cl) as [cl1|] eqn:Hs; [|done].
    destruct (step_spec _ _ _ _ Hinv Hs) as (tr1 & Hinv1 & _). by apply IH with tr1.
Qed.

Lemma reachable_inv cl : reachable cl → ∃ tr, inv tr cl.
Proof. intros (av & p & Hav & Hrun). eapply run_inv; [by apply inv_initial|done]. Qed.

Lemma reachable_step c cl cl' : reachable cl → step c cl = Some cl' → reachable cl'.
Proof.
  intros (av & p & Hav & Hrun) Hs. exists av, (p ++ [c]). split; [done|].
  clear Hav. revert Hrun. generalize (initial (K:=K) (V:=V) av). induction p as [|c0 p IH]; intros cl0; simpl.
  - intros [= ->]. by rewrite Hs.
  - destruct (step c0 cl0); [apply IH|done].
Qed.

End ClientFacts.

Section WalkFacts.
Context {K V : Type}.
Variable cmp : K → K → bool.
Variable default_value : V.
Implicit Types (w : @world K V) (tr : gmap positive (@tree K V)).
Implicit Types (t l r : @tree K V).
Local Abbreviation bst := (bst cmp).

(** ** The walk lists the entries in order *)
Lemma iterate_ok tr w m t fuel (is1 is2 : list (positive * (K * V))) :
  models tr w → tr !! m = Some t → items t = is1 ++ is2 →
  (length is2 ≤ fuel)%nat →
  iterate fuel (mkIt (head is2.*1) (Some m)) (mkIt None (Some m)) w = Ok is2.*2 w.
Proof.
  intros Hmd Ht. destruct (models_live _ _ _ _ Hmd Ht) as (_ & _ & Hn).
  revert fuel is1. induction is2 as [|[a kv] rest IH]; intros fuel is1 Hit Hf.
  - destruct fuel; simpl; unfold it_eq; simpl; by rewrite !bool_decide_eq_true_2.
  - destruct fuel as [|f]; [simpl in Hf; lia|]. simpl.
    unfold it_eq. cbn [nodePtr owner fmap list_fmap head fst].
    rewrite (bool_decide_eq_false_2 (Some a = None)) by done.
    rewrite andb_false_r.
    assert (Hin : (a, kv) ∈ items t).
    { rewrite Hit. apply elem_of_app. right. apply elem_of_cons. by left. }
    assert (Hl : lookup_t a t = Some kv) by (by apply lookup_t_items).
    assert (Had : addrs t = is1.*1 ++ a :: rest.*1).
    { by rewrite <- items_addrs, Hit, fmap_app, fmap_cons. }
    assert (Ha1 : a ∉ is1.*1).
    { rewrite Had in Hn. apply NoDup_app in Hn as (_ & Hd & _). intros Hx.
      apply (Hd _ Hx). apply elem_of_cons. by left. }
    unfold bind at 1.
    rewrite (deref_ok tr w (mkIt (Some a) (Some m)) m a t kv Hmd eq_refl Ht Hl).
    unfold bind at 1.
    rewrite (incr_ok tr w (mkIt (Some a) (Some m)) m a t Hmd eq_refl eq_refl Ht
               (lookup_t_addrs _ _ _ Hl)).
    rewrite Had, (next_in_app _ _ _ Ha1).
    unfold bind. rewrite (IH f (is1 ++ [(a, kv)])).
    + done.
    + by rewrite Hit, <- app_assoc.
    + simpl in Hf. lia.
Qed.

Lemma traverse_ok tr w m t :
  models tr w → tr !! m = Some t → traverse m w = Ok (entries t) w.
Proof.
  intros Hmd Ht. destruct (models_live _ _ _ _ Hmd Ht) as (_ & Hr & Hn).
  pose proof (rep_addrs_size _ _ _ Hr Hn) as Hsz.
  unfold traverse. unfold bind at 1. rewrite (begin_ok _ _ _ _ Hmd Ht).
  unfold bind at 1. rewrite (end_ok _ _ _ _ Hmd Ht).
  unfold bind, loop_bound. rewrite <- items_addrs, <- items_entries.
  apply (iterate_ok tr w m t _ [] (items t)); [done|done|done|].
  rewrite <- items_addrs, length_fmap in Hsz. lia.
Qed.

Lemma traverse_live tr w m es w' :
  models tr w → traverse m w = Ok es w' →
  ∃ t, tr !! m = Some t ∧ es = entries t ∧ w' = w.
Proof.
  intros Hmd Hrun. destruct (tr !! m) as [t|] eqn:Ht.
  - rewrite (traverse_ok _ _ _ _ Hmd Ht) in Hrun. injection Hrun as <- <-. eauto.
  - unfold traverse, bind in Hrun. by rewrite (dead_begin _ _ (md_dom _ _ Hmd _ Ht)) in Hrun.
Qed.

Lemma live_model tr w m mp :
  models tr w → maps w !! m = Some mp →
  ∃ t, tr !! m = Some t ∧ root mp = root_ptr t ∧
       nodeCount mp = Z.of_nat (length (addrs t)).
Proof.
  intros Hmd Hm. destruct (tr !! m) as [t|] eqn:Ht.
  - destruct (models_live _ _ _ _ Hmd Ht) as (Hm' & _). rewrite Hm in Hm'.
    injection Hm' as ->. eauto.
  - rewrite (md_dom _ _ Hmd _ Ht) in Hm. done.
Qed.

Lemma avl_depth t : avl t → ht t = Z.of_nat (depth t).
Proof.
  induction t as [|l IHl a kv hg r IHr]; simpl; [done|].
  intros (Hl & Hr & -> & _). rewrite (IHl Hl), (IHr Hr). lia.
Qed.

Lemma avl_balanced t : avl t → balanced t.
Proof.
  induction t as [|l IHl a kv hg r IHr]; simpl; [done|].
  intros (Hl & Hr & Hh & Hb).
  rewrite (avl_depth _ Hl), (avl_depth _ Hr) in Hh, Hb.
  split_and!; [by apply IHl|by apply IHr|lia|lia|lia].
Qed.

Lemma sorted_bst t : sorted cmp t → bst t.
Proof.
  unfold sorted. induction t as [|l IHl a kv hg r IHr]; simpl; [done|].
  rewrite fmap_app, fmap_cons, StronglySorted_app. intros (Hlr & Hsl & Hsr).
  apply StronglySorted_cons in Hsr as (Hk & Hsr).
  split_and!; [by apply IHl|by apply IHr| |].
  - intros x Hx. apply Hlr; [by apply list_elem_of_fmap_2|]. apply elem_of_cons. by left.
  - intros x Hx. rewrite Forall_forall in Hk. apply Hk. by apply list_elem_of_fmap_2.
Qed.

End WalkFacts.

Section Claims.
Context {K V : Type}.
Variable cmp : K → K → bool.
Variable default_value : V.
Implicit Types (w : @world K V) (tr : gmap positive (@tree K V)).
Implicit Types (t l r : @tree K V) (cl : @client K V).
Local Abbreviation reachable := (reachable cmp default_value).
Local Abbreviation step := (step cmp default_value).

Lemma length_entries t : length (entries t) = length (addrs t).
Proof. by rewrite <- items_entries, <- items_addrs, !length_fmap. Qed.

Lemma entries_of_items t (is1 is2 : list (positive * (K * V))) :
  items t = is1 ++ is2 → entries t = is1.*2 ++ is2.*2.
Proof. intros Hit. by rewrite <- items_entries, Hit, fmap_app. Qed.

Lemma lookup_t_entries a t kv : lookup_t a t = Some kv → kv ∈ entries t.
Proof.
  intros H%lookup_t_Some_items. rewrite <- items_entries.
  apply list_elem_of_fmap. by exists (a, kv).
Qed.

(** C1. After every public call, from any state a client program can reach,
    the nodes below the root of every live map form a tree in which every
    cached height is one more than the larger of the two subtree heights (an
    absent subtree counting 0) and the two subtree heights differ by at most
    one. *)
Theorem avl_balance_after_every_call cl c cl' m mp :
  reachable cl → step c cl = Some cl' →
  maps (heap cl') !! m = Some mp →
  ∃ t, rep (nodes (heap cl')) None t ∧ root_ptr t = root mp ∧ balanced t.
Proof.
  intros Hreach Hstep Hm.
  destruct (reachable_inv _ _ _ (reachable_step _ _ _ _ _ Hreach Hstep)) as (tr & Hmd & _).
  destruct (live_model _ _ _ _ Hmd Hm) as (t & Ht & Hroot & _).
  destruct (models_live _ _ _ _ Hmd Ht) as (_ & Hr & _).
  exists t. split_and!; [done|done|]. apply avl_balanced. by eapply models_avl.
Qed.

(** C2. In every reachable state and for every live map, the loop from
    [begin()] to [end()] by [++] returns the entries of the tree in order, the
    keys strictly increasing under the comparator, and at every node the keys
    of the left subtree are smaller and those of the right subtree larger;
    the comparator is taken to be transitive. *)
Theorem traversal_strictly_increasing cl m mp :
  cmp_transitive cmp → reachable cl → maps (heap cl) !! m = Some mp →
  ∃ t, rep (nodes (heap cl)) None t ∧ root_ptr t = root mp ∧ bst cmp t ∧
       traverse m (heap cl) = Ok (entries t) (heap cl) ∧
       StronglySorted (lt cmp) (entries t).*1.
Proof.
  intros Htr Hreach Hm.
  destruct (reachable_inv _ _ _ Hreach) as (tr & Hmd & _ & Hsort).
  destruct (live_model _ _ _ _ Hmd Hm) as (t & Ht & Hroot & _).
  destruct (models_live _ _ _ _ Hmd Ht) as (_ & Hr & _).
  pose proof (Hsort Htr m t Ht) as Hs.
  exists t. split_and!; [done|done|by apply sorted_bst|by eapply traverse_ok|done].
Qed.

(** C3. [insert] of an entry whose key is equivalent to a stored key returns
    a cursor to the node that holds it and [false], and the store is the one
    it started from; [insert] of an entry whose key is equivalent to no
    stored key (when the allocation succeeds) returns a cursor to a node that
    holds the entry and [true], the walk then lists the old entries with the
    new one placed among them, and [size()] is one more. *)
Theorem insert_existing_or_new cl m v es :
  cmp_transitive cmp → reachable cl →
  traverse m (heap cl) = Ok es (heap cl) →
  ((∃ kv, kv ∈ es ∧ keyEq cmp v.1 kv.1 = true) →
   ∃ a kv, insert cmp m v (heap cl) = Ok (mkIt (Some a) (Some m), false) (heap cl) ∧
           it_deref (mkIt (Some a) (Some m)) (heap cl) = Ok kv (heap cl) ∧
           kv ∈ es ∧ keyEq cmp v.1 kv.1 = true) ∧
  ((∀ kv, kv ∈ es → keyEq cmp v.1 kv.1 = false) → (0 < avail (heap cl))%nat →
   ∃ a w' es1 es2,
     insert cmp m v (heap cl) = Ok (mkIt (Some a) (Some m), true) w' ∧
     it_deref (mkIt (Some a) (Some m)) w' = Ok v w' ∧
     es = es1 ++ es2 ∧ traverse m w' = Ok (es1 ++ v :: es2) w' ∧
     size_ m (heap cl) = Ok (Z.of_nat (length es)) (heap cl) ∧
     size_ m w' = Ok (Z.of_nat (length es) + 1) w').
Proof.
  intros Htr Hreach Htrav.
  destruct (reachable_inv _ _ _ Hreach) as (tr & Hmd & _ & Hsort).
  destruct (traverse_live _ _ _ _ _ Hmd Htrav) as (t & Ht & -> & _).
  destruct (models_live _ _ _ _ Hmd Ht) as (_ & _ & Hn).
  pose proof (Hsort Htr m t Ht) as Hs.
  pose proof (find_t_spec cmp Htr v.1 t Hs Hn) as Hspec.
  pose proof (descend_t_find cmp v.1 t []) as Hdf.
  split.
  - intros (kv & Hin & Heq).
    destruct (find_t cmp v.1 t) as [a|] eqn:Hf.
    2: { rewrite (Hspec kv Hin) in Heq. done. }
    destruct Hspec as (kv' & Hl & Hin' & Ha & Hk).
    destruct (descend_t cmp v.1 t []) as [b|c] eqn:Hd; [|done].
    injection Hdf as <-. exists a, kv'. split_and!; [|by eapply deref_ok|done|done].
    by eapply insert_found.
  - intros Habs Hav.
    destruct (descend_t cmp v.1 t []) as [b|c] eqn:Hd.
    { destruct (find_t_in cmp _ _ _ Hn Hdf) as (_ & kv & Hl & Hk).
      rewrite (Habs kv (lookup_t_entries _ _ _ Hl)) in Hk. done. }
    destruct (insert_fresh cmp _ _ _ _ v c Hmd Ht Hd Hav)
      as (t' & w' & Hrun & Hmd' & _ & _ & Hit & Hit' & _).
    assert (Ht' : (<[m := t']> tr) !! m = Some t') by apply lookup_insert_eq.
    destruct (models_live _ _ _ _ Hmd' Ht') as (_ & _ & Hn').
    assert (Hl : lookup_t (next (heap cl)) t' = Some v).
    { apply lookup_t_items; [done|]. rewrite Hit'.
      apply elem_of_app. right. apply elem_of_cons. by left. }
    exists (next (heap cl)), w', (items_before c).*2, (items_after c).*2.
    split_and!.
    + done.
    + by eapply deref_ok.
    + by apply entries_of_items.
    + rewrite (traverse_ok _ _ _ _ Hmd' Ht'). f_equal.
      by rewrite <- items_entries, Hit', fmap_app, fmap_cons.
    + rewrite (size_ok _ _ _ _ Hmd Ht). by rewrite length_entries.
    + rewrite (size_ok _ _ _ _ Hmd' Ht'). f_equal.
      rewrite <- !length_entries, <- !items_entries, Hit, Hit'.
      rewrite !length_fmap, !length_app. simpl. lia.
Qed.

(** C4, as amended. [erase] throws [invalid_iterator] and leaves the store as
    it was when the cursor is the end cursor or belongs to another container.
    A cursor whose node has already been deleted is not told apart from a
    valid one: [erase] goes on to use the dangling node pointer, which is
    undefined behaviour, and throws nothing.  [erase] of a cursor to a live
    node of this container deletes exactly that node, the walk lists the
    entries without the one the cursor referred to, and [size()] is one
    less. *)
Theorem erase_rejects_end_and_foreign cl m i pos :
  reachable cl → issued cl !! i = Some pos →
  (owner pos ≠ Some m ∨ nodePtr pos = None →
   erase m pos (heap cl) = Throw invalid_iterator (heap cl)) ∧
  (∀ a, owner pos = Some m → nodePtr pos = Some a → nodes (heap cl) !! a = None →
        erase m pos (heap cl) = Fault) ∧
  (∀ a, owner pos = Some m → nodePtr pos = Some a → is_Some (nodes (heap cl) !! a) →
     ∃ es1 kv es2 w',
       traverse m (heap cl) = Ok (es1 ++ kv :: es2) (heap cl) ∧
       it_deref pos (heap cl) = Ok kv (heap cl) ∧
       erase m pos (heap cl) = Ok tt w' ∧
       traverse m w' = Ok (es1 ++ es2) w' ∧
       size_ m (heap cl) = Ok (Z.of_nat (length (es1 ++ kv :: es2))) (heap cl) ∧
       size_ m w' = Ok (Z.of_nat (length (es1 ++ es2))) w' ∧
       dom (nodes w') = dom (nodes (heap cl)) ∖ {[a]}).
Proof.
  intros Hreach Hi.
  destruct (reachable_inv _ _ _ Hreach) as (tr & Hmd & Hcs & _).
  pose proof (Forall_lookup_1 _ _ _ _ Hcs Hi) as Hc.
  split_and!.
  - intros [Ho|Hp]; [by apply erase_foreign|by apply erase_end].
  - intros a Ho Hp Hdead. by eapply stale_erase.
  - intros a Ho Hp Hlive. unfold cursor_ok in Hc. rewrite Hp in Hc.
    destruct Hc as (o & Ho' & [(Hdead & _)|(t & Ht & Ha)]).
    { rewrite Hdead in Hlive. by destruct Hlive. }
    rewrite Ho in Ho'. injection Ho' as <-.
    destruct (models_live _ _ _ _ Hmd Ht) as (_ & _ & Hn).
    destruct (erase_ok _ _ _ _ _ _ Hmd Ht Ho Hp Ha)
      as (t' & w' & Hrun & Hmd' & _ & _ & _ & (is1 & kv & is2 & Hit & Hit') & _ & _ & Hdom).
    assert (Ht' : (<[m := t']> tr) !! m = Some t') by apply lookup_insert_eq.
    assert (He : entries t = is1.*2 ++ kv :: is2.*2).
    { by rewrite <- items_entries, Hit, fmap_app, fmap_cons. }
    assert (He' : entries t' = is1.*2 ++ is2.*2) by (by apply entries_of_items).
    assert (Hl : lookup_t a t = Some kv).
    { apply lookup_t_items; [done|]. rewrite Hit.
      apply elem_of_app. right. apply elem_of_cons. by left. }
    exists is1.*2, kv, is2.*2, w'. split_and!.
    + by rewrite (traverse_ok _ _ _ _ Hmd Ht), He.
    + by eapply deref_ok.
    + done.
    + by rewrite (traverse_ok _ _ _ _ Hmd' Ht'), He'.
    + by rewrite (size_ok _ _ _ _ Hmd Ht), <- length_entries, He.
    + by rewrite (size_ok _ _ _ _ Hmd' Ht'), <- length_entries, He'.
    + done.
Qed.

(** C5, as amended. Copy-assignment from another container first releases
    the receiver's old contents and then clones the source.  When every
    allocation succeeds the receiver ends with the entries of the source;
    when one fails, [bad_alloc] leaves the receiver empty, its old contents
    gone, and the source as it was. *)
Theorem assign_clears_then_clones cl m other es0 es :
  reachable cl → m ≠ other →
  traverse m (heap cl) = Ok es0 (heap cl) →
  traverse other (heap cl) = Ok es (heap cl) →
  match map_assign m other (heap cl) with
  | Ok _ w' => traverse m w' = Ok es w' ∧ traverse other w' = Ok es w'
  | Throw e w' =>
      e = bad_alloc ∧ (avail (heap cl) < length es)%nat ∧
      traverse m w' = Ok [] w' ∧ size_ m w' = Ok 0 w' ∧
      traverse other w' = Ok es w'
  | Fault => False
  | Diverge => False
  end.
Proof.
  intros Hreach Hne Htm Hto.
  destruct (reachable_inv _ _ _ Hreach) as (tr & Hmd & _).
  destruct (traverse_live _ _ _ _ _ Hmd Htm) as (t0 & Ht0 & -> & _).
  destruct (traverse_live _ _ _ _ _ Hmd Hto) as (t & Ht & -> & _).
  destruct (decide (length (addrs t) ≤ avail (heap cl))%nat) as [Hle|Hgt].
  - destruct (assign_ok _ _ _ _ _ _ Hmd Ht0 Ht Hne Hle) as (t' & w' & -> & Hmd' & He & _).
    split.
    + rewrite (traverse_ok _ _ m t' Hmd'); [by rewrite He|apply lookup_insert_eq].
    + apply (traverse_ok _ _ other t Hmd'). by rewrite lookup_insert_ne.
  - destruct (assign_bad_alloc _ _ _ _ _ _ Hmd Ht0 Ht Hne ltac:(lia)) as (w' & -> & Hmd' & _).
    split_and!.
    + done.
    + rewrite length_entries. lia.
    + apply (traverse_ok _ _ m E Hmd'). apply lookup_insert_eq.
    + apply (size_ok _ _ m E Hmd'). apply lookup_insert_eq.
    + apply (traverse_ok _ _ other t Hmd'). by rewrite lookup_insert_ne.
Qed.

Lemma last_items_split (l0 : list (positive * (K * V))) a kv :
  last l0 = Some (a, kv) → last l0.*1 = Some a ∧ last l0.*2 = Some kv.
Proof. intros H. by rewrite !fmap_last, H. Qed.

(** C6. For a live map of a reachable state: [++] on the end cursor throws
    [invalid_iterator]; [--] on the begin cursor throws [invalid_iterator];
    [--] on the end cursor of a non-empty map returns a cursor to the last
    entry of the walk, whose key every other key is smaller than; and on an
    empty map it throws [invalid_iterator].  The comparator is taken to be
    transitive. *)
Theorem cursor_moves_at_the_ends cl m es :
  cmp_transitive cmp → reachable cl →
  traverse m (heap cl) = Ok es (heap cl) →
  ∃ b e,
    begin_ m (heap cl) = Ok b (heap cl) ∧ end_ m (heap cl) = Ok e (heap cl) ∧
    it_incr e (heap cl) = Throw invalid_iterator (heap cl) ∧
    it_decr b (heap cl) = Throw invalid_iterator (heap cl) ∧
    match last es with
    | Some kv =>
        (∃ e', it_decr e (heap cl) = Ok e' (heap cl) ∧
               it_deref e' (heap cl) = Ok kv (heap cl)) ∧
        (∀ x, x ∈ es → x = kv ∨ cmp x.1 kv.1 = true)
    | None => it_decr e (heap cl) = Throw invalid_iterator (heap cl)
    end.
Proof.
  intros Htr Hreach Htrav.
  destruct (reachable_inv _ _ _ Hreach) as (tr & Hmd & _ & Hsort).
  destruct (traverse_live _ _ _ _ _ Hmd Htrav) as (t & Ht & -> & _).
  destruct (models_live _ _ _ _ Hmd Ht) as (_ & _ & Hn).
  pose proof (Hsort Htr m t Ht) as Hs.
  exists (mkIt (head (addrs t)) (Some m)), (mkIt None (Some m)). split_and!.
  - by eapply begin_ok.
  - by eapply end_ok.
  - by apply incr_end.
  - destruct (addrs t) as [|a rest] eqn:Had; simpl.
    + rewrite (decr_end tr _ (mkIt None (Some m)) m t Hmd eq_refl eq_refl Ht). by rewrite Had.
    + assert (Ha : a ∈ addrs t) by (rewrite Had; apply elem_of_cons; by left).
      rewrite (decr_ok tr _ (mkIt (Some a) (Some m)) m a t Hmd eq_refl eq_refl Ht Ha).
      rewrite Had. apply NoDup_cons in Hn as (Hnin & _).
      pose proof (prev_in_app [] a rest ltac:(apply not_elem_of_nil) Hnin) as Hprev.
      simpl in Hprev. simpl. by rewrite Hprev.
  - rewrite (decr_end tr _ (mkIt None (Some m)) m t Hmd eq_refl eq_refl Ht).
    destruct (last (items t)) as [[a kv]|] eqn:Hlast.
    + destruct (last_items_split _ _ _ Hlast) as (Hla & Hle).
      rewrite items_addrs in Hla. rewrite items_entries in Hle. rewrite Hla, Hle.
      assert (Hin : (a, kv) ∈ items t).
      { apply last_Some in Hlast as (l' & ->). apply elem_of_app. right.
        apply elem_of_cons. by left. }
      split.
      * eexists. split; [done|]. eapply deref_ok; [done|done|done|].
        by apply lookup_t_items.
      * intros x Hx. apply last_Some in Hle as (l' & Hl'). rewrite Hl' in Hx.
        apply elem_of_app in Hx as [Hx|Hx].
        -- right. unfold sorted in Hs. rewrite Hl', fmap_app in Hs.
           apply StronglySorted_app in Hs as (Hlt & _).
           apply Hlt; [by apply list_elem_of_fmap_2|]. simpl. apply elem_of_cons. by left.
        -- left. apply elem_of_cons in Hx as [?|Hx]; [done|]. by apply elem_of_nil in Hx.
    + apply last_None in Hlast.
      assert (addrs t = []) as -> by (by rewrite <- items_addrs, Hlast).
      assert (entries t = []) as -> by (by rewrite <- items_entries, Hlast).
      done.
Qed.

(** C7. For a live map of a reachable state and a key: when an entry with an
    equivalent key is stored, [at], [operator[]] and the const [operator[]]
    return its mapped value and leave the store as it was; when none is,
    [at] and the const [operator[]] throw [index_out_of_bound] and leave the
    store as it was, and the non-const [operator[]] (when the allocation
    succeeds) returns the default value, after which the walk lists the key
    with that value among the old entries and [size()] is one more.  The
    comparator is taken to be a strict weak ordering. *)
Theorem lookup_by_key cl m es key :
  strict_weak cmp → reachable cl →
  traverse m (heap cl) = Ok es (heap cl) →
  (∀ kv, kv ∈ es → keyEq cmp key kv.1 = true →
     at_ cmp m key (heap cl) = Ok kv.2 (heap cl) ∧
     index cmp default_value m key (heap cl) = Ok kv.2 (heap cl) ∧
     index_const cmp m key (heap cl) = Ok kv.2 (heap cl)) ∧
  ((∀ kv, kv ∈ es → keyEq cmp key kv.1 = false) →
     at_ cmp m key (heap cl) = Throw index_out_of_bound (heap cl) ∧
     index_const cmp m key (heap cl) = Throw index_out_of_bound (heap cl) ∧
     ((0 < avail (heap cl))%nat →
      ∃ es1 es2 w',
        es = es1 ++ es2 ∧
        index cmp default_value m key (heap cl) = Ok default_value w' ∧
        traverse m w' = Ok (es1 ++ (key, default_value) :: es2) w' ∧
        size_ m w' = Ok (Z.of_nat (length es) + 1) w')).
Proof.
  intros Hsw Hreach Htrav.
  pose proof (sw_trans _ Hsw) as Htr.
  destruct (reachable_inv _ _ _ Hreach) as (tr & Hmd & _ & Hsort).
  destruct (traverse_live _ _ _ _ _ Hmd Htrav) as (t & Ht & -> & _).
  destruct (models_live _ _ _ _ Hmd Ht) as (_ & _ & Hn).
  pose proof (Hsort Htr m t Ht) as Hs.
  pose proof (find_t_spec cmp Htr key t Hs Hn) as Hspec.
  split.
  - intros kv Hin Heq.
    destruct (find_t cmp key t) as [a|] eqn:Hf.
    2: { rewrite (Hspec kv Hin) in Heq. done. }
    destruct Hspec as (kv' & Hl & Hin' & Ha & Hk).
    assert (kv = kv') as <- by (by eapply (sorted_equiv_unique cmp Hsw key (entries t))).
    split_and!.
    + by eapply at_ok.
    + by eapply index_present.
    + by eapply index_const_ok.
  - intros Habs.
    destruct (find_t cmp key t) as [a|] eqn:Hf.
    { destruct (find_t_in cmp _ _ _ Hn Hf) as (_ & kv & Hl & Hk).
      rewrite (Habs kv (lookup_t_entries _ _ _ Hl)) in Hk. done. }
    split_and!.
    + by eapply at_missing.
    + by eapply index_const_missing.
    + intros Hav. destruct (find_t_None_descend cmp key t Hf) as (c & Hd).
      destruct (index_absent cmp default_value tr _ m t key c Hmd Ht Hd Hav)
        as (t' & w' & Hrun & Hmd' & _ & _ & Hit & Hit' & _).
      assert (Ht' : (<[m := t']> tr) !! m = Some t') by apply lookup_insert_eq.
      exists (items_before c).*2, (items_after c).*2, w'. split_and!.
      * by apply entries_of_items.
      * done.
      * rewrite (traverse_ok _ _ _ _ Hmd' Ht'). f_equal.
        by rewrite <- items_entries, Hit', fmap_app, fmap_cons.
      * rewrite (size_ok _ _ _ _ Hmd' Ht'). f_equal.
        rewrite <- !length_entries, <- !items_entries, Hit, Hit'.
        rewrite !length_fmap, !length_app. simpl. lia.
Qed.

(** C8. In a reachable state, copy-construction into storage that holds no
    map and copy-assignment to a live map return, provided the free store
    grants one allocation for each entry of the source; the walk over the
    copy then lists the entries of the source, and the walk over the source
    lists them still.  And whatever a later call does to one container
    (insert, erase, clear, a write to a mapped value, assignment,
    destruction), the walk over any other container lists what it listed
    before. *)
Theorem copies_are_deep_and_independent cl :
  reachable cl →
  (∀ m other es,
     traverse other (heap cl) = Ok es (heap cl) →
     maps (heap cl) !! m = None →
     (length es ≤ avail (heap cl))%nat →
     ∃ w', map_copy_ctor m other (heap cl) = Ok tt w' ∧
           traverse m w' = Ok es w' ∧ traverse other w' = Ok es w') ∧
  (∀ m other es,
     traverse other (heap cl) = Ok es (heap cl) →
     is_Some (maps (heap cl) !! m) →
     (length es ≤ avail (heap cl))%nat →
     ∃ w', map_assign m other (heap cl) = Ok tt w' ∧
           traverse m w' = Ok es w' ∧ traverse other w' = Ok es w') ∧
  (∀ c cl' b es,
     step c cl = Some cl' → target c cl ≠ Some b →
     traverse b (heap cl) = Ok es (heap cl) →
     traverse b (heap cl') = Ok es (heap cl')).
Proof.
  intros Hreach.
  destruct (reachable_inv _ _ _ Hreach) as (tr & Hinv).
  pose proof Hinv as (Hmd & _).
  split_and!.
  - intros m other es Hto Hdead Hav.
    destruct (traverse_live _ _ _ _ _ Hmd Hto) as (t & Ht & -> & _).
    rewrite length_entries in Hav.
    destruct (tr !! m) as [t0|] eqn:Htm.
    { destruct (models_live _ _ _ _ Hmd Htm) as (Hm & _). congruence. }
    destruct (copy_ctor_ok _ _ _ _ _ Hmd Htm Ht Hav) as (t' & w1 & Hrun1 & Hmd' & He & _).
    assert (m ≠ other) by (intros ->; congruence).
    exists w1. split_and!; [exact Hrun1| |].
    + rewrite (traverse_ok _ _ m t' Hmd'); [by rewrite He|apply lookup_insert_eq].
    + apply (traverse_ok _ _ other t Hmd'). by rewrite lookup_insert_ne.
  - intros m other es Hto Hlive Hav.
    destruct (traverse_live _ _ _ _ _ Hmd Hto) as (t & Ht & -> & _).
    rewrite length_entries in Hav.
    destruct (decide (m = other)) as [->|Hne].
    { exists (heap cl). rewrite assign_self. done. }
    destruct (tr !! m) as [t0|] eqn:Htm.
    2: { rewrite (md_dom _ _ Hmd _ Htm) in Hlive. by destruct Hlive. }
    destruct (assign_ok _ _ _ _ _ _ Hmd Htm Ht Hne Hav) as (t' & w1 & Hrun1 & Hmd' & He & _).
    exists w1. split_and!; [exact Hrun1| |].
    + rewrite (traverse_ok _ _ m t' Hmd'); [by rewrite He|apply lookup_insert_eq].
    + apply (traverse_ok _ _ other t Hmd'). by rewrite lookup_insert_ne.
  - intros c cl' b es Hstep Htgt Htb.
    destruct (traverse_live _ _ _ _ _ Hmd Htb) as (t & Ht & -> & _).
    destruct (step_spec _ _ _ _ _ _ Hinv Hstep) as (tr' & (Hmd' & _) & _ & Hfr).
    apply (traverse_ok _ _ b t Hmd'). by rewrite Hfr.
Qed.

(** C9. Assigning a container to itself returns at once: the store after the
    call is the store before it, so no node is destroyed and entries, size
    and tree are what they were. *)
Theorem self_assignment_is_a_no_op (m : positive) w : map_assign m m w = Ok tt w.
Proof. apply assign_self. Qed.

(** C10. On a default-constructed cursor [++], [--] and [*] throw
    [invalid_iterator], for [iterator] and for [const_iterator]; and [*] on
    any cursor that holds no node, the end cursor of a container among them,
    throws it too.  The store is left as it was. *)
Theorem ownerless_cursor_operations_throw w :
  it_incr it_default w = Throw invalid_iterator w ∧
  it_decr it_default w = Throw invalid_iterator w ∧
  it_deref it_default w = Throw invalid_iterator w ∧
  cit_incr it_default w = Throw invalid_iterator w ∧
  cit_decr it_default w = Throw invalid_iterator w ∧
  cit_deref it_default w = Throw invalid_iterator w ∧
  (∀ o, it_deref (mkIt None o) w = Throw invalid_iterator w) ∧
  (∀ o, cit_deref (mkIt None o) w = Throw invalid_iterator w).
Proof. by split_and!. Qed.

End Claims.

(** * More of the public interface *)
Section More.
Context {K V : Type}.
Variable cmp : K → K → bool.
Variable default_value : V.
Implicit Types (w : @world K V) (tr : gmap positive (@tree K V)).
Implicit Types (t l r : @tree K V) (cl : @client K V).
Local Abbreviation reachable := (reachable cmp default_value).
Local Abbreviation step := (step cmp default_value).

Lemma walk_model cl m es :
  reachable cl → traverse m (heap cl) = Ok es (heap cl) →
  ∃ tr t, inv cmp tr cl ∧ tr !! m = Some t ∧ es = entries t.
Proof.
  intros Hreach Htrav. destruct (reachable_inv _ _ _ Hreach) as (tr & Hinv).
  destruct (traverse_live _ _ _ _ _ (proj1 Hinv) Htrav) as (t & Ht & -> & _). eauto.
Qed.

Lemma entries_nil t : entries t = [] → t = E.
Proof. destruct t as [|l a kv hg r]; [done|]. simpl. by destruct (entries l). Qed.

Lemma size_nodes_remove (h h' : gmap positive (@Node K V)) (l0 : list positive) :
  NoDup l0 → (∀ a, a ∈ l0 → is_Some (h !! a)) →
  dom h' = dom h ∖ list_to_set l0 →
  (size h' + length l0 = size h)%nat.
Proof.
  intros Hnd Hin Hd. rewrite <- !size_dom, Hd.
  assert (Hsub : list_to_set l0 ⊆ dom h).
  { intros a Ha. apply elem_of_list_to_set in Ha. by apply elem_of_dom, Hin. }
  assert (Hsz : size (list_to_set (C:=gset positive) l0) = length l0)
    by (by apply size_list_to_set).
  pose proof (size_union_alt (list_to_set l0) (dom h)) as Hu.
  assert (Heq : list_to_set l0 ∪ dom h = dom h) by set_solver.
  rewrite Heq in Hu. lia.
Qed.

(** X1. [size()] is the number of entries the walk lists and [empty()] tells
    whether there is none: [nodeCount] has kept step with the tree. *)
Theorem size_counts_the_walk cl m es :
  reachable cl → traverse m (heap cl) = Ok es (heap cl) →
  size_ m (heap cl) = Ok (Z.of_nat (length es)) (heap cl) ∧
  empty m (heap cl) = Ok (match es with [] => true | _ => false end) (heap cl).
Proof.
  intros Hreach Htrav.
  destruct (walk_model _ _ _ Hreach Htrav) as (tr & t & (Hmd & _) & Ht & ->).
  split.
  - by rewrite (size_ok _ _ _ _ Hmd Ht), length_entries.
  - rewrite (empty_ok _ _ _ _ Hmd Ht). f_equal.
    destruct t as [|l a kv hg r]; [done|]. simpl. by destruct (entries l).
Qed.

(** X2. [count] is 1 and [find] returns a cursor to the entry when an entry
    with an equivalent key is stored; otherwise [count] is 0 and [find]
    returns the end cursor.  The comparator is a strict weak ordering. *)
Theorem count_and_find cl m es key :
  strict_weak cmp → reachable cl → traverse m (heap cl) = Ok es (heap cl) →
  (∀ kv, kv ∈ es → keyEq cmp key kv.1 = true →
     count cmp m key (heap cl) = Ok 1 (heap cl) ∧
     ∃ it, find cmp m key (heap cl) = Ok it (heap cl) ∧
           it_deref it (heap cl) = Ok kv (heap cl)) ∧
  ((∀ kv, kv ∈ es → keyEq cmp key kv.1 = false) →
     count cmp m key (heap cl) = Ok 0 (heap cl) ∧
     ∃ e, end_ m (heap cl) = Ok e (heap cl) ∧ find cmp m key (heap cl) = Ok e (heap cl)).
Proof.
  intros Hsw Hreach Htrav. pose proof (sw_trans _ Hsw) as Htr.
  destruct (walk_model _ _ _ Hreach Htrav) as (tr & t & (Hmd & _ & Hsort) & Ht & ->).
  destruct (models_live _ _ _ _ Hmd Ht) as (_ & _ & Hn).
  pose proof (Hsort Htr m t Ht) as Hs.
  pose proof (find_t_spec cmp Htr key t Hs Hn) as Hspec.
  rewrite (count_ok _ _ _ _ _ key Hmd Ht), (find_ok _ _ _ _ _ key Hmd Ht).
  split.
  - intros kv Hin Heq. destruct (find_t cmp key t) as [a|] eqn:Hf.
    2: { rewrite (Hspec kv Hin) in Heq. done. }
    destruct Hspec as (kv' & Hl & Hin' & Ha & Hk).
    assert (kv = kv') as <- by (by eapply (sorted_equiv_unique cmp Hsw key (entries t))).
    split; [done|]. eexists. split; [done|]. by eapply deref_ok.
  - intros Habs. destruct (find_t cmp key t) as [a|] eqn:Hf.
    { destruct (find_t_in cmp _ _ _ Hn Hf) as (_ & kv & Hl & Hk).
      rewrite (Habs kv (lookup_t_entries _ _ _ Hl)) in Hk. done. }
    split; [done|]. eexists. split; [by eapply end_ok|done].
Qed.

(** X3. [clear] leaves the map empty and deletes exactly its nodes: the store
    holds as many nodes fewer as the walk listed entries. *)
Theorem clear_empties_and_frees cl m es :
  reachable cl → traverse m (heap cl) = Ok es (heap cl) →
  ∃ w', clear m (heap cl) = Ok tt w' ∧
        traverse m w' = Ok [] w' ∧ size_ m w' = Ok 0 w' ∧ empty m w' = Ok true w' ∧
        (size (nodes w') + length es = size (nodes (heap cl)))%nat.
Proof.
  intros Hreach Htrav.
  destruct (walk_model _ _ _ Hreach Htrav) as (tr & t & (Hmd & _) & Ht & ->).
  destruct (models_live _ _ _ _ Hmd Ht) as (_ & Hr & Hn).
  destruct (clear_ok _ _ _ _ Hmd Ht) as (w' & Hrun & Hmd' & _ & _ & _ & _ & Hdom).
  assert (Ht' : (<[m := E]> tr) !! m = Some E) by apply lookup_insert_eq.
  exists w'. split_and!; [done| | | |].
  - by apply (traverse_ok _ _ m E Hmd').
  - by apply (size_ok _ _ m E Hmd').
  - by apply (empty_ok _ _ m E Hmd').
  - rewrite length_entries. apply size_nodes_remove; [done| |done].
    intros a Ha. by eapply rep_in_dom.
Qed.

(** X4. The destructor deletes exactly the nodes of its map and ends the
    lifetime of the map object; a member call on it afterwards is undefined
    behaviour. *)
Theorem destructor_frees_the_map cl m es :
  reachable cl → traverse m (heap cl) = Ok es (heap cl) →
  ∃ w', map_dtor m (heap cl) = Ok tt w' ∧
        maps w' = delete m (maps (heap cl)) ∧
        (size (nodes w') + length es = size (nodes (heap cl)))%nat ∧
        size_ m w' = Fault ∧ traverse m w' = Fault.
Proof.
  intros Hreach Htrav.
  destruct (walk_model _ _ _ Hreach Htrav) as (tr & t & (Hmd & _) & Ht & ->).
  destruct (models_live _ _ _ _ Hmd Ht) as (_ & Hr & Hn).
  destruct (dtor_ok _ _ _ _ Hmd Ht) as (w' & Hrun & Hmd' & _ & _ & _ & _ & Hdom & Hmaps).
  assert (Hdead : maps w' !! m = None) by (rewrite Hmaps; apply lookup_delete_eq).
  exists w'. split_and!; [done|done| | |].
  - rewrite length_entries. apply size_nodes_remove; [done| |done].
    intros a Ha. by eapply rep_in_dom.
  - by apply dead_size.
  - unfold traverse, bind. by rewrite (dead_begin _ _ Hdead).
Qed.

(** X5. A default-constructed map is empty, allocates nothing, and its begin
    cursor is its end cursor. *)
Theorem default_constructed_map_is_empty cl m :
  reachable cl → maps (heap cl) !! m = None →
  ∃ w', map_ctor m (heap cl) = Ok tt w' ∧ nodes w' = nodes (heap cl) ∧
        traverse m w' = Ok [] w' ∧ size_ m w' = Ok 0 w' ∧ empty m w' = Ok true w' ∧
        begin_ m w' = Ok (mkIt None (Some m)) w' ∧ end_ m w' = Ok (mkIt None (Some m)) w'.
Proof.
  intros Hreach Hm. destruct (reachable_inv _ _ _ Hreach) as (tr & Hmd & _).
  assert (Ht : tr !! m = None).
  { destruct (tr !! m) as [t|] eqn:Ht; [|done].
    destruct (models_live _ _ _ _ Hmd Ht) as (Hm' & _). congruence. }
  destruct (ctor_ok _ _ _ Hmd Ht) as (w' & Hrun & Hmd' & Hn & _).
  assert (Ht' : (<[m := E]> tr) !! m = Some E) by apply lookup_insert_eq.
  exists w'. split_and!; [done|done| | | | |].
  - by apply (traverse_ok _ _ m E Hmd').
  - by apply (size_ok _ _ m E Hmd').
  - by apply (empty_ok _ _ m E Hmd').
  - by apply (begin_ok _ _ m E Hmd').
  - by apply (end_ok _ _ m E Hmd').
Qed.

(** X6. [begin()] refers to the first entry of the walk, whose key is smaller
    than every other key; on an empty map it is the end cursor.  The
    comparator is transitive. *)
Theorem begin_is_the_minimum cl m es :
  cmp_transitive cmp → reachable cl → traverse m (heap cl) = Ok es (heap cl) →
  ∃ b, begin_ m (heap cl) = Ok b (heap cl) ∧
       match es with
       | [] => end_ m (heap cl) = Ok b (heap cl)
       | kv :: rest =>
           it_deref b (heap cl) = Ok kv (heap cl) ∧
           ∀ x, x ∈ rest → cmp kv.1 x.1 = true
       end.
Proof.
  intros Htr Hreach Htrav.
  destruct (walk_model _ _ _ Hreach Htrav) as (tr & t & (Hmd & _ & Hsort) & Ht & ->).
  destruct (models_live _ _ _ _ Hmd Ht) as (_ & _ & Hn).
  pose proof (Hsort Htr m t Ht) as Hs. unfold sorted in Hs.
  rewrite (begin_ok _ _ _ _ Hmd Ht). eexists. split; [done|].
  rewrite <- items_addrs, <- items_entries in *.
  destruct (items t) as [|[a kv] rest] eqn:Hit; simpl.
  - by eapply end_ok.
  - split.
    + eapply deref_ok; [done|done|done|]. apply lookup_t_items.
      * by rewrite <- items_addrs, Hit.
      * rewrite Hit. apply elem_of_cons. by left.
    + simpl in Hs. apply StronglySorted_cons in Hs as (Hlt & _).
      rewrite Forall_forall in Hlt. intros x Hx. apply Hlt.
      by apply list_elem_of_fmap_2.
Qed.

Lemma next_in_prev_in (l0 : list positive) a b :
  NoDup l0 → next_in l0 a = Some b → prev_in l0 b = Some a.
Proof.
  induction l0 as [|x rest IH]; simpl; [done|].
  intros Hnd. apply NoDup_cons in Hnd as (Hx & Hnd).
  destruct (decide (x = a)) as [->|Hne].
  - destruct rest as [|y rest']; simpl; [done|]. intros [= ->]. by rewrite decide_True.
  - intros Hnext. destruct rest as [|y rest']; [done|].
    destruct (decide (y = b)) as [->|Hyb].
    + exfalso. simpl in Hnext. destruct (decide (b = a)) as [->|Hba].
      * destruct rest' as [|z rest'']; simpl in Hnext; [done|]. injection Hnext as ->.
        apply NoDup_cons in Hnd as (Hin & _). apply Hin. apply elem_of_cons. by left.
      * apply next_in_elem in Hnext. apply NoDup_cons in Hnd as (Hin & _). done.
    + by apply IH.
Qed.

Lemma prev_in_next_in (l0 : list positive) a b :
  NoDup l0 → prev_in l0 b = Some a → next_in l0 a = Some b.
Proof.
  induction l0 as [|x rest IH]; simpl; [done|].
  intros Hnd. apply NoDup_cons in Hnd as (Hx & Hnd).
  destruct rest as [|y rest']; [done|].
  destruct (decide (y = b)) as [->|Hyb].
  - intros [= ->]. by rewrite decide_True.
  - intros Hprev. pose proof (prev_in_elem _ _ _ Hprev) as Hin.
    rewrite decide_False by (intros ->; done). by apply IH.
Qed.

Lemma next_in_last (l0 : list positive) b :
  NoDup l0 → last l0 = Some b → next_in l0 b = None.
Proof.
  intros Hnd Hlast. apply last_Some in Hlast as (l' & ->).
  apply NoDup_app in Hnd as (_ & Hd & _).
  rewrite next_in_app; [done|]. intros Hin. apply (Hd _ Hin). apply elem_of_cons. by left.
Qed.

Lemma cursor_of_incr tr w it it' w' :
  models tr w → cursor_ok tr w it → it_incr it w = Ok it' w' →
  ∃ o a t, it = mkIt (Some a) (Some o) ∧ tr !! o = Some t ∧ a ∈ addrs t ∧
           it' = mkIt (next_in (addrs t) a) (Some o) ∧ w' = w.
Proof.
  intros Hmd Hc Hrun. destruct it as [p ow]. destruct ow as [o|].
  2: { by rewrite incr_ownerless in Hrun. }
  destruct p as [a|].
  2: { by rewrite incr_end in Hrun. }
  destruct Hc as (o' & Ho' & [(Hdead & _)|(t & Ht & Ha)]); simpl in *.
  { by rewrite (stale_incr _ (mkIt (Some a) (Some o)) o a eq_refl eq_refl Hdead) in Hrun. }
  injection Ho' as <-.
  rewrite (incr_ok tr w (mkIt (Some a) (Some o)) o a t Hmd eq_refl eq_refl Ht Ha) in Hrun.
  injection Hrun as <- <-. by exists o, a, t.
Qed.

(** X7. [--] undoes [++] and [++] undoes [--]: a cursor moved forward to a
    node and then back, or back and then forward, is the cursor it was. *)
Theorem increment_and_decrement_are_inverse cl i it it' w' :
  reachable cl → issued cl !! i = Some it →
  (it_incr it (heap cl) = Ok it' w' → nodePtr it' ≠ None → it_decr it' w' = Ok it w') ∧
  (it_decr it (heap cl) = Ok it' w' → it_incr it' w' = Ok it w').
Proof.
  intros Hreach Hi. destruct (reachable_inv _ _ _ Hreach) as (tr & Hmd & Hcs & _).
  pose proof (Forall_lookup_1 _ _ _ _ Hcs Hi) as Hc.
  split.
  - intros Hrun Hnn.
    destruct (cursor_of_incr _ _ _ _ _ Hmd Hc Hrun) as (o & a & t & -> & Ht & Ha & -> & ->).
    destruct (models_live _ _ _ _ Hmd Ht) as (_ & _ & Hn).
    destruct (next_in (addrs t) a) as [b|] eqn:Hb; [|done].
    rewrite (decr_ok tr _ (mkIt (Some b) (Some o)) o b t Hmd eq_refl eq_refl Ht (next_in_elem _ _ _ Hb)).
    by rewrite (next_in_prev_in _ _ _ Hn Hb).
  - intros Hrun. destruct it as [p ow]. destruct ow as [o|].
    2: { by rewrite decr_ownerless in Hrun. }
    destruct p as [a|].
    + destruct Hc as (o' & Ho' & [(Hdead & _)|(t & Ht & Ha)]); simpl in *.
      { by rewrite (stale_decr _ (mkIt (Some a) (Some o)) o a eq_refl eq_refl Hdead) in Hrun. }
      injection Ho' as <-.
      destruct (models_live _ _ _ _ Hmd Ht) as (_ & _ & Hn).
      rewrite (decr_ok tr _ (mkIt (Some a) (Some o)) o a t Hmd eq_refl eq_refl Ht Ha) in Hrun.
      destruct (prev_in (addrs t) a) as [b|] eqn:Hb; [|done].
      injection Hrun as <- <-.
      rewrite (incr_ok tr _ (mkIt (Some b) (Some o)) o b t Hmd eq_refl eq_refl Ht (prev_in_elem _ _ _ Hb)).
      by rewrite (prev_in_next_in _ _ _ Hn Hb).
    + destruct (tr !! o) as [t|] eqn:Ht.
      2: { by rewrite (dead_decr _ (mkIt None (Some o)) o eq_refl (md_dom _ _ Hmd _ Ht)) in Hrun. }
      destruct (models_live _ _ _ _ Hmd Ht) as (_ & _ & Hn).
      rewrite (decr_end tr _ (mkIt None (Some o)) o t Hmd eq_refl eq_refl Ht) in Hrun.
      destruct (last (addrs t)) as [b|] eqn:Hb; [|done].
      injection Hrun as <- <-.
      rewrite (incr_ok tr _ (mkIt (Some b) (Some o)) o b t Hmd eq_refl eq_refl Ht (last_elem _ _ Hb)).
      by rewrite (next_in_last _ _ Hn Hb).
Qed.

Lemma cursor_deref_lookup tr w it kv w' :
  models tr w → cursor_ok tr w it → it_deref it w = Ok kv w' →
  ∃ o a t, nodePtr it = Some a ∧ owner it = Some o ∧ tr !! o = Some t ∧
           lookup_t a t = Some kv ∧ w' = w.
Proof.
  intros Hmd Hc Hrun. unfold cursor_ok in Hc.
  destruct (nodePtr it) as [a|] eqn:Hp.
  2: { by rewrite deref_none in Hrun. }
  destruct Hc as (o & Ho & [(Hdead & _)|(t & Ht & Ha)]).
  { by rewrite (stale_deref _ _ a Hp Hdead) in Hrun. }
  destruct (lookup_t_in _ _ Ha) as (kv0 & Hl).
  rewrite (deref_ok tr w it o a t kv0 Hmd Hp Ht Hl) in Hrun. injection Hrun as <- <-.
  by exists o, a, t.
Qed.

Lemma sorted_not_equiv (es1 es2 : list (K * V)) kv x :
  StronglySorted (lt cmp) (es1 ++ kv :: es2).*1 → x ∈ es1 ++ es2 →
  keyEq cmp kv.1 x.1 = false.
Proof.
  rewrite fmap_app, fmap_cons, StronglySorted_app. intros (Hlr & _ & Hs) Hx.
  apply StronglySorted_cons in Hs as (Hk & _). rewrite Forall_forall in Hk.
  unfold keyEq. apply elem_of_app in Hx as [Hx|Hx].
  - assert (cmp x.1 kv.1 = true) as ->.
    { apply Hlr; [by apply list_elem_of_fmap_2|]. apply elem_of_cons. by left. }
    by rewrite andb_false_r.
  - assert (cmp kv.1 x.1 = true) as -> by (apply Hk; by apply list_elem_of_fmap_2).
    done.
Qed.

(** X8. After an insertion that returned [true], [find] of the key returns a
    cursor to the inserted entry, [at] returns its mapped value and [count]
    is 1.  The comparator is a strict weak ordering. *)
Theorem find_after_insert cl m v it w' :
  strict_weak cmp → reachable cl →
  insert cmp m v (heap cl) = Ok (it, true) w' →
  find cmp m v.1 w' = Ok it w' ∧ it_deref it w' = Ok v w' ∧
  at_ cmp m v.1 w' = Ok v.2 w' ∧ count cmp m v.1 w' = Ok 1 w'.
Proof.
  intros Hsw Hreach Hrun. pose proof (sw_trans _ Hsw) as Htr.
  destruct (reachable_inv _ _ _ Hreach) as (tr & Hmd & _ & Hsort).
  destruct (tr !! m) as [t|] eqn:Ht.
  2: { by rewrite (dead_insert _ _ _ v (md_dom _ _ Hmd _ Ht)) in Hrun. }
  destruct (descend_t cmp v.1 t []) as [b|c] eqn:Hd.
  { by rewrite (insert_found _ _ _ _ _ _ _ Hmd Ht Hd) in Hrun. }
  destruct (avail (heap cl)) as [|k] eqn:Hav.
  { by rewrite (insert_bad_alloc _ _ _ _ _ _ _ Hmd Ht Hd Hav) in Hrun. }
  destruct (insert_fresh cmp _ _ _ _ v c Hmd Ht Hd ltac:(lia))
    as (t' & w1 & Hrun1 & Hmd' & _ & _ & Hit & Hit' & _).
  rewrite Hrun1 in Hrun. injection Hrun as <- <-.
  assert (Ht' : (<[m := t']> tr) !! m = Some t') by apply lookup_insert_eq.
  destruct (models_live _ _ _ _ Hmd' Ht') as (_ & _ & Hn').
  assert (Hs' : sorted cmp t').
  { eapply sorted_insert_items; [done| |done|done]. by eapply Hsort. }
  assert (Hin : (next (heap cl), v) ∈ items t').
  { rewrite Hit'. apply elem_of_app. right. apply elem_of_cons. by left. }
  assert (Hl : lookup_t (next (heap cl)) t' = Some v) by (by apply lookup_t_items).
  assert (Hf : find_t cmp v.1 t' = Some (next (heap cl))).
  { pose proof (find_t_spec cmp Htr v.1 t' Hs' Hn') as Hspec.
    destruct (find_t cmp v.1 t') as [a|] eqn:Hf.
    - destruct Hspec as (kv' & Hl' & Hin' & Ha & Hk). f_equal.
      destruct (decide (a = next (heap cl))) as [->|Hne]; [done|exfalso].
      apply lookup_t_Some_items in Hl'. rewrite Hit' in Hl'.
      assert (Hx : kv' ∈ (items_before c).*2 ++ (items_after c).*2).
      { apply elem_of_app in Hl' as [Hl'|Hl'].
        - apply elem_of_app. left. by apply (list_elem_of_fmap_2 snd) in Hl'.
        - apply elem_of_cons in Hl' as [[= ? ?]|Hl']; [done|].
          apply elem_of_app. right. by apply (list_elem_of_fmap_2 snd) in Hl'. }
      unfold sorted in Hs'. rewrite <- items_entries, Hit', fmap_app, fmap_cons in Hs'.
      simpl in Hs'. rewrite (sorted_not_equiv _ _ _ _ Hs' Hx) in Hk. done.
    - exfalso. specialize (Hspec v (lookup_t_entries _ _ _ Hl)).
      unfold keyEq in Hspec. rewrite (sw_irrefl _ Hsw) in Hspec. done. }
  split_and!.
  - by rewrite (find_ok _ _ _ _ _ v.1 Hmd' Ht'), Hf.
  - by eapply deref_ok.
  - by eapply (at_ok cmp _ _ m t' v.1 _ v).
  - by rewrite (count_ok _ _ _ _ _ v.1 Hmd' Ht'), Hf.
Qed.

(** X9. After [erase] through a cursor, no entry with the key the cursor
    referred to is left: [count] is 0, [at] throws and [find] returns the end
    cursor.  The comparator is transitive. *)
Theorem key_is_gone_after_erase cl m i pos kv w' :
  cmp_transitive cmp → reachable cl → issued cl !! i = Some pos →
  it_deref pos (heap cl) = Ok kv (heap cl) →
  erase m pos (heap cl) = Ok tt w' →
  count cmp m kv.1 w' = Ok 0 w' ∧
  at_ cmp m kv.1 w' = Throw index_out_of_bound w' ∧
  find cmp m kv.1 w' = Ok (mkIt None (Some m)) w'.
Proof.
  intros Htr Hreach Hi Hderef Hrun.
  destruct (reachable_inv _ _ _ Hreach) as (tr & Hmd & Hcs & Hsort).
  pose proof (Forall_lookup_1 _ _ _ _ Hcs Hi) as Hc.
  destruct (cursor_deref_lookup _ _ _ _ _ Hmd Hc Hderef) as (o & a & t & Hp & Ho & Ht & Hl & _).
  destruct (decide (owner pos = Some m)) as [Hom|Hom].
  2: { by rewrite (erase_foreign _ _ _ Hom) in Hrun. }
  rewrite Ho in Hom. injection Hom as ->.
  destruct (models_live _ _ _ _ Hmd Ht) as (_ & _ & Hn).
  destruct (erase_ok _ _ _ _ _ _ Hmd Ht Ho Hp (lookup_t_addrs _ _ _ Hl))
    as (t' & w1 & Hrun1 & Hmd' & _ & _ & _ & (is1 & kv1 & is2 & Hit & Hit') & _).
  rewrite Hrun1 in Hrun. injection Hrun as <-.
  assert (kv1 = kv) as ->.
  { assert (Hin : (a, kv1) ∈ items t).
    { rewrite Hit. apply elem_of_app. right. apply elem_of_cons. by left. }
    apply (lookup_t_items _ _ _ Hn) in Hin. congruence. }
  assert (Ht' : (<[m := t']> tr) !! m = Some t') by apply lookup_insert_eq.
  destruct (models_live _ _ _ _ Hmd' Ht') as (_ & _ & Hn').
  pose proof (Hsort Htr m t Ht) as Hs. unfold sorted in Hs.
  rewrite <- items_entries, Hit, fmap_app, fmap_cons in Hs. simpl in Hs.
  assert (Hf : find_t cmp kv.1 t' = None).
  { destruct (find_t cmp kv.1 t') as [b|] eqn:Hf; [exfalso|done].
    destruct (find_t_in cmp _ _ _ Hn' Hf) as (_ & x & Hlx & Hk).
    apply lookup_t_entries in Hlx. rewrite (entries_of_items _ _ _ Hit') in Hlx.
    by rewrite (sorted_not_equiv _ _ _ _ Hs Hlx) in Hk. }
  split_and!.
  - by rewrite (count_ok _ _ _ _ _ kv.1 Hmd' Ht'), Hf.
  - by eapply at_missing.
  - by rewrite (find_ok _ _ _ _ _ kv.1 Hmd' Ht'), Hf.
Qed.

Lemma step_keeps_entry tr tr' w w' it kv :
  models tr w → models tr' w' → cursor_ok tr w it →
  it_deref it w = Ok kv w →
  (∀ o t a, tr !! o = Some t → nodePtr it = Some a → owner it = Some o →
            lookup_t a t = Some kv →
            ∃ t', tr' !! o = Some t' ∧ (a, kv) ∈ items t') →
  it_deref it w' = Ok kv w'.
Proof.
  intros Hmd Hmd' Hc Hderef Hkeep.
  destruct (cursor_deref_lookup _ _ _ _ _ Hmd Hc Hderef) as (o & a & t & Hp & Ho & Ht & Hl & _).
  destruct (Hkeep o t a Ht Hp Ho Hl) as (t' & Ht' & Hin).
  destruct (models_live _ _ _ _ Hmd' Ht') as (_ & _ & Hn').
  eapply deref_ok; [done|done|done|]. by apply lookup_t_items.
Qed.

(** X10. [erase] unlinks one node and moves no entry to another node: a
    cursor to any other node, of this map or another, refers after the call
    to the entry it referred to before. *)
Theorem erase_keeps_other_cursors cl m i j pos it kv w' :
  reachable cl → issued cl !! i = Some pos → issued cl !! j = Some it →
  nodePtr it ≠ nodePtr pos →
  it_deref it (heap cl) = Ok kv (heap cl) →
  erase m pos (heap cl) = Ok tt w' →
  it_deref it w' = Ok kv w'.
Proof.
  intros Hreach Hi Hj Hne Hderef Hrun.
  destruct (reachable_inv _ _ _ Hreach) as (tr & Hmd & Hcs & _).
  pose proof (Forall_lookup_1 _ _ _ _ Hcs Hi) as Hcp.
  pose proof (Forall_lookup_1 _ _ _ _ Hcs Hj) as Hci.
  destruct (decide (owner pos = Some m)) as [Hom|Hom].
  2: { by rewrite (erase_foreign _ _ _ Hom) in Hrun. }
  pose proof Hcp as Hcp'. unfold cursor_ok in Hcp'.
  destruct (nodePtr pos) as [z|] eqn:Hp.
  2: { by rewrite (erase_end _ _ _ Hp) in Hrun. }
  destruct Hcp' as (o & Ho & [(Hdead & _)|(t & Ht & Hz)]).
  { by rewrite (stale_erase _ _ _ _ Hom Hp Hdead) in Hrun. }
  rewrite Hom in Ho. injection Ho as <-.
  destruct (erase_ok _ _ _ _ _ _ Hmd Ht Hom Hp Hz)
    as (t' & w1 & Hrun1 & Hmd' & _ & _ & _ & (is1 & kvz & is2 & Hit & Hit') & _).
  rewrite Hrun1 in Hrun. injection Hrun as <-.
  eapply (step_keeps_entry tr _ _ _ it kv Hmd Hmd' Hci Hderef).
  intros o t0 a Hto Hpa Hoa Hl. destruct (decide (o = m)) as [->|Hom'].
  - rewrite Ht in Hto. injection Hto as <-. exists t'. split; [apply lookup_insert_eq|].
    apply lookup_t_Some_items in Hl. rewrite Hit in Hl. rewrite Hit'.
    apply elem_of_app in Hl as [Hl|Hl]; [apply elem_of_app; by left|].
    apply elem_of_cons in Hl as [[= -> ->]|Hl]; [congruence|].
    apply elem_of_app. by right.
  - exists t0. split; [by rewrite lookup_insert_ne|]. by apply lookup_t_Some_items.
Qed.

(** X11. [insert] changes links and heights only: whatever it returns,
    every cursor refers afterwards to the entry it referred to before,
    rotations or not. *)
Theorem insert_keeps_cursors cl m v j it kv res w' :
  reachable cl → issued cl !! j = Some it →
  it_deref it (heap cl) = Ok kv (heap cl) →
  insert cmp m v (heap cl) = Ok res w' →
  it_deref it w' = Ok kv w'.
Proof.
  intros Hreach Hj Hderef Hrun.
  destruct (reachable_inv _ _ _ Hreach) as (tr & Hmd & Hcs & _).
  pose proof (Forall_lookup_1 _ _ _ _ Hcs Hj) as Hci.
  destruct (tr !! m) as [t|] eqn:Ht.
  2: { by rewrite (dead_insert _ _ _ v (md_dom _ _ Hmd _ Ht)) in Hrun. }
  destruct (descend_t cmp v.1 t []) as [b|c] eqn:Hd.
  { rewrite (insert_found _ _ _ _ _ _ _ Hmd Ht Hd) in Hrun. by injection Hrun as <- <-. }
  destruct (avail (heap cl)) as [|k] eqn:Hav.
  { by rewrite (insert_bad_alloc _ _ _ _ _ _ _ Hmd Ht Hd Hav) in Hrun. }
  destruct (insert_fresh cmp _ _ _ _ v c Hmd Ht Hd ltac:(lia))
    as (t' & w1 & Hrun1 & Hmd' & _ & _ & Hit & Hit' & _).
  rewrite Hrun1 in Hrun. injection Hrun as <- <-.
  eapply (step_keeps_entry tr _ _ _ it kv Hmd Hmd' Hci Hderef).
  intros o t0 a Hto Hpa Hoa Hl. destruct (decide (o = m)) as [->|Hom'].
  - rewrite Ht in Hto. injection Hto as <-. exists t'. split; [apply lookup_insert_eq|].
    apply lookup_t_Some_items in Hl. rewrite Hit in Hl. rewrite Hit'.
    apply elem_of_app in Hl as [Hl|Hl]; [apply elem_of_app; by left|].
    apply elem_of_app. right. apply elem_of_cons. by right.
  - exists t0. split; [by rewrite lookup_insert_ne|]. by apply lookup_t_Some_items.
Qed.

Lemma find_t_set_second key a v t :
  find_t cmp key (set_second a v t) = find_t cmp key t.
Proof.
  induction t as [|l IHl b kv hg r IHr]; simpl; [done|].
  assert ((if decide (b = a) then (kv.1, v) else kv).1 = kv.1) as ->
    by (by destruct (decide (b = a))).
  by rewrite IHl, IHr.
Qed.

(** X12. A write through the reference that [at] returns changes that mapped
    value and nothing else: [at] then returns the written value, the walk
    lists the same keys in the same order, and every entry with another key
    is still there. *)
Theorem write_through_at cl m es key v w' :
  reachable cl → traverse m (heap cl) = Ok es (heap cl) →
  at_assign cmp m key v (heap cl) = Ok tt w' →
  at_ cmp m key w' = Ok v w' ∧
  ∃ es', traverse m w' = Ok es' w' ∧ es'.*1 = es.*1 ∧
         ∀ kv, kv ∈ es → keyEq cmp key kv.1 = false → kv ∈ es'.
Proof.
  intros Hreach Htrav Hrun.
  destruct (walk_model _ _ _ Hreach Htrav) as (tr & t & (Hmd & _) & Ht & ->).
  destruct (models_live _ _ _ _ Hmd Ht) as (_ & _ & Hn).
  destruct (find_t cmp key t) as [a|] eqn:Hf.
  2: { by rewrite (at_assign_missing cmp tr _ m t key v Hmd Ht Hf) in Hrun. }
  destruct (at_assign_ok cmp tr _ m t key a v Hmd Ht Hf) as (w1 & Hrun1 & Hmd' & _).
  rewrite Hrun1 in Hrun. injection Hrun as <-.
  assert (Ht' : (<[m := set_second a v t]> tr) !! m = Some (set_second a v t))
    by apply lookup_insert_eq.
  destruct (find_t_in cmp _ _ _ Hn Hf) as (Ha & kv0 & Hl0 & Hk0).
  split.
  - eapply (at_ok cmp _ _ m _ key a (kv0.1, v)); [done|done|by rewrite find_t_set_second|].
    rewrite lookup_t_set_second, Hl0. simpl. by rewrite decide_True.
  - exists (entries (set_second a v t)). split_and!.
    + by apply traverse_ok with (tr := <[m := set_second a v t]> tr).
    + apply keys_set_second.
    + intros kv Hin Hk. rewrite <- items_entries in Hin |- *.
      apply list_elem_of_fmap in Hin as ([b kv'] & -> & Hin). simpl in *.
      apply list_elem_of_fmap. exists (b, kv'). split; [done|].
      rewrite items_set_second. apply list_elem_of_fmap. exists (b, kv'). split; [|done].
      simpl. rewrite decide_False; [done|]. intros ->.
      apply (lookup_t_items _ _ _ Hn) in Hin. congruence.
Qed.

(** X13. When the free store is exhausted, [insert] of a key that is not
    stored and [operator[]] on such a key throw [bad_alloc] before anything
    is changed. *)
Theorem failed_insert_changes_nothing cl m es v :
  reachable cl → traverse m (heap cl) = Ok es (heap cl) →
  (∀ kv, kv ∈ es → keyEq cmp v.1 kv.1 = false) → avail (heap cl) = O →
  insert cmp m v (heap cl) = Throw bad_alloc (heap cl) ∧
  index cmp default_value m v.1 (heap cl) = Throw bad_alloc (heap cl).
Proof.
  intros Hreach Htrav Habs Hav.
  destruct (walk_model _ _ _ Hreach Htrav) as (tr & t & (Hmd & _) & Ht & ->).
  destruct (models_live _ _ _ _ Hmd Ht) as (_ & _ & Hn).
  destruct (find_t cmp v.1 t) as [a|] eqn:Hf.
  { destruct (find_t_in cmp _ _ _ Hn Hf) as (_ & kv & Hl & Hk).
    rewrite (Habs kv (lookup_t_entries _ _ _ Hl)) in Hk. done. }
  destruct (find_t_None_descend cmp v.1 t Hf) as (c & Hd).
  split.
  - by eapply insert_bad_alloc.
  - by eapply index_bad_alloc.
Qed.

(** X14. A copy construction that runs out of memory throws [bad_alloc] and
    constructs no map, the source keeps its entries, and the nodes cloned
    before the failure are never deleted: every allocation the free store
    still granted has been spent on a node that no map owns. *)
Theorem failed_copy_leaks_its_nodes cl m other es :
  reachable cl → maps (heap cl) !! m = None →
  traverse other (heap cl) = Ok es (heap cl) →
  (avail (heap cl) < length es)%nat →
  ∃ w', map_copy_ctor m other (heap cl) = Throw bad_alloc w' ∧
        maps w' = maps (heap cl) ∧ traverse other w' = Ok es w' ∧
        avail w' = O ∧
        size (nodes w') = (size (nodes (heap cl)) + avail (heap cl))%nat.
Proof.
  intros Hreach Hm Htrav Hlt.
  destruct (walk_model _ _ _ Hreach Htrav) as (tr & t & (Hmd & _) & Ht & ->).
  assert (Htm : tr !! m = None).
  { destruct (tr !! m) as [t0|] eqn:Htm; [|done].
    destruct (models_live _ _ _ _ Hmd Htm) as (Hm' & _). congruence. }
  rewrite length_entries in Hlt.
  destruct (copy_ctor_bad_alloc _ _ _ _ _ Hmd Htm Ht Hlt)
    as (w' & Hrun & Hmd' & _ & Hmaps & Hav & Hsz).
  exists w'. split_and!; [done|done| |done|done]. by apply (traverse_ok _ _ other t Hmd').
Qed.

(** X15. The const member functions and the cursor operations never write:
    whether they return or throw, the store is the one they were called in,
    in any state whatever. *)
Theorem observers_never_write m key (it : iterator) :
  pure (at_ (V:=V) cmp m key) ∧ pure (index_const (V:=V) cmp m key) ∧
  pure (count (V:=V) cmp m key) ∧ pure (find (V:=V) cmp m key) ∧
  pure (size_ (K:=K) (V:=V) m) ∧ pure (empty (K:=K) (V:=V) m) ∧
  pure (begin_ (K:=K) (V:=V) m) ∧ pure (end_ (K:=K) (V:=V) m) ∧
  pure (it_deref (K:=K) (V:=V) it) ∧ pure (it_incr (K:=K) (V:=V) it) ∧
  pure (it_decr (K:=K) (V:=V) it) ∧ pure (traverse (K:=K) (V:=V) m).
Proof.
  split_and!.
  - apply pure_at.
  - apply pure_index_const.
  - apply pure_count.
  - apply pure_find.
  - apply pure_size.
  - apply pure_empty.
  - apply pure_begin.
  - apply pure_end.
  - apply pure_it_deref.
  - apply pure_it_incr.
  - apply pure_it_decr.
  - apply pure_bind; [apply pure_begin|]. intros b.
    apply pure_bind; [apply pure_end|]. intros e.
    apply pure_bind; [apply pure_loop_bound|]. intros fuel.
    revert b. induction fuel as [|f IH]; intros b; simpl.
    + destruct (it_eq b e); [apply pure_ret|apply pure_diverge].
    + destruct (it_eq b e); [apply pure_ret|].
      apply pure_bind; [apply pure_it_deref|]. intros kv.
      apply pure_bind; [apply pure_it_incr|]. intros it'.
      apply pure_bind; [apply IH|]. intros rest. apply pure_ret.
Qed.

End More.

(** * The private helpers, on the heap *)
Section Helpers.
Context {K V : Type}.
Implicit Types (w : @world K V) (h : gmap positive (@Node K V)).
Implicit Types (t l r A B C : @tree K V) (c : list (@frame K V)).

Lemma rep_agree h h' par t a :
  rep h par t → rep h' par t → a ∈ addrs t → h' !! a = h !! a.
Proof.
  revert par. induction t as [|l IHl b kv hg r IHr]; intros par; simpl; [set_solver|].
  intros (Hb & Hl & Hr) (Hb' & Hl' & Hr') Ha.
  apply elem_of_app in Ha as [Ha|Ha]; [by eapply IHl|].
  apply elem_of_cons in Ha as [->|Ha]; [congruence|by eapply IHr].
Qed.

Lemma wp_result {R : Type} (m : @M K V R) w (Q : R → @world K V → Prop) :
  wp m w Q → ∃ a w', m w = Ok a w' ∧ Q a w'.
Proof. done. Qed.

Lemma ints_ht t : ints t → is_int (ht t).
Proof.
  destruct t; simpl; [|tauto]. intros _. unfold is_int, int_min, int_max. lia.
Qed.

Lemma rep_ints h par t :
  rep h par t → (∀ a nd, a ∈ addrs t → h !! a = Some nd → is_int (height nd)) → ints t.
Proof.
  revert par. induction t as [|l IHl b kv hg r IHr]; intros par; simpl; [done|].
  intros (Hb & Hl & Hr) Hint. split_and!.
  - eapply IHl; [exact Hl|]. intros a nd Ha. apply Hint, elem_of_app. by left.
  - apply (Hint b _ ltac:(apply elem_of_app; right; apply elem_of_cons; by left) Hb).
  - eapply IHr; [exact Hr|]. intros a nd Ha. apply Hint, elem_of_app. right.
    apply elem_of_cons. by right.
Qed.

Lemma ints_rep h par t a nd :
  rep h par t → ints t → a ∈ addrs t → h !! a = Some nd → is_int (height nd).
Proof.
  revert par. induction t as [|l IHl b kv hg r IHr]; intros par; simpl; [set_solver|].
  intros (Hb & Hl & Hr) (Il & Ib & Ir) Ha Hnd.
  apply elem_of_app in Ha as [Ha|Ha]; [by eapply IHl|].
  apply elem_of_cons in Ha as [->|Ha]; [|by eapply IHr].
  rewrite Hb in Hnd. by injection Hnd as <-.
Qed.

Lemma ints_plug c s : ints (plug c s) ↔ ints s ∧ ints_ctx c.
Proof.
  revert s. induction c as [|[a kv hg r|l a kv hg] c IH]; intros s; simpl.
  - tauto.
  - rewrite IH. simpl. tauto.
  - rewrite IH. simpl. tauto.
Qed.

(** A call that rearranges the subtree in the hole of [c], touches nothing
    outside the tree and stores only heights that are [int]s, leaves a store
    of [int] heights. *)
Lemma int_store_replug c s s' h h' nx av ms ms' :
  int_store (mkWorld h nx av ms) →
  rep h None (plug c s) → rep h' None (plug c s') →
  addrs s' ≡ₚ addrs s →
  (∀ a, a ∉ addrs s ++ ctx_addrs c → h' !! a = h !! a) →
  (ints s → ints s') →
  int_store (mkWorld h' nx av ms').
Proof.
  unfold int_store. simpl. intros Hint Hrep Hrep' Hperm Hframe Hs a nd Hnd.
  assert (Htree : ints (plug c s)).
  { eapply rep_ints; [exact Hrep|]. intros b nb _ Hb. exact (Hint b nb Hb). }
  apply ints_plug in Htree as (Is & Ic).
  destruct (decide (a ∈ addrs (plug c s'))) as [Ha|Ha].
  - eapply ints_rep; [exact Hrep'| |exact Ha|exact Hnd].
    apply ints_plug. split; [by apply Hs|done].
  - rewrite Hframe in Hnd; [exact (Hint a nd Hnd)|].
    intros Hin. apply Ha. rewrite addrs_plug, Hperm. exact Hin.
Qed.

Lemma ints_rotL A x kvx hx B y kvy hy C :
  ints (T A x kvx hx (T B y kvy hy C)) →
  Z.max (ht A) (ht B) < int_max →
  Z.max (Z.max (ht A) (ht B) + 1) (ht C) < int_max →
  ints (node (node A x kvx B) y kvy C).
Proof.
  simpl. intros (IA & _ & IB & _ & IC) Hux Huy.
  pose proof (ints_ht _ IA). pose proof (ints_ht _ IB). pose proof (ints_ht _ IC).
  unfold is_int in *. split_and!; try done; lia.
Qed.

Lemma ints_rotR A x kvx hx B y kvy hy C :
  ints (T (T A x kvx hx B) y kvy hy C) →
  Z.max (ht B) (ht C) < int_max →
  Z.max (ht A) (Z.max (ht B) (ht C) + 1) < int_max →
  ints (node A x kvx (node B y kvy C)).
Proof.
  simpl. intros ((IA & _ & IB) & _ & IC) Huy Hux.
  pose proof (ints_ht _ IA). pose proof (ints_ht _ IB). pose proof (ints_ht _ IC).
  unfold is_int in *. split_and!; try done; lia.
Qed.

(** X16. [rotateLeft(x)], called on a node [x] with right child [y] inside a
    well-formed tree whose cached heights are [int]s, where neither of the
    two calls of [update] leaves the range of [int], returns [y]; the tree is
    afterwards the same tree with [y] above [x] and the middle subtree [B]
    moved under [x], parent links and the root pointer included; the two
    heights are recomputed and are [int]s again, the in-order sequence of
    nodes is the same, and no node is allocated or freed. *)
Theorem rotateLeft_relinks_in_order this c n A x kvx hx B y kvy hy C w :
  maps w !! this = Some (mkMap (root_ptr (plug c (T A x kvx hx (T B y kvy hy C)))) n) →
  rep (nodes w) None (plug c (T A x kvx hx (T B y kvy hy C))) →
  NoDup (addrs (plug c (T A x kvx hx (T B y kvy hy C)))) →
  int_store w →
  Z.max (ht A) (ht B) < int_max →
  Z.max (Z.max (ht A) (ht B) + 1) (ht C) < int_max →
  ∃ w', rotateLeft this x w = Ok y w' ∧
        rep (nodes w') None (plug c (node (node A x kvx B) y kvy C)) ∧
        maps w' = <[this := mkMap (root_ptr (plug c (node (node A x kvx B) y kvy C))) n]>
                    (maps w) ∧
        items (plug c (node (node A x kvx B) y kvy C))
          = items (plug c (T A x kvx hx (T B y kvy hy C))) ∧
        dom (nodes w') = dom (nodes w) ∧ next w' = next w ∧ avail w' = avail w ∧
        int_store w'.
Proof.
  intros Hm Hrep Hnd Hint Hux Huy. destruct w as [h nx av ms]. simpl in *.
  pose proof Hrep as Hrep0.
  apply rep_plug in Hrep as (Hs & Hc). rewrite root_ptr_plug in Hm. simpl in Hm, Hc.
  assert (Hnd' : NoDup (addrs (T A x kvx hx (T B y kvy hy C)) ++ ctx_addrs c)).
  { eapply NoDup_perm; [|exact Hnd]. apply addrs_plug. }
  destruct (wp_result _ _ _
    (wp_rotateLeft this c n A x kvx hx B y kvy hy C h nx av ms
       (λ res w', res = y ∧ ∃ h', w' = mkWorld h' nx av
                     (<[this := mkMap (ctx_root c (Some y)) n]> ms) ∧
                   rep h' (ctx_par c) (node (node A x kvx B) y kvy C) ∧
                   ctx_rep h' c (Some y) ∧ dom h' = dom h ∧
                   (∀ a, a ∉ addrs (T A x kvx hx (T B y kvy hy C)) ++ ctx_addrs c →
                         h' !! a = h !! a))
       Hm Hs Hc Hnd' ltac:(intros h' H1 H2 H3 H4; split; [done|]; by exists h')))
    as (res & w' & Hrun & -> & h' & -> & Hs' & Hc' & Hd & Hf).
  assert (Hrep' : rep h' None (plug c (node (node A x kvx B) y kvy C)))
    by (apply rep_plug; by split).
  eexists. split_and!; [exact Hrun|exact Hrep'| | |done|done|done|].
  - simpl. by rewrite root_ptr_plug.
  - apply items_plug_congr. unfold node. simpl. by rewrite <- !app_assoc.
  - eapply int_store_replug; [exact Hint|exact Hrep0|exact Hrep'| |exact Hf|].
    + unfold node. simpl. solve_Permutation.
    + intros Is. eapply ints_rotL; [exact Is|exact Hux|exact Huy].
Qed.

(** X17. [rotateRight(y)] is the mirror image: on a well-formed tree of
    [int] heights, with [x] the left child of [y] and neither [update] leaving
    the range of [int], it returns [x] and leaves [x] above [y] with the
    middle subtree [B] moved under [y]. *)
Theorem rotateRight_relinks_in_order this c n A x kvx hx B y kvy hy C w :
  maps w !! this = Some (mkMap (root_ptr (plug c (T (T A x kvx hx B) y kvy hy C))) n) →
  rep (nodes w) None (plug c (T (T A x kvx hx B) y kvy hy C)) →
  NoDup (addrs (plug c (T (T A x kvx hx B) y kvy hy C))) →
  int_store w →
  Z.max (ht B) (ht C) < int_max →
  Z.max (ht A) (Z.max (ht B) (ht C) + 1) < int_max →
  ∃ w', rotateRight this y w = Ok x w' ∧
        rep (nodes w') None (plug c (node A x kvx (node B y kvy C))) ∧
        maps w' = <[this := mkMap (root_ptr (plug c (node A x kvx (node B y kvy C)))) n]>
                    (maps w) ∧
        items (plug c (node A x kvx (node B y kvy C)))
          = items (plug c (T (T A x kvx hx B) y kvy hy C)) ∧
        dom (nodes w') = dom (nodes w) ∧ next w' = next w ∧ avail w' = avail w ∧
        int_store w'.
Proof.
  intros Hm Hrep Hnd Hint Huy Hux. destruct w as [h nx av ms]. simpl in *.
  pose proof Hrep as Hrep0.
  apply rep_plug in Hrep as (Hs & Hc). rewrite root_ptr_plug in Hm. simpl in Hm, Hc.
  assert (Hnd' : NoDup (addrs (T (T A x kvx hx B) y kvy hy C) ++ ctx_addrs c)).
  { eapply NoDup_perm; [|exact Hnd]. apply addrs_plug. }
  destruct (wp_result _ _ _
    (wp_rotateRight this c n A x kvx hx B y kvy hy C h nx av ms
       (λ res w', res = x ∧ ∃ h', w' = mkWorld h' nx av
                     (<[this := mkMap (ctx_root c (Some x)) n]> ms) ∧
                   rep h' (ctx_par c) (node A x kvx (node B y kvy C)) ∧
                   ctx_rep h' c (Some x) ∧ dom h' = dom h ∧
                   (∀ a, a ∉ addrs (T (T A x kvx hx B) y kvy hy C) ++ ctx_addrs c →
                         h' !! a = h !! a))
       Hm Hs Hc Hnd' ltac:(intros h' H1 H2 H3 H4; split; [done|]; by exists h')))
    as (res & w' & Hrun & -> & h' & -> & Hs' & Hc' & Hd & Hf).
  assert (Hrep' : rep h' None (plug c (node A x kvx (node B y kvy C))))
    by (apply rep_plug; by split).
  eexists. split_and!; [exact Hrun|exact Hrep'| | |done|done|done|].
  - simpl. by rewrite root_ptr_plug.
  - apply items_plug_congr. unfold node. simpl. by rewrite <- !app_assoc.
  - eapply int_store_replug; [exact Hint|exact Hrep0|exact Hrep'| |exact Hf|].
    + unfold node. simpl. solve_Permutation.
    + intros Is. eapply ints_rotR; [exact Is|exact Huy|exact Hux].
Qed.

(** X18. [rotateRight] undoes [rotateLeft]: on a subtree whose two cached
    heights are up to date, in a store of [int] heights where the height of
    [x] is below [INT_MAX] (so that the height [y] is given above [x] is an
    [int] too), rotating left at [x] and then right at [y] passes through a
    store of [int] heights and gives back the store the first call started
    from, node for node. *)
Theorem rotations_are_inverse this c n A x kvx hx B y kvy hy C w :
  maps w !! this = Some (mkMap (root_ptr (plug c (T A x kvx hx (T B y kvy hy C)))) n) →
  rep (nodes w) None (plug c (T A x kvx hx (T B y kvy hy C))) →
  NoDup (addrs (plug c (T A x kvx hx (T B y kvy hy C)))) →
  hy = Z.max (ht B) (ht C) + 1 → hx = Z.max (ht A) hy + 1 →
  int_store w → hx < int_max →
  ∃ w1, rotateLeft this x w = Ok y w1 ∧ int_store w1 ∧
        rotateRight this y w1 = Ok x w.
Proof.
  intros Hm Hrep Hnd Hhy Hhx Hint Hlt. destruct w as [h nx av ms]. simpl in *.
  pose proof Hrep as Hrep0.
  apply rep_plug in Hrep as (Hs & Hc). rewrite root_ptr_plug in Hm. simpl in Hm, Hc.
  assert (Hperm : addrs (plug c (T A x kvx hx (T B y kvy hy C)))
                  ≡ₚ addrs (T A x kvx hx (T B y kvy hy C)) ++ ctx_addrs c)
    by apply addrs_plug.
  assert (Hnd' : NoDup (addrs (T A x kvx hx (T B y kvy hy C)) ++ ctx_addrs c)).
  { eapply NoDup_perm; [|exact Hnd]. done. }
  destruct (wp_result _ _ _
    (wp_rotateLeft this c n A x kvx hx B y kvy hy C h nx av ms
       (λ res w', res = y ∧ ∃ h', w' = mkWorld h' nx av
                     (<[this := mkMap (ctx_root c (Some y)) n]> ms) ∧
                   rep h' (ctx_par c) (node (node A x kvx B) y kvy C) ∧
                   ctx_rep h' c (Some y) ∧
                   (∀ a, a ∉ addrs (T A x kvx hx (T B y kvy hy C)) ++ ctx_addrs c →
                         h' !! a = h !! a))
       Hm Hs Hc Hnd' ltac:(intros h' H1 H2 _ H4; split; [done|]; by exists h')))
    as (res & w1 & Hrun1 & -> & h1 & -> & Hs1 & Hc1 & Hf1).
  exists (mkWorld h1 nx av (<[this := mkMap (ctx_root c (Some y)) n]> ms)).
  split; [exact Hrun1|].
  split.
  { eapply int_store_replug;
      [exact Hint|exact Hrep0|apply rep_plug; split; [exact Hs1|exact Hc1]| |exact Hf1|].
    - unfold node. simpl. solve_Permutation.
    - intros Is. pose proof Is as (IA & Ihx & IB & _ & IC). simpl in Is.
      pose proof (ints_ht _ IA). pose proof (ints_ht _ IB). pose proof (ints_ht _ IC).
      eapply ints_rotL; [exact Is|unfold is_int in *; lia..]. }
  assert (Hnd1 : NoDup (addrs (node (node A x kvx B) y kvy C) ++ ctx_addrs c)).
  { eapply NoDup_perm; [|exact Hnd']. unfold node. simpl. solve_Permutation. }
  destruct (wp_result _ _ _
    (wp_rotateRight this c n A x kvx (Z.max (ht A) (ht B) + 1) B y kvy
       (Z.max (ht (node A x kvx B)) (ht C) + 1) C h1 nx av
       (<[this := mkMap (ctx_root c (Some y)) n]> ms)
       (λ res w', res = x ∧ ∃ h', w' = mkWorld h' nx av
                     (<[this := mkMap (ctx_root c (Some x)) n]>
                        (<[this := mkMap (ctx_root c (Some y)) n]> ms)) ∧
                   rep h' (ctx_par c) (node A x kvx (node B y kvy C)) ∧
                   ctx_rep h' c (Some x) ∧
                   (∀ a, a ∉ addrs (node (node A x kvx B) y kvy C) ++ ctx_addrs c →
                         h' !! a = h1 !! a))
       ltac:(apply lookup_insert_eq) Hs1 Hc1 Hnd1
       ltac:(intros h' H1 H2 _ H4; split; [done|]; by exists h')))
    as (res & w2 & Hrun2 & -> & h2 & -> & Hs2 & Hc2 & Hf2).
  rewrite Hrun2. f_equal.
  assert (Hback : node A x kvx (node B y kvy C) = T A x kvx hx (T B y kvy hy C)).
  { unfold node. simpl. by rewrite <- Hhy, <- Hhx. }
  rewrite Hback in Hs2.
  assert (Hrep2 : rep h2 None (plug c (T A x kvx hx (T B y kvy hy C))))
    by (apply rep_plug; by split).
  f_equal.
  - apply map_eq. intros a.
    destruct (decide (a ∈ addrs (plug c (T A x kvx hx (T B y kvy hy C))))) as [Ha|Ha].
    + by eapply rep_agree.
    + rewrite Hperm in Ha. rewrite Hf2, Hf1; [done|done|].
      eapply not_elem_of_perm; [|exact Ha]. unfold node. simpl. solve_Permutation.
  - rewrite insert_insert_eq. by apply insert_id.
Qed.

End Helpers.

(** * The tree behind a map *)
Section Shape.
Context {K V : Type}.
Variable cmp : K → K → bool.
Variable default_value : V.
Implicit Types (w : @world K V) (tr : gmap positive (@tree K V)).
Implicit Types (t l r : @tree K V) (cl : @client K V).
Implicit Types (h : gmap positive (@Node K V)).
Local Abbreviation reachable := (reachable cmp default_value).
Local Abbreviation step := (step cmp default_value).

(** X19. No two entries of a map have equivalent keys: of any two entries
    the walk lists, the earlier has the smaller key.  The comparator is
    transitive. *)
Theorem keys_are_unique cl m es i j x y :
  cmp_transitive cmp → reachable cl → traverse m (heap cl) = Ok es (heap cl) →
  (i < j)%nat → es !! i = Some x → es !! j = Some y →
  cmp x.1 y.1 = true ∧ keyEq cmp x.1 y.1 = false ∧ keyEq cmp y.1 x.1 = false.
Proof.
  intros Htr Hreach Htrav Hij Hi Hj.
  destruct (walk_model _ _ _ _ _ Hreach Htrav) as (tr & t & (Hmd & _ & Hsort) & Ht & ->).
  pose proof (Hsort Htr m t Ht) as Hs. unfold sorted in Hs.
  rewrite <- (take_drop_middle _ _ _ Hj), fmap_app, fmap_cons in Hs.
  assert (Hx : x ∈ take j (entries t)) by (apply elem_of_take; eauto).
  assert (Hlt : cmp x.1 y.1 = true).
  { eapply (StronglySorted_app_1_elem_of _ _ _ _ _ Hs).
    - by apply list_elem_of_fmap_2.
    - apply elem_of_cons. by left. }
  unfold keyEq. rewrite Hlt. by rewrite andb_false_r.
Qed.

Lemma rep_child_links h par t a nd :
  rep h par t → a ∈ addrs t → h !! a = Some nd →
  (∀ x, left nd = Some x → x ∈ addrs t ∧ ∃ nx, h !! x = Some nx ∧ parent nx = Some a) ∧
  (∀ x, right nd = Some x → x ∈ addrs t ∧ ∃ nx, h !! x = Some nx ∧ parent nx = Some a).
Proof.
  revert par. induction t as [|l IHl b kv hg r IHr]; intros par; simpl; [set_solver|].
  intros (Hb & Hl & Hr) Ha Hnd.
  apply elem_of_app in Ha as [Ha|Ha].
  { destruct (IHl _ Hl Ha Hnd) as (H1 & H2). split; intros x Hx.
    - destruct (H1 x Hx) as (? & ?). split; [set_solver|done].
    - destruct (H2 x Hx) as (? & ?). split; [set_solver|done]. }
  apply elem_of_cons in Ha as [->|Ha].
  2: { destruct (IHr _ Hr Ha Hnd) as (H1 & H2). split; intros x Hx.
       - destruct (H1 x Hx) as (? & ?). split; [set_solver|done].
       - destruct (H2 x Hx) as (? & ?). split; [set_solver|done]. }
  rewrite Hb in Hnd. injection Hnd as <-. simpl. split; intros x Hx.
  - destruct l as [|ll x' kv' hg' lr]; [done|]. simpl in Hx. injection Hx as ->.
    destruct Hl as (Hx & _). split; [set_solver|eauto].
  - destruct r as [|rl x' kv' hg' rr]; [done|]. simpl in Hx. injection Hx as ->.
    destruct Hr as (Hx & _). split; [set_solver|eauto].
Qed.

(** X20. Below the root of every live map the links are consistent: the
    root node has no parent, a node's [left] and [right] children are nodes
    of the same tree, and each has that node as its [parent]. *)
Theorem parent_links_are_consistent cl m mp :
  reachable cl → maps (heap cl) !! m = Some mp →
  ∃ t, rep (nodes (heap cl)) None t ∧ root_ptr t = root mp ∧
       (∀ a nd, root mp = Some a → nodes (heap cl) !! a = Some nd → parent nd = None) ∧
       (∀ a nd, a ∈ addrs t → nodes (heap cl) !! a = Some nd →
          (∀ x, left nd = Some x →
                x ∈ addrs t ∧ ∃ nx, nodes (heap cl) !! x = Some nx ∧ parent nx = Some a) ∧
          (∀ x, right nd = Some x →
                x ∈ addrs t ∧ ∃ nx, nodes (heap cl) !! x = Some nx ∧ parent nx = Some a)).
Proof.
  intros Hreach Hm.
  destruct (reachable_inv _ _ _ Hreach) as (tr & Hmd & _).
  destruct (live_model _ _ _ _ Hmd Hm) as (t & Ht & Hroot & _).
  destruct (models_live _ _ _ _ Hmd Ht) as (_ & Hr & _).
  exists t. split_and!; [done|done| |].
  - intros a nd Ha Hnd. rewrite Hroot in Ha.
    destruct t as [|l b kv hg r]; [done|]. simpl in Ha. injection Ha as ->.
    destruct Hr as (Hb & _). rewrite Hb in Hnd. by injection Hnd as <-.
  - intros a nd Ha Hnd. by eapply rep_child_links.
Qed.

(** X21. The use of a cursor whose node has been deleted is not detected:
    [*], a write through [*], [++] and [--] all dereference the dangling
    pointer. *)
Theorem stale_cursor_use_is_undefined cl i it a v :
  reachable cl → issued cl !! i = Some it →
  nodePtr it = Some a → nodes (heap cl) !! a = None →
  it_deref it (heap cl) = Fault ∧ it_assign it v (heap cl) = Fault ∧
  it_incr it (heap cl) = Fault ∧ it_decr it (heap cl) = Fault.
Proof.
  intros Hreach Hi Hp Hdead.
  destruct (reachable_inv _ _ _ Hreach) as (tr & Hmd & Hcs & _).
  pose proof (Forall_lookup_1 _ _ _ _ Hcs Hi) as Hc. unfold cursor_ok in Hc.
  rewrite Hp in Hc. destruct Hc as (o & Ho & _).
  split_and!.
  - by eapply stale_deref.
  - by eapply stale_assign.
  - by eapply stale_incr.
  - by eapply stale_decr.
Qed.

Lemma div2_SS (n : nat) : (S (S n) / 2 = S (n / 2))%nat.
Proof. replace (S (S n)) with (n + 1 * 2)%nat by lia. rewrite Nat.div_add by lia. lia. Qed.

Lemma pow2_half_step (p q : nat) :
  (q ≤ p ≤ q + 1)%nat → (2 ^ (S p / 2) ≤ 2 ^ (p / 2) + 2 ^ (q / 2))%nat.
Proof.
  intros Hpq. destruct p as [|p'].
  - change (1 / 2)%nat with 0%nat. change (0 / 2)%nat with 0%nat.
    assert (1 ≤ 2 ^ (q / 2))%nat by (apply Nat.neq_0_lt_0, Nat.pow_nonzero; lia).
    change (2 ^ 0)%nat with 1%nat. lia.
  - rewrite div2_SS, Nat.pow_succ_r'.
    assert (2 ^ (p' / 2) ≤ 2 ^ (S p' / 2))%nat.
    { apply Nat.pow_le_mono_r; [lia|]. apply Nat.Div0.div_le_mono. lia. }
    assert (2 ^ (p' / 2) ≤ 2 ^ (q / 2))%nat.
    { apply Nat.pow_le_mono_r; [lia|]. apply Nat.Div0.div_le_mono. lia. }
    lia.
Qed.

Lemma balanced_size t : balanced t → (2 ^ (depth t / 2) ≤ length (addrs t) + 1)%nat.
Proof.
  induction t as [|l IHl a kv hg r IHr]; [simpl; lia|].
  cbn [balanced depth addrs]. intros (Hl & Hr & _ & Hb).
  specialize (IHl Hl). specialize (IHr Hr).
  rewrite length_app. cbn [length].
  destruct (Nat.max_spec (depth l) (depth r)) as [(Hlt & ->)|(Hle & ->)].
  - pose proof (pow2_half_step (depth r) (depth l) ltac:(lia)). lia.
  - pose proof (pow2_half_step (depth l) (depth r) ltac:(lia)). lia.
Qed.

(** X22. The tree of a live map with [n] nodes has a height [d] with
    [2^(d/2) <= n + 1], and the search loop of [findNode] makes at most [d]
    steps: run with any bound above [d] it returns what [findNode] returns. *)
Theorem search_depth_is_logarithmic cl m mp :
  reachable cl → maps (heap cl) !! m = Some mp →
  ∃ t, rep (nodes (heap cl)) None t ∧ root_ptr t = root mp ∧
       (2 ^ (depth t / 2) ≤ Z.to_nat (nodeCount mp) + 1)%nat ∧
       ∀ key fuel, (depth t < fuel)%nat →
         findNode_loop cmp fuel key (root mp) (heap cl) = findNode cmp m key (heap cl).
Proof.
  intros Hreach Hm.
  destruct (reachable_inv _ _ _ Hreach) as (tr & Hmd & _).
  destruct (live_model _ _ _ _ Hmd Hm) as (t & Ht & Hroot & Hcount).
  destruct (models_live _ _ _ _ Hmd Ht) as (_ & Hr & _).
  exists t. split_and!; [done|done| |].
  - rewrite Hcount, Nat2Z.id. apply balanced_size, avl_balanced. by eapply models_avl.
  - intros key fuel Hf. rewrite (findNode_ok _ _ _ _ _ key Hmd Ht), Hroot.
    destruct (heap cl) as [h nx av ms] eqn:Hw. simpl in *.
    apply wp_run. by eapply wp_findNode_loop.
Qed.

Lemma avl_heights h par t a nd :
  rep h par t → avl t → a ∈ addrs t → h !! a = Some nd →
  1 ≤ height nd ≤ Z.of_nat (depth t).
Proof.
  revert par. induction t as [|l IHl b kv hg r IHr]; intros par; simpl; [set_solver|].
  intros (Hb & Hl & Hr) (Al & Ar & Hh & _) Ha Hnd.
  apply elem_of_app in Ha as [Ha|Ha].
  { specialize (IHl _ Hl Al Ha Hnd). lia. }
  apply elem_of_cons in Ha as [->|Ha].
  - rewrite Hb in Hnd. injection Hnd as <-. simpl.
    rewrite (avl_depth _ Al), (avl_depth _ Ar) in Hh. lia.
  - specialize (IHr _ Hr Ar Ha Hnd). lia.
Qed.

Lemma depth_bound t :
  balanced t → Z.of_nat (length (addrs t)) < size_max → (depth t ≤ 129)%nat.
Proof.
  intros Hb Hn. pose proof (balanced_size t Hb) as Hsz.
  apply Nat2Z.inj_le in Hsz. rewrite Nat2Z.inj_add, Nat2Z.inj_pow in Hsz.
  destruct (decide (depth t ≤ 129)%nat) as [|Hbig]; [done|exfalso].
  assert (H65 : 65 ≤ Z.of_nat (depth t / 2)).
  { pose proof (Nat.Div0.div_le_mono 130 (depth t) 2 ltac:(lia)) as Hd.
    change (130 / 2)%nat with 65%nat in Hd. lia. }
  pose proof (Z.pow_le_mono_r 2 65 (Z.of_nat (depth t / 2)) ltac:(lia) H65) as Hp.
  unfold size_max in Hn. change (Z.of_nat 2) with 2 in Hsz. change (Z.of_nat 1) with 1 in Hsz.
  lia.
Qed.

(** X25. The cached heights of a live map fit the [int] they are stored in:
    in a reachable state every node of the tree of a live map caches a height
    between 1 and 129. *)
Theorem live_heights_are_ints cl m mp :
  reachable cl → maps (heap cl) !! m = Some mp →
  ∃ t, rep (nodes (heap cl)) None t ∧ root_ptr t = root mp ∧
       ∀ a nd, a ∈ addrs t → nodes (heap cl) !! a = Some nd →
               1 ≤ height nd ≤ 129 ∧ is_int (height nd).
Proof.
  intros Hreach Hm.
  destruct (reachable_inv _ _ _ Hreach) as (tr & Hmd & _).
  destruct (live_model _ _ _ _ Hmd Hm) as (t & Ht & Hroot & Hcount).
  pose proof (models_live _ _ _ _ Hmd Ht) as Hlive.
  pose proof Hlive as (_ & Hr & _).
  pose proof (models_avl _ _ _ _ Hmd Ht) as Havl.
  exists t. split_and!; [done|done|].
  intros a nd Ha Hnd.
  pose proof (avl_heights _ _ _ _ _ Hr Havl Ha Hnd) as Hh.
  assert (Hd : (depth t ≤ 129)%nat).
  { apply depth_bound; [by apply avl_balanced|].
    pose proof (live_tree_size _ _ _ Hlive). pose proof (md_size _ _ Hmd). lia. }
  unfold is_int, int_min, int_max. lia.
Qed.

(** X24. [begin() == end()] exactly when the map is empty. *)
Theorem begin_equals_end_iff_empty cl m es :
  reachable cl → traverse m (heap cl) = Ok es (heap cl) →
  ∃ b e, begin_ m (heap cl) = Ok b (heap cl) ∧ end_ m (heap cl) = Ok e (heap cl) ∧
         (it_eq b e = true ↔ es = []).
Proof.
  intros Hreach Htrav.
  destruct (walk_model _ _ _ _ _ Hreach Htrav) as (tr & t & (Hmd & _) & Ht & ->).
  rewrite (begin_ok _ _ _ _ Hmd Ht), (end_ok _ _ _ _ Hmd Ht).
  eexists _, _. split_and!; [done|done|].
  unfold it_eq. simpl. rewrite bool_decide_eq_true_2 by done. simpl.
  rewrite bool_decide_eq_true.
  rewrite <- items_addrs, <- items_entries.
  destruct (items t) as [|[a kv] rest]; simpl; split; done.
Qed.

End Shape.

(** * Calls that meet their preconditions *)
Section ProgressFacts.
Context {K V : Type}.
Variable cmp : K → K → bool.
Variable default_value : V.
Implicit Types (w : @world K V) (tr : gmap positive (@tree K V)).
Implicit Types (t l r : @tree K V) (cl : @client K V) (it : @iterator).
Local Abbreviation reachable := (reachable cmp default_value).
Local Abbreviation step := (step cmp default_value).

Lemma settle_defined {A} (o : outcome (@world K V) A) log f :
  defined o → is_Some (settle o log f).
Proof. destruct o; simpl; eauto; done. Qed.

Lemma live_tr tr w m : models tr w → live_map w m → ∃ t, tr !! m = Some t.
Proof.
  intros Hmd [mp Hm]. destruct (live_model _ _ _ _ Hmd Hm) as (t & Ht & _). eauto.
Qed.

Lemma dead_tr tr w m : models tr w → maps w !! m = None → tr !! m = None.
Proof.
  intros Hmd Hm. destruct (tr !! m) as [t|] eqn:Ht; [|done].
  destruct (models_live _ _ _ _ Hmd Ht) as (Hm' & _). congruence.
Qed.

Lemma usable_valid tr w it a :
  cursor_ok tr w it → usable w it → nodePtr it = Some a →
  ∃ o t, owner it = Some o ∧ tr !! o = Some t ∧ a ∈ addrs t.
Proof.
  intros Hc Hu Hp. unfold cursor_ok in Hc. rewrite Hp in Hc.
  destruct Hc as (o & Ho & [(Hdead & _)|(t & Ht & Ha)]); [|eauto].
  destruct (Hu a Hp) as [nd Hnd]. congruence.
Qed.

Lemma defined_findNode_at tr w m t key :
  models tr w → tr !! m = Some t → defined (at_ cmp m key w).
Proof.
  intros Hmd Ht. destruct (models_live _ _ _ _ Hmd Ht) as (_ & _ & Hn).
  destruct (find_t cmp key t) as [a|] eqn:Hf.
  - destruct (find_t_in cmp _ _ _ Hn Hf) as (_ & kv & Hl & _).
    by rewrite (at_ok cmp tr w m t key a kv Hmd Ht Hf Hl).
  - by rewrite (at_missing cmp tr w m t key Hmd Ht Hf).
Qed.

Lemma defined_at_assign tr w m t key v :
  models tr w → tr !! m = Some t → defined (at_assign cmp m key v w).
Proof.
  intros Hmd Ht. destruct (find_t cmp key t) as [a|] eqn:Hf.
  - destruct (at_assign_ok cmp tr w m t key a v Hmd Ht Hf) as (w' & -> & _). done.
  - by rewrite (at_assign_missing cmp tr w m t key v Hmd Ht Hf).
Qed.

Lemma defined_index tr w m t key :
  models tr w → tr !! m = Some t → defined (index cmp default_value m key w).
Proof.
  intros Hmd Ht. destruct (models_live _ _ _ _ Hmd Ht) as (_ & _ & Hn).
  destruct (find_t cmp key t) as [a|] eqn:Hf.
  - destruct (find_t_in cmp _ _ _ Hn Hf) as (_ & kv & Hl & _).
    by rewrite (index_present cmp default_value tr w m t key a kv Hmd Ht Hf Hl).
  - destruct (find_t_None_descend cmp key t Hf) as (c & Hd).
    destruct (avail w) as [|k] eqn:Hav.
    + by rewrite (index_bad_alloc cmp default_value tr w m t key c Hmd Ht Hd Hav).
    + destruct (index_absent cmp default_value tr w m t key c Hmd Ht Hd ltac:(lia))
        as (t' & w' & -> & _). done.
Qed.

Lemma defined_index_assign tr w m t key v :
  models tr w → tr !! m = Some t → defined (index_assign cmp default_value m key v w).
Proof.
  intros Hmd Ht. destruct (find_t cmp key t) as [a|] eqn:Hf.
  - destruct (index_assign_present cmp default_value tr w m t key a v Hmd Ht Hf)
      as (w' & -> & _). done.
  - destruct (find_t_None_descend cmp key t Hf) as (c & Hd).
    destruct (avail w) as [|k] eqn:Hav.
    + by rewrite (index_assign_bad_alloc cmp default_value tr w m t key v c Hmd Ht Hd Hav).
    + destruct (index_assign_absent cmp default_value tr w m t key v c Hmd Ht Hd ltac:(lia))
        as (t' & w' & -> & _). done.
Qed.

Lemma defined_insert tr w m t v :
  models tr w → tr !! m = Some t → defined (insert cmp m v w).
Proof.
  intros Hmd Ht. destruct (descend_t cmp v.1 t []) as [b|c] eqn:Hd.
  - by rewrite (insert_found cmp tr w m t v b Hmd Ht Hd).
  - destruct (avail w) as [|k] eqn:Hav.
    + by rewrite (insert_bad_alloc cmp tr w m t v c Hmd Ht Hd Hav).
    + destruct (insert_fresh cmp tr w m t v c Hmd Ht Hd ltac:(lia)) as (t' & w' & -> & _).
      done.
Qed.

Lemma defined_erase tr w m pos :
  models tr w → cursor_ok tr w pos → usable w pos → defined (erase m pos w).
Proof.
  intros Hmd Hc Hu. destruct (decide (owner pos = Some m)) as [Ho|Ho].
  2: { by rewrite (erase_foreign _ _ _ Ho). }
  destruct (nodePtr pos) as [a|] eqn:Hp.
  2: { by rewrite (erase_end _ _ _ Hp). }
  destruct (usable_valid _ _ _ _ Hc Hu Hp) as (o & t & Ho' & Ht & Ha).
  rewrite Ho in Ho'. injection Ho' as <-.
  destruct (erase_ok _ _ _ _ _ _ Hmd Ht Ho Hp Ha) as (t' & w' & -> & _). done.
Qed.

Lemma defined_copy_ctor tr w m other t :
  models tr w → tr !! m = None → tr !! other = Some t →
  defined (map_copy_ctor m other w).
Proof.
  intros Hmd Htm Ht. destruct (decide (length (addrs t) ≤ avail w)%nat) as [Hle|Hgt].
  - destruct (copy_ctor_ok _ _ _ _ _ Hmd Htm Ht Hle) as (t' & w' & -> & _). done.
  - destruct (copy_ctor_bad_alloc _ _ _ _ _ Hmd Htm Ht ltac:(lia)) as (w' & -> & _). done.
Qed.

Lemma defined_assign tr w m other t0 t :
  models tr w → tr !! m = Some t0 → tr !! other = Some t →
  defined (map_assign m other w).
Proof.
  intros Hmd Htm Ht. destruct (decide (m = other)) as [->|Hne].
  { by rewrite assign_self. }
  destruct (decide (length (addrs t) ≤ avail w)%nat) as [Hle|Hgt].
  - destruct (assign_ok _ _ _ _ _ _ Hmd Htm Ht Hne Hle) as (t' & w' & -> & _). done.
  - destruct (assign_bad_alloc _ _ _ _ _ _ Hmd Htm Ht Hne ltac:(lia)) as (w' & -> & _). done.
Qed.

Lemma defined_deref tr w it :
  models tr w → cursor_ok tr w it → usable w it → defined (it_deref it w).
Proof.
  intros Hmd Hc Hu. destruct (nodePtr it) as [a|] eqn:Hp.
  2: { by rewrite (deref_none _ _ Hp). }
  destruct (usable_valid _ _ _ _ Hc Hu Hp) as (o & t & Ho & Ht & Ha).
  destruct (lookup_t_in _ _ Ha) as (kv & Hl).
  by rewrite (deref_ok tr w it o a t kv Hmd Hp Ht Hl).
Qed.

Lemma defined_it_assign tr w it v :
  models tr w → cursor_ok tr w it → usable w it → defined (it_assign it v w).
Proof.
  intros Hmd Hc Hu. destruct (nodePtr it) as [a|] eqn:Hp.
  2: { by rewrite (it_assign_none _ _ _ Hp). }
  destruct (usable_valid _ _ _ _ Hc Hu Hp) as (o & t & Ho & Ht & Ha).
  destruct (it_assign_ok tr w it o a t v Hmd Hp Ht Ha) as (w' & -> & _). done.
Qed.

Lemma defined_incr tr w it :
  models tr w → cursor_ok tr w it → usable w it → defined (it_incr it w).
Proof.
  intros Hmd Hc Hu. destruct (nodePtr it) as [a|] eqn:Hp.
  2: { by rewrite (incr_end _ _ Hp). }
  destruct (usable_valid _ _ _ _ Hc Hu Hp) as (o & t & Ho & Ht & Ha).
  by rewrite (incr_ok tr w it o a t Hmd Ho Hp Ht Ha).
Qed.

Lemma defined_decr tr w it :
  models tr w → cursor_ok tr w it → usable w it →
  (∀ o, owner it = Some o → live_map w o) → defined (it_decr it w).
Proof.
  intros Hmd Hc Hu Hlive. destruct (owner it) as [o|] eqn:Ho.
  2: { by rewrite (decr_ownerless _ _ Ho). }
  destruct (nodePtr it) as [a|] eqn:Hp.
  - destruct (usable_valid _ _ _ _ Hc Hu Hp) as (o' & t & Ho' & Ht & Ha).
    rewrite Ho in Ho'. injection Ho' as <-.
    rewrite (decr_ok tr w it o a t Hmd Ho Hp Ht Ha).
    by destruct (prev_in (addrs t) a).
  - destruct (live_tr _ _ _ Hmd (Hlive o eq_refl)) as (t & Ht).
    rewrite (decr_end tr w it o t Hmd Ho Hp Ht).
    by destruct (last (addrs t)).
Qed.

Lemma defined_both it (m : @M K V iterator) w :
  defined (m w) → defined (bind m (λ it', ret (it, it')) w).
Proof. unfold bind. by destruct (m w). Qed.

(** X23. A call that meets its preconditions, made in a reachable state,
    returns or throws: no loop runs past its bound and no null or dangling
    pointer is dereferenced. *)
Theorem well_formed_calls_are_defined cl c :
  reachable cl → call_ok c cl → is_Some (step c cl).
Proof.
  intros Hreach Hok. destruct (reachable_inv _ _ _ Hreach) as (tr & Hmd & Hcs & _).
  assert (Hcur : ∀ i it, issued cl !! i = Some it → cursor_ok tr (heap cl) it).
  { intros i it Hi. eapply Forall_lookup_1; eauto. }
  destruct c; simpl in Hok; simpl.
  - apply settle_defined. pose proof (dead_tr _ _ _ Hmd Hok) as Ht.
    destruct (ctor_ok _ _ _ Hmd Ht) as (w' & -> & _). done.
  - destruct Hok as (Hm & Ho). apply settle_defined.
    destruct (live_tr _ _ _ Hmd Ho) as (t & Ht).
    eapply defined_copy_ctor; [done|by eapply dead_tr|done].
  - destruct Hok as (Hm & Ho). apply settle_defined.
    destruct (live_tr _ _ _ Hmd Hm) as (t0 & Ht0). destruct (live_tr _ _ _ Hmd Ho) as (t & Ht).
    by eapply defined_assign.
  - apply settle_defined. destruct (live_tr _ _ _ Hmd Hok) as (t & Ht).
    destruct (dtor_ok _ _ _ _ Hmd Ht) as (w' & -> & _). done.
  - apply settle_defined. destruct (live_tr _ _ _ Hmd Hok) as (t & Ht).
    by eapply defined_findNode_at.
  - apply settle_defined. destruct (live_tr _ _ _ Hmd Hok) as (t & Ht).
    by eapply defined_at_assign.
  - apply settle_defined. destruct (live_tr _ _ _ Hmd Hok) as (t & Ht).
    by eapply defined_index.
  - apply settle_defined. destruct (live_tr _ _ _ Hmd Hok) as (t & Ht).
    by eapply defined_index_assign.
  - apply settle_defined. destruct (live_tr _ _ _ Hmd Hok) as (t & Ht).
    by eapply defined_findNode_at.
  - apply settle_defined. destruct (live_tr _ _ _ Hmd Hok) as (t & Ht).
    by rewrite (begin_ok _ _ _ _ Hmd Ht).
  - apply settle_defined. destruct (live_tr _ _ _ Hmd Hok) as (t & Ht).
    by rewrite (end_ok _ _ _ _ Hmd Ht).
  - apply settle_defined. destruct (live_tr _ _ _ Hmd Hok) as (t & Ht).
    by rewrite (empty_ok _ _ _ _ Hmd Ht).
  - apply settle_defined. destruct (live_tr _ _ _ Hmd Hok) as (t & Ht).
    by rewrite (size_ok _ _ _ _ Hmd Ht).
  - apply settle_defined. destruct (live_tr _ _ _ Hmd Hok) as (t & Ht).
    destruct (clear_ok _ _ _ _ Hmd Ht) as (w' & -> & _). done.
  - apply settle_defined. destruct (live_tr _ _ _ Hmd Hok) as (t & Ht).
    by eapply defined_insert.
  - destruct Hok as (Hm & it & Hi & Hu). rewrite Hi. apply settle_defined.
    eapply defined_erase; [done|by eapply Hcur|done].
  - apply settle_defined. destruct (live_tr _ _ _ Hmd Hok) as (t & Ht).
    by rewrite (count_ok cmp _ _ _ _ key Hmd Ht).
  - apply settle_defined. destruct (live_tr _ _ _ Hmd Hok) as (t & Ht).
    by rewrite (find_ok cmp _ _ _ _ key Hmd Ht).
  - eauto.
  - destruct Hok as (it & Hi & Hu). rewrite Hi. apply settle_defined.
    eapply defined_deref; [done|by eapply Hcur|done].
  - destruct Hok as (it & Hi & Hu). rewrite Hi. apply settle_defined.
    eapply defined_it_assign; [done|by eapply Hcur|done].
  - destruct Hok as (it & Hi & Hu). rewrite Hi. apply settle_defined.
    eapply defined_incr; [done|by eapply Hcur|done].
  - destruct Hok as (it & Hi & Hu). rewrite Hi. apply settle_defined.
    apply defined_both. eapply defined_incr; [done|by eapply Hcur|done].
  - destruct Hok as (it & Hi & Hu & Hl). rewrite Hi. apply settle_defined.
    eapply defined_decr; [done|by eapply Hcur|done|done].
  - destruct Hok as (it & Hi & Hu & Hl). rewrite Hi. apply settle_defined.
    apply defined_both. eapply defined_decr; [done|by eapply Hcur|done|done].
Qed.

End ProgressFacts.

(** * A map from integers to integers under [<] *)
Module IntMap.
Import Sessions.

Lemma ltb_transitive : cmp_transitive Z.ltb.
Proof. intros x y z H1%Z.ltb_lt H2%Z.ltb_lt. apply Z.ltb_lt. lia. Qed.

Lemma ltb_strict_weak : strict_weak Z.ltb.
Proof.
  split.
  - intros a. apply Z.ltb_irrefl.
  - apply ltb_transitive.
  - intros x y z. unfold keyEq. rewrite !andb_true_iff, !negb_true_iff, !Z.ltb_ge. lia.
Qed.

Lemma after_reachable p av :
  Z.of_nat av < size_max → is_Some (run Z.ltb 0 p (initial av)) →
  reachable Z.ltb 0 (after p av).
Proof.
  intros Hav [cl Hcl]. exists av, p. split; [done|]. unfold after. by rewrite Hcl.
Qed.

Lemma busy_reachable : reachable Z.ltb 0 busy.
Proof. apply after_reachable; [done|]. vm_compute. eauto. Qed.

Lemma busy_walk : traverse 1 (heap busy) = Ok [(1, 10); (3, 30); (4, 40); (5, 50)] (heap busy).
Proof. vm_compute. reflexivity. Qed.

(** C1 at work: the sixth insertion rotates below the root of map 1. *)
Lemma avl_balance_witness :
  ∃ t, rep (nodes (heap (after (session ++ [CallInsert 1 (6, 60)]) 20))) None t ∧
       root_ptr t = Some 3%positive ∧ balanced t.
Proof.
  apply (avl_balance_after_every_call Z.ltb 0 busy (CallInsert 1 (6, 60))
           (after (session ++ [CallInsert 1 (6, 60)]) 20) 1%positive
           (mkMap (Some 3%positive) 5)).
  - exact busy_reachable.
  - vm_compute. reflexivity.
  - vm_compute. reflexivity.
Defined.

(** C2 at work on map 2, the copy that was written to. *)
Lemma traversal_witness :
  ∃ t, rep (nodes (heap busy)) None t ∧ root_ptr t = Some 6%positive ∧
       bst Z.ltb t ∧ traverse 2 (heap busy) = Ok (entries t) (heap busy) ∧
       StronglySorted (lt Z.ltb) (entries t).*1.
Proof.
  apply (traversal_strictly_increasing Z.ltb 0 busy 2%positive
           (mkMap (Some 6%positive) 5) ltb_transitive busy_reachable).
  vm_compute. reflexivity.
Defined.

(** C3 at work: key 3 is stored in map 1, key 2 no longer is. *)
Lemma insert_witness :
  (∃ a kv, insert Z.ltb 1 (3, 99) (heap busy)
             = Ok (mkIt (Some a) (Some 1%positive), false) (heap busy) ∧
           it_deref (mkIt (Some a) (Some 1%positive)) (heap busy) = Ok kv (heap busy) ∧
           kv ∈ [(1, 10); (3, 30); (4, 40); (5, 50)] ∧ keyEq Z.ltb 3 kv.1 = true) ∧
  (∃ a w' es1 es2,
     insert Z.ltb 1 (2, 99) (heap busy) = Ok (mkIt (Some a) (Some 1%positive), true) w' ∧
     it_deref (mkIt (Some a) (Some 1%positive)) w' = Ok (2, 99) w' ∧
     [(1, 10); (3, 30); (4, 40); (5, 50)] = es1 ++ es2 ∧
     traverse 1 w' = Ok (es1 ++ (2, 99) :: es2) w' ∧
     size_ 1 (heap busy) = Ok 4 (heap busy) ∧
     size_ 1 w' = Ok 5 w').
Proof.
  split.
  - apply (insert_existing_or_new Z.ltb 0 busy 1%positive (3, 99) _
             ltb_transitive busy_reachable busy_walk).
    exists (3, 30). split; [|reflexivity]. apply list_elem_of_In. simpl. auto.
  - apply (insert_existing_or_new Z.ltb 0 busy 1%positive (2, 99) _
             ltb_transitive busy_reachable busy_walk).
    + intros kv Hin. apply list_elem_of_In in Hin. simpl in Hin.
      destruct Hin as [<-|[<-|[<-|[<-|[]]]]]; reflexivity.
    + vm_compute. lia.
Defined.

(** C4 at work: cursor 3 of the session refers to the node of key 4. *)
Lemma erase_witness :
  ∃ es1 kv es2 w',
    traverse 1 (heap busy) = Ok (es1 ++ kv :: es2) (heap busy) ∧
    it_deref (mkIt (Some 4%positive) (Some 1%positive)) (heap busy) = Ok kv (heap busy) ∧
    erase 1 (mkIt (Some 4%positive) (Some 1%positive)) (heap busy) = Ok tt w' ∧
    traverse 1 w' = Ok (es1 ++ es2) w' ∧
    size_ 1 (heap busy) = Ok (Z.of_nat (length (es1 ++ kv :: es2))) (heap busy) ∧
    size_ 1 w' = Ok (Z.of_nat (length (es1 ++ es2))) w' ∧
    dom (nodes w') = dom (nodes (heap busy)) ∖ {[4%positive]}.
Proof.
  apply (erase_rejects_end_and_foreign Z.ltb 0 busy 1%positive 3%nat
           (mkIt (Some 4%positive) (Some 1%positive)) busy_reachable).
  - vm_compute. reflexivity.
  - reflexivity.
  - reflexivity.
  - vm_compute. eauto.
Defined.

(** C4 as stated fails: [erase] through a stale cursor throws nothing. *)
Lemma erase_stale_cursor_counterexample :
  reachable Z.ltb 0 twice ∧
  issued twice !! 0%nat = Some (mkIt (Some 1%positive) (Some 1%positive)) ∧
  nodes (heap twice) !! 1%positive = None ∧
  erase 1 (mkIt (Some 1%positive) (Some 1%positive)) (heap twice) = Fault ∧
  erase 1 (mkIt (Some 1%positive) (Some 1%positive)) (heap twice)
    ≠ Throw invalid_iterator (heap twice).
Proof.
  split_and!.
  - apply after_reachable; [done|]. vm_compute. eauto.
  - vm_compute. reflexivity.
  - vm_compute. reflexivity.
  - vm_compute. reflexivity.
  - vm_compute. discriminate.
Qed.

Lemma spent_reachable : reachable Z.ltb 0 spent.
Proof. apply after_reachable; [done|]. vm_compute. eauto. Qed.

(** C5 at work. *)
Lemma assign_witness :
  match map_assign 1 2 (heap spent) with
  | Ok _ w' => traverse 1 w' = Ok [(7, 70); (8, 80)] w' ∧
               traverse 2 w' = Ok [(7, 70); (8, 80)] w'
  | Throw e w' =>
      e = bad_alloc ∧ (avail (heap spent) < length [(7, 70); (8, 80)])%nat ∧
      traverse 1 w' = Ok [] w' ∧ size_ 1 w' = Ok 0 w' ∧
      traverse 2 w' = Ok [(7, 70); (8, 80)] w'
  | Fault => False
  | Diverge => False
  end.
Proof.
  apply (assign_clears_then_clones Z.ltb 0 spent 1%positive 2%positive [(1, 10)]
           [(7, 70); (8, 80)] spent_reachable).
  - done.
  - vm_compute. reflexivity.
  - vm_compute. reflexivity.
Defined.

(** C5 as stated fails: the clone fails and the receiver has lost its entry. *)
Lemma assign_loses_contents_counterexample :
  reachable Z.ltb 0 spent ∧
  traverse 1 (heap spent) = Ok [(1, 10)] (heap spent) ∧
  map_assign 1 2 (heap spent) = Throw bad_alloc failed ∧
  traverse 1 failed = Ok [] failed.
Proof.
  split_and!.
  - exact spent_reachable.
  - vm_compute. reflexivity.
  - vm_compute. reflexivity.
  - vm_compute. reflexivity.
Qed.

(** C6 at work on map 1. *)
Lemma cursor_moves_witness :
  ∃ b e,
    begin_ 1 (heap busy) = Ok b (heap busy) ∧ end_ 1 (heap busy) = Ok e (heap busy) ∧
    it_incr e (heap busy) = Throw invalid_iterator (heap busy) ∧
    it_decr b (heap busy) = Throw invalid_iterator (heap busy) ∧
    (∃ e', it_decr e (heap busy) = Ok e' (heap busy) ∧
           it_deref e' (heap busy) = Ok (5, 50) (heap busy)) ∧
    (∀ x, x ∈ [(1, 10); (3, 30); (4, 40); (5, 50)] → x = (5, 50) ∨ (x.1 <? 5) = true).
Proof.
  exact (cursor_moves_at_the_ends Z.ltb 0 busy 1%positive _
           ltb_transitive busy_reachable busy_walk).
Defined.

(** C7 at work: key 4 is stored in map 1, key 9 is not. *)
Lemma lookup_witness :
  (at_ Z.ltb 1 4 (heap busy) = Ok 40 (heap busy) ∧
   index Z.ltb 0 1 4 (heap busy) = Ok 40 (heap busy) ∧
   index_const Z.ltb 1 4 (heap busy) = Ok 40 (heap busy)) ∧
  (at_ Z.ltb 1 9 (heap busy) = Throw index_out_of_bound (heap busy) ∧
   index_const Z.ltb 1 9 (heap busy) = Throw index_out_of_bound (heap busy) ∧
   ((0 < avail (heap busy))%nat →
    ∃ es1 es2 w',
      [(1, 10); (3, 30); (4, 40); (5, 50)] = es1 ++ es2 ∧
      index Z.ltb 0 1 9 (heap busy) = Ok 0 w' ∧
      traverse 1 w' = Ok (es1 ++ (9, 0) :: es2) w' ∧
      size_ 1 w' = Ok (Z.of_nat (length [(1, 10); (3, 30); (4, 40); (5, 50)]) + 1) w')).
Proof.
  split.
  - apply (proj1 (lookup_by_key Z.ltb 0 busy 1%positive _ 4
                    ltb_strict_weak busy_reachable busy_walk) (4, 40)).
    + apply list_elem_of_In. simpl. auto.
    + reflexivity.
  - apply (proj2 (lookup_by_key Z.ltb 0 busy 1%positive _ 9
                    ltb_strict_weak busy_reachable busy_walk)).
    intros kv Hin. apply list_elem_of_In in Hin. simpl in Hin.
    destruct Hin as [<-|[<-|[<-|[<-|[]]]]]; reflexivity.
Defined.

(** C8 at work: a third map is copy-constructed from map 1, map 2 is
    assigned from map 1, and clearing map 1 leaves map 2 what it was. *)
Lemma copies_witness :
  (∃ w', map_copy_ctor 3 1 (heap busy) = Ok tt w' ∧
         traverse 3 w' = Ok [(1, 10); (3, 30); (4, 40); (5, 50)] w' ∧
         traverse 1 w' = Ok [(1, 10); (3, 30); (4, 40); (5, 50)] w') ∧
  (∃ w', map_assign 2 1 (heap busy) = Ok tt w' ∧
         traverse 2 w' = Ok [(1, 10); (3, 30); (4, 40); (5, 50)] w' ∧
         traverse 1 w' = Ok [(1, 10); (3, 30); (4, 40); (5, 50)] w') ∧
  traverse 2 (heap (after (session ++ [CallClear 1]) 20))
    = Ok [(1, 10); (3, 30); (4, 40); (5, 50); (7, 70)]
         (heap (after (session ++ [CallClear 1]) 20)).
Proof.
  pose proof (copies_are_deep_and_independent Z.ltb 0 busy busy_reachable)
    as (Hcopy & Hassign & Hframe).
  split_and!.
  - apply (Hcopy 3%positive 1%positive _ busy_walk).
    + vm_compute. reflexivity.
    + vm_compute. lia.
  - apply (Hassign 2%positive 1%positive _ busy_walk).
    + vm_compute. eauto.
    + vm_compute. lia.
  - apply (Hframe (CallClear 1) (after (session ++ [CallClear 1]) 20) 2%positive).
    + vm_compute. reflexivity.
    + simpl. discriminate.
    + vm_compute. reflexivity.
Defined.

(** ** The further properties at work *)

(** X1 at work. *)
Lemma size_witness :
  size_ 1 (heap busy) = Ok 4 (heap busy) ∧ empty 1 (heap busy) = Ok false (heap busy).
Proof. exact (size_counts_the_walk Z.ltb 0 busy 1%positive _ busy_reachable busy_walk). Defined.

(** X2 at work: key 4 is stored in map 1, key 9 is not. *)
Lemma count_find_witness :
  (count Z.ltb 1 4 (heap busy) = Ok 1 (heap busy) ∧
   ∃ it, find Z.ltb 1 4 (heap busy) = Ok it (heap busy) ∧
         it_deref it (heap busy) = Ok (4, 40) (heap busy)) ∧
  (count Z.ltb 1 9 (heap busy) = Ok 0 (heap busy) ∧
   ∃ e, end_ 1 (heap busy) = Ok e (heap busy) ∧ find Z.ltb 1 9 (heap busy) = Ok e (heap busy)).
Proof.
  split.
  - apply (proj1 (count_and_find Z.ltb 0 busy 1%positive _ 4
                    ltb_strict_weak busy_reachable busy_walk) (4, 40)).
    + apply list_elem_of_In. simpl. auto.
    + reflexivity.
  - apply (proj2 (count_and_find Z.ltb 0 busy 1%positive _ 9
                    ltb_strict_weak busy_reachable busy_walk)).
    intros kv Hin. apply list_elem_of_In in Hin. simpl in Hin.
    destruct Hin as [<-|[<-|[<-|[<-|[]]]]]; reflexivity.
Defined.

(** X3 at work. *)
Lemma clear_witness :
  ∃ w', clear 1 (heap busy) = Ok tt w' ∧
        traverse 1 w' = Ok [] w' ∧ size_ 1 w' = Ok 0 w' ∧ empty 1 w' = Ok true w' ∧
        (size (nodes w') + 4 = size (nodes (heap busy)))%nat.
Proof. exact (clear_empties_and_frees Z.ltb 0 busy 1%positive _ busy_reachable busy_walk). Defined.

(** X4 at work. *)
Lemma destructor_witness :
  ∃ w', map_dtor 1 (heap busy) = Ok tt w' ∧
        maps w' = delete 1%positive (maps (heap busy)) ∧
        (size (nodes w') + 4 = size (nodes (heap busy)))%nat ∧
        size_ 1 w' = Fault ∧ traverse 1 w' = Fault.
Proof. exact (destructor_frees_the_map Z.ltb 0 busy 1%positive _ busy_reachable busy_walk). Defined.

(** X5 at work: no map lives at 3. *)
Lemma default_map_witness :
  ∃ w', map_ctor 3 (heap busy) = Ok tt w' ∧ nodes w' = nodes (heap busy) ∧
        traverse 3 w' = Ok [] w' ∧ size_ 3 w' = Ok 0 w' ∧ empty 3 w' = Ok true w' ∧
        begin_ 3 w' = Ok (mkIt None (Some 3%positive)) w' ∧
        end_ 3 w' = Ok (mkIt None (Some 3%positive)) w'.
Proof.
  apply (default_constructed_map_is_empty Z.ltb 0 busy 3%positive busy_reachable).
  vm_compute. reflexivity.
Defined.

(** X6 at work. *)
Lemma begin_witness :
  ∃ b, begin_ 1 (heap busy) = Ok b (heap busy) ∧
       it_deref b (heap busy) = Ok (1, 10) (heap busy) ∧
       ∀ x, x ∈ [(3, 30); (4, 40); (5, 50)] → (1 <? x.1) = true.
Proof.
  exact (begin_is_the_minimum Z.ltb 0 busy 1%positive _
           ltb_transitive busy_reachable busy_walk).
Defined.

(** X7 at work: cursor 5 of the session is [begin()] of map 1. *)
Lemma round_trip_witness :
  it_decr (mkIt (Some 3%positive) (Some 1%positive)) (heap busy)
    = Ok (mkIt (Some 1%positive) (Some 1%positive)) (heap busy) ∧
  it_incr (mkIt (Some 5%positive) (Some 1%positive)) (heap busy)
    = Ok (mkIt None (Some 1%positive)) (heap busy).
Proof.
  split.
  - apply (proj1 (increment_and_decrement_are_inverse Z.ltb 0 busy 5%nat
                    (mkIt (Some 1%positive) (Some 1%positive))
                    (mkIt (Some 3%positive) (Some 1%positive)) (heap busy)
                    busy_reachable ltac:(vm_compute; reflexivity))).
    + vm_compute. reflexivity.
    + done.
  - apply (proj2 (increment_and_decrement_are_inverse Z.ltb 0 busy 6%nat
                    (mkIt None (Some 1%positive))
                    (mkIt (Some 5%positive) (Some 1%positive)) (heap busy)
                    busy_reachable ltac:(vm_compute; reflexivity))).
    vm_compute. reflexivity.
Defined.

(** X8 at work. *)
Lemma find_after_insert_witness :
  find Z.ltb 1 2 grown = Ok (mkIt (Some 11%positive) (Some 1%positive)) grown ∧
  it_deref (mkIt (Some 11%positive) (Some 1%positive)) grown = Ok (2, 99) grown ∧
  at_ Z.ltb 1 2 grown = Ok 99 grown ∧ count Z.ltb 1 2 grown = Ok 1 grown.
Proof.
  apply (find_after_insert Z.ltb 0 busy 1%positive (2, 99) _ grown
           ltb_strict_weak busy_reachable).
  vm_compute. reflexivity.
Defined.

(** X9 at work. *)
Lemma erased_key_witness :
  count Z.ltb 1 4 shrunk = Ok 0 shrunk ∧
  at_ Z.ltb 1 4 shrunk = Throw index_out_of_bound shrunk ∧
  find Z.ltb 1 4 shrunk = Ok (mkIt None (Some 1%positive)) shrunk.
Proof.
  apply (key_is_gone_after_erase Z.ltb 0 busy 1%positive 3%nat
           (mkIt (Some 4%positive) (Some 1%positive)) (4, 40) shrunk
           ltb_transitive busy_reachable).
  - vm_compute. reflexivity.
  - vm_compute. reflexivity.
  - vm_compute. reflexivity.
Defined.

(** X10 at work: cursor 4 refers to key 5, the right child of the erased node. *)
Lemma erase_stability_witness :
  it_deref (mkIt (Some 5%positive) (Some 1%positive)) shrunk = Ok (5, 50) shrunk.
Proof.
  apply (erase_keeps_other_cursors Z.ltb 0 busy 1%positive 3%nat 4%nat
           (mkIt (Some 4%positive) (Some 1%positive))
           (mkIt (Some 5%positive) (Some 1%positive)) (5, 50) shrunk busy_reachable).
  - vm_compute. reflexivity.
  - vm_compute. reflexivity.
  - simpl. discriminate.
  - vm_compute. reflexivity.
  - vm_compute. reflexivity.
Defined.

(** X11 at work: cursor 3 refers to key 4, which the rotation moves down. *)
Lemma insert_stability_witness :
  it_deref (mkIt (Some 4%positive) (Some 1%positive)) rotated = Ok (4, 40) rotated.
Proof.
  apply (insert_keeps_cursors Z.ltb 0 busy 1%positive (6, 60) 3%nat
           (mkIt (Some 4%positive) (Some 1%positive)) (4, 40)
           (mkIt (Some 11%positive) (Some 1%positive), true) rotated busy_reachable).
  - vm_compute. reflexivity.
  - vm_compute. reflexivity.
  - vm_compute. reflexivity.
Defined.

(** X12 at work. *)
Lemma write_witness :
  at_ Z.ltb 1 4 written = Ok 44 written ∧
  ∃ es', traverse 1 written = Ok es' written ∧
         es'.*1 = [(1, 10); (3, 30); (4, 40); (5, 50)].*1 ∧
         ∀ kv, kv ∈ [(1, 10); (3, 30); (4, 40); (5, 50)] →
               keyEq Z.ltb 4 kv.1 = false → kv ∈ es'.
Proof.
  apply (write_through_at Z.ltb 0 busy 1%positive _ 4 44 written busy_reachable busy_walk).
  vm_compute. reflexivity.
Defined.

(** X13 at work: map 1 of [spent] holds key 1 only and nothing can be allocated. *)
Lemma failed_insert_witness :
  insert Z.ltb 1 (2, 20) (heap spent) = Throw bad_alloc (heap spent) ∧
  index Z.ltb 0 1 2 (heap spent) = Throw bad_alloc (heap spent).
Proof.
  apply (failed_insert_changes_nothing Z.ltb 0 spent 1%positive [(1, 10)] (2, 20)
           spent_reachable).
  - vm_compute. reflexivity.
  - intros kv Hin. apply list_elem_of_In in Hin. simpl in Hin.
    destruct Hin as [<-|[]]. reflexivity.
  - vm_compute. reflexivity.
Defined.

Lemma tight_reachable : reachable Z.ltb 0 tight.
Proof. apply after_reachable; [done|]. vm_compute. eauto. Qed.

(** X14 at work: the copy allocates one node, fails, and leaves it behind. *)
Lemma failed_copy_witness :
  ∃ w', map_copy_ctor 2 1 (heap tight) = Throw bad_alloc w' ∧
        maps w' = maps (heap tight) ∧
        traverse 1 w' = Ok [(1, 10); (2, 20); (3, 30)] w' ∧
        avail w' = O ∧
        size (nodes w') = (size (nodes (heap tight)) + avail (heap tight))%nat.
Proof.
  apply (failed_copy_leaks_its_nodes Z.ltb 0 tight 2%positive 1%positive _ tight_reachable).
  - vm_compute. reflexivity.
  - vm_compute. reflexivity.
  - vm_compute. lia.
Defined.

Lemma left_heavy_rep : rep (nodes left_heavy) None (plug above_left left_before).
Proof. simpl. split_and!; try done; vm_compute; reflexivity. Qed.

Lemma right_heavy_rep : rep (nodes right_heavy) None (plug above_right right_before).
Proof. simpl. split_and!; try done; vm_compute; reflexivity. Qed.

Lemma left_heavy_addresses : NoDup (addrs (plug above_left left_before)).
Proof. apply (bool_decide_unpack _). vm_compute. exact I. Qed.

Lemma right_heavy_addresses : NoDup (addrs (plug above_right right_before)).
Proof. apply (bool_decide_unpack _). vm_compute. exact I. Qed.

Lemma left_heavy_ints : int_store left_heavy.
Proof. unfold int_store, is_int. apply (bool_decide_unpack _). vm_compute. exact I. Qed.

Lemma right_heavy_ints : int_store right_heavy.
Proof. unfold int_store, is_int. apply (bool_decide_unpack _). vm_compute. exact I. Qed.

(** X16 at work below the root: [rotateLeft] at key 2, whose right child
    (key 4) has a left child (key 3) that moves across. *)
Lemma rotateLeft_witness :
  ∃ w', rotateLeft 1 2 left_heavy = Ok 5%positive w' ∧
        rep (nodes w') None (plug above_left left_after) ∧
        maps w' = <[1%positive := mkMap (Some 1%positive) 8]> (maps left_heavy) ∧
        items (plug above_left left_after) = items (plug above_left left_before) ∧
        dom (nodes w') = dom (nodes left_heavy) ∧
        next w' = next left_heavy ∧ avail w' = avail left_heavy ∧
        int_store w'.
Proof.
  apply (rotateLeft_relinks_in_order 1%positive above_left 8 (T E 4 (1, 10) 1 E)
           2%positive (2, 20) 3 (T E 7 (3, 30) 1 E) 5%positive (4, 40) 2
           (T E 8 (5, 50) 1 E) left_heavy).
  - vm_compute. reflexivity.
  - exact left_heavy_rep.
  - exact left_heavy_addresses.
  - exact left_heavy_ints.
  - vm_compute. reflexivity.
  - vm_compute. reflexivity.
Defined.

(** X17 at work below the root: [rotateRight] at key 8, whose left child
    (key 6) has a right child (key 7) that moves across. *)
Lemma rotateRight_witness :
  ∃ w', rotateRight 1 2 right_heavy = Ok 5%positive w' ∧
        rep (nodes w') None (plug above_right right_after) ∧
        maps w' = <[1%positive := mkMap (Some 1%positive) 8]> (maps right_heavy) ∧
        items (plug above_right right_after) = items (plug above_right right_before) ∧
        dom (nodes w') = dom (nodes right_heavy) ∧
        next w' = next right_heavy ∧ avail w' = avail right_heavy ∧
        int_store w'.
Proof.
  apply (rotateRight_relinks_in_order 1%positive above_right 8 (T E 7 (5, 50) 1 E)
           5%positive (6, 60) 2 (T E 8 (7, 70) 1 E) 2%positive (8, 80) 3
           (T E 4 (9, 90) 1 E) right_heavy).
  - vm_compute. reflexivity.
  - exact right_heavy_rep.
  - exact right_heavy_addresses.
  - exact right_heavy_ints.
  - vm_compute. reflexivity.
  - vm_compute. reflexivity.
Defined.

(** X18 at work below the root of [left_heavy]. *)
Lemma rotation_round_trip_witness :
  ∃ w1, rotateLeft 1 2 left_heavy = Ok 5%positive w1 ∧ int_store w1 ∧
        rotateRight 1 5 w1 = Ok 2%positive left_heavy.
Proof.
  apply (rotations_are_inverse 1%positive above_left 8 (T E 4 (1, 10) 1 E)
           2%positive (2, 20) 3 (T E 7 (3, 30) 1 E) 5%positive (4, 40) 2
           (T E 8 (5, 50) 1 E) left_heavy).
  - vm_compute. reflexivity.
  - exact left_heavy_rep.
  - exact left_heavy_addresses.
  - reflexivity.
  - reflexivity.
  - exact left_heavy_ints.
  - vm_compute. reflexivity.
Defined.

(** X19 at work: the first and the third entry of map 1. *)
Lemma unique_keys_witness :
  (1 <? 4) = true ∧ keyEq Z.ltb 1 4 = false ∧ keyEq Z.ltb 4 1 = false.
Proof.
  apply (keys_are_unique Z.ltb 0 busy 1%positive _ 0%nat 2%nat (1, 10) (4, 40)
           ltb_transitive busy_reachable busy_walk).
  - lia.
  - reflexivity.
  - reflexivity.
Defined.

(** X20 at work. *)
Lemma parent_links_witness :
  ∃ t, rep (nodes (heap busy)) None t ∧ root_ptr t = Some 3%positive ∧
       (∀ a nd, Some 3%positive = Some a → nodes (heap busy) !! a = Some nd →
                parent nd = None) ∧
       (∀ a nd, a ∈ addrs t → nodes (heap busy) !! a = Some nd →
          (∀ x, left nd = Some x →
                x ∈ addrs t ∧ ∃ nx, nodes (heap busy) !! x = Some nx ∧ parent nx = Some a) ∧
          (∀ x, right nd = Some x →
                x ∈ addrs t ∧ ∃ nx, nodes (heap busy) !! x = Some nx ∧ parent nx = Some a)).
Proof.
  apply (parent_links_are_consistent Z.ltb 0 busy 1%positive
           (mkMap (Some 3%positive) 4) busy_reachable).
  vm_compute. reflexivity.
Defined.

(** X21 at work on the cursor of [twice], whose node has been erased. *)
Lemma stale_use_witness :
  it_deref (mkIt (Some 1%positive) (Some 1%positive)) (heap twice) = Fault ∧
  it_assign (mkIt (Some 1%positive) (Some 1%positive)) 7 (heap twice) = Fault ∧
  it_incr (mkIt (Some 1%positive) (Some 1%positive)) (heap twice) = Fault ∧
  it_decr (mkIt (Some 1%positive) (Some 1%positive)) (heap twice) = Fault.
Proof.
  apply (stale_cursor_use_is_undefined Z.ltb 0 twice 0%nat
           (mkIt (Some 1%positive) (Some 1%positive)) 1%positive 7).
  - apply after_reachable; [done|]. vm_compute. eauto.
  - vm_compute. reflexivity.
  - reflexivity.
  - vm_compute. reflexivity.
Defined.

(** X22 at work. *)
Lemma search_depth_witness :
  ∃ t, rep (nodes (heap busy)) None t ∧ root_ptr t = Some 3%positive ∧
       (2 ^ (depth t / 2) ≤ 4 + 1)%nat ∧
       ∀ key fuel, (depth t < fuel)%nat →
         findNode_loop Z.ltb fuel key (Some 3%positive) (heap busy)
           = findNode Z.ltb 1 key (heap busy).
Proof.
  apply (search_depth_is_logarithmic Z.ltb 0 busy 1%positive
           (mkMap (Some 3%positive) 4) busy_reachable).
  vm_compute. reflexivity.
Defined.

(** X25 at work on map 1. *)
Lemma live_heights_witness :
  ∃ t, rep (nodes (heap busy)) None t ∧ root_ptr t = Some 3%positive ∧
       ∀ a nd, a ∈ addrs t → nodes (heap busy) !! a = Some nd →
               1 ≤ height nd ≤ 129 ∧ is_int (height nd).
Proof.
  apply (live_heights_are_ints Z.ltb 0 busy 1%positive
           (mkMap (Some 3%positive) 4) busy_reachable).
  vm_compute. reflexivity.
Defined.

(** X23 at work. *)
Lemma defined_call_witness :
  is_Some (step Z.ltb 0 (CallErase 1 3) busy).
Proof.
  apply (well_formed_calls_are_defined Z.ltb 0 busy (CallErase 1 3) busy_reachable).
  split.
  - vm_compute. eauto.
  - exists (mkIt (Some 4%positive) (Some 1%positive)). split; [vm_compute; reflexivity|].
    intros a [= <-]. vm_compute. eauto.
Defined.

(** X24 at work. *)
Lemma begin_end_witness :
  ∃ b e, begin_ 1 (heap busy) = Ok b (heap busy) ∧ end_ 1 (heap busy) = Ok e (heap busy) ∧
         (it_eq b e = true ↔ [(1, 10); (3, 30); (4, 40); (5, 50)] = []).
Proof.
  exact (begin_equals_end_iff_empty Z.ltb 0 busy 1%positive _ busy_reachable busy_walk).
Defined.

End IntMap.
